(** * Navigation simulation engine: grid world, sensors, A* search, exploration

    Shallow embedding of the Python sources
    [src/simulador_labirinto.py], [src/astar_labirinto.py],
    [src/explorador_simples.py] and [src/robo_resgate.py].

    Python objects become records threaded explicitly through the
    operations; a raised exception becomes the [Levanta] outcome of the
    [resultado] type; [print], [time.sleep], the audio effects and the
    optional activity log have no influence on the state and are left out. *)

From Stdlib Require Import ZArith String Ascii List Lia ZifyNat Bool.
From stdpp Require Import base option list gmap strings.

Local Open Scope string_scope.
Local Open Scope Z_scope.

(** ** Exceptions and results *)

(** The text of each [ValueError] raised by the sources, one constructor per
    message template, carrying the values interpolated into the message. *)
Inductive mensagem : Type :=
| MsgComandoInvalido (comando : string)
| MsgColisao (de para : Z * Z)
| MsgColetaSemObjeto
| MsgErroColetar
| MsgEjecaoSemObjeto
| MsgEjecaoForaSaida
| MsgNenhumaEntrada
| MsgMultiplasEntradas (entradas : list (Z * Z))
| MsgContagemEntradas (n : Z)
| MsgContagemObjetos (n : Z)
| MsgMapaVazio
| MsgInicialInvalida (p : Z * Z)
| MsgObjetivoInvalida (p : Z * Z)
| MsgInicialObstaculo (p : Z * Z)
| MsgObjetivoObstaculo (p : Z * Z)
| MsgAlarmeParedes
| MsgAlarmeBeco
| MsgAlarmeLeituras.

Inductive excecao : Type :=
| ValueError (m : mensagem)
| IndexError
| KeyError.

(** Outcome of a call: a returned value, a raised exception, or [Diverge]
    when a loop of the model used up its fuel (the Python loop would still be
    running). *)
Inductive resultado (A : Type) : Type :=
| Retorna (a : A)
| Levanta (e : excecao)
| Diverge.
Arguments Retorna {A} a.
Arguments Levanta {A} e.
Arguments Diverge {A}.

Definition ligar {A B} (c : resultado A) (k : A -> resultado B) : resultado B :=
  match c with
  | Retorna a => k a
  | Levanta e => Levanta e
  | Diverge => Diverge
  end.

Notation "'faz' x '<-' c 'em' k" := (ligar c (fun x => k))
  (at level 10, x name, c at level 100, k at level 200, only parsing).

(** ** Python sequences *)

Definition len {A} (l : list A) : Z := Z.of_nat (length l).

(** [l[i]]: negative indices count from the end, anything else out of
    range raises [IndexError]. *)
Definition indice {A} (l : list A) (i : Z) : resultado A :=
  let j := if 0 <=? i then i else len l + i in
  if (0 <=? j) && (j <? len l) then
    match l !! Z.to_nat j with
    | Some x => Retorna x
    | None => Levanta IndexError
    end
  else Levanta IndexError.

Definition caracteres (s : string) : list ascii := list_ascii_of_string s.

(** [s[i]] on a [str]. *)
Definition indice_str (s : string) (i : Z) : resultado ascii :=
  indice (caracteres s) i.

(** Slice bounds are clamped to the sequence, negative ones count from the
    end: [s[:k]] and [s[k:]]. *)
Definition limite_fatia {A} (l : list A) (k : Z) : nat :=
  let j := if 0 <=? k then k else len l + k in
  Z.to_nat (Z.max 0 (Z.min j (len l))).

Definition fatia_ate (s : string) (k : Z) : string :=
  string_of_list_ascii (take (limite_fatia (caracteres s) k) (caracteres s)).

Definition fatia_desde (s : string) (k : Z) : string :=
  string_of_list_ascii (drop (limite_fatia (caracteres s) k) (caracteres s)).

(** [l[i] = x]. *)
Definition atribuir {A} (l : list A) (i : Z) (x : A) : resultado (list A) :=
  let j := if 0 <=? i then i else len l + i in
  if (0 <=? j) && (j <? len l) then Retorna (<[Z.to_nat j := x]> l)
  else Levanta IndexError.

(** [c in ['*', 'X']] and [c in ['H', '@']]. *)
Definition eh_parede (c : ascii) : bool :=
  Ascii.eqb c "*"%char || Ascii.eqb c "X"%char.

Definition eh_objeto (c : ascii) : bool :=
  Ascii.eqb c "H"%char || Ascii.eqb c "@"%char.

(** ** Grid world: [AmbienteNavegacao] *)

Record AmbienteNavegacao : Type := {
  labirinto : list string;
  posicao_agente : Z * Z;
  direcao_agente : Z;
  objeto_coletado : bool
}.

Definition com_posicao (amb : AmbienteNavegacao) (p : Z * Z) : AmbienteNavegacao :=
  {| labirinto := labirinto amb; posicao_agente := p;
     direcao_agente := direcao_agente amb; objeto_coletado := objeto_coletado amb |}.

Definition com_direcao (amb : AmbienteNavegacao) (d : Z) : AmbienteNavegacao :=
  {| labirinto := labirinto amb; posicao_agente := posicao_agente amb;
     direcao_agente := d; objeto_coletado := objeto_coletado amb |}.

Definition com_objeto_coletado (amb : AmbienteNavegacao) (b : bool) : AmbienteNavegacao :=
  {| labirinto := labirinto amb; posicao_agente := posicao_agente amb;
     direcao_agente := direcao_agente amb; objeto_coletado := b |}.

Definition com_labirinto (amb : AmbienteNavegacao) (lab : list string) : AmbienteNavegacao :=
  {| labirinto := lab; posicao_agente := posicao_agente amb;
     direcao_agente := direcao_agente amb; objeto_coletado := objeto_coletado amb |}.

(** [len(self.labirinto[0])]. *)
Definition largura_primeira_linha (lab : list string) : resultado Z :=
  faz linha0 <- indice lab 0 em Retorna (len (caracteres linha0)).

(** The test [0 <= nova_linha < len(lab) and 0 <= nova_coluna < len(lab[0])],
    evaluated left to right. *)
Definition dentro_dos_limites (lab : list string) (nova_linha nova_coluna : Z)
  : resultado bool :=
  if (0 <=? nova_linha) && (nova_linha <? len lab) then
    faz largura <- largura_primeira_linha lab em
    Retorna ((0 <=? nova_coluna) && (nova_coluna <? largura))
  else Retorna false.

(** [self.labirinto[linha][coluna]]. *)
Definition conteudo_celula (lab : list string) (linha coluna : Z) : resultado ascii :=
  faz l <- indice lab linha em indice_str l coluna.

(** *** Entrance, initial orientation, validation *)

Fixpoint colunas_com (alvo : ascii -> bool) (i : Z) (j : Z) (cs : list ascii)
  : list (Z * Z) :=
  match cs with
  | [] => []
  | c :: cs' =>
      (if alvo c then [(i, j)] else []) ++ colunas_com alvo i (j + 1) cs'
  end.

Fixpoint celulas_com (alvo : ascii -> bool) (i : Z) (lab : list string)
  : list (Z * Z) :=
  match lab with
  | [] => []
  | linha :: lab' =>
      colunas_com alvo i 0 (caracteres linha) ++ celulas_com alvo (i + 1) lab'
  end.

Definition eh_entrada (c : ascii) : bool := Ascii.eqb c "E"%char.

Definition _localizar_ponto_entrada (lab : list string) : resultado (Z * Z) :=
  let entradas_encontradas := celulas_com eh_entrada 0 lab in
  match entradas_encontradas with
  | [] => Levanta (ValueError MsgNenhumaEntrada)
  | [entrada] => Retorna entrada
  | _ => Levanta (ValueError (MsgMultiplasEntradas entradas_encontradas))
  end.

Definition _calcular_orientacao_inicial (lab : list string) (p : Z * Z) : Z :=
  let '(linha, coluna) := p in
  if linha =? 0 then 2
  else if linha =? len lab - 1 then 0
  else if coluna =? 0 then 1
  else 3.

(** [linha.count(c)] summed over the lines. *)
Definition contar (alvo : ascii -> bool) (lab : list string) : Z :=
  len (celulas_com alvo 0 lab).

Definition _validar_integridade_mapa (lab : list string) : resultado unit :=
  let contador_entradas := contar eh_entrada lab in
  let contador_objetos := contar eh_objeto lab in
  if negb (contador_entradas =? 1) then
    Levanta (ValueError (MsgContagemEntradas contador_entradas))
  else if negb (contador_objetos =? 1) then
    Levanta (ValueError (MsgContagemObjetos contador_objetos))
  else Retorna tt.

(** [AmbienteNavegacao(mapa)] on a map given in memory as a list of lines. *)
Definition novo_ambiente (mapa : list string) : resultado AmbienteNavegacao :=
  faz entrada <- _localizar_ponto_entrada mapa em
  let direcao := _calcular_orientacao_inicial mapa entrada in
  faz _ <- _validar_integridade_mapa mapa em
  Retorna {| labirinto := mapa; posicao_agente := entrada;
             direcao_agente := direcao; objeto_coletado := false |}.

(** *** Proximity sensors *)

(** The dictionary [direcoes_relativas]; a missing key raises [KeyError]. *)
Definition direcoes_relativas (d : Z) : resultado (list (Z * Z)) :=
  if d =? 0 then Retorna [(-1, -1); (-1, 0); (-1, 1)]
  else if d =? 1 then Retorna [(-1, 1); (0, 1); (1, 1)]
  else if d =? 2 then Retorna [(1, 1); (1, 0); (1, -1)]
  else if d =? 3 then Retorna [(1, -1); (0, -1); (-1, -1)]
  else Levanta KeyError.

Definition classificar (c : ascii) : string :=
  if eh_parede c then "PAREDE"
  else if eh_objeto c then "HUMANO"
  else "VAZIO".

(** One turn of the loop over the three relative directions. *)
Definition ler_sensor (lab : list string) (atual : Z * Z) (delta : Z * Z)
  : resultado string :=
  let nova_linha := fst atual + fst delta in
  let nova_coluna := snd atual + snd delta in
  faz dentro <- dentro_dos_limites lab nova_linha nova_coluna em
  if dentro then
    faz c <- conteudo_celula lab nova_linha nova_coluna em
    Retorna (classificar c)
  else Retorna "PAREDE".

Fixpoint ler_sensores (lab : list string) (atual : Z * Z) (direcoes : list (Z * Z))
  : resultado (list string) :=
  match direcoes with
  | [] => Retorna []
  | delta :: resto =>
      faz leitura <- ler_sensor lab atual delta em
      faz leituras <- ler_sensores lab atual resto em
      Retorna (leitura :: leituras)
  end.

Definition obter_leituras_sensores_proximidade (amb : AmbienteNavegacao)
  : resultado (list string) :=
  faz direcoes <- direcoes_relativas (direcao_agente amb) em
  ler_sensores (labirinto amb) (posicao_agente amb) direcoes.

(** *** Commands *)

Definition direcoes_movimento : list (Z * Z) := [(-1, 0); (0, 1); (1, 0); (0, -1)].

Definition _avancar_agente (amb : AmbienteNavegacao) : resultado AmbienteNavegacao :=
  faz delta <- indice direcoes_movimento (direcao_agente amb) em
  let nova_linha := fst (posicao_agente amb) + fst delta in
  let nova_coluna := snd (posicao_agente amb) + snd delta in
  faz dentro <- dentro_dos_limites (labirinto amb) nova_linha nova_coluna em
  let colisao := ValueError (MsgColisao (posicao_agente amb) (nova_linha, nova_coluna)) in
  if dentro then
    faz c <- conteudo_celula (labirinto amb) nova_linha nova_coluna em
    if negb (eh_parede c) then Retorna (com_posicao amb (nova_linha, nova_coluna))
    else Levanta colisao
  else Levanta colisao.

Definition _girar_agente (amb : AmbienteNavegacao) : resultado AmbienteNavegacao :=
  Retorna (com_direcao amb ((direcao_agente amb + 1) mod 4)).

(** The dictionary [direcoes_frente]. *)
Definition direcoes_frente (d : Z) : resultado (Z * Z) :=
  if d =? 0 then Retorna (-1, 0)
  else if d =? 1 then Retorna (0, 1)
  else if d =? 2 then Retorna (1, 0)
  else if d =? 3 then Retorna (0, -1)
  else Levanta KeyError.

(** [len(leituras) >= 2 and leituras[1] == "HUMANO"]. *)
Definition frente_eh_humano (leituras : list string) : bool :=
  match leituras with
  | _ :: frente :: _ => String.eqb frente "HUMANO"
  | _ => false
  end.

Definition _coletar_objeto (amb : AmbienteNavegacao) : resultado AmbienteNavegacao :=
  faz leituras <- obter_leituras_sensores_proximidade amb em
  if frente_eh_humano leituras then
    faz delta <- direcoes_frente (direcao_agente amb) em
    let linha_objeto := fst (posicao_agente amb) + fst delta in
    let coluna_objeto := snd (posicao_agente amb) + snd delta in
    faz c <- conteudo_celula (labirinto amb) linha_objeto coluna_objeto em
    if eh_objeto c then
      faz linha_atual <- indice (labirinto amb) linha_objeto em
      let nova := (fatia_ate linha_atual coluna_objeto ++ " "
                   ++ fatia_desde linha_atual (coluna_objeto + 1))%string in
      faz lab <- atribuir (labirinto amb) linha_objeto nova em
      Retorna (com_labirinto (com_objeto_coletado amb true) lab)
    else Levanta (ValueError MsgErroColetar)
  else Levanta (ValueError MsgColetaSemObjeto).

Definition _verificar_posicao_saida (amb : AmbienteNavegacao) : resultado bool :=
  let '(linha, coluna) := posicao_agente amb in
  if (linha =? 0) || (linha =? len (labirinto amb) - 1) || (coluna =? 0) then
    Retorna true
  else
    faz largura <- largura_primeira_linha (labirinto amb) em
    Retorna (coluna =? largura - 1).

Definition _ejetar_objeto (amb : AmbienteNavegacao) : resultado AmbienteNavegacao :=
  if negb (objeto_coletado amb) then Levanta (ValueError MsgEjecaoSemObjeto)
  else
    faz na_saida <- _verificar_posicao_saida amb em
    if negb na_saida then Levanta (ValueError MsgEjecaoForaSaida)
    else Retorna (com_objeto_coletado amb false).

Definition executar_comando_navegacao (comando : string) (amb : AmbienteNavegacao)
  : resultado AmbienteNavegacao :=
  if String.eqb comando "A" then _avancar_agente amb
  else if String.eqb comando "G" then _girar_agente amb
  else if String.eqb comando "P" then _coletar_objeto amb
  else if String.eqb comando "E" then _ejetar_objeto amb
  else Levanta (ValueError (MsgComandoInvalido comando)).

(** The four arrow glyphs of the display, written in ASCII. *)
Definition simbolos_direcao : list ascii := ["^"; ">"; "v"; "<"]%char.

(** [exibir_estado_ambiente]: the printed text is dropped, the subscripts
    that may raise are kept in the order Python evaluates them. *)
Definition exibir_estado_ambiente (amb : AmbienteNavegacao) : resultado unit :=
  let '(linha_agente, coluna_agente) := posicao_agente amb in
  faz simbolo <- indice simbolos_direcao (direcao_agente amb) em
  faz linha <- indice (labirinto amb) linha_agente em
  faz _ <- atribuir (caracteres linha) coluna_agente simbolo em
  Retorna tt.

(** ** Post-collection safety validation ([robo_resgate.py]) *)

Definition _validar_estado_pos_coleta (amb : AmbienteNavegacao) : resultado unit :=
  if negb (objeto_coletado amb) then Retorna tt
  else
    faz leituras <- obter_leituras_sensores_proximidade amb em
    if (3 <=? len leituras) && forallb (fun leitura => String.eqb leitura "PAREDE") leituras
    then Levanta (ValueError MsgAlarmeParedes)
    else
      let espacos_livres :=
        len (filter (fun leitura => String.eqb leitura "VAZIO" = true) leituras) in
      if espacos_livres =? 0 then Levanta (ValueError MsgAlarmeBeco)
      else if negb (len leituras =? 3) then Levanta (ValueError MsgAlarmeLeituras)
      else Retorna tt.

(** ** Exploration strategy: [ExploradorInteligente] *)

(** [ambiente] is the grid world the explorer drives; [sistema_log] tells
    whether an activity log is attached (before each record the explorer
    reads the sensors, which may raise). *)
Record ExploradorInteligente : Type := {
  ambiente : AmbienteNavegacao;
  sistema_log : bool;
  mapa_conhecido : gmap (Z * Z) string;
  posicoes_visitadas : gset (Z * Z);
  pilha_navegacao : list (Z * Z);
  posicao_objeto : option (Z * Z);
  max_iteracoes : Z
}.

Definition novo_explorador (amb : AmbienteNavegacao) (log : bool) (max_it : Z)
  : ExploradorInteligente :=
  {| ambiente := amb; sistema_log := log; mapa_conhecido := ∅;
     posicoes_visitadas := ∅; pilha_navegacao := []; posicao_objeto := None;
     max_iteracoes := max_it |}.

Definition com_ambiente (e : ExploradorInteligente) (amb : AmbienteNavegacao) :=
  {| ambiente := amb; sistema_log := sistema_log e;
     mapa_conhecido := mapa_conhecido e; posicoes_visitadas := posicoes_visitadas e;
     pilha_navegacao := pilha_navegacao e; posicao_objeto := posicao_objeto e;
     max_iteracoes := max_iteracoes e |}.

Definition com_mapa_conhecido (e : ExploradorInteligente) (m : gmap (Z * Z) string) :=
  {| ambiente := ambiente e; sistema_log := sistema_log e;
     mapa_conhecido := m; posicoes_visitadas := posicoes_visitadas e;
     pilha_navegacao := pilha_navegacao e; posicao_objeto := posicao_objeto e;
     max_iteracoes := max_iteracoes e |}.

Definition com_visitadas (e : ExploradorInteligente) (v : gset (Z * Z)) :=
  {| ambiente := ambiente e; sistema_log := sistema_log e;
     mapa_conhecido := mapa_conhecido e; posicoes_visitadas := v;
     pilha_navegacao := pilha_navegacao e; posicao_objeto := posicao_objeto e;
     max_iteracoes := max_iteracoes e |}.

Definition com_pilha (e : ExploradorInteligente) (p : list (Z * Z)) :=
  {| ambiente := ambiente e; sistema_log := sistema_log e;
     mapa_conhecido := mapa_conhecido e; posicoes_visitadas := posicoes_visitadas e;
     pilha_navegacao := p; posicao_objeto := posicao_objeto e;
     max_iteracoes := max_iteracoes e |}.

Definition com_posicao_objeto (e : ExploradorInteligente) (o : option (Z * Z)) :=
  {| ambiente := ambiente e; sistema_log := sistema_log e;
     mapa_conhecido := mapa_conhecido e; posicoes_visitadas := posicoes_visitadas e;
     pilha_navegacao := pilha_navegacao e; posicao_objeto := o;
     max_iteracoes := max_iteracoes e |}.

(** The sensors are read before each log record is written. *)
Definition registrar (e : ExploradorInteligente) : resultado unit :=
  if sistema_log e then
    faz _ <- obter_leituras_sensores_proximidade (ambiente e) em Retorna tt
  else Retorna tt.

(** The body of the loop over [enumerate(direcoes_relativas)]. *)
Definition registrar_leitura (leituras : list string) (i j : Z)
    (e : ExploradorInteligente) (idx : Z) (delta : Z * Z)
  : resultado ExploradorInteligente :=
  let viz := (i + fst delta, j + snd delta) in
  faz celula_lida <- indice leituras idx em
  if String.eqb celula_lida "PAREDE" then
    Retorna (com_mapa_conhecido e (<[viz := "X"]> (mapa_conhecido e)))
  else if String.eqb celula_lida "HUMANO" then
    Retorna (com_posicao_objeto
               (com_mapa_conhecido e (<[viz := "@"]> (mapa_conhecido e))) (Some viz))
  else if String.eqb celula_lida "VAZIO" then
    match mapa_conhecido e !! viz with
    | None => Retorna (com_mapa_conhecido e (<[viz := "."]> (mapa_conhecido e)))
    | Some _ => Retorna e
    end
  else Retorna e.

Fixpoint registrar_leituras (leituras : list string) (i j : Z)
    (e : ExploradorInteligente) (idx : Z) (direcoes : list (Z * Z))
  : resultado ExploradorInteligente :=
  match direcoes with
  | [] => Retorna e
  | delta :: resto =>
      faz e' <- registrar_leitura leituras i j e idx delta em
      registrar_leituras leituras i j e' (idx + 1) resto
  end.

Definition _atualizar_mapa_com_sensores (posicao_atual : Z * Z)
    (e : ExploradorInteligente) : resultado ExploradorInteligente :=
  let '(i, j) := posicao_atual in
  let direcao_robo := direcao_agente (ambiente e) in
  faz leituras <- obter_leituras_sensores_proximidade (ambiente e) em
  faz direcoes <- direcoes_relativas direcao_robo em
  registrar_leituras leituras i j e 0 direcoes.

(** The dictionary [direcoes_absolutas]: front, right, left. *)
Definition direcoes_absolutas (d : Z) : resultado (list (Z * Z)) :=
  if d =? 0 then Retorna [(-1, 0); (0, 1); (0, -1)]
  else if d =? 1 then Retorna [(0, 1); (1, 0); (-1, 0)]
  else if d =? 2 then Retorna [(1, 0); (0, -1); (0, 1)]
  else if d =? 3 then Retorna [(0, -1); (-1, 0); (1, 0)]
  else Levanta KeyError.

Fixpoint primeira_a_explorar (e : ExploradorInteligente) (i j : Z)
    (direcoes : list (Z * Z)) : option (Z * Z) :=
  match direcoes with
  | [] => None
  | (di, dj) :: resto =>
      let nova_posicao := (i + di, j + dj) in
      if bool_decide (nova_posicao ∉ posicoes_visitadas e)
         && negb (bool_decide (mapa_conhecido e !! nova_posicao = Some "X"))
      then Some nova_posicao
      else primeira_a_explorar e i j resto
  end.

Definition _encontrar_proxima_posicao_para_explorar (posicao_atual : Z * Z)
    (e : ExploradorInteligente) : resultado (option (Z * Z)) :=
  let '(i, j) := posicao_atual in
  faz direcoes <- direcoes_absolutas (direcao_agente (ambiente e)) em
  Retorna (primeira_a_explorar e i j direcoes).

(** [while self.ambiente.direcao_agente != direcao_alvo]: one level of
    [combustivel] per turn of the loop. *)
Fixpoint _ajustar_direcao (combustivel : nat) (direcao_alvo : Z)
    (e : ExploradorInteligente) : resultado ExploradorInteligente :=
  if direcao_agente (ambiente e) =? direcao_alvo then Retorna e
  else
    match combustivel with
    | O => Diverge
    | S resto =>
        faz amb <- executar_comando_navegacao "G" (ambiente e) em
        let e' := com_ambiente e amb in
        faz _ <- registrar e' em
        _ajustar_direcao resto direcao_alvo e'
    end.

Definition _mover_para (posicao_alvo : Z * Z) (e : ExploradorInteligente)
  : resultado ExploradorInteligente :=
  let atual := posicao_agente (ambiente e) in
  let dx := fst posicao_alvo - fst atual in
  let dy := snd posicao_alvo - snd atual in
  let direcao_alvo :=
    if dx =? 1 then Some 2
    else if dx =? -1 then Some 0
    else if dy =? 1 then Some 1
    else if dy =? -1 then Some 3
    else None in
  match direcao_alvo with
  | None => Retorna e
  | Some alvo =>
      faz e1 <- _ajustar_direcao 4 alvo e em
      faz amb <- executar_comando_navegacao "A" (ambiente e1) em
      let e2 := com_ambiente e1 amb in
      faz _ <- exibir_estado_ambiente amb em
      faz _ <- registrar e2 em
      Retorna e2
  end.

Definition _get_posicao_a_frente (posicao_atual : Z * Z) (direcao_robo : Z)
  : option (Z * Z) :=
  let '(i, j) := posicao_atual in
  if direcao_robo =? 0 then Some (i - 1, j)
  else if direcao_robo =? 1 then Some (i, j + 1)
  else if direcao_robo =? 2 then Some (i + 1, j)
  else if direcao_robo =? 3 then Some (i, j - 1)
  else None.

(** How one turn of the [while] loop of [explorar_ate_encontrar_objeto]
    ends: it falls through to the next turn, executes [return True], or
    executes [break]. *)
Inductive passo : Type :=
| Continua (e : ExploradorInteligente)
| Achou (e : ExploradorInteligente)
| Interrompe (e : ExploradorInteligente).

(** [pilha.append(x)], [pilha[-1]] and [pilha.pop()]: the top of the stack
    is the last element of the list. *)
Definition empilhar (pilha : list (Z * Z)) (x : Z * Z) : list (Z * Z) := pilha ++ [x].

Definition desempilhar (pilha : list (Z * Z)) : resultado (list (Z * Z)) :=
  match pilha with
  | [] => Levanta IndexError
  | _ => Retorna (take (length pilha - 1)%nat pilha)
  end.

Definition iteracao_exploracao (e : ExploradorInteligente) : resultado passo :=
  faz posicao_atual <- indice (pilha_navegacao e) (-1) em
  faz e1 <- _atualizar_mapa_com_sensores posicao_atual e em
  faz leituras <- obter_leituras_sensores_proximidade (ambiente e1) em
  faz _ <- indice leituras 0 em
  faz frente <- indice leituras 1 em
  faz _ <- indice leituras 2 em
  if String.eqb frente "HUMANO" then
    match _get_posicao_a_frente posicao_atual (direcao_agente (ambiente e1)) with
    | Some p =>
        Retorna (Achou (com_mapa_conhecido (com_posicao_objeto e1 (Some p))
                          (<[p := "@"]> (mapa_conhecido e1))))
    | None => Retorna (Achou (com_posicao_objeto e1 None))
    end
  else
    faz proxima_posicao <- _encontrar_proxima_posicao_para_explorar posicao_atual e1 em
    match proxima_posicao with
    | Some proxima =>
        faz e2 <- _mover_para proxima e1 em
        let aqui := posicao_agente (ambiente e2) in
        Retorna (Continua
                   (com_pilha (com_visitadas e2 ({[aqui]} ∪ posicoes_visitadas e2))
                      (empilhar (pilha_navegacao e2) aqui)))
    | None =>
        faz pilha <- desempilhar (pilha_navegacao e1) em
        let e2 := com_pilha e1 pilha in
        match pilha with
        | [] => Retorna (Interrompe e2)
        | _ =>
            faz topo <- indice pilha (-1) em
            faz e3 <- _mover_para topo e2 em
            Retorna (Continua e3)
        end
    end.

(** The [while iteracao < self.max_iteracoes] loop; [restantes] is the number
    of turns the counter still allows. The final value of [iteracao] is
    returned with the answer. *)
Fixpoint laco_exploracao (restantes : nat) (iteracao : Z) (e : ExploradorInteligente)
  : resultado (bool * Z * ExploradorInteligente) :=
  match restantes with
  | O => Retorna (false, iteracao, e)
  | S resto =>
      faz p <- iteracao_exploracao e em
      match p with
      | Continua e' => laco_exploracao resto (iteracao + 1) e'
      | Achou e' => Retorna (true, iteracao + 1, e')
      | Interrompe e' => Retorna (false, iteracao + 1, e')
      end
  end.

Definition iniciar_exploracao (e : ExploradorInteligente) : ExploradorInteligente :=
  let posicao_inicial := posicao_agente (ambiente e) in
  com_pilha
    (com_mapa_conhecido
       (com_visitadas e ({[posicao_inicial]} ∪ posicoes_visitadas e))
       (<[posicao_inicial := "E"]> (mapa_conhecido e)))
    (empilhar (pilha_navegacao e) posicao_inicial).

Definition explorar_ate_encontrar_objeto (e : ExploradorInteligente)
  : resultado (bool * Z * ExploradorInteligente) :=
  laco_exploracao (Z.to_nat (max_iteracoes e)) 0 (iniciar_exploracao e).

(** ** Priority queue: the [heapq] module

    The three operations the search uses, as the standard library writes
    them, on a list indexed from 0; [menor] is the [<] of the items. A
    subscript out of range raises [IndexError]. *)

(** The parent of position [c] in the implicit tree: [(c - 1) >> 1]. *)
Definition pai (c : nat) : nat := ((c - 1) / 2)%nat.
Arguments pai : simpl never.

Section Heapq.
Context {A : Type} (menor : A -> A -> bool).

Definition obter (heap : list A) (i : nat) : resultado A :=
  match heap !! i with
  | Some x => Retorna x
  | None => Levanta IndexError
  end.

Definition gravar (heap : list A) (i : nat) (x : A) : resultado (list A) :=
  if (i <? length heap)%nat then Retorna (<[i := x]> heap)
  else Levanta IndexError.

(** The loop [while pos > startpos] of [_siftdown]: the parent is moved
    down while [newitem] is smaller. *)
Fixpoint _siftdown_laco (combustivel : nat) (heap : list A) (newitem : A)
    (startpos pos : nat) : resultado (list A) :=
  if (startpos <? pos)%nat then
    match combustivel with
    | O => Diverge
    | S resto =>
        let parentpos := pai pos in
        faz parent <- obter heap parentpos em
        if menor newitem parent then
          faz heap' <- gravar heap pos parent em
          _siftdown_laco resto heap' newitem startpos parentpos
        else gravar heap pos newitem
    end
  else gravar heap pos newitem.

Definition _siftdown (heap : list A) (startpos pos : nat) : resultado (list A) :=
  faz newitem <- obter heap pos em
  _siftdown_laco pos heap newitem startpos pos.

(** [if rightpos < endpos and not heap[childpos] < heap[rightpos]:
    childpos = rightpos]: the position of the smaller child. *)
Definition escolher_filho (heap : list A) (endpos childpos : nat) : resultado nat :=
  let rightpos := (childpos + 1)%nat in
  if (rightpos <? endpos)%nat then
    faz esq <- obter heap childpos em
    faz dir <- obter heap rightpos em
    Retorna (if negb (menor esq dir) then rightpos else childpos)
  else Retorna childpos.

(** The loop [while childpos < endpos] of [_siftup]: the smaller child is
    moved up until a leaf is reached; the leaf position is returned. *)
Fixpoint _siftup_laco (combustivel : nat) (heap : list A) (endpos pos : nat)
  : resultado (list A * nat) :=
  let childpos := (2 * pos + 1)%nat in
  if (childpos <? endpos)%nat then
    match combustivel with
    | O => Diverge
    | S resto =>
        faz childpos' <- escolher_filho heap endpos childpos em
        faz filho <- obter heap childpos' em
        faz heap' <- gravar heap pos filho em
        _siftup_laco resto heap' endpos childpos'
    end
  else Retorna (heap, pos).

Definition _siftup (heap : list A) (pos : nat) : resultado (list A) :=
  let endpos := length heap in
  let startpos := pos in
  faz newitem <- obter heap pos em
  faz par <- _siftup_laco endpos heap endpos pos em
  faz heap' <- gravar (fst par) (snd par) newitem em
  _siftdown heap' startpos (snd par).

Definition heappush (heap : list A) (item : A) : resultado (list A) :=
  let heap' := (heap ++ [item])%list in
  _siftdown heap' 0 (length heap' - 1).

Definition heappop (heap : list A) : resultado (A * list A) :=
  match last heap with
  | None => Levanta IndexError
  | Some lastelt =>
      let heap' := take (length heap - 1) heap in
      match heap' with
      | [] => Retorna (lastelt, [])
      | returnitem :: _ =>
          faz heap1 <- gravar heap' 0 lastelt em
          faz heap2 <- _siftup heap1 0 em
          Retorna (returnitem, heap2)
      end
  end.

(** [for i in reversed(range(n//2)): _siftup(x, i)]. *)
Fixpoint heapify_laco (indices : list nat) (x : list A) : resultado (list A) :=
  match indices with
  | [] => Retorna x
  | i :: resto => faz x' <- _siftup x i em heapify_laco resto x'
  end.

Definition heapify (x : list A) : resultado (list A) :=
  heapify_laco (rev (seq 0 (length x / 2))) x.
End Heapq.

(** ** Pathfinding engine: [astar_labirinto.py] *)

(** A node object. [no_pai] refers to another node object; node objects
    live in a store (a list, in allocation order) and a reference is an index
    into it, so that the queue, the dictionary of open nodes and the parent
    links share the objects they name. *)
Record NoNavegacao : Type := {
  posicao : Z * Z;
  custo_g : Z;
  custo_h : Z;
  custo_f : Z;
  no_pai : option nat
}.

Definition novo_no (p : Z * Z) (g h : Z) (pai : option nat) : NoNavegacao :=
  {| posicao := p; custo_g := g; custo_h := h; custo_f := g + h; no_pai := pai |}.

Definition no_padrao : NoNavegacao := novo_no (0, 0) 0 0 None.

(** The object a reference designates. References handed out by the search
    always designate an allocated object; [no_padrao] only makes the
    function total. *)
Definition objeto_de (objetos : list NoNavegacao) (r : nat) : NoNavegacao :=
  default no_padrao (objetos !! r).

(** [NoNavegacao.__lt__] *)
Definition menor_no (objetos : list NoNavegacao) (r1 r2 : nat) : bool :=
  custo_f (objeto_de objetos r1) <? custo_f (objeto_de objetos r2).

Definition calcular_distancia_manhattan (posicao_atual posicao_objetivo : Z * Z) : Z :=
  let '(linha_atual, coluna_atual) := posicao_atual in
  let '(linha_objetivo, coluna_objetivo) := posicao_objetivo in
  Z.abs (linha_atual - linha_objetivo) + Z.abs (coluna_atual - coluna_objetivo).

(** [len(mapa[0])] *)
Definition numero_colunas (mapa : list (list string)) : resultado Z :=
  faz linha0 <- indice mapa 0 em Retorna (len linha0).

(** [mapa[linha][coluna]] *)
Definition celula (mapa : list (list string)) (linha coluna : Z) : resultado string :=
  faz l <- indice mapa linha em indice l coluna.

Definition direcoes_vizinhos : list (Z * Z) := [(-1, 0); (1, 0); (0, 1); (0, -1)].

(** The body of the loop of [obter_vizinhos_validos] for one direction:
    the neighbour, when it is kept. *)
Definition vizinho_valido (mapa : list (list string)) (p delta : Z * Z)
  : resultado (option (Z * Z)) :=
  let nova_linha := fst p + fst delta in
  let nova_coluna := snd p + snd delta in
  if (0 <=? nova_linha) && (nova_linha <? len mapa) then
    faz colunas <- numero_colunas mapa em
    if (0 <=? nova_coluna) && (nova_coluna <? colunas) then
      faz c <- celula mapa nova_linha nova_coluna em
      if negb (String.eqb c "*") then Retorna (Some (nova_linha, nova_coluna))
      else Retorna None
    else Retorna None
  else Retorna None.

Fixpoint vizinhos_validos_laco (mapa : list (list string)) (p : Z * Z)
    (direcoes : list (Z * Z)) : resultado (list (Z * Z)) :=
  match direcoes with
  | [] => Retorna []
  | delta :: resto =>
      faz v <- vizinho_valido mapa p delta em
      faz vizinhos <- vizinhos_validos_laco mapa p resto em
      Retorna (match v with Some q => q :: vizinhos | None => vizinhos end)
  end.

Definition obter_vizinhos_validos (p : Z * Z) (mapa : list (list string))
  : resultado (list (Z * Z)) :=
  vizinhos_validos_laco mapa p direcoes_vizinhos.

(** [reconstruir_caminho_otimo]: the loop [while no_atual is not None]
    collects the positions from the goal back to the start; the list is
    built here already reversed. *)
Fixpoint reconstruir_laco (combustivel : nat) (objetos : list NoNavegacao)
    (no_atual : option nat) (caminho : list (Z * Z)) : resultado (list (Z * Z)) :=
  match no_atual with
  | None => Retorna caminho
  | Some r =>
      match combustivel with
      | O => Diverge
      | S resto =>
          let no := objeto_de objetos r in
          reconstruir_laco resto objetos (no_pai no) (posicao no :: caminho)
      end
  end.

Definition reconstruir_caminho_otimo (objetos : list NoNavegacao) (no_objetivo : nat)
  : resultado (list (Z * Z)) :=
  reconstruir_laco (length objetos) objetos (Some no_objetivo) [].

(** The mutable state of one search. *)
Record EstadoBusca : Type := {
  objetos : list NoNavegacao;
  fila_prioridade : list nat;
  nos_visitados : gset (Z * Z);
  nos_abertos : gmap (Z * Z) nat
}.

(** The body of [for posicao_vizinho in vizinhos]. *)
Definition tratar_vizinho (posicao_objetivo : Z * Z) (no_atual : nat)
    (st : EstadoBusca) (posicao_vizinho : Z * Z) : resultado EstadoBusca :=
  if bool_decide (posicao_vizinho ∈ nos_visitados st) then Retorna st
  else
    let custo_g_vizinho := custo_g (objeto_de (objetos st) no_atual) + 1 in
    let custo_h_vizinho := calcular_distancia_manhattan posicao_vizinho posicao_objetivo in
    match nos_abertos st !! posicao_vizinho with
    | Some no_vizinho_existente =>
        let existente := objeto_de (objetos st) no_vizinho_existente in
        if custo_g_vizinho <? custo_g existente then
          let atualizado :=
            {| posicao := posicao existente;
               custo_g := custo_g_vizinho;
               custo_h := custo_h existente;
               custo_f := custo_g_vizinho + custo_h_vizinho;
               no_pai := Some no_atual |} in
          let objetos' := <[no_vizinho_existente := atualizado]> (objetos st) in
          faz fila <- heapify (menor_no objetos') (fila_prioridade st) em
          Retorna {| objetos := objetos'; fila_prioridade := fila;
                     nos_visitados := nos_visitados st; nos_abertos := nos_abertos st |}
        else Retorna st
    | None =>
        let no_vizinho :=
          novo_no posicao_vizinho custo_g_vizinho custo_h_vizinho (Some no_atual) in
        let referencia := length (objetos st) in
        let objetos' := (objetos st ++ [no_vizinho])%list in
        faz fila <- heappush (menor_no objetos') (fila_prioridade st) referencia em
        Retorna {| objetos := objetos'; fila_prioridade := fila;
                   nos_visitados := nos_visitados st;
                   nos_abertos := <[posicao_vizinho := referencia]> (nos_abertos st) |}
    end.

Fixpoint tratar_vizinhos (posicao_objetivo : Z * Z) (no_atual : nat)
    (st : EstadoBusca) (vizinhos : list (Z * Z)) : resultado EstadoBusca :=
  match vizinhos with
  | [] => Retorna st
  | v :: resto =>
      faz st' <- tratar_vizinho posicao_objetivo no_atual st v em
      tratar_vizinhos posicao_objetivo no_atual st' resto
  end.

(** The loop [while fila_prioridade]. *)
Fixpoint laco_busca (combustivel : nat) (mapa : list (list string))
    (posicao_objetivo : Z * Z) (st : EstadoBusca)
  : resultado (option (list (Z * Z))) :=
  match fila_prioridade st with
  | [] => Retorna None
  | _ =>
      match combustivel with
      | O => Diverge
      | S resto =>
          faz par <- heappop (menor_no (objetos st)) (fila_prioridade st) em
          let no_atual := fst par in
          let p := posicao (objeto_de (objetos st) no_atual) in
          if bool_decide (p = posicao_objetivo) then
            faz caminho_encontrado <- reconstruir_caminho_otimo (objetos st) no_atual em
            Retorna (Some caminho_encontrado)
          else
            let st1 := {| objetos := objetos st; fila_prioridade := snd par;
                          nos_visitados := {[p]} ∪ nos_visitados st;
                          nos_abertos := delete p (nos_abertos st) |} in
            faz vizinhos <- obter_vizinhos_validos p mapa em
            faz st2 <- tratar_vizinhos posicao_objetivo no_atual st1 vizinhos em
            laco_busca resto mapa posicao_objetivo st2
      end
  end.

(** [not mapa or not mapa[0]] *)
Definition mapa_vazio (mapa : list (list string)) : bool :=
  match mapa with
  | [] => true
  | [] :: _ => true
  | _ => false
  end.

(** The test [p[0] < 0 or p[0] >= len(mapa) or p[1] < 0 or p[1] >= len(mapa[0])]. *)
Definition fora_do_mapa (mapa : list (list string)) (p : Z * Z) : resultado bool :=
  if (fst p <? 0) || (len mapa <=? fst p) || (snd p <? 0) then Retorna true
  else faz colunas <- numero_colunas mapa em Retorna (colunas <=? snd p).

Definition estado_inicial (posicao_inicial posicao_objetivo : Z * Z)
  : resultado EstadoBusca :=
  let custo_h_inicial := calcular_distancia_manhattan posicao_inicial posicao_objetivo in
  let no_inicial := novo_no posicao_inicial 0 custo_h_inicial None in
  let objetos := [no_inicial] in
  faz fila <- heappush (menor_no objetos) [] 0%nat em
  Retorna {| objetos := objetos; fila_prioridade := fila; nos_visitados := ∅;
             nos_abertos := {[posicao_inicial := 0%nat]} |}.

(** [algoritmo_busca_astar], with the number of turns the main loop may
    take as a parameter. *)
Definition busca_com_combustivel (combustivel : nat) (mapa : list (list string))
    (posicao_inicial posicao_objetivo : Z * Z) : resultado (option (list (Z * Z))) :=
  if mapa_vazio mapa then Levanta (ValueError MsgMapaVazio)
  else
    faz inicial_fora <- fora_do_mapa mapa posicao_inicial em
    if inicial_fora then Levanta (ValueError (MsgInicialInvalida posicao_inicial))
    else
      faz objetivo_fora <- fora_do_mapa mapa posicao_objetivo em
      if objetivo_fora then Levanta (ValueError (MsgObjetivoInvalida posicao_objetivo))
      else
        faz c_inicial <- celula mapa (fst posicao_inicial) (snd posicao_inicial) em
        if String.eqb c_inicial "*" then
          Levanta (ValueError (MsgInicialObstaculo posicao_inicial))
        else
          faz c_objetivo <- celula mapa (fst posicao_objetivo) (snd posicao_objetivo) em
          if String.eqb c_objetivo "*" then
            Levanta (ValueError (MsgObjetivoObstaculo posicao_objetivo))
          else if bool_decide (posicao_inicial = posicao_objetivo) then
            Retorna (Some [posicao_inicial])
          else
            faz st <- estado_inicial posicao_inicial posicao_objetivo em
            laco_busca combustivel mapa posicao_objetivo st.

(** The number of cells the bounds test of the search accepts: each turn of
    the main loop closes one more of them. *)
Definition numero_celulas (mapa : list (list string)) : nat :=
  (length mapa * length (hd [] mapa))%nat.

Definition algoritmo_busca_astar (mapa : list (list string))
    (posicao_inicial posicao_objetivo : Z * Z) : resultado (option (list (Z * Z))) :=
  busca_com_combustivel (numero_celulas mapa) mapa posicao_inicial posicao_objetivo.

(** ** Grids as the search sees them *)

(** The position passes the bounds test of the search: its row is a row of
    the grid and its column a column of the first line. *)
Definition dentro_do_mapa (mapa : list (list string)) (p : Z * Z) : bool :=
  (0 <=? fst p) && (fst p <? len mapa) && (0 <=? snd p)
  && (snd p <? len (hd [] mapa)).

(** The cell exists and holds the wall mark ["*"]. *)
Definition obstaculo (mapa : list (list string)) (p : Z * Z) : bool :=
  match celula mapa (fst p) (snd p) with
  | Retorna c => String.eqb c "*"
  | _ => false
  end.

(** The position is inside the grid, and the cell exists and is not a wall. *)
Definition livre (mapa : list (list string)) (p : Z * Z) : bool :=
  dentro_do_mapa mapa p &&
  match celula mapa (fst p) (snd p) with
  | Retorna c => negb (String.eqb c "*")
  | _ => false
  end.

(** All lines of the grid are as long as the first one. *)
Definition grade_retangular (mapa : list (list string)) : bool :=
  forallb (fun linha => (length linha =? length (hd [] mapa))%nat) mapa.

(** ** Heap order *)

(** [c] lies in the subtree rooted at [s]. *)
Inductive descendente (s : nat) : nat -> Prop :=
| desc_raiz : descendente s s
| desc_filho c : (1 <= c)%nat -> descendente s (pai c) -> descendente s c.

Section OrdemHeap.
Context {A : Type} (chave : A -> Z).

(** Every item whose parent sits at position [s] or later is at least as
    large as its parent. *)
Definition ordenado_desde (s : nat) (l : list A) : Prop :=
  forall c x y, (1 <= c)%nat -> (s <= pai c)%nat ->
    l !! c = Some x -> l !! pai c = Some y -> chave y <= chave x.

Definition heap_ordenado (l : list A) : Prop := ordenado_desde 0 l.

(** The state of the loop of [_siftdown]: position [pos] is a hole that
    [newitem] will fill; order holds everywhere else, [newitem] and the
    parent of the hole are below the children of the hole. *)
Definition inv_siftdown (s : nat) (heap : list A) (newitem : A) (pos : nat) : Prop :=
  (pos < length heap)%nat /\ descendente s pos /\
  (forall c x y, (1 <= c)%nat -> (s <= pai c)%nat -> c <> pos -> pai c <> pos ->
      heap !! c = Some x -> heap !! pai c = Some y -> chave y <= chave x) /\
  (forall c x, (1 <= c)%nat -> pai c = pos -> heap !! c = Some x ->
      chave newitem <= chave x /\
      ((s < pos)%nat -> forall y, heap !! pai pos = Some y -> chave y <= chave x)).

(** The state of the loop of [_siftup]: the item of the hole at [pos] has
    been copied to its parent; order holds on every edge below [s], the
    edges out of [s] excepted as long as the hole is still at [s]. *)
Definition inv_siftup (s : nat) (heap : list A) (pos : nat) : Prop :=
  (pos < length heap)%nat /\ descendente s pos /\
  (forall c x y, (1 <= c)%nat -> (s <= pai c)%nat -> (pai c = s -> pos <> s) ->
      heap !! c = Some x -> heap !! pai c = Some y -> chave y <= chave x).
End OrdemHeap.

(** ** Paths in the grid and the state of the search *)

(** Two positions are 4-neighbours. *)
Definition adjacente (p q : Z * Z) : bool :=
  Z.abs (fst p - fst q) + Z.abs (snd p - snd q) =? 1.

(** A non-empty sequence of free cells, each a 4-neighbour of the next. *)
Fixpoint caminho_valido (mapa : list (list string)) (caminho : list (Z * Z)) : bool :=
  match caminho with
  | [] => false
  | p :: resto =>
      livre mapa p &&
      match resto with
      | [] => true
      | q :: _ => adjacente p q && caminho_valido mapa resto
      end
  end.

(** [caminho] leads from [inicial] to [objetivo] through free cells. *)
Definition liga (mapa : list (list string)) (inicial objetivo : Z * Z)
    (caminho : list (Z * Z)) : Prop :=
  caminho_valido mapa caminho = true /\
  head caminho = Some inicial /\ last caminho = Some objetivo.

(** [p] is reached from [inicial] in [n] steps through free cells. *)
Inductive anda (mapa : list (list string)) (inicial : Z * Z) : Z * Z -> nat -> Prop :=
| anda_inicio : livre mapa inicial = true -> anda mapa inicial inicial 0
| anda_passo p q n :
    anda mapa inicial p n -> adjacente p q = true -> livre mapa q = true ->
    anda mapa inicial q (S n).

(** The number of a cell of the grid, line by line. *)
Definition numero_da_celula (mapa : list (list string)) (p : Z * Z) : nat :=
  (Z.to_nat (fst p) * length (hd [] mapa) + Z.to_nat (snd p))%nat.

Section Invariante.
Context (mapa : list (list string)) (inicial objetivo : Z * Z).

(** A node object that has left the queue. *)
Definition fechado (st : EstadoBusca) (r : nat) : Prop :=
  (r < length (objetos st))%nat /\ r ∉ fila_prioridade st.

(** The cost of the node is the least number of steps to its position. *)
Definition otimo (st : EstadoBusca) (r : nat) : Prop :=
  forall n, anda mapa inicial (posicao (objeto_de (objetos st) r)) n ->
            custo_g (objeto_de (objetos st) r) <= Z.of_nat n.

(** The invariant of the main loop; inside a turn, [atual] is the node
    being expanded and [pendentes] its neighbours still to be treated. *)
Record invariante (atual : nat) (pendentes : list (Z * Z)) (st : EstadoBusca)
  : Prop := {
  inv_fila_nodup : NoDup (fila_prioridade st);
  inv_fila_validos :
    forall r, r ∈ fila_prioridade st -> (r < length (objetos st))%nat;
  inv_abertos :
    forall p r, nos_abertos st !! p = Some r <->
                (r ∈ fila_prioridade st /\ posicao (objeto_de (objetos st) r) = p);
  inv_abertos_nao_visitados :
    forall r, r ∈ fila_prioridade st ->
              posicao (objeto_de (objetos st) r) ∉ nos_visitados st;
  inv_heap :
    heap_ordenado (fun r => custo_f (objeto_de (objetos st) r)) (fila_prioridade st);
  inv_custos :
    forall r, (r < length (objetos st))%nat ->
      let no := objeto_de (objetos st) r in
      custo_f no = custo_g no + calcular_distancia_manhattan (posicao no) objetivo /\
      0 <= custo_g no < Z.of_nat (length (objetos st)) /\
      livre mapa (posicao no) = true;
  inv_pais :
    forall r, (r < length (objetos st))%nat ->
      let no := objeto_de (objetos st) r in
      match no_pai no with
      | None => posicao no = inicial /\ custo_g no = 0
      | Some q =>
          fechado st q /\
          custo_g no = custo_g (objeto_de (objetos st) q) + 1 /\
          adjacente (posicao (objeto_de (objetos st) q)) (posicao no) = true
      end;
  inv_fechados :
    forall r, fechado st r ->
      posicao (objeto_de (objetos st) r) ∈ nos_visitados st /\ otimo st r;
  inv_visitados :
    forall p, p ∈ nos_visitados st ->
      exists r, fechado st r /\ posicao (objeto_de (objetos st) r) = p;
  inv_arestas :
    forall r v, fechado st r ->
      adjacente (posicao (objeto_de (objetos st) r)) v = true ->
      livre mapa v = true ->
      (r = atual /\ v ∈ pendentes) \/ v ∈ nos_visitados st \/
      exists r', r' ∈ fila_prioridade st /\
                 posicao (objeto_de (objetos st) r') = v /\
                 custo_g (objeto_de (objetos st) r')
                 <= custo_g (objeto_de (objetos st) r) + 1;
  inv_inicio :
    inicial ∈ nos_visitados st \/
    exists r, r ∈ fila_prioridade st /\
              posicao (objeto_de (objetos st) r) = inicial /\
              custo_g (objeto_de (objetos st) r) = 0;
  inv_objetivo : objetivo ∉ nos_visitados st
}.
End Invariante.

(** ** Well-formed agent states *)

(** The agent stands on a cell that exists in the grid and is not a wall. *)
Definition posicao_valida (amb : AmbienteNavegacao) : bool :=
  let '(linha, coluna) := posicao_agente amb in
  (0 <=? linha) && (0 <=? coluna) &&
  match conteudo_celula (labirinto amb) linha coluna with
  | Retorna c => negb (eh_parede c)
  | _ => false
  end.

Definition orientacao_valida (amb : AmbienteNavegacao) : bool :=
  (0 <=? direcao_agente amb) && (direcao_agente amb <? 4).

(** The state of the grid world object after a command: a command that
    raises leaves the object as it was. *)
Definition estado_apos (comando : string) (amb : AmbienteNavegacao) : AmbienteNavegacao :=
  match executar_comando_navegacao comando amb with
  | Retorna amb' => amb'
  | _ => amb
  end.

(** The cell one step ahead of the agent. *)
Definition celula_alvo (amb : AmbienteNavegacao) : resultado (Z * Z) :=
  faz delta <- direcoes_frente (direcao_agente amb) em
  Retorna (fst (posicao_agente amb) + fst delta, snd (posicao_agente amb) + snd delta).

(** The border of the grid, its width being that of the first line. *)
Definition na_borda (amb : AmbienteNavegacao) : bool :=
  let '(linha, coluna) := posicao_agente amb in
  (linha =? 0) || (linha =? len (labirinto amb) - 1) || (coluna =? 0)
  || match labirinto amb with
     | primeira :: _ => coluna =? len (caracteres primeira) - 1
     | [] => false
     end.

(** All lines of the map are as long as the first one. *)
Definition retangular (lab : list string) : bool :=
  match lab with
  | [] => true
  | primeira :: _ =>
      forallb (fun linha => len (caracteres linha) =? len (caracteres primeira)) lab
  end.

(** The explorer state after [n] turns of the loop that all fall through
    to the next turn, when there are such turns. *)
Fixpoint apos_iteracoes (n : nat) (e : ExploradorInteligente)
  : option ExploradorInteligente :=
  match n with
  | O => Some e
  | S n' =>
      match iteracao_exploracao e with
      | Retorna (Continua e') => apos_iteracoes n' e'
      | _ => None
      end
  end.

(** ** Sample inputs and auxiliary notions used in the statements *)

Definition leitura_conhecida (s : string) : Prop :=
  s = "PAREDE" \/ s = "VAZIO" \/ s = "HUMANO".

(** A map with a line shorter than the first: the line ["*  "] of the map
    file loses its trailing blanks when the file is read. *)
Definition mapa_linha_curta : list string := ["*E*"; "*"; "*H*"].

Definition ambiente_linha_curta : AmbienteNavegacao :=
  {| labirinto := mapa_linha_curta; posicao_agente := (0, 1);
     direcao_agente := 2; objeto_coletado := false |}.

Definition ambiente_exemplo : AmbienteNavegacao :=
  {| labirinto := ["*E*"; "* *"; "*H*"]; posicao_agente := (0, 1);
     direcao_agente := 2; objeto_coletado := false |}.

Definition ambiente_com_carga : AmbienteNavegacao :=
  {| labirinto := ["*E*"; "* *"; "* *"]; posicao_agente := (1, 1);
     direcao_agente := 2; objeto_coletado := true |}.

Definition mais_delta (p delta : Z * Z) : Z * Z := (fst p + fst delta, snd p + snd delta).

Definition explorador_exemplo : ExploradorInteligente :=
  iniciar_exploracao (novo_explorador ambiente_exemplo false 500).

(** The number of quarter turns from [d] to [alvo]. *)
Definition giros_ate (d alvo : Z) : nat := Z.to_nat ((alvo - d) mod 4).

(** A map on which the exploration walks over the object without seeing it
    and backtracks until the stack is empty. *)
Definition ambiente_sem_saida : AmbienteNavegacao :=
  {| labirinto := ["*E***"; "*   *"; "***H*"]; posicao_agente := (0, 1);
     direcao_agente := 2; objeto_coletado := false |}.

Definition grade_exemplo : list (list string) :=
  [["*"; " "; " "]; [" "; "*"; " "]; [" "; " "; " "]].

(** ** Cells of the map *)

(** The map has a cell at [p], with non-negative coordinates, whose
    character satisfies [alvo]. *)
Definition celula_eh (alvo : ascii -> bool) (lab : list string) (p : Z * Z) : Prop :=
  0 <= fst p /\ 0 <= snd p /\
  exists ch, conteudo_celula lab (fst p) (snd p) = Retorna ch /\ alvo ch = true.

(** What a sensor should read at [p]: the class of the character of the
    cell, a wall where the map has no cell. *)
Definition leitura_da_celula (lab : list string) (p : Z * Z) : string :=
  if (0 <=? fst p) && (0 <=? snd p) then
    match lab !! Z.to_nat (fst p) with
    | Some linha =>
        match caracteres linha !! Z.to_nat (snd p) with
        | Some c => classificar c
        | None => "PAREDE"
        end
    | None => "PAREDE"
    end
  else "PAREDE".

(** ** The explorer's picture of the map *)

(** The stack is a walk: each position is a 4-neighbour of the one below. *)
Fixpoint pilha_conexa (pilha : list (Z * Z)) : bool :=
  match pilha with
  | p :: resto =>
      match resto with
      | q :: _ => adjacente p q && pilha_conexa resto
      | [] => true
      end
  | [] => true
  end.

(** An entry of the known map agrees with the map: ["X"] on a cell that
    reads as a wall, ["@"] on the object, ["."] on a cell that reads as
    empty, ["E"] on the position the exploration started from. *)
Definition entrada_fiel (lab : list string) (inicial p : Z * Z) (s : string) : Prop :=
  (s = "X" /\ leitura_da_celula lab p = "PAREDE") \/
  (s = "@" /\ leitura_da_celula lab p = "HUMANO") \/
  (s = "." /\ leitura_da_celula lab p = "VAZIO") \/
  (s = "E" /\ p = inicial).

(** What the explorer knows is true of the map [lab] it explores. *)
Record conhecimento_fiel (lab : list string) (inicial : Z * Z) (carga : bool)
    (e : ExploradorInteligente) : Prop := {
  cf_labirinto : labirinto (ambiente e) = lab;
  cf_carga : objeto_coletado (ambiente e) = carga;
  cf_orientacao : orientacao_valida (ambiente e) = true;
  cf_posicao : posicao_agente (ambiente e) ∈ posicoes_visitadas e;
  cf_visitadas :
    forall p, p ∈ posicoes_visitadas e -> leitura_da_celula lab p <> "PAREDE";
  cf_mapa :
    forall p s, mapa_conhecido e !! p = Some s -> entrada_fiel lab inicial p s;
  cf_objeto :
    forall p, posicao_objeto e = Some p -> leitura_da_celula lab p = "HUMANO"
}.

(** The stack leads from the starting position to the agent. *)
Record pilha_fiel (inicial : Z * Z) (e : ExploradorInteligente) : Prop := {
  pf_topo : last (pilha_navegacao e) = Some (posicao_agente (ambiente e));
  pf_base : head (pilha_navegacao e) = Some inicial;
  pf_conexa : pilha_conexa (pilha_navegacao e) = true;
  pf_visitada : forall p, p ∈ pilha_navegacao e -> p ∈ posicoes_visitadas e
}.

(** The three cells the explorer may move to, in the order it tries them:
    ahead, to the right, to the left. *)
Definition candidatas (p frente : Z * Z) : list (Z * Z) :=
  [(fst p + fst frente, snd p + snd frente);
   (fst p + snd frente, snd p - fst frente);
   (fst p - snd frente, snd p + fst frente)].

(** The cell may be explored: not visited yet, not known to be a wall. *)
Definition a_explorar (e : ExploradorInteligente) (q : Z * Z) : bool :=
  bool_decide (q ∉ posicoes_visitadas e)
  && negb (bool_decide (mapa_conhecido e !! q = Some "X")).

(** ** Orchestrator: [AgenteNavegacaoInteligente] ([robo_resgate.py]) *)

(** The exceptions that leave the orchestrator: those of the grid world,
    of the search and of the explorer pass through unchanged; its own are the
    [ValueError] of [max] on an empty sequence, the [ValueError] of a mission
    whose exploration did not find the object, and the [TypeError] of a
    subscript applied to [None]. *)
Inductive excecao_agente : Type :=
| DaSimulacao (e : excecao)
| MaxSequenciaVazia
| ObjetoNaoEncontrado
| TypeError.

Inductive desfecho (A : Type) : Type :=
| Conclui (a : A)
| Aborta (e : excecao_agente)
| NaoTermina.
Arguments Conclui {A} a.
Arguments Aborta {A} e.
Arguments NaoTermina {A}.

Definition ligar_desfecho {A B} (c : desfecho A) (k : A -> desfecho B) : desfecho B :=
  match c with
  | Conclui a => k a
  | Aborta e => Aborta e
  | NaoTermina => NaoTermina
  end.

Notation "'tenta' x '<-' c 'em' k" := (ligar_desfecho c (fun x => k))
  (at level 10, x name, c at level 100, k at level 200, only parsing).

(** A call into the layers below. *)
Definition elevar {A} (c : resultado A) : desfecho A :=
  match c with
  | Retorna a => Conclui a
  | Levanta e => Aborta (DaSimulacao e)
  | Diverge => NaoTermina
  end.

(** [max(len(linha) for linha in labirinto)] *)
Definition maior_largura (lab : list string) : desfecho nat :=
  match lab with
  | [] => Aborta MaxSequenciaVazia
  | _ => Conclui (foldr Nat.max 0%nat (map (fun l => length (caracteres l)) lab))
  end.

(** One line of the normalized grid: a wall for a wall character and for a
    missing cell, a blank for anything else. *)
Definition normalizar_linha (numero_colunas : nat) (linha : string) : list string :=
  map (fun j => match caracteres linha !! j with
                | Some c => if eh_parede c then "*" else " "
                | None => "*"
                end) (seq 0 numero_colunas).

Definition _construir_representacao_mapa (lab : list string)
  : desfecho (list (list string)) :=
  tenta numero_colunas <- maior_largura lab em
  Conclui (map (normalizar_linha numero_colunas) lab).

(** [len(linha) > 0 and linha[0] == 'E'], [len(linha) > j and linha[j] == 'E']
    and [len(linha) > 0 and linha[-1] == 'E']. *)
Definition entrada_em (cs : list ascii) (j : nat) : bool :=
  match cs !! j with
  | Some c => eh_entrada c
  | None => false
  end.

Definition entrada_no_fim (cs : list ascii) : bool :=
  match last cs with
  | Some c => eh_entrada c
  | None => false
  end.

(** The first loop of [_localizar_saida], over the lines from line [i] on. *)
Fixpoint saida_lateral (i : Z) (linhas : list string) : option (Z * Z) :=
  match linhas with
  | [] => None
  | linha :: resto =>
      if entrada_em (caracteres linha) 0 then Some (i, 0)
      else if entrada_no_fim (caracteres linha) then Some (i, len (caracteres linha) - 1)
      else saida_lateral (i + 1) resto
  end.

(** The second loop, over the columns [js], on the first and last lines. *)
Fixpoint saida_extremos (primeira ultima : list ascii) (numero_linhas : Z)
    (js : list nat) : option (Z * Z) :=
  match js with
  | [] => None
  | j :: resto =>
      if entrada_em primeira j then Some (0, Z.of_nat j)
      else if entrada_em ultima j then Some (numero_linhas - 1, Z.of_nat j)
      else saida_extremos primeira ultima numero_linhas resto
  end.

Definition _localizar_saida (lab : list string) : desfecho (option (Z * Z)) :=
  tenta max_colunas <- maior_largura lab em
  match saida_lateral 0 lab with
  | Some p => Conclui (Some p)
  | None =>
      let primeira := caracteres (hd "" lab) in
      let ultima := caracteres (default "" (last lab)) in
      Conclui (saida_extremos primeira ultima (len lab) (seq 0 max_colunas))
  end.

(** [_localizar_objeto_no_mapa]: the two nested loops return at the first
    object character. *)
Fixpoint primeiro_na_linha (alvo : ascii -> bool) (i j : Z) (cs : list ascii)
  : option (Z * Z) :=
  match cs with
  | [] => None
  | c :: cs' => if alvo c then Some (i, j) else primeiro_na_linha alvo i (j + 1) cs'
  end.

Fixpoint primeiro_no_mapa (alvo : ascii -> bool) (i : Z) (lab : list string)
  : option (Z * Z) :=
  match lab with
  | [] => None
  | linha :: resto =>
      match primeiro_na_linha alvo i 0 (caracteres linha) with
      | Some p => Some p
      | None => primeiro_no_mapa alvo (i + 1) resto
      end
  end.

Definition _localizar_objeto_no_mapa (lab : list string) : option (Z * Z) :=
  primeiro_no_mapa eh_objeto 0 lab.

(** The cell lies on the margin of the map: first or last character of its
    line, or on the first or last line. *)
Definition na_margem (lab : list string) (p : Z * Z) : Prop :=
  snd p = 0 \/
  (exists linha, lab !! Z.to_nat (fst p) = Some linha /\ snd p = len (caracteres linha) - 1) \/
  fst p = 0 \/ fst p = len lab - 1.

(** *** Navigation along a path

    The sound effects and the pauses of the agent touch neither the grid
    world nor the control flow, and are left out. *)

(** [while self.ambiente.direcao_agente != direcao_desejada]: one level of
    [combustivel] per turn of the loop. *)
Fixpoint _ajustar_orientacao_agente (combustivel : nat) (direcao_desejada : Z)
    (amb : AmbienteNavegacao) : resultado AmbienteNavegacao :=
  if direcao_agente amb =? direcao_desejada then Retorna amb
  else
    match combustivel with
    | O => Diverge
    | S resto =>
        faz amb' <- executar_comando_navegacao "G" amb em
        _ajustar_orientacao_agente resto direcao_desejada amb'
    end.

(** [_navegar_para_posicao]: the state the grid world is left in, and how
    the call ends; a raised exception leaves the grid world as the last
    command that succeeded left it. The direction asked for is one of the
    four, which four turns reach from any orientation: the loop of
    [_ajustar_orientacao_agente] is given four turns. *)
Definition _navegar_para_posicao (posicao_destino : Z * Z) (amb : AmbienteNavegacao)
  : AmbienteNavegacao * resultado unit :=
  let posicao_atual := posicao_agente amb in
  let delta_linha := fst posicao_destino - fst posicao_atual in
  let delta_coluna := snd posicao_destino - snd posicao_atual in
  let direcao_destino :=
    if delta_linha =? 1 then Some 2
    else if delta_linha =? -1 then Some 0
    else if delta_coluna =? 1 then Some 1
    else if delta_coluna =? -1 then Some 3
    else None in
  match direcao_destino with
  | None => (amb, Retorna tt)
  | Some d =>
      match _ajustar_orientacao_agente 4 d amb with
      | Retorna amb1 =>
          match executar_comando_navegacao "A" amb1 with
          | Retorna amb2 => (amb2, exibir_estado_ambiente amb2)
          | Levanta ex => (amb1, Levanta ex)
          | Diverge => (amb1, Diverge)
          end
      | Levanta ex => (amb, Levanta ex)
      | Diverge => (amb, Diverge)
      end
  end.

(** The loop of [_executar_sequencia_navegacao]: an exception raised on the
    way to a position is caught and the loop goes on to the next position.
    As for [_navegar_para_posicao], the state left behind comes with the way
    the call ends. *)
Fixpoint seguir_posicoes (posicoes : list (Z * Z)) (amb : AmbienteNavegacao)
  : AmbienteNavegacao * resultado unit :=
  match posicoes with
  | [] => (amb, Retorna tt)
  | p :: resto =>
      match _navegar_para_posicao p amb with
      | (amb', Diverge) => (amb', Diverge)
      | (amb', _) => seguir_posicoes resto amb'
      end
  end.

(** The first position of the sequence, the current one, is skipped. *)
Definition _executar_sequencia_navegacao (sequencia_posicoes : list (Z * Z))
    (amb : AmbienteNavegacao) : AmbienteNavegacao * resultado unit :=
  match sequencia_posicoes with
  | [] => (amb, Retorna tt)
  | _ :: resto => seguir_posicoes resto amb
  end.

(** *** Return to the exit *)

(** [busca_astar(mapa, inicial, objetivo)] with an [objetivo] that may be
    [None]: the search tests the grid and the start, then subscripts the
    goal. *)
Definition busca_astar (mapa : list (list string)) (posicao_inicial : Z * Z)
    (posicao_objetivo : option (Z * Z)) : desfecho (option (list (Z * Z))) :=
  match posicao_objetivo with
  | Some objetivo => elevar (algoritmo_busca_astar mapa posicao_inicial objetivo)
  | None =>
      if mapa_vazio mapa then Aborta (DaSimulacao (ValueError MsgMapaVazio))
      else
        tenta inicial_fora <- elevar (fora_do_mapa mapa posicao_inicial) em
        if inicial_fora
        then Aborta (DaSimulacao (ValueError (MsgInicialInvalida posicao_inicial)))
        else Aborta TypeError
  end.

(** [_retornar_a_saida]: the grid world afterwards and the path returned.
    The walk and the ejection that follows it run under [try]: the handler
    attempts the ejection once more and ignores its failure, so that a
    failed ejection leaves the grid world as the walk left it. *)
Definition _retornar_a_saida (representacao_mapa : list (list string))
    (amb : AmbienteNavegacao)
  : desfecho (AmbienteNavegacao * option (list (Z * Z))) :=
  let posicao_inicial := posicao_agente amb in
  tenta posicao_saida <- _localizar_saida (labirinto amb) em
  if bool_decide (Some posicao_inicial = posicao_saida) then
    tenta amb' <- elevar (executar_comando_navegacao "E" amb) em
    Conclui (amb', Some [posicao_inicial])
  else
    tenta caminho_retorno <- busca_astar representacao_mapa posicao_inicial posicao_saida em
    match caminho_retorno with
    | None => Conclui (amb, None)
    | Some caminho =>
        match _executar_sequencia_navegacao caminho amb with
        | (amb1, Retorna _) =>
            if bool_decide (Some (posicao_agente amb1) = posicao_saida)
            then Conclui (estado_apos "E" amb1, Some caminho)
            else Conclui (amb1, Some caminho)
        | (amb1, Levanta _) => Conclui (estado_apos "E" amb1, Some caminho)
        | (_, Diverge) => NaoTermina
        end
    end.

(** *** The mission *)

(** The agent shares the grid world and the log with its explorer: both are
    those of [explorador_ambiente]. [posicao_objeto_do_agente] is the
    attribute [posicao_objeto] of the agent; [caminho_planejado] holds what
    the search returned, [None] included. The attributes [mapa_explorado]
    and [pilha_navegacao] of the agent are set by the constructor and never
    used again: they are left out. *)
Record AgenteNavegacaoInteligente : Type := {
  explorador_ambiente : ExploradorInteligente;
  caminho_planejado : option (list (Z * Z));
  representacao_mapa : list (list string);
  posicao_objeto_do_agente : option (Z * Z)
}.

(** [AgenteNavegacaoInteligente(ambiente, sistema_log)]; the explorer gets
    the default budget of 500 turns. *)
Definition novo_agente (amb : AmbienteNavegacao) (log : bool)
  : desfecho AgenteNavegacaoInteligente :=
  tenta rep <- _construir_representacao_mapa (labirinto amb) em
  Conclui {| explorador_ambiente := novo_explorador amb log 500;
             caminho_planejado := Some [];
             representacao_mapa := rep;
             posicao_objeto_do_agente := None |}.

Definition _verificar_objeto_adjacente (amb : AmbienteNavegacao) : resultado bool :=
  faz leituras <- obter_leituras_sensores_proximidade amb em
  Retorna (frente_eh_humano leituras).

Definition _coletar_objeto_detectado (amb : AmbienteNavegacao)
  : resultado AmbienteNavegacao :=
  faz adjacente <- _verificar_objeto_adjacente amb em
  if adjacente then executar_comando_navegacao "P" amb else Retorna amb.

(** [_buscar_objeto_por_exploracao]: the agent afterwards and whether a
    path (the current position alone) is returned. *)
Definition _buscar_objeto_por_exploracao (ag : AgenteNavegacaoInteligente)
  : resultado (AgenteNavegacaoInteligente * option (list (Z * Z))) :=
  faz r <- explorar_ate_encontrar_objeto (explorador_ambiente ag) em
  let '(achou, _, e') := r in
  if negb achou then
    Retorna ({| explorador_ambiente := e';
                caminho_planejado := caminho_planejado ag;
                representacao_mapa := representacao_mapa ag;
                posicao_objeto_do_agente := posicao_objeto_do_agente ag |}, None)
  else
    Retorna ({| explorador_ambiente := e';
                caminho_planejado := caminho_planejado ag;
                representacao_mapa := representacao_mapa ag;
                posicao_objeto_do_agente := posicao_objeto e' |},
             Some [posicao_agente (ambiente e')]).

Definition com_ambiente_do_agente (ag : AgenteNavegacaoInteligente)
    (amb : AmbienteNavegacao) : AgenteNavegacaoInteligente :=
  {| explorador_ambiente := com_ambiente (explorador_ambiente ag) amb;
     caminho_planejado := caminho_planejado ag;
     representacao_mapa := representacao_mapa ag;
     posicao_objeto_do_agente := posicao_objeto_do_agente ag |}.

(** [executar_missao_resgate]: the handler of the [try] block logs the
    exception and raises it again. *)
Definition executar_missao_resgate (ag : AgenteNavegacaoInteligente)
  : desfecho AgenteNavegacaoInteligente :=
  tenta _ <- elevar (registrar (explorador_ambiente ag)) em
  tenta _ <- elevar (exibir_estado_ambiente (ambiente (explorador_ambiente ag))) em
  tenta r <- elevar (_buscar_objeto_por_exploracao ag) em
  match snd r with
  | None => Aborta ObjetoNaoEncontrado
  | Some _ =>
      let ag1 := fst r in
      tenta amb1 <- elevar (_coletar_objeto_detectado (ambiente (explorador_ambiente ag1))) em
      tenta _ <- elevar (exibir_estado_ambiente amb1) em
      tenta _ <- elevar (_validar_estado_pos_coleta amb1) em
      if objeto_coletado amb1 then
        tenta r2 <- _retornar_a_saida (representacao_mapa ag1) amb1 em
        tenta _ <- elevar (exibir_estado_ambiente (fst r2)) em
        Conclui (com_ambiente_do_agente ag1 (fst r2))
      else Conclui (com_ambiente_do_agente ag1 amb1)
  end.

(** *** The search strategy of the agent *)

(** The loop [for i in range(1, len(self.caminho_planejado))] of
    [_buscar_objeto_por_astar]: [restantes] are the positions of the path
    from index [i] on. Nothing is caught here: an exception of the sensors
    or of a step ends the call. *)
Fixpoint percorrer_caminho_planejado (caminho : list (Z * Z)) (i : nat)
    (restantes : list (Z * Z)) (amb : AmbienteNavegacao)
  : resultado (AmbienteNavegacao * list (Z * Z)) :=
  match restantes with
  | [] => Retorna (amb, caminho)
  | p :: resto =>
      faz adjacente <- _verificar_objeto_adjacente amb em
      if adjacente then Retorna (amb, take (S i) caminho)
      else
        match _navegar_para_posicao p amb with
        | (amb', Retorna _) => percorrer_caminho_planejado caminho (S i) resto amb'
        | (_, Levanta ex) => Levanta ex
        | (_, Diverge) => Diverge
        end
  end.

(** [_buscar_objeto_por_astar]: the agent afterwards and the path returned. *)
Definition _buscar_objeto_por_astar (ag : AgenteNavegacaoInteligente)
  : desfecho (AgenteNavegacaoInteligente * option (list (Z * Z))) :=
  let amb := ambiente (explorador_ambiente ag) in
  let posicao_inicial := posicao_agente amb in
  match _localizar_objeto_no_mapa (labirinto amb) with
  | None => Conclui (ag, None)
  | Some posicao_objeto =>
      tenta planejado <-
        busca_astar (representacao_mapa ag) posicao_inicial (Some posicao_objeto) em
      match planejado with
      | None =>
          Conclui ({| explorador_ambiente := explorador_ambiente ag;
                      caminho_planejado := None;
                      representacao_mapa := representacao_mapa ag;
                      posicao_objeto_do_agente := posicao_objeto_do_agente ag |}, None)
      | Some caminho =>
          tenta r <- elevar (percorrer_caminho_planejado caminho 1 (drop 1 caminho) amb) em
          Conclui ({| explorador_ambiente := com_ambiente (explorador_ambiente ag) (fst r);
                      caminho_planejado := Some caminho;
                      representacao_mapa := representacao_mapa ag;
                      posicao_objeto_do_agente := Some posicao_objeto |},
                   Some (snd r))
      end
  end.

(** An agent on the sample grid world, as its constructor leaves it. *)
Definition agente_exemplo : AgenteNavegacaoInteligente :=
  {| explorador_ambiente := novo_explorador ambiente_exemplo false 500;
     caminho_planejado := Some [];
     representacao_mapa := [["*"; " "; "*"]; ["*"; " "; "*"]; ["*"; " "; "*"]];
     posicao_objeto_do_agente := None |}.

(** ** Cells of a grid of any shape *)

(** The cell of the grid at [p], when the grid has one there: line
    [fst p] exists and is long enough. Negative coordinates name no cell. *)
Definition celula_da_grade (mapa : list (list string)) (p : Z * Z) : option string :=
  if (0 <=? fst p) && (0 <=? snd p) then
    match mapa !! Z.to_nat (fst p) with
    | Some linha => linha !! Z.to_nat (snd p)
    | None => None
    end
  else None.

(** A map whose second line is longer than the first, and the states of the
    grid world on it: after construction, and carrying the object on the
    cell next to the entrance and on the entrance. *)
Definition mapa_linha_longa : list string := ["***"; "*@ E"; "****"].

Definition ambiente_linha_longa : AmbienteNavegacao :=
  {| labirinto := mapa_linha_longa; posicao_agente := (1, 3);
     direcao_agente := 3; objeto_coletado := false |}.

Definition carga_ao_lado_da_entrada : AmbienteNavegacao :=
  {| labirinto := ["***"; "*  E"; "****"]; posicao_agente := (1, 2);
     direcao_agente := 3; objeto_coletado := true |}.

Definition carga_na_entrada : AmbienteNavegacao :=
  {| labirinto := ["***"; "*  E"; "****"]; posicao_agente := (1, 3);
     direcao_agente := 3; objeto_coletado := true |}.

(* ================================================================== *)
(** * Properties of the grid world *)

Lemma ligar_retorna {A B} (c : resultado A) (k : A -> resultado B) b :
  ligar c k = Retorna b -> exists a, c = Retorna a /\ k a = Retorna b.
Proof. destruct c; simpl; intros H; try discriminate. eauto. Qed.

Lemma indice_retorna {A} (l : list A) i x :
  indice l i = Retorna x ->
  exists n : nat, l !! n = Some x /\
    (0 <= i -> n = Z.to_nat i) /\ (i < 0 -> n = Z.to_nat (len l + i)).
Proof.
  unfold indice. cbv zeta. intros H.
  destruct (0 <=? i) eqn:Hi.
  - apply Z.leb_le in Hi.
    destruct ((0 <=? i) && (i <? len l)); try discriminate.
    destruct (l !! Z.to_nat i) eqn:Hl; try discriminate.
    injection H as ->. exists (Z.to_nat i). split; [done|]. split; [done | lia].
  - apply Z.leb_gt in Hi.
    destruct ((0 <=? len l + i) && (len l + i <? len l)); try discriminate.
    destruct (l !! Z.to_nat (len l + i)) eqn:Hl; try discriminate.
    injection H as ->. exists (Z.to_nat (len l + i)). split; [done|]. split; [lia | done].
Qed.

Lemma indice_nao_negativo {A} (l : list A) i :
  0 <= i ->
  indice l i = match l !! Z.to_nat i with Some x => Retorna x | None => Levanta IndexError end.
Proof.
  intros Hi. unfold indice. cbv zeta. rewrite !(proj2 (Z.leb_le 0 i) Hi). simpl.
  destruct (i <? len l) eqn:Hlt.
  - reflexivity.
  - apply Z.ltb_ge in Hlt. unfold len in Hlt.
    rewrite lookup_ge_None_2; [done | lia].
Qed.

Lemma indice_nunca_diverge {A} (l : list A) i : indice l i <> Diverge.
Proof.
  unfold indice. cbv zeta. destruct (_ && _); [|done]. by destruct (l !! _).
Qed.

(** ** Rotation *)

Lemma girar_orientacao_valida amb amb' :
  _girar_agente amb = Retorna amb' -> orientacao_valida amb' = true.
Proof.
  unfold _girar_agente. intros [= <-]. unfold orientacao_valida. simpl.
  pose proof (Z.mod_pos_bound (direcao_agente amb + 1) 4 ltac:(lia)).
  apply andb_true_iff. split; [apply Z.leb_le | apply Z.ltb_lt]; lia.
Qed.

(** C9. [Rotate] always succeeds; it sets the orientation to
    [(orientation + 1) mod 4] and leaves the grid, the position and the
    carried flag as they were; from an orientation in [0..3], four
    rotations in a row give back the state they started from. *)
Theorem girar_quatro_vezes (amb : AmbienteNavegacao) :
  (exists amb',
      executar_comando_navegacao "G" amb = Retorna amb' /\
      direcao_agente amb' = (direcao_agente amb + 1) mod 4 /\
      labirinto amb' = labirinto amb /\
      posicao_agente amb' = posicao_agente amb /\
      objeto_coletado amb' = objeto_coletado amb) /\
  (orientacao_valida amb = true ->
   (faz a1 <- executar_comando_navegacao "G" amb em
    faz a2 <- executar_comando_navegacao "G" a1 em
    faz a3 <- executar_comando_navegacao "G" a2 em
    executar_comando_navegacao "G" a3) = Retorna amb).
Proof.
  split.
  - eexists. split; [reflexivity|]. simpl. auto.
  - intros Hv. unfold orientacao_valida in Hv.
    apply andb_true_iff in Hv as [H0 H4].
    apply Z.leb_le in H0. apply Z.ltb_lt in H4.
    destruct amb as [lab pos d obj]. simpl in *.
    unfold executar_comando_navegacao, _girar_agente, com_direcao. simpl.
    f_equal. f_equal.
    assert (d = 0 \/ d = 1 \/ d = 2 \/ d = 3) as [->|[->|[->| ->]]] by lia;
      reflexivity.
Qed.

Lemma girar_quatro_vezes_witness :
  (faz a1 <- executar_comando_navegacao "G" ambiente_exemplo em
   faz a2 <- executar_comando_navegacao "G" a1 em
   faz a3 <- executar_comando_navegacao "G" a2 em
   executar_comando_navegacao "G" a3) = Retorna ambiente_exemplo.
Proof.
  apply (proj2 (girar_quatro_vezes ambiente_exemplo)). reflexivity.
Defined.

(** ** Cells and bounds *)

Lemma conteudo_celula_retorna lab l c ch :
  0 <= l -> 0 <= c ->
  conteudo_celula lab l c = Retorna ch <->
  exists linha, lab !! Z.to_nat l = Some linha /\ caracteres linha !! Z.to_nat c = Some ch.
Proof.
  intros Hl Hc. unfold conteudo_celula, indice_str.
  rewrite (indice_nao_negativo lab l Hl).
  destruct (lab !! Z.to_nat l) as [linha|] eqn:Hlin; simpl.
  - rewrite (indice_nao_negativo _ c Hc).
    destruct (caracteres linha !! Z.to_nat c) as [x|] eqn:Hx.
    + split.
      * intros [= ->]. eauto.
      * intros (linha' & [= <-] & Hch). congruence.
    + split; [discriminate|]. intros (linha' & [= <-] & Hch). congruence.
  - split; [discriminate|]. intros (linha' & ? & _). discriminate.
Qed.

Lemma dentro_dos_limites_casos lab l c :
  dentro_dos_limites lab l c = Retorna false \/
  (dentro_dos_limites lab l c = Retorna true /\ 0 <= l < len lab /\
   exists primeira resto, lab = primeira :: resto /\ 0 <= c < len (caracteres primeira)).
Proof.
  unfold dentro_dos_limites.
  destruct ((0 <=? l) && (l <? len lab)) eqn:Hl; [|by left].
  apply andb_true_iff in Hl as [Hl0 Hl1].
  apply Z.leb_le in Hl0. apply Z.ltb_lt in Hl1.
  destruct lab as [|primeira resto]; [unfold len in Hl1; simpl in Hl1; lia|].
  unfold largura_primeira_linha. simpl.
  destruct ((0 <=? c) && (c <? len (caracteres primeira))) eqn:Hc; [|by left].
  right. apply andb_true_iff in Hc as [Hc0 Hc1].
  apply Z.leb_le in Hc0. apply Z.ltb_lt in Hc1.
  split; [done|]. split; [lia|]. eauto.
Qed.

Lemma caracteres_append s1 s2 :
  caracteres (s1 ++ s2)%string = (caracteres s1 ++ caracteres s2)%list.
Proof.
  unfold caracteres. induction s1 as [|a s1 IH]; simpl; [done|]. by rewrite IH.
Qed.

Lemma caracteres_string_of_list l : caracteres (string_of_list_ascii l) = l.
Proof. apply list_ascii_of_string_of_list_ascii. Qed.

(** Cells found by the scan of [_localizar_ponto_entrada] exist and satisfy
    the test of the scan. *)
Lemma colunas_com_elem alvo i j0 cs p :
  p ∈ colunas_com alvo i j0 cs ->
  fst p = i /\ j0 <= snd p /\
  exists ch, cs !! Z.to_nat (snd p - j0) = Some ch /\ alvo ch = true.
Proof.
  revert j0. induction cs as [|c cs IH]; simpl; intros j0 Hp.
  - by apply elem_of_nil in Hp.
  - apply elem_of_app in Hp as [Hp|Hp].
    + destruct (alvo c) eqn:Hc; [|by apply elem_of_nil in Hp].
      apply list_elem_of_singleton in Hp as ->. simpl.
      split; [done|]. split; [lia|]. exists c.
      replace (j0 - j0) with 0 by lia. done.
    + apply IH in Hp as (Hi & Hj & ch & Hch & Halvo).
      split; [done|]. split; [lia|]. exists ch. split; [|done].
      replace (Z.to_nat (snd p - j0)) with (S (Z.to_nat (snd p - (j0 + 1)))) by lia.
      done.
Qed.

Lemma celulas_com_elem alvo i0 lab p :
  p ∈ celulas_com alvo i0 lab ->
  i0 <= fst p /\ 0 <= snd p /\
  exists linha ch, lab !! Z.to_nat (fst p - i0) = Some linha /\
                   caracteres linha !! Z.to_nat (snd p) = Some ch /\ alvo ch = true.
Proof.
  revert i0. induction lab as [|linha lab IH]; simpl; intros i0 Hp.
  - by apply elem_of_nil in Hp.
  - apply elem_of_app in Hp as [Hp|Hp].
    + apply colunas_com_elem in Hp as (Hi & Hj & ch & Hch & Halvo).
      split; [lia|]. split; [done|]. exists linha, ch.
      rewrite Hi. replace (i0 - i0) with 0 by lia.
      replace (snd p - 0) with (snd p) in Hch by lia. done.
    + apply IH in Hp as (Hi & Hj & linha' & ch & Hlin & Hch & Halvo).
      split; [lia|]. split; [done|]. exists linha', ch. split; [|done].
      replace (Z.to_nat (fst p - i0)) with (S (Z.to_nat (fst p - (i0 + 1)))) by lia.
      done.
Qed.

Lemma entrada_nao_eh_parede ch : eh_entrada ch = true -> eh_parede ch = false.
Proof.
  unfold eh_entrada, eh_parede. intros H. apply Ascii.eqb_eq in H as ->. reflexivity.
Qed.

Lemma novo_ambiente_posicao_valida mapa amb :
  novo_ambiente mapa = Retorna amb -> posicao_valida amb = true.
Proof.
  unfold novo_ambiente. intros H.
  apply ligar_retorna in H as (entrada & Hent & H).
  apply ligar_retorna in H as (_ & _ & [= <-]).
  unfold _localizar_ponto_entrada in Hent.
  destruct (celulas_com eh_entrada 0 mapa) as [|p [|q resto]] eqn:Hcel; try discriminate.
  injection Hent as ->.
  assert (Hin : entrada ∈ celulas_com eh_entrada 0 mapa) by (rewrite Hcel; set_solver).
  apply celulas_com_elem in Hin as (Hi & Hj & linha & ch & Hlin & Hch & Halvo).
  unfold posicao_valida. simpl. destruct entrada as [l c]. simpl in *.
  replace (l - 0) with l in Hlin by lia.
  assert (Hcont : conteudo_celula mapa l c = Retorna ch)
    by (apply conteudo_celula_retorna; eauto).
  rewrite Hcont, (entrada_nao_eh_parede _ Halvo).
  rewrite (proj2 (Z.leb_le 0 l) Hi), (proj2 (Z.leb_le 0 c) Hj). reflexivity.
Qed.

(** ** Sensors *)

Lemma classificar_conhecida c : leitura_conhecida (classificar c).
Proof.
  unfold classificar, leitura_conhecida.
  destruct (eh_parede c); [auto|]. destruct (eh_objeto c); auto.
Qed.

Lemma ler_sensor_casos lab atual delta :
  ler_sensor lab atual delta = Levanta IndexError \/
  exists s, ler_sensor lab atual delta = Retorna s /\ leitura_conhecida s.
Proof.
  unfold ler_sensor.
  destruct (dentro_dos_limites_casos lab (fst atual + fst delta) (snd atual + snd delta))
    as [-> | (-> & Hl & primeira & resto & -> & Hc)]; simpl.
  - right. eexists. split; [reflexivity|]. left. reflexivity.
  - unfold conteudo_celula, indice_str.
    rewrite (indice_nao_negativo _ _ (proj1 Hl)).
    destruct (_ !! Z.to_nat (fst atual + fst delta)) as [linha|]; simpl; [|by left].
    rewrite (indice_nao_negativo _ _ (proj1 Hc)).
    destruct (caracteres linha !! _) as [ch|]; simpl; [|by left].
    right. eexists. split; [reflexivity|]. apply classificar_conhecida.
Qed.

Lemma ler_sensores_retorna lab atual direcoes leituras :
  ler_sensores lab atual direcoes = Retorna leituras ->
  length leituras = length direcoes /\ Forall leitura_conhecida leituras.
Proof.
  revert leituras. induction direcoes as [|delta resto IH]; simpl; intros leituras H.
  - injection H as <-. split; [done | constructor].
  - apply ligar_retorna in H as (s & Hs & H).
    apply ligar_retorna in H as (ls & Hls & [= <-]).
    destruct (IH _ Hls) as [Hlen Hall]. split; [simpl; lia|].
    constructor; [|done].
    destruct (ler_sensor_casos lab atual delta) as [He | (s' & Hs' & Hk)]; congruence.
Qed.

Lemma direcoes_relativas_retorna d direcoes :
  direcoes_relativas d = Retorna direcoes ->
  0 <= d < 4 /\ length direcoes = 3%nat /\
  exists frente, direcoes !! 1%nat = Some frente /\ direcoes_frente d = Retorna frente.
Proof.
  unfold direcoes_relativas, direcoes_frente.
  destruct (d =? 0) eqn:H0; [apply Z.eqb_eq in H0; intros [= <-]; split; [lia|]; split; [done|]; eexists; split; reflexivity|].
  destruct (d =? 1) eqn:H1; [apply Z.eqb_eq in H1; intros [= <-]; split; [lia|]; split; [done|]; eexists; split; reflexivity|].
  destruct (d =? 2) eqn:H2; [apply Z.eqb_eq in H2; intros [= <-]; split; [lia|]; split; [done|]; eexists; split; reflexivity|].
  destruct (d =? 3) eqn:H3; [apply Z.eqb_eq in H3; intros [= <-]; split; [lia|]; split; [done|]; eexists; split; reflexivity|].
  discriminate.
Qed.

(** Every call of the sensing operation that returns gives three readings,
    each of them one of the three known words. *)
Lemma sensores_tres_leituras amb leituras :
  obter_leituras_sensores_proximidade amb = Retorna leituras ->
  length leituras = 3%nat /\ Forall leitura_conhecida leituras.
Proof.
  unfold obter_leituras_sensores_proximidade. intros H.
  apply ligar_retorna in H as (direcoes & Hd & H).
  apply direcoes_relativas_retorna in Hd as (_ & Hlen & _).
  apply ler_sensores_retorna in H as [H1 H2]. split; [congruence | done].
Qed.

(** C2. On the map [mapa_linha_curta], which the constructor accepts, the
    agent at the entrance faces the short line; the cells [(1,2)] and
    [(1,1)] are missing trailing cells and should read as walls, but the
    sensing operation raises [IndexError] and returns no reading. *)
Theorem sensores_em_linha_curta :
  novo_ambiente mapa_linha_curta = Retorna ambiente_linha_curta /\
  obter_leituras_sensores_proximidade ambiente_linha_curta = Levanta IndexError.
Proof. split; reflexivity. Qed.

(** C5. On the same map [Advance] towards the missing cell [(1,1)] of the
    short line raises [IndexError], not the collision [ValueError]. *)
Theorem avancar_em_linha_curta :
  novo_ambiente mapa_linha_curta = Retorna ambiente_linha_curta /\
  celula_alvo ambiente_linha_curta = Retorna (1, 1) /\
  conteudo_celula mapa_linha_curta 1 1 = Levanta IndexError /\
  executar_comando_navegacao "A" ambiente_linha_curta = Levanta IndexError.
Proof. repeat split; reflexivity. Qed.

(** ** Post-collection validation *)

(** C10. The validation never raises the sensor-fault alarm; whenever the
    sensing operation returns, it returns three readings and the validation
    passes or raises one of the two other alarms. *)
Theorem validacao_sem_alarme_de_leituras (amb : AmbienteNavegacao) :
  _validar_estado_pos_coleta amb <> Levanta (ValueError MsgAlarmeLeituras) /\
  (forall leituras,
      obter_leituras_sensores_proximidade amb = Retorna leituras ->
      length leituras = 3%nat /\
      (_validar_estado_pos_coleta amb = Retorna tt \/
       _validar_estado_pos_coleta amb = Levanta (ValueError MsgAlarmeParedes) \/
       _validar_estado_pos_coleta amb = Levanta (ValueError MsgAlarmeBeco))).
Proof.
  unfold _validar_estado_pos_coleta.
  destruct (negb (objeto_coletado amb)).
  { split; [discriminate|]. intros ls Hls.
    split; [by apply (sensores_tres_leituras amb)| by left]. }
  destruct (obter_leituras_sensores_proximidade amb) as [ls| e |] eqn:Hs; simpl.
  - destruct (sensores_tres_leituras _ _ Hs) as [Hlen _].
    assert (Hl3 : len ls = 3) by (unfold len; lia).
    rewrite Hl3. simpl.
    split.
    + destruct (forallb _ ls); [discriminate|].
      destruct (_ =? 0); discriminate.
    + intros ? [= <-]. split; [done|].
      destruct (forallb _ ls); [auto|]. destruct (_ =? 0); auto.
  - split; [|discriminate].
    intros Heq. injection Heq as ->.
    unfold obter_leituras_sensores_proximidade in Hs.
    destruct (direcoes_relativas (direcao_agente amb)) as [ds| e |] eqn:Hd; simpl in Hs.
    + assert (Hcasos : forall ds', ler_sensores (labirinto amb) (posicao_agente amb) ds'
                               <> Levanta (ValueError MsgAlarmeLeituras)).
      { induction ds' as [|delta resto IH]; simpl; [discriminate|].
        destruct (ler_sensor_casos (labirinto amb) (posicao_agente amb) delta)
          as [-> | (s & -> & _)]; simpl; [discriminate|].
        destruct (ler_sensores _ _ resto); simpl; congruence. }
      by apply (Hcasos ds).
    + injection Hs as ->. unfold direcoes_relativas in Hd.
      destruct (direcao_agente amb =? 0); [discriminate Hd|].
      destruct (direcao_agente amb =? 1); [discriminate Hd|].
      destruct (direcao_agente amb =? 2); [discriminate Hd|].
      destruct (direcao_agente amb =? 3); discriminate Hd.
    + discriminate.
  - split; discriminate.
Qed.

Lemma validacao_sem_alarme_de_leituras_witness :
  length ["PAREDE"; "VAZIO"; "PAREDE"] = 3%nat /\
  (_validar_estado_pos_coleta ambiente_com_carga = Retorna tt \/
   _validar_estado_pos_coleta ambiente_com_carga = Levanta (ValueError MsgAlarmeParedes) \/
   _validar_estado_pos_coleta ambiente_com_carga = Levanta (ValueError MsgAlarmeBeco)).
Proof.
  apply (proj2 (validacao_sem_alarme_de_leituras ambiente_com_carga)). reflexivity.
Defined.

(** ** Eject *)

Lemma posicao_valida_celula amb :
  posicao_valida amb = true ->
  0 <= fst (posicao_agente amb) /\ 0 <= snd (posicao_agente amb) /\
  exists linha ch,
    labirinto amb !! Z.to_nat (fst (posicao_agente amb)) = Some linha /\
    caracteres linha !! Z.to_nat (snd (posicao_agente amb)) = Some ch /\
    eh_parede ch = false.
Proof.
  unfold posicao_valida. destruct (posicao_agente amb) as [l c]. simpl.
  intros H. apply andb_true_iff in H as [H Hc].
  apply andb_true_iff in H as [Hl0 Hc0].
  apply Z.leb_le in Hl0. apply Z.leb_le in Hc0.
  destruct (conteudo_celula (labirinto amb) l c) as [ch| |] eqn:Hcont; try discriminate.
  apply conteudo_celula_retorna in Hcont as (linha & Hlin & Hch); [|done|done].
  split; [done|]. split; [done|]. exists linha, ch.
  by apply negb_true_iff in Hc.
Qed.

Lemma celula_posicao_valida amb linha ch :
  0 <= fst (posicao_agente amb) -> 0 <= snd (posicao_agente amb) ->
  labirinto amb !! Z.to_nat (fst (posicao_agente amb)) = Some linha ->
  caracteres linha !! Z.to_nat (snd (posicao_agente amb)) = Some ch ->
  eh_parede ch = false ->
  posicao_valida amb = true.
Proof.
  unfold posicao_valida. destruct (posicao_agente amb) as [l c]. simpl.
  intros Hl Hc Hlin Hch Hp.
  assert (Hcont : conteudo_celula (labirinto amb) l c = Retorna ch)
    by (apply conteudo_celula_retorna; eauto).
  rewrite Hcont, Hp, (proj2 (Z.leb_le 0 l) Hl), (proj2 (Z.leb_le 0 c) Hc). reflexivity.
Qed.

(** [Eject] by the test the simulator makes. In a well-formed state it raises
    the not-carrying error when nothing is carried; otherwise it raises the
    not-at-exit error unless [na_borda] holds: row 0, the last row, column 0
    or the column that ends the first line; on success only the carried flag
    changes, to false. *)
Lemma ejetar_pelo_teste_da_borda (amb : AmbienteNavegacao) :
  posicao_valida amb = true ->
  executar_comando_navegacao "E" amb =
    if negb (objeto_coletado amb) then Levanta (ValueError MsgEjecaoSemObjeto)
    else if negb (na_borda amb) then Levanta (ValueError MsgEjecaoForaSaida)
    else Retorna {| labirinto := labirinto amb;
                    posicao_agente := posicao_agente amb;
                    direcao_agente := direcao_agente amb;
                    objeto_coletado := false |}.
Proof.
  intros Hv. apply posicao_valida_celula in Hv as (Hl & Hc & linha & ch & Hlin & _).
  change (executar_comando_navegacao "E" amb) with (_ejetar_objeto amb).
  destruct amb as [lab [l c] d obj]. simpl in *.
  unfold _ejetar_objeto. simpl. destruct (negb obj); [done|].
  unfold _verificar_posicao_saida, na_borda, com_objeto_coletado. simpl.
  destruct lab as [|primeira resto]; [done|].
  destruct ((l =? 0) || (l =? len (primeira :: resto) - 1) || (c =? 0)); simpl; [done|].
  unfold largura_primeira_linha. simpl.
  destruct (c =? len (caracteres primeira) - 1); reflexivity.
Qed.

(** ** The position invariant *)

Lemma avancar_posicao_valida amb amb' :
  _avancar_agente amb = Retorna amb' -> posicao_valida amb' = true.
Proof.
  unfold _avancar_agente. intros H.
  apply ligar_retorna in H as (delta & _ & H).
  set (nl := fst (posicao_agente amb) + fst delta) in *.
  set (nc := snd (posicao_agente amb) + snd delta) in *.
  destruct (dentro_dos_limites_casos (labirinto amb) nl nc)
    as [Hd | (Hd & Hl & primeira & resto & Hlab & Hc)]; rewrite Hd in H; simpl in H;
    [discriminate|].
  apply ligar_retorna in H as (ch & Hch & H).
  destruct (negb (eh_parede ch)) eqn:Hp; [|discriminate].
  injection H as <-.
  apply conteudo_celula_retorna in Hch as (linha & Hlin & Hch); [|lia|lia].
  apply (celula_posicao_valida _ linha ch); simpl; try lia; try done.
  by apply negb_true_iff in Hp.
Qed.

Lemma ler_sensores_segundo lab atual d0 d1 d2 leituras :
  ler_sensores lab atual [d0; d1; d2] = Retorna leituras ->
  frente_eh_humano leituras = true ->
  ler_sensor lab atual d1 = Retorna "HUMANO".
Proof.
  simpl. intros H Hf.
  apply ligar_retorna in H as (s0 & _ & H).
  apply ligar_retorna in H as (ls & H & [= <-]).
  apply ligar_retorna in H as (s1 & Hs1 & H).
  apply ligar_retorna in H as (ls' & _ & [= <-]).
  simpl in Hf. apply String.eqb_eq in Hf. congruence.
Qed.

(** When the front sensor reads the object, the cell ahead lies inside the
    limits the sensor checks and holds the object. *)
Lemma frente_humano_celula amb leituras delta :
  obter_leituras_sensores_proximidade amb = Retorna leituras ->
  frente_eh_humano leituras = true ->
  direcoes_frente (direcao_agente amb) = Retorna delta ->
  let lo := fst (posicao_agente amb) + fst delta in
  let co := snd (posicao_agente amb) + snd delta in
  0 <= lo /\ 0 <= co /\ exists ch, conteudo_celula (labirinto amb) lo co = Retorna ch.
Proof.
  unfold obter_leituras_sensores_proximidade. intros H Hf Hdelta.
  apply ligar_retorna in H as (direcoes & Hd & H).
  apply direcoes_relativas_retorna in Hd as (_ & Hlen & frente & Hfr & Hfr').
  assert (frente = delta) as -> by congruence.
  destruct direcoes as [|d0 [|d1 [|d2 [|? ?]]]]; try discriminate.
  injection Hfr as ->.
  apply (ler_sensores_segundo _ _ _ _ _ _ H) in Hf.
  unfold ler_sensor in Hf.
  destruct (dentro_dos_limites_casos (labirinto amb)
              (fst (posicao_agente amb) + fst delta) (snd (posicao_agente amb) + snd delta))
    as [Hd | (Hd & Hl & primeira & resto & Hlab & Hc)]; rewrite Hd in Hf; simpl in Hf;
    [discriminate|].
  apply ligar_retorna in Hf as (ch & Hch & _).
  simpl. split; [lia|]. split; [lia|]. eauto.
Qed.

Lemma limite_fatia_dentro {A} (l : list A) k :
  0 <= k <= len l -> limite_fatia l k = Z.to_nat k.
Proof.
  intros Hk. unfold limite_fatia. cbv zeta.
  rewrite (proj2 (Z.leb_le 0 k)) by lia. lia.
Qed.

Lemma coletar_posicao_valida amb amb' :
  posicao_valida amb = true ->
  _coletar_objeto amb = Retorna amb' -> posicao_valida amb' = true.
Proof.
  intros Hv H. unfold _coletar_objeto in H.
  apply ligar_retorna in H as (leituras & Hs & H).
  destruct (frente_eh_humano leituras) eqn:Hf; [|discriminate].
  apply ligar_retorna in H as (delta & Hdelta & H).
  destruct (frente_humano_celula _ _ _ Hs Hf Hdelta) as (Hlo & Hco & ch0 & Hch0).
  set (lo := fst (posicao_agente amb) + fst delta) in *.
  set (co := snd (posicao_agente amb) + snd delta) in *.
  apply ligar_retorna in H as (ch & Hch & H).
  destruct (eh_objeto ch); [|discriminate].
  apply ligar_retorna in H as (linha_atual & Hlin & H).
  apply ligar_retorna in H as (lab' & Hlab' & [= <-]).
  apply conteudo_celula_retorna in Hch as (linha & Hlinha & Hcel); [|done|done].
  rewrite (indice_nao_negativo _ _ Hlo), Hlinha in Hlin. injection Hlin as <-.
  unfold atribuir in Hlab'. cbv zeta in Hlab'.
  rewrite !(proj2 (Z.leb_le 0 lo) Hlo) in Hlab'. simpl in Hlab'.
  destruct (lo <? len (labirinto amb)); [|discriminate]. injection Hlab' as <-.
  apply posicao_valida_celula in Hv as (Hl & Hc & linha_ag & ch_ag & Hlag & Hcag & Hpar).
  assert (Hco_lt : (Z.to_nat co < length (caracteres linha))%nat)
    by (eapply lookup_lt_Some; eauto).
  set (nova := (fatia_ate linha co ++ " " ++ fatia_desde linha (co + 1))%string).
  assert (Hnova : caracteres nova = <[Z.to_nat co := " "%char]> (caracteres linha)).
  { unfold nova, fatia_ate, fatia_desde.
    rewrite !caracteres_append, !caracteres_string_of_list.
    rewrite !limite_fatia_dentro by (unfold len; lia).
    replace (Z.to_nat (co + 1)) with (S (Z.to_nat co)) by lia.
    symmetry. apply insert_take_drop. done. }
  destruct (decide (Z.to_nat (fst (posicao_agente amb)) = Z.to_nat lo)) as [Heq|Hne].
  - rewrite Heq in Hlag. assert (linha_ag = linha) as -> by congruence.
    destruct (decide (Z.to_nat (snd (posicao_agente amb)) = Z.to_nat co)) as [Hceq|Hcne].
    + apply (celula_posicao_valida _ nova " "%char); simpl; try done.
      * rewrite Heq. apply list_lookup_insert_eq. eapply lookup_lt_Some; eauto.
      * rewrite Hnova, Hceq. by apply list_lookup_insert_eq.
    + apply (celula_posicao_valida _ nova ch_ag); simpl; try done.
      * rewrite Heq. apply list_lookup_insert_eq. eapply lookup_lt_Some; eauto.
      * rewrite Hnova. rewrite list_lookup_insert_ne by done. done.
  - apply (celula_posicao_valida _ linha_ag ch_ag); simpl; try done.
    rewrite list_lookup_insert_ne by done. done.
Qed.

Lemma ejetar_posicao_valida amb amb' :
  posicao_valida amb = true ->
  _ejetar_objeto amb = Retorna amb' -> posicao_valida amb' = true.
Proof.
  intros Hv. unfold _ejetar_objeto.
  destruct (negb (objeto_coletado amb)); [discriminate|].
  intros H. apply ligar_retorna in H as (b & _ & H).
  destruct (negb b); [discriminate|]. injection H as <-. exact Hv.
Qed.

(** C8. The agent always stands on a cell of the grid that is not a wall:
    this holds for the state the constructor returns, and every command
    given to [executar_comando_navegacao] (advance, rotate, pick up, eject,
    or an unknown one), whether it returns or raises, leaves a state in which
    it still holds. *)
Theorem posicao_sempre_valida :
  (forall mapa amb, novo_ambiente mapa = Retorna amb -> posicao_valida amb = true) /\
  (forall comando amb,
      posicao_valida amb = true -> posicao_valida (estado_apos comando amb) = true).
Proof.
  split; [exact novo_ambiente_posicao_valida|].
  intros comando amb Hv. unfold estado_apos.
  destruct (executar_comando_navegacao comando amb) as [amb'| |] eqn:H; try done.
  unfold executar_comando_navegacao in H.
  destruct (String.eqb comando "A"); [by eapply avancar_posicao_valida|].
  destruct (String.eqb comando "G"); [by injection H as <-|].
  destruct (String.eqb comando "P"); [by eapply coletar_posicao_valida|].
  destruct (String.eqb comando "E"); [by eapply ejetar_posicao_valida|].
  discriminate.
Qed.

Lemma posicao_sempre_valida_witness :
  posicao_valida ambiente_exemplo = true /\
  posicao_valida (estado_apos "A" ambiente_exemplo) = true.
Proof.
  split.
  - exact (proj1 posicao_sempre_valida ["*E*"; "* *"; "*H*"] ambiente_exemplo eq_refl).
  - exact (proj2 posicao_sempre_valida "A" ambiente_exemplo eq_refl).
Defined.

(* ================================================================== *)
(** * Properties of the exploration strategy *)

(** ** What one update of the known map records *)

Lemma registrar_leitura_registra leituras i j e idx delta e' :
  Forall leitura_conhecida leituras ->
  registrar_leitura leituras i j e idx delta = Retorna e' ->
  ambiente e' = ambiente e /\
  posicoes_visitadas e' = posicoes_visitadas e /\
  pilha_navegacao e' = pilha_navegacao e /\
  is_Some (mapa_conhecido e' !! mais_delta (i, j) delta) /\
  (forall p, p <> mais_delta (i, j) delta ->
             mapa_conhecido e' !! p = mapa_conhecido e !! p) /\
  (forall p, is_Some (mapa_conhecido e !! p) -> is_Some (mapa_conhecido e' !! p)).
Proof.
  intros Hall H. unfold registrar_leitura in H.
  apply ligar_retorna in H as (lida & Hlida & H).
  apply indice_retorna in Hlida as (n & Hn & _).
  assert (Hk : leitura_conhecida lida).
  { rewrite Forall_forall in Hall. apply Hall. by eapply list_elem_of_lookup_2. }
  unfold mais_delta. simpl.
  set (viz := (i + fst delta, j + snd delta)) in *.
  assert (Hins : forall (v : string) (p : Z * Z),
             is_Some (mapa_conhecido e !! p) ->
             is_Some (<[viz := v]> (mapa_conhecido e) !! p)).
  { intros v p Hp. destruct (decide (viz = p)) as [->|Hne].
    - rewrite lookup_insert_eq. eauto.
    - by rewrite lookup_insert_ne. }
  destruct Hk as [-> | [-> | ->]]; simpl in H.
  - injection H as <-. simpl. repeat split; try done.
    + rewrite lookup_insert_eq. eauto.
    + intros p Hp. by rewrite lookup_insert_ne.
    + apply Hins.
  - destruct (mapa_conhecido e !! viz) eqn:Hviz; injection H as <-; simpl.
    + repeat split; try done.
    + repeat split; try done.
      * rewrite lookup_insert_eq. eauto.
      * intros p Hp. by rewrite lookup_insert_ne.
      * apply Hins.
  - injection H as <-. simpl. repeat split; try done.
    + rewrite lookup_insert_eq. eauto.
    + intros p Hp. by rewrite lookup_insert_ne.
    + apply Hins.
Qed.

Lemma registrar_leituras_registra leituras i j direcoes : forall e idx e',
  Forall leitura_conhecida leituras ->
  registrar_leituras leituras i j e idx direcoes = Retorna e' ->
  ambiente e' = ambiente e /\
  posicoes_visitadas e' = posicoes_visitadas e /\
  pilha_navegacao e' = pilha_navegacao e /\
  (forall delta, delta ∈ direcoes -> is_Some (mapa_conhecido e' !! mais_delta (i, j) delta)) /\
  (forall p, (forall delta, delta ∈ direcoes -> p <> mais_delta (i, j) delta) ->
             mapa_conhecido e' !! p = mapa_conhecido e !! p) /\
  (forall p, is_Some (mapa_conhecido e !! p) -> is_Some (mapa_conhecido e' !! p)).
Proof.
  induction direcoes as [|delta resto IH]; simpl; intros e idx e' Hall H.
  - injection H as <-. repeat split; try done. intros delta Hd. by apply elem_of_nil in Hd.
  - apply ligar_retorna in H as (e1 & H1 & H).
    destruct (registrar_leitura_registra _ _ _ _ _ _ _ Hall H1)
      as (Ha1 & Hv1 & Hp1 & Hs1 & Hf1 & Hm1).
    destruct (IH _ _ _ Hall H) as (Ha & Hv & Hp & Hs & Hf & Hm).
    repeat split; try congruence.
    + intros d Hd. apply elem_of_cons in Hd as [-> | Hd]; [by apply Hm | by apply Hs].
    + intros p Hp'. rewrite Hf, Hf1; [done| |].
      * apply Hp'. by left.
      * intros d Hd. apply Hp'. by right.
    + intros p Hp'. by apply Hm, Hm1.
Qed.

(** C3 (as amended). Every turn of the exploration loop that completes
    starts by one update of the known map at the top of the stack; the
    update reads the three sensors once, at the orientation the agent has,
    and leaves the grid world (orientation included), the visited set and
    the stack as they were; it records an entry for the three cells sensed,
    which are the cell ahead and the two cells diagonally ahead of it, and
    changes no other entry. *)
Theorem atualizar_registra_tres_celulas (e : ExploradorInteligente) (p : passo) :
  iteracao_exploracao e = Retorna p ->
  exists posicao_atual e1 esquerda frente direita,
    indice (pilha_navegacao e) (-1) = Retorna posicao_atual /\
    _atualizar_mapa_com_sensores posicao_atual e = Retorna e1 /\
    ambiente e1 = ambiente e /\
    posicoes_visitadas e1 = posicoes_visitadas e /\
    pilha_navegacao e1 = pilha_navegacao e /\
    direcoes_relativas (direcao_agente (ambiente e)) = Retorna [esquerda; frente; direita] /\
    direcoes_frente (direcao_agente (ambiente e)) = Retorna frente /\
    esquerda = (fst frente - snd frente, snd frente + fst frente) /\
    direita = (fst frente + snd frente, snd frente - fst frente) /\
    (forall delta, delta ∈ [esquerda; frente; direita] ->
                   is_Some (mapa_conhecido e1 !! mais_delta posicao_atual delta)) /\
    (forall q, (forall delta, delta ∈ [esquerda; frente; direita] ->
                              q <> mais_delta posicao_atual delta) ->
               mapa_conhecido e1 !! q = mapa_conhecido e !! q).
Proof.
  intros H. unfold iteracao_exploracao in H.
  apply ligar_retorna in H as (posicao_atual & Htopo & H).
  apply ligar_retorna in H as (e1 & H1 & _).
  exists posicao_atual, e1.
  pose proof H1 as Hat. unfold _atualizar_mapa_com_sensores in Hat.
  destruct posicao_atual as [i j].
  apply ligar_retorna in Hat as (leituras & Hs & Hat).
  apply ligar_retorna in Hat as (direcoes & Hd & Hat).
  apply sensores_tres_leituras in Hs as [_ Hall].
  destruct (registrar_leituras_registra _ _ _ _ _ _ _ Hall Hat)
    as (Ha & Hv & Hp & Hsome & Hframe & _).
  assert (Hdirs : exists esquerda frente direita,
             direcoes = [esquerda; frente; direita] /\
             direcoes_frente (direcao_agente (ambiente e)) = Retorna frente /\
             esquerda = (fst frente - snd frente, snd frente + fst frente) /\
             direita = (fst frente + snd frente, snd frente - fst frente)).
  { unfold direcoes_relativas in Hd. unfold direcoes_frente.
    destruct (direcao_agente (ambiente e) =? 0);
      [injection Hd as <-; do 3 eexists; repeat split; reflexivity|].
    destruct (direcao_agente (ambiente e) =? 1);
      [injection Hd as <-; do 3 eexists; repeat split; reflexivity|].
    destruct (direcao_agente (ambiente e) =? 2);
      [injection Hd as <-; do 3 eexists; repeat split; reflexivity|].
    destruct (direcao_agente (ambiente e) =? 3);
      [injection Hd as <-; do 3 eexists; repeat split; reflexivity|].
    discriminate. }
  destruct Hdirs as (esquerda & frente & direita & -> & Hfr & Hesq & Hdir).
  exists esquerda, frente, direita. repeat split; try done.
Qed.

Lemma atualizar_registra_tres_celulas_witness :
  exists posicao_atual e1 esquerda frente direita,
    indice (pilha_navegacao explorador_exemplo) (-1) = Retorna posicao_atual /\
    _atualizar_mapa_com_sensores posicao_atual explorador_exemplo = Retorna e1 /\
    ambiente e1 = ambiente explorador_exemplo /\
    posicoes_visitadas e1 = posicoes_visitadas explorador_exemplo /\
    pilha_navegacao e1 = pilha_navegacao explorador_exemplo /\
    direcoes_relativas (direcao_agente (ambiente explorador_exemplo))
      = Retorna [esquerda; frente; direita] /\
    direcoes_frente (direcao_agente (ambiente explorador_exemplo)) = Retorna frente /\
    esquerda = (fst frente - snd frente, snd frente + fst frente) /\
    direita = (fst frente + snd frente, snd frente - fst frente) /\
    (forall delta, delta ∈ [esquerda; frente; direita] ->
                   is_Some (mapa_conhecido e1 !! mais_delta posicao_atual delta)) /\
    (forall q, (forall delta, delta ∈ [esquerda; frente; direita] ->
                              q <> mais_delta posicao_atual delta) ->
               mapa_conhecido e1 !! q = mapa_conhecido explorador_exemplo !! q).
Proof.
  eapply (atualizar_registra_tres_celulas explorador_exemplo).
  vm_compute. reflexivity.
Defined.

(** C3 (as stated) fails: at the entrance of the example map, facing South,
    one update of the known map leaves the agent unrotated and records no
    entry for the West, East and North neighbours of the current cell
    [(0,1)]; the whole first turn of the loop does not record them either. *)
Lemma atualizar_nao_registra_os_quatro_vizinhos :
  exists e1 e2,
    _atualizar_mapa_com_sensores (0, 1) explorador_exemplo = Retorna e1 /\
    ambiente e1 = ambiente explorador_exemplo /\
    mapa_conhecido e1 !! (0, 0) = None /\
    mapa_conhecido e1 !! (0, 2) = None /\
    mapa_conhecido e1 !! (-1, 1) = None /\
    iteracao_exploracao explorador_exemplo = Retorna (Continua e2) /\
    direcao_agente (ambiente e2) = direcao_agente (ambiente explorador_exemplo) /\
    mapa_conhecido e2 !! (0, 0) = None /\
    mapa_conhecido e2 !! (0, 2) = None /\
    mapa_conhecido e2 !! (-1, 1) = None.
Proof.
  do 2 eexists. split; [vm_compute; reflexivity|].
  split; [reflexivity|].
  split; [vm_compute; reflexivity|].
  split; [vm_compute; reflexivity|].
  split; [vm_compute; reflexivity|].
  split; [vm_compute; reflexivity|].
  split; [reflexivity|].
  split; [vm_compute; reflexivity|].
  split; vm_compute; reflexivity.
Qed.

(** ** Termination of one turn of the exploration loop *)

Lemma ligar_nao_diverge {A B} (c : resultado A) (k : A -> resultado B) :
  c <> Diverge -> (forall a, c = Retorna a -> k a <> Diverge) -> ligar c k <> Diverge.
Proof. destruct c; simpl; intros Hc Hk; [by apply Hk | done | done]. Qed.

Lemma dentro_dos_limites_nao_diverge lab l c : dentro_dos_limites lab l c <> Diverge.
Proof.
  destruct (dentro_dos_limites_casos lab l c) as [-> | [-> _]]; discriminate.
Qed.

Lemma conteudo_celula_nao_diverge lab l c : conteudo_celula lab l c <> Diverge.
Proof.
  unfold conteudo_celula, indice_str.
  apply ligar_nao_diverge; [apply indice_nunca_diverge|].
  intros; apply indice_nunca_diverge.
Qed.

Lemma ler_sensores_nao_diverge lab atual direcoes :
  ler_sensores lab atual direcoes <> Diverge.
Proof.
  induction direcoes as [|delta resto IH]; simpl; [discriminate|].
  destruct (ler_sensor_casos lab atual delta) as [-> | (s & -> & _)]; simpl;
    [discriminate|].
  by destruct (ler_sensores lab atual resto).
Qed.

Lemma direcoes_relativas_nao_diverge d : direcoes_relativas d <> Diverge.
Proof. unfold direcoes_relativas. repeat (destruct (_ =? _); [discriminate|]). discriminate. Qed.

Lemma direcoes_frente_nao_diverge d : direcoes_frente d <> Diverge.
Proof. unfold direcoes_frente. repeat (destruct (_ =? _); [discriminate|]). discriminate. Qed.

Lemma direcoes_absolutas_nao_diverge d : direcoes_absolutas d <> Diverge.
Proof. unfold direcoes_absolutas. repeat (destruct (_ =? _); [discriminate|]). discriminate. Qed.

Lemma sensores_nao_divergem amb : obter_leituras_sensores_proximidade amb <> Diverge.
Proof.
  unfold obter_leituras_sensores_proximidade.
  apply ligar_nao_diverge; [apply direcoes_relativas_nao_diverge|].
  intros; apply ler_sensores_nao_diverge.
Qed.

Lemma atribuir_nao_diverge {A} (l : list A) i x : atribuir l i x <> Diverge.
Proof. unfold atribuir. cbv zeta. by destruct (_ && _). Qed.

Lemma executar_comando_nao_diverge comando amb :
  executar_comando_navegacao comando amb <> Diverge.
Proof.
  unfold executar_comando_navegacao.
  destruct (String.eqb comando "A").
  { unfold _avancar_agente.
    apply ligar_nao_diverge; [apply indice_nunca_diverge|]. intros delta _.
    apply ligar_nao_diverge; [apply dentro_dos_limites_nao_diverge|]. intros [|] _; [|done].
    apply ligar_nao_diverge; [apply conteudo_celula_nao_diverge|]. intros ch _.
    by destruct (negb (eh_parede ch)). }
  destruct (String.eqb comando "G"); [done|].
  destruct (String.eqb comando "P").
  { unfold _coletar_objeto.
    apply ligar_nao_diverge; [apply sensores_nao_divergem|]. intros ls _.
    destruct (frente_eh_humano ls); [|done].
    apply ligar_nao_diverge; [apply direcoes_frente_nao_diverge|]. intros delta _.
    apply ligar_nao_diverge; [apply conteudo_celula_nao_diverge|]. intros ch _.
    destruct (eh_objeto ch); [|done].
    apply ligar_nao_diverge; [apply indice_nunca_diverge|]. intros linha _.
    apply ligar_nao_diverge; [apply atribuir_nao_diverge|]. done. }
  destruct (String.eqb comando "E"); [|done].
  unfold _ejetar_objeto. destruct (negb (objeto_coletado amb)); [done|].
  apply ligar_nao_diverge.
  - unfold _verificar_posicao_saida. destruct (posicao_agente amb) as [l c].
    destruct (_ || _); [done|].
    apply ligar_nao_diverge; [|done].
    unfold largura_primeira_linha.
    apply ligar_nao_diverge; [apply indice_nunca_diverge | done].
  - intros b _. by destruct (negb b).
Qed.

Lemma registrar_nao_diverge e : registrar e <> Diverge.
Proof.
  unfold registrar. destruct (sistema_log e); [|done].
  apply ligar_nao_diverge; [apply sensores_nao_divergem | done].
Qed.

Lemma exibir_nao_diverge amb : exibir_estado_ambiente amb <> Diverge.
Proof.
  unfold exibir_estado_ambiente. destruct (posicao_agente amb) as [l c].
  apply ligar_nao_diverge; [apply indice_nunca_diverge|]. intros simbolo _.
  apply ligar_nao_diverge; [apply indice_nunca_diverge|]. intros linha _.
  apply ligar_nao_diverge; [apply atribuir_nao_diverge | done].
Qed.

Lemma registrar_leituras_nao_diverge leituras i j direcoes : forall e idx,
  registrar_leituras leituras i j e idx direcoes <> Diverge.
Proof.
  induction direcoes as [|delta resto IH]; simpl; intros e idx; [done|].
  apply ligar_nao_diverge; [|intros; apply IH].
  unfold registrar_leitura.
  apply ligar_nao_diverge; [apply indice_nunca_diverge|]. intros lida _.
  destruct (String.eqb lida "PAREDE"); [done|].
  destruct (String.eqb lida "HUMANO"); [done|].
  destruct (String.eqb lida "VAZIO"); [|done].
  by destruct (mapa_conhecido e !! _).
Qed.

Lemma atualizar_nao_diverge posicao_atual e :
  _atualizar_mapa_com_sensores posicao_atual e <> Diverge.
Proof.
  unfold _atualizar_mapa_com_sensores. destruct posicao_atual as [i j].
  apply ligar_nao_diverge; [apply sensores_nao_divergem|]. intros ls _.
  apply ligar_nao_diverge; [apply direcoes_relativas_nao_diverge|]. intros ds _.
  apply registrar_leituras_nao_diverge.
Qed.

Lemma ajustar_direcao_nao_diverge combustivel : forall alvo e,
  0 <= alvo < 4 -> 0 <= direcao_agente (ambiente e) < 4 ->
  (giros_ate (direcao_agente (ambiente e)) alvo <= combustivel)%nat ->
  _ajustar_direcao combustivel alvo e <> Diverge.
Proof.
  induction combustivel as [|n IH]; intros alvo e Ha Hd Hg; simpl.
  - destruct (direcao_agente (ambiente e) =? alvo) eqn:Heq; [done|].
    apply Z.eqb_neq in Heq. unfold giros_ate in Hg.
    assert (alvo = 0 \/ alvo = 1 \/ alvo = 2 \/ alvo = 3) as Hc by lia.
    assert (direcao_agente (ambiente e) = 0 \/ direcao_agente (ambiente e) = 1 \/
            direcao_agente (ambiente e) = 2 \/ direcao_agente (ambiente e) = 3) as Hc' by lia.
    destruct Hc as [->|[->|[->| ->]]]; destruct Hc' as [Hx|[Hx|[Hx|Hx]]];
      rewrite Hx in *; try lia; vm_compute in Hg; lia.
  - destruct (direcao_agente (ambiente e) =? alvo) eqn:Heq; [done|].
    apply Z.eqb_neq in Heq.
    change (executar_comando_navegacao "G" (ambiente e)) with (_girar_agente (ambiente e)).
    unfold _girar_agente. simpl.
    apply ligar_nao_diverge; [apply registrar_nao_diverge|]. intros _ _.
    apply IH; simpl; [done| apply Z.mod_pos_bound; lia |].
    unfold giros_ate in *.
    assert (alvo = 0 \/ alvo = 1 \/ alvo = 2 \/ alvo = 3) as Hc by lia.
    assert (direcao_agente (ambiente e) = 0 \/ direcao_agente (ambiente e) = 1 \/
            direcao_agente (ambiente e) = 2 \/ direcao_agente (ambiente e) = 3) as Hc' by lia.
    destruct Hc as [->|[->|[->| ->]]]; destruct Hc' as [Hx|[Hx|[Hx|Hx]]];
      rewrite Hx in *; try lia; vm_compute; vm_compute in Hg; lia.
Qed.

Lemma ajustar_direcao_quatro_giros alvo e :
  0 <= alvo < 4 -> _ajustar_direcao 4 alvo e <> Diverge.
Proof.
  intros Ha. change (_ajustar_direcao 4 alvo e) with
    (if direcao_agente (ambiente e) =? alvo then Retorna e
     else faz amb <- executar_comando_navegacao "G" (ambiente e) em
          let e' := com_ambiente e amb in
          faz _ <- registrar e' em _ajustar_direcao 3 alvo e').
  destruct (direcao_agente (ambiente e) =? alvo); [done|].
  change (executar_comando_navegacao "G" (ambiente e)) with (_girar_agente (ambiente e)).
  unfold _girar_agente.
  apply ligar_nao_diverge; [done|]. intros amb [= <-].
  apply ligar_nao_diverge; [apply registrar_nao_diverge|]. intros _ _.
  pose proof (Z.mod_pos_bound (direcao_agente (ambiente e) + 1) 4 ltac:(lia)) as Hb.
  apply ajustar_direcao_nao_diverge; simpl; [done | done |].
  unfold giros_ate.
  pose proof (Z.mod_pos_bound (alvo - (direcao_agente (ambiente e) + 1) mod 4) 4 ltac:(lia)).
  lia.
Qed.

Lemma mover_para_nao_diverge posicao_alvo e : _mover_para posicao_alvo e <> Diverge.
Proof.
  unfold _mover_para.
  set (dx := fst posicao_alvo - fst (posicao_agente (ambiente e))).
  set (dy := snd posicao_alvo - snd (posicao_agente (ambiente e))).
  assert (Hmov : forall alvo, 0 <= alvo < 4 ->
    (faz e1 <- _ajustar_direcao 4 alvo e em
     faz amb <- executar_comando_navegacao "A" (ambiente e1) em
     let e2 := com_ambiente e1 amb in
     faz _ <- exibir_estado_ambiente amb em
     faz _ <- registrar e2 em Retorna e2) <> Diverge).
  { intros alvo Ha.
    apply ligar_nao_diverge; [by apply ajustar_direcao_quatro_giros|]. intros e1 _.
    apply ligar_nao_diverge; [apply executar_comando_nao_diverge|]. intros amb _.
    apply ligar_nao_diverge; [apply exibir_nao_diverge|]. intros _ _.
    apply ligar_nao_diverge; [apply registrar_nao_diverge | done]. }
  destruct (dx =? 1); [apply Hmov; lia|].
  destruct (dx =? -1); [apply Hmov; lia|].
  destruct (dy =? 1); [apply Hmov; lia|].
  destruct (dy =? -1); [apply Hmov; lia|].
  done.
Qed.

Lemma iteracao_exploracao_nao_diverge e : iteracao_exploracao e <> Diverge.
Proof.
  unfold iteracao_exploracao.
  apply ligar_nao_diverge; [apply indice_nunca_diverge|]. intros posicao_atual _.
  apply ligar_nao_diverge; [apply atualizar_nao_diverge|]. intros e1 _.
  apply ligar_nao_diverge; [apply sensores_nao_divergem|]. intros ls _.
  apply ligar_nao_diverge; [apply indice_nunca_diverge|]. intros _ _.
  apply ligar_nao_diverge; [apply indice_nunca_diverge|]. intros frente _.
  apply ligar_nao_diverge; [apply indice_nunca_diverge|]. intros _ _.
  destruct (String.eqb frente "HUMANO").
  { by destruct (_get_posicao_a_frente _ _). }
  apply ligar_nao_diverge.
  { unfold _encontrar_proxima_posicao_para_explorar. destruct posicao_atual as [i j].
    apply ligar_nao_diverge; [apply direcoes_absolutas_nao_diverge | done]. }
  intros [proxima|] _.
  - apply ligar_nao_diverge; [apply mover_para_nao_diverge | done].
  - apply ligar_nao_diverge.
    { unfold desempilhar. by destruct (pilha_navegacao e1). }
    intros [|topo resto] _; [done|].
    apply ligar_nao_diverge; [apply indice_nunca_diverge|]. intros t _.
    apply ligar_nao_diverge; [apply mover_para_nao_diverge | done].
Qed.

(** ** The exploration run *)

Lemma interrompe_pilha_vazia e e' :
  iteracao_exploracao e = Retorna (Interrompe e') -> pilha_navegacao e' = [].
Proof.
  unfold iteracao_exploracao. intros H.
  apply ligar_retorna in H as (posicao_atual & _ & H).
  apply ligar_retorna in H as (e1 & _ & H).
  apply ligar_retorna in H as (ls & _ & H).
  apply ligar_retorna in H as (? & _ & H).
  apply ligar_retorna in H as (frente & _ & H).
  apply ligar_retorna in H as (? & _ & H).
  destruct (String.eqb frente "HUMANO").
  { destruct (_get_posicao_a_frente _ _); discriminate. }
  apply ligar_retorna in H as ([proxima|] & _ & H).
  - apply ligar_retorna in H as (e2 & _ & H). discriminate.
  - apply ligar_retorna in H as (pilha & _ & H).
    destruct pilha as [|topo resto].
    + by injection H as <-.
    + apply ligar_retorna in H as (t & _ & H).
      apply ligar_retorna in H as (e3 & _ & H). discriminate.
Qed.

Lemma laco_nao_diverge n : forall it e, laco_exploracao n it e <> Diverge.
Proof.
  induction n as [|n IH]; intros it e; simpl; [done|].
  apply ligar_nao_diverge; [apply iteracao_exploracao_nao_diverge|].
  intros [e'|e'|e'] _; [apply IH | done | done].
Qed.

Lemma laco_contagem n : forall it e achou it' e',
  laco_exploracao n it e = Retorna (achou, it', e') -> it <= it' <= it + Z.of_nat n.
Proof.
  induction n as [|n IH]; intros it e achou it' e' H; simpl in H.
  - injection H as <- <- <-. lia.
  - apply ligar_retorna in H as ([e1|e1|e1] & _ & H).
    + apply IH in H. lia.
    + injection H as <- <- <-. lia.
    + injection H as <- <- <-. lia.
Qed.

Lemma laco_orcamento_esgotado n : forall it e e',
  apos_iteracoes n e = Some e' ->
  laco_exploracao n it e = Retorna (false, it + Z.of_nat n, e').
Proof.
  induction n as [|n IH]; intros it e e' H; simpl in *.
  - injection H as <-. do 3 f_equal. lia.
  - destruct (iteracao_exploracao e) as [[e1|e1|e1]| |]; try discriminate. simpl.
    rewrite (IH _ _ _ H). do 3 f_equal. lia.
Qed.

Lemma laco_pilha_esgotada k : forall n it e ek e',
  (k < n)%nat ->
  apos_iteracoes k e = Some ek ->
  iteracao_exploracao ek = Retorna (Interrompe e') ->
  laco_exploracao n it e = Retorna (false, it + Z.of_nat k + 1, e').
Proof.
  induction k as [|k IH]; intros n it e ek e' Hk Hap Hint;
    (destruct n as [|n]; [lia|]); simpl in *.
  - injection Hap as <-. rewrite Hint. simpl. do 3 f_equal. lia.
  - destruct (iteracao_exploracao e) as [[e1|e1|e1]| |]; try discriminate. simpl.
    rewrite (IH n _ _ _ _ ltac:(lia) Hap Hint). do 3 f_equal. lia.
Qed.

Lemma laco_nao_encontrado n : forall it e it' e',
  laco_exploracao n it e = Retorna (false, it', e') ->
  it' = it + Z.of_nat n \/ pilha_navegacao e' = [].
Proof.
  induction n as [|n IH]; intros it e it' e' H; simpl in H.
  - injection H as <- <-. left. lia.
  - apply ligar_retorna in H as ([e1|e1|e1] & Hit & H).
    + apply IH in H as [-> | H]; [left; lia | by right].
    + discriminate.
    + injection H as <- <-. right. by eapply interrompe_pilha_vazia.
Qed.

(** C4. The exploration run always ends, after at most [max_iteracoes]
    turns of its loop. When the budget is used up (that many turns each
    fell through to the next) it returns [False]; when a turn empties the
    stack and breaks out of the loop it returns [False]; in neither case is
    an exception raised. A [False] answer comes from one of these two exits
    only. *)
Theorem exploracao_dentro_do_orcamento (e : ExploradorInteligente) :
  let n := Z.to_nat (max_iteracoes e) in
  let e0 := iniciar_exploracao e in
  explorar_ate_encontrar_objeto e <> Diverge /\
  (forall achou it e',
      explorar_ate_encontrar_objeto e = Retorna (achou, it, e') ->
      0 <= it <= Z.of_nat n) /\
  (forall e',
      apos_iteracoes n e0 = Some e' ->
      explorar_ate_encontrar_objeto e = Retorna (false, Z.of_nat n, e')) /\
  (forall k ek e',
      (k < n)%nat ->
      apos_iteracoes k e0 = Some ek ->
      iteracao_exploracao ek = Retorna (Interrompe e') ->
      pilha_navegacao e' = [] /\
      explorar_ate_encontrar_objeto e = Retorna (false, Z.of_nat k + 1, e')) /\
  (forall it e',
      explorar_ate_encontrar_objeto e = Retorna (false, it, e') ->
      it = Z.of_nat n \/ pilha_navegacao e' = []).
Proof.
  intros n e0. unfold explorar_ate_encontrar_objeto. fold n e0.
  split; [apply laco_nao_diverge|].
  split; [intros achou it e' H; apply laco_contagem in H; lia|].
  split; [intros e' H; by rewrite (laco_orcamento_esgotado _ 0 _ _ H)|].
  split.
  - intros k ek e' Hk Hap Hint. split; [by eapply interrompe_pilha_vazia|].
    by rewrite (laco_pilha_esgotada k n 0 _ _ _ Hk Hap Hint).
  - intros it e' H. apply laco_nao_encontrado in H as [-> | H]; [left; lia | by right].
Qed.

Lemma exploracao_dentro_do_orcamento_witness :
  (exists e',
      explorar_ate_encontrar_objeto (novo_explorador ambiente_exemplo false 1)
      = Retorna (false, 1, e')) /\
  (exists e',
      pilha_navegacao e' = [] /\
      explorar_ate_encontrar_objeto (novo_explorador ambiente_sem_saida false 500)
      = Retorna (false, 9, e')).
Proof.
  split.
  - eexists.
    apply (proj1 (proj2 (proj2
             (exploracao_dentro_do_orcamento (novo_explorador ambiente_exemplo false 1))))).
    vm_compute. reflexivity.
  - eexists.
    eapply (proj1 (proj2 (proj2 (proj2
             (exploracao_dentro_do_orcamento (novo_explorador ambiente_sem_saida false 500)))))
             8%nat).
    + vm_compute. lia.
    + vm_compute. reflexivity.
    + vm_compute. reflexivity.
Defined.

(** The run can also end by an exception: on this map, which the
    constructor accepts, the first turn picks the unsensed West neighbour of
    the entrance, a wall, and the collision error escapes. *)
Lemma exploracao_pode_colidir :
  exists amb,
    novo_ambiente ["*E*"; "***"; "*H*"] = Retorna amb /\
    explorar_ate_encontrar_objeto (novo_explorador amb false 500)
    = Levanta (ValueError (MsgColisao (0, 1) (0, 0))).
Proof. eexists. split; [reflexivity | vm_compute; reflexivity]. Qed.

(* ================================================================== *)
(** * Properties of the pathfinding engine *)

(** ** Input validation *)

Lemma mapa_nao_vazio mapa :
  mapa_vazio mapa = false ->
  exists c0 linha0 resto, mapa = (c0 :: linha0) :: resto.
Proof. destruct mapa as [|[|c0 linha0] resto]; try discriminate. eauto. Qed.

Lemma fora_do_mapa_dentro mapa p :
  mapa_vazio mapa = false ->
  fora_do_mapa mapa p = Retorna (negb (dentro_do_mapa mapa p)).
Proof.
  intros Hv. destruct (mapa_nao_vazio _ Hv) as (c0 & linha0 & resto & ->).
  unfold fora_do_mapa, dentro_do_mapa, numero_colunas.
  change (hd [] ((c0 :: linha0) :: resto)) with (c0 :: linha0).
  change (indice ((c0 :: linha0) :: resto) 0) with (Retorna (c0 :: linha0)).
  cbv beta iota delta [ligar].
  generalize (len ((c0 :: linha0) :: resto)) (len (c0 :: linha0)). intros m k.
  destruct (Z.ltb_spec (fst p) 0); destruct (Z.leb_spec 0 (fst p)); try lia;
    destruct (Z.leb_spec m (fst p)); destruct (Z.ltb_spec (fst p) m); try lia;
    destruct (Z.ltb_spec (snd p) 0); destruct (Z.leb_spec 0 (snd p)); try lia;
    simpl; try reflexivity;
    destruct (Z.leb_spec k (snd p)); destruct (Z.ltb_spec (snd p) k); try lia;
    reflexivity.
Qed.

(** The five precondition failures of [algoritmo_busca_astar], by the tests
    the search makes ([mapa_vazio], [dentro_do_mapa], [obstaculo]): each
    raises its own [ValueError], the four about a position carrying that
    position. The error is raised whatever number of turns the search loop
    is allowed, none included, and the five errors are pairwise different. *)
Lemma precondicoes_pelos_testes (combustivel : nat) (mapa : list (list string))
    (inicial objetivo : Z * Z) :
  (mapa_vazio mapa = true ->
   busca_com_combustivel combustivel mapa inicial objetivo
   = Levanta (ValueError MsgMapaVazio)) /\
  (mapa_vazio mapa = false -> dentro_do_mapa mapa inicial = false ->
   busca_com_combustivel combustivel mapa inicial objetivo
   = Levanta (ValueError (MsgInicialInvalida inicial))) /\
  (mapa_vazio mapa = false -> dentro_do_mapa mapa inicial = true ->
   dentro_do_mapa mapa objetivo = false ->
   busca_com_combustivel combustivel mapa inicial objetivo
   = Levanta (ValueError (MsgObjetivoInvalida objetivo))) /\
  (mapa_vazio mapa = false -> dentro_do_mapa mapa inicial = true ->
   dentro_do_mapa mapa objetivo = true -> obstaculo mapa inicial = true ->
   busca_com_combustivel combustivel mapa inicial objetivo
   = Levanta (ValueError (MsgInicialObstaculo inicial))) /\
  (mapa_vazio mapa = false -> livre mapa inicial = true ->
   dentro_do_mapa mapa objetivo = true -> obstaculo mapa objetivo = true ->
   busca_com_combustivel combustivel mapa inicial objetivo
   = Levanta (ValueError (MsgObjetivoObstaculo objetivo))) /\
  NoDup [ValueError MsgMapaVazio;
         ValueError (MsgInicialInvalida inicial);
         ValueError (MsgObjetivoInvalida objetivo);
         ValueError (MsgInicialObstaculo inicial);
         ValueError (MsgObjetivoObstaculo objetivo)].
Proof.
  unfold busca_com_combustivel.
  split; [intros ->; reflexivity|].
  split.
  { intros Hv Hi. rewrite Hv, (fora_do_mapa_dentro _ _ Hv), Hi. reflexivity. }
  split.
  { intros Hv Hi Ho.
    rewrite Hv, !(fora_do_mapa_dentro _ _ Hv), Hi, Ho. reflexivity. }
  split.
  { intros Hv Hi Ho Hw.
    rewrite Hv, !(fora_do_mapa_dentro _ _ Hv), Hi, Ho. simpl.
    unfold obstaculo in Hw.
    destruct (celula mapa (fst inicial) (snd inicial)); try discriminate. simpl.
    rewrite Hw. reflexivity. }
  split.
  { intros Hv Hi Ho Hw. unfold livre in Hi.
    apply andb_true_iff in Hi as [Hi Hl].
    rewrite Hv, !(fora_do_mapa_dentro _ _ Hv), Hi, Ho. simpl.
    destruct (celula mapa (fst inicial) (snd inicial)); try discriminate. simpl.
    apply negb_true_iff in Hl. rewrite Hl.
    unfold obstaculo in Hw.
    destruct (celula mapa (fst objetivo) (snd objetivo)); try discriminate. simpl.
    rewrite Hw. reflexivity. }
  repeat (apply NoDup_cons; split;
          [rewrite ?elem_of_cons, elem_of_nil; intuition discriminate|]).
  apply NoDup_nil. done.
Qed.

(* ================================================================== *)
(** * Properties of the priority queue *)

Lemma descendente_ge s c : descendente s c -> (s <= c)%nat.
Proof. induction 1; [lia | unfold pai in *; lia]. Qed.

Lemma descendente_pai s c :
  descendente s c -> c <> s -> (1 <= c)%nat /\ descendente s (pai c).
Proof. destruct 1; [done | auto]. Qed.

Lemma descendente_zero c : descendente 0 c.
Proof.
  induction c as [c IH] using lt_wf_ind.
  destruct c as [|c]; [constructor|].
  apply desc_filho; [lia|]. apply IH. unfold pai. lia.
Qed.

Lemma descendente_filho s p c :
  descendente s p -> (c = 2 * p + 1 \/ c = 2 * p + 2)%nat -> descendente s c.
Proof.
  intros Hp Hc. apply desc_filho; [lia|].
  replace (pai c) with p; [done | unfold pai; lia].
Qed.

Lemma troca_permutacao {A} (l : list A) i j x y :
  i <> j -> (i < length l)%nat -> l !! j = Some y ->
  <[j := x]> (<[i := y]> l) ≡ₚ <[i := x]> l.
Proof.
  intros Hij Hi Hj.
  rewrite <- (list_insert_insert_eq l i y x).
  apply Permutation_insert_swap.
  - by apply list_lookup_insert_eq.
  - by rewrite list_lookup_insert_ne.
Qed.

Section PropriedadesHeapq.
Context {A : Type} (chave : A -> Z) (menor : A -> A -> bool).
Hypothesis menor_chave : forall a b, menor a b = (chave a <? chave b).

Lemma raiz_minima (l : list A) r :
  heap_ordenado chave l -> l !! 0%nat = Some r ->
  forall i x, l !! i = Some x -> chave r <= chave x.
Proof.
  intros Hord Hr i. induction i as [i IH] using lt_wf_ind. intros x Hx.
  destruct (decide (i = 0%nat)) as [->|Hi]; [assert (x = r) as -> by congruence; lia|].
  assert (Hp : (pai i < i)%nat) by (unfold pai; lia).
  destruct (l !! pai i) as [y|] eqn:Hy.
  - pose proof (IH _ Hp _ Hy). pose proof (Hord i x y ltac:(lia) ltac:(lia) Hx Hy). lia.
  - apply lookup_ge_None in Hy. apply lookup_lt_Some in Hx. lia.
Qed.

Lemma gravar_retorna (heap : list A) i x :
  (i < length heap)%nat -> gravar heap i x = Retorna (<[i := x]> heap).
Proof. intros Hi. unfold gravar. by rewrite (proj2 (Nat.ltb_lt _ _) Hi). Qed.

Lemma siftdown_laco_correto combustivel : forall heap newitem s pos,
  (pos <= combustivel)%nat ->
  inv_siftdown chave s heap newitem pos ->
  exists heap',
    _siftdown_laco menor combustivel heap newitem s pos = Retorna heap' /\
    ordenado_desde chave s heap' /\
    heap' ≡ₚ <[pos := newitem]> heap.
Proof.
  induction combustivel as [|f IH]; intros heap newitem s pos Hf (Hlen & Hdesc & Ha & Hb).
  - assert (pos = 0%nat) as -> by lia.
    pose proof (descendente_ge _ _ Hdesc). assert (s = 0%nat) as -> by lia.
    simpl. rewrite gravar_retorna by done. eexists. split; [done|]. split; [|done].
    intros c x y Hc Hs Hx Hy.
    destruct (decide (pai c = 0%nat)) as [Hp|Hp].
    + rewrite Hp in Hy. rewrite list_lookup_insert_eq in Hy by done. injection Hy as <-.
      rewrite list_lookup_insert_ne in Hx by lia. exact (proj1 (Hb c x Hc ltac:(done) Hx)).
    + rewrite list_lookup_insert_ne in Hx by lia.
      rewrite list_lookup_insert_ne in Hy by lia. apply (Ha c x y); try done; lia.
  - simpl. destruct (s <? pos)%nat eqn:Hsp.
    + apply Nat.ltb_lt in Hsp.
      assert (Hpp : (pai pos < pos)%nat) by (unfold pai; lia).
      destruct (descendente_pai _ _ Hdesc ltac:(lia)) as [Hpos1 Hdp].
      pose proof (descendente_ge _ _ Hdp) as Hsp'.
      unfold obter.
      destruct (heap !! pai pos) as [parent|] eqn:Hparent;
        [|apply lookup_ge_None in Hparent; lia].
      simpl. rewrite menor_chave.
      destruct (chave newitem <? chave parent) eqn:Hlt.
      * apply Z.ltb_lt in Hlt. rewrite gravar_retorna by done. simpl.
        destruct (IH (<[pos := parent]> heap) newitem s (pai pos)) as (heap' & Hr & Hord & Hperm).
        { lia. }
        { split; [rewrite length_insert; lia|]. split; [done|]. split.
          - intros c x y Hc Hs Hcp Hpcp Hx Hy.
            assert (c <> pos) by (intros ->; done).
            rewrite list_lookup_insert_ne in Hx by done.
            destruct (decide (pai c = pos)) as [Hpc|Hpc].
            + rewrite Hpc, list_lookup_insert_eq in Hy by done. injection Hy as <-.
              by apply (proj2 (Hb c x Hc Hpc Hx) Hsp).
            + rewrite list_lookup_insert_ne in Hy by done. apply (Ha c x y); try done; lia.
          - intros c x Hc Hpc Hx.
            assert (Hgp : (s < pai pos)%nat -> forall y,
                       heap !! pai (pai pos) = Some y -> chave y <= chave parent).
            { intros Hs y Hy.
              assert (s <= pai (pai pos))%nat
                by (apply descendente_ge, (descendente_pai s (pai pos)); [done | lia]).
              assert (pai (pai pos) <= pai pos)%nat by (unfold pai; lia).
              apply (Ha (pai pos) parent y); try done; lia. }
            destruct (decide (c = pos)) as [->|Hne].
            + rewrite list_lookup_insert_eq in Hx by done. injection Hx as <-.
              split; [lia|]. intros Hs y Hy.
              rewrite list_lookup_insert_ne in Hy by (unfold pai in *; lia). by apply Hgp.
            + rewrite list_lookup_insert_ne in Hx by done.
              assert (chave parent <= chave x).
              { apply (Ha c x parent); try done; try lia. by rewrite Hpc. }
              split; [lia|]. intros Hs y Hy.
              rewrite list_lookup_insert_ne in Hy by (unfold pai in *; lia).
              pose proof (Hgp Hs y Hy). lia. }
        exists heap'. split; [done|]. split; [done|].
        rewrite Hperm. apply troca_permutacao; [lia | done | done].
      * apply Z.ltb_ge in Hlt. rewrite gravar_retorna by done.
        eexists. split; [done|]. split; [|done].
        intros c x y Hc Hs Hx Hy.
        destruct (decide (c = pos)) as [->|Hne].
        -- rewrite list_lookup_insert_eq in Hx by done. injection Hx as <-.
           rewrite list_lookup_insert_ne in Hy by lia. congruence.
        -- rewrite list_lookup_insert_ne in Hx by done.
           destruct (decide (pai c = pos)) as [Hpc|Hpc].
           ++ rewrite Hpc, list_lookup_insert_eq in Hy by done. injection Hy as <-.
              exact (proj1 (Hb c x Hc ltac:(done) Hx)).
           ++ rewrite list_lookup_insert_ne in Hy by done. apply (Ha c x y); try done; lia.
    + apply Nat.ltb_ge in Hsp. pose proof (descendente_ge _ _ Hdesc).
      assert (pos = s) as -> by lia.
      rewrite gravar_retorna by done. eexists. split; [done|]. split; [|done].
      intros c x y Hc Hs Hx Hy.
      assert (c <> s) by (unfold pai in *; lia).
      rewrite list_lookup_insert_ne in Hx by done.
      destruct (decide (pai c = s)) as [Hpc|Hpc].
      * rewrite Hpc, list_lookup_insert_eq in Hy by done. injection Hy as <-.
        exact (proj1 (Hb c x Hc ltac:(done) Hx)).
      * rewrite list_lookup_insert_ne in Hy by done. apply (Ha c x y); try done; lia.
Qed.

Lemma siftdown_correto (heap : list A) s pos newitem :
  heap !! pos = Some newitem ->
  inv_siftdown chave s heap newitem pos ->
  exists heap',
    _siftdown menor heap s pos = Retorna heap' /\
    ordenado_desde chave s heap' /\ heap' ≡ₚ heap.
Proof.
  intros Hpos Hinv. unfold _siftdown, obter. rewrite Hpos. simpl.
  destruct (siftdown_laco_correto pos heap newitem s pos)
    as (heap' & Hr & Hord & Hperm); [lia | done |].
  exists heap'. split; [done|]. split; [done|].
  by rewrite Hperm, list_insert_id.
Qed.

Lemma escolher_filho_correto (heap : list A) pos :
  (2 * pos + 1 < length heap)%nat ->
  exists ch filho,
    escolher_filho menor heap (length heap) (2 * pos + 1) = Retorna ch /\
    (ch = 2 * pos + 1 \/ ch = 2 * pos + 2)%nat /\
    heap !! ch = Some filho /\
    forall c x, (1 <= c)%nat -> pai c = pos -> heap !! c = Some x ->
                chave filho <= chave x.
Proof.
  intros Hlen. unfold escolher_filho.
  destruct (lookup_lt_is_Some_2 heap (2 * pos + 1) Hlen) as [esq Hesq].
  destruct (2 * pos + 1 + 1 <? length heap)%nat eqn:Hr.
  - apply Nat.ltb_lt in Hr.
    destruct (lookup_lt_is_Some_2 heap (2 * pos + 1 + 1) Hr) as [dir Hdir].
    unfold obter. rewrite Hesq, Hdir. simpl. rewrite menor_chave.
    destruct (chave esq <? chave dir) eqn:Hlt; simpl.
    + apply Z.ltb_lt in Hlt. exists (2 * pos + 1)%nat, esq.
      split; [done|]. split; [lia|]. split; [done|].
      intros c x Hc Hp Hx.
      assert (c = 2 * pos + 1 \/ c = 2 * pos + 1 + 1)%nat as [->| ->]
        by (unfold pai in Hp; lia).
      * assert (x = esq) as -> by congruence. lia.
      * assert (x = dir) as -> by congruence. lia.
    + apply Z.ltb_ge in Hlt. exists (2 * pos + 1 + 1)%nat, dir.
      split; [done|]. split; [lia|]. split; [done|].
      intros c x Hc Hp Hx.
      assert (c = 2 * pos + 1 \/ c = 2 * pos + 1 + 1)%nat as [->| ->]
        by (unfold pai in Hp; lia).
      * assert (x = esq) as -> by congruence. lia.
      * assert (x = dir) as -> by congruence. lia.
  - apply Nat.ltb_ge in Hr. exists (2 * pos + 1)%nat, esq.
    split; [done|]. split; [lia|]. split; [done|].
    intros c x Hc Hp Hx. apply lookup_lt_Some in Hx as Hlt.
    assert (c = 2 * pos + 1)%nat as -> by (unfold pai in Hp; lia).
    assert (x = esq) as -> by congruence. lia.
Qed.

Lemma siftup_laco_S f (heap : list A) endpos pos :
  _siftup_laco menor (S f) heap endpos pos =
  if (2 * pos + 1 <? endpos)%nat then
    faz childpos' <- escolher_filho menor heap endpos (2 * pos + 1) em
    faz filho <- obter heap childpos' em
    faz heap' <- gravar heap pos filho em
    _siftup_laco menor f heap' endpos childpos'
  else Retorna (heap, pos).
Proof. reflexivity. Qed.

Lemma siftup_laco_O (heap : list A) endpos pos :
  _siftup_laco menor 0 heap endpos pos =
  if (2 * pos + 1 <? endpos)%nat then Diverge else Retorna (heap, pos).
Proof. reflexivity. Qed.

Lemma siftup_laco_correto combustivel : forall (heap : list A) newitem s pos,
  (length heap <= combustivel + pos)%nat ->
  inv_siftup chave s heap pos ->
  exists heap' pos',
    _siftup_laco menor combustivel heap (length heap) pos = Retorna (heap', pos') /\
    inv_siftup chave s heap' pos' /\
    (length heap' <= 2 * pos' + 1)%nat /\
    <[pos' := newitem]> heap' ≡ₚ <[pos := newitem]> heap.
Proof.
  induction combustivel as [|f IH]; intros heap newitem s pos Hf (Hlen & Hdesc & Hord).
  - rewrite siftup_laco_O.
    rewrite (proj2 (Nat.ltb_ge _ _)) by lia.
    exists heap, pos. repeat split; try done; try lia.
  - rewrite siftup_laco_S.
    destruct (2 * pos + 1 <? length heap)%nat eqn:Hc.
    + apply Nat.ltb_lt in Hc.
      destruct (escolher_filho_correto heap pos Hc) as (ch & filho & -> & Hch & Hfilho & Hmin).
      simpl. unfold obter. rewrite Hfilho. simpl.
      rewrite (gravar_retorna heap pos filho Hlen). simpl.
      assert (Hchlen : (ch < length heap)%nat) by (by eapply lookup_lt_Some).
      assert (Hpch : pai ch = pos) by (unfold pai; lia).
      pose proof (descendente_ge _ _ Hdesc) as Hsp.
      destruct (IH (<[pos := filho]> heap) newitem s ch) as (heap' & pos' & Hr & Hinv & Hleaf & Hperm).
      { rewrite length_insert. lia. }
      { split; [rewrite length_insert; lia|].
        split; [by eapply descendente_filho|].
        intros c x y Hc1 Hs _ Hx Hy.
        destruct (decide (c = pos)) as [->|Hne].
        - rewrite list_lookup_insert_eq in Hx by done. injection Hx as <-.
          assert (pai pos <> pos) by (unfold pai; lia).
          rewrite list_lookup_insert_ne in Hy by done.
          assert (Hps : pos <> s) by (unfold pai in *; lia).
          destruct (lookup_lt_is_Some_2 heap pos Hlen) as [z Hz].
          pose proof (Hord pos z y Hc1 Hs ltac:(done) Hz Hy).
          pose proof (Hord ch filho z ltac:(lia) ltac:(lia) ltac:(done) Hfilho
                        ltac:(by rewrite Hpch)).
          lia.
        - rewrite list_lookup_insert_ne in Hx by done.
          destruct (decide (pai c = pos)) as [Hpc|Hpc].
          + rewrite Hpc, list_lookup_insert_eq in Hy by done. injection Hy as <-.
            by apply (Hmin c x).
          + rewrite list_lookup_insert_ne in Hy by done.
            apply (Hord c x y); try done. intros Hpcs Hpos. congruence. }
      rewrite length_insert in Hr. exists heap', pos'.
      split; [done|]. split; [done|]. split; [done|].
      rewrite Hperm. apply troca_permutacao; [lia | done | done].
    + apply Nat.ltb_ge in Hc. exists heap, pos. repeat split; try done; try lia.
Qed.

Lemma siftup_correto (heap : list A) s :
  (s < length heap)%nat ->
  ordenado_desde chave (S s) heap ->
  exists heap',
    _siftup menor heap s = Retorna heap' /\
    ordenado_desde chave s heap' /\ heap' ≡ₚ heap.
Proof.
  intros Hs Hord. unfold _siftup.
  destruct (lookup_lt_is_Some_2 heap s Hs) as [newitem Hnew].
  unfold obter at 1. rewrite Hnew. simpl.
  destruct (siftup_laco_correto (length heap) heap newitem s s)
    as (heap1 & pos1 & -> & (Hlen1 & Hdesc1 & Hord1) & Hleaf & Hperm).
  { lia. }
  { split; [done|]. split; [constructor|].
    intros c x y Hc Hsc Hne Hx Hy. apply (Hord c x y); try done.
    destruct (decide (pai c = s)) as [Heq|Hneq]; [by apply Hne in Heq | lia]. }
  simpl. rewrite (gravar_retorna heap1 pos1 newitem Hlen1). simpl.
  destruct (siftdown_correto (<[pos1 := newitem]> heap1) s pos1 newitem)
    as (heap' & Hr & Hord' & Hperm').
  { by apply list_lookup_insert_eq. }
  { split; [rewrite length_insert; lia|]. split; [done|]. split.
    - intros c x y Hc Hsc Hcp Hpcp Hx Hy.
      rewrite list_lookup_insert_ne in Hx by done.
      rewrite list_lookup_insert_ne in Hy by done.
      apply (Hord1 c x y); try done. intros Heq Hpos. congruence.
    - intros c x Hc Hpc Hx. exfalso.
      apply lookup_lt_Some in Hx. rewrite length_insert in Hx.
      unfold pai in Hpc. lia. }
  exists heap'. split; [done|]. split; [done|].
  rewrite Hperm', Hperm. by rewrite list_insert_id.
Qed.

Lemma heappush_correto (heap : list A) item :
  heap_ordenado chave heap ->
  exists heap',
    heappush menor heap item = Retorna heap' /\
    heap_ordenado chave heap' /\ heap' ≡ₚ item :: heap.
Proof.
  intros Hord. unfold heappush.
  rewrite length_app. simpl length.
  replace (length heap + 1 - 1)%nat with (length heap) by lia.
  destruct (siftdown_correto (heap ++ [item]) 0 (length heap) item)
    as (heap' & Hr & Hord' & Hperm).
  { rewrite lookup_app_r by lia. by rewrite Nat.sub_diag. }
  { split; [rewrite length_app; simpl; lia|].
    split; [apply descendente_zero|]. split.
    - intros c x y Hc _ Hcp Hpcp Hx Hy.
      assert (c < length heap)%nat.
      { apply lookup_lt_Some in Hx. rewrite length_app in Hx. simpl in Hx. lia. }
      assert (pai c < length heap)%nat by (unfold pai; lia).
      rewrite lookup_app_l in Hx by done. rewrite lookup_app_l in Hy by done.
      apply (Hord c x y); try done. lia.
    - intros c x Hc Hpc Hx. exfalso.
      apply lookup_lt_Some in Hx. rewrite length_app in Hx. simpl in Hx.
      unfold pai in Hpc. lia. }
  exists heap'. split; [done|]. split; [done|].
  rewrite Hperm. by rewrite Permutation_app_comm.
Qed.

Lemma heappop_correto (heap : list A) :
  heap <> [] ->
  heap_ordenado chave heap ->
  exists item heap',
    heappop menor heap = Retorna (item, heap') /\
    heap !! 0%nat = Some item /\
    heap_ordenado chave heap' /\ heap ≡ₚ item :: heap'.
Proof.
  intros Hne Hord. unfold heappop.
  destruct (last heap) as [lastelt|] eqn:Hlast;
    [|apply last_None in Hlast; done].
  apply last_Some in Hlast as [inicio ->].
  rewrite length_app. simpl length.
  replace (length inicio + 1 - 1)%nat with (length inicio) by lia.
  rewrite take_app_length.
  destruct inicio as [|returnitem resto].
  - exists lastelt, []. split; [done|]. split; [done|]. split; [|done].
    intros c x y Hc _ Hx. by destruct c.
  - unfold gravar. simpl length. simpl Nat.ltb. cbv iota. simpl insert. simpl ligar.
    destruct (siftup_correto (lastelt :: resto) 0) as (heap' & Hr & Hord' & Hperm).
    { simpl. lia. }
    { intros c x y Hc Hs Hx Hy.
      destruct c as [|c]; [lia|]. simpl in Hx.
      assert (Hp : exists q, pai (S c) = S q)
        by (exists (pai (S c) - 1)%nat; lia).
      destruct Hp as [q Hq]. rewrite Hq in Hy. simpl in Hy.
      apply (Hord (S c) x y); [lia | lia | |].
      - simpl. rewrite lookup_app_l; [done | by eapply lookup_lt_Some].
      - rewrite Hq. simpl. rewrite lookup_app_l; [done | by eapply lookup_lt_Some]. }
    rewrite Hr. simpl. exists returnitem, heap'.
    split; [done|]. split; [done|]. split; [done|].
    rewrite Hperm. simpl. constructor.
    by rewrite Permutation_app_comm.
Qed.

Lemma heapify_laco_correto m : forall (x : list A),
  (m <= length x)%nat ->
  ordenado_desde chave m x ->
  exists x',
    heapify_laco menor (rev (seq 0 m)) x = Retorna x' /\
    heap_ordenado chave x' /\ x' ≡ₚ x.
Proof.
  induction m as [|m IH]; intros x Hm Hord.
  - exists x. by repeat split.
  - rewrite seq_S, rev_app_distr. simpl.
    destruct (siftup_correto x m ltac:(lia) Hord) as (x1 & -> & Hord1 & Hperm1).
    simpl.
    destruct (IH x1) as (x' & Hr & Hord' & Hperm'); [|done|].
    { rewrite Hperm1. lia. }
    exists x'. split; [done|]. split; [done|]. by rewrite Hperm'.
Qed.

Lemma heapify_correto (x : list A) :
  exists x',
    heapify menor x = Retorna x' /\ heap_ordenado chave x' /\ x' ≡ₚ x.
Proof.
  unfold heapify. apply heapify_laco_correto.
  - lia.
  - intros c y z Hc Hs Hy Hz. exfalso. apply lookup_lt_Some in Hy.
    unfold pai in Hs. lia.
Qed.
End PropriedadesHeapq.

(* ================================================================== *)
(** * Correctness of the search *)

(** ** The grid graph *)

Lemma manhattan_consistente p q o :
  adjacente p q = true ->
  calcular_distancia_manhattan p o <= 1 + calcular_distancia_manhattan q o.
Proof.
  unfold adjacente, calcular_distancia_manhattan.
  destruct p as [p1 p2], q as [q1 q2], o as [o1 o2]. simpl.
  intros H. apply Z.eqb_eq in H. lia.
Qed.

Lemma adjacente_direcoes p q :
  adjacente p q = true <->
  exists delta, delta ∈ direcoes_vizinhos /\ q = (fst p + fst delta, snd p + snd delta).
Proof.
  unfold adjacente, direcoes_vizinhos. destruct p as [p1 p2], q as [q1 q2]. simpl.
  rewrite Z.eqb_eq. split.
  - intros H.
    assert ((q1 = p1 - 1 /\ q2 = p2) \/ (q1 = p1 + 1 /\ q2 = p2) \/
            (q1 = p1 /\ q2 = p2 + 1) \/ (q1 = p1 /\ q2 = p2 - 1))
      as [[-> ->]|[[-> ->]|[[-> ->]|[-> ->]]]] by lia.
    + exists (-1, 0). split; [set_solver|]. simpl. f_equal; lia.
    + exists (1, 0). split; [set_solver|]. simpl. f_equal; lia.
    + exists (0, 1). split; [set_solver|]. simpl. f_equal; lia.
    + exists (0, -1). split; [set_solver|]. simpl. f_equal; lia.
  - intros (delta & Hd & Hq). injection Hq as -> ->.
    rewrite !elem_of_cons, elem_of_nil in Hd.
    destruct Hd as [->|[->|[->|[->|[]]]]]; simpl; lia.
Qed.

Lemma grade_retangular_linha mapa linha :
  grade_retangular mapa = true -> linha ∈ mapa -> length linha = length (hd [] mapa).
Proof.
  unfold grade_retangular. rewrite forallb_forall. intros H Hin.
  apply Nat.eqb_eq, H. by apply list_elem_of_In.
Qed.

Lemma celula_retorna mapa l c x :
  0 <= l -> 0 <= c ->
  celula mapa l c = Retorna x <->
  exists linha, mapa !! Z.to_nat l = Some linha /\ linha !! Z.to_nat c = Some x.
Proof.
  intros Hl Hc. unfold celula.
  rewrite (indice_nao_negativo mapa l Hl).
  destruct (mapa !! Z.to_nat l) as [linha|] eqn:Hlin; simpl.
  - rewrite (indice_nao_negativo _ c Hc).
    destruct (linha !! Z.to_nat c) as [y|] eqn:Hy.
    + split.
      * intros [= ->]. eauto.
      * intros (linha' & [= <-] & Hx). congruence.
    + split; [discriminate|]. intros (linha' & [= <-] & Hx). congruence.
  - split; [discriminate|]. intros (linha' & ? & _). discriminate.
Qed.

Lemma dentro_do_mapa_limites mapa p :
  dentro_do_mapa mapa p = true <->
  0 <= fst p < len mapa /\ 0 <= snd p < len (hd [] mapa).
Proof.
  unfold dentro_do_mapa. rewrite !andb_true_iff, !Z.leb_le, !Z.ltb_lt. lia.
Qed.

(** In a rectangular grid every position inside the limits names a cell. *)
Lemma celula_dentro mapa p :
  grade_retangular mapa = true -> dentro_do_mapa mapa p = true ->
  exists x, celula mapa (fst p) (snd p) = Retorna x.
Proof.
  intros Hret Hd. apply dentro_do_mapa_limites in Hd as [Hl Hc].
  unfold len in *.
  destruct (lookup_lt_is_Some_2 mapa (Z.to_nat (fst p)) ltac:(lia)) as [linha Hlin].
  assert (Hlen : length linha = length (hd [] mapa)).
  { apply grade_retangular_linha; [done|]. by eapply list_elem_of_lookup_2. }
  destruct (lookup_lt_is_Some_2 linha (Z.to_nat (snd p)) ltac:(lia)) as [x Hx].
  exists x. apply celula_retorna; [lia | lia |]. eauto.
Qed.

Lemma numero_colunas_hd mapa :
  mapa <> [] -> numero_colunas mapa = Retorna (len (hd [] mapa)).
Proof. destruct mapa as [|linha0 resto]; [done|]. reflexivity. Qed.

Lemma vizinho_valido_retangular mapa p delta :
  grade_retangular mapa = true ->
  let q := (fst p + fst delta, snd p + snd delta) in
  vizinho_valido mapa p delta = Retorna (if livre mapa q then Some q else None).
Proof.
  intros Hret q. unfold vizinho_valido, livre.
  destruct (dentro_do_mapa mapa q) eqn:Hd.
  - pose proof Hd as Hlim. apply dentro_do_mapa_limites in Hlim as [Hl Hc].
    simpl in Hl, Hc.
    rewrite (proj2 (Z.leb_le 0 _) (proj1 Hl)), (proj2 (Z.ltb_lt _ _) (proj2 Hl)).
    simpl. rewrite numero_colunas_hd by (intros ->; unfold len in Hl; simpl in Hl; lia).
    simpl. rewrite (proj2 (Z.leb_le 0 _) (proj1 Hc)), (proj2 (Z.ltb_lt _ _) (proj2 Hc)).
    simpl. destruct (celula_dentro mapa q Hret Hd) as [x Hx]. simpl in Hx.
    rewrite Hx. simpl. by destruct (negb (String.eqb x "*")).
  - simpl.
    destruct ((0 <=? fst p + fst delta) && (fst p + fst delta <? len mapa)) eqn:Hl;
      [|done].
    apply andb_true_iff in Hl as [Hl0 Hl1]. apply Z.leb_le in Hl0. apply Z.ltb_lt in Hl1.
    rewrite numero_colunas_hd by (intros ->; unfold len in Hl1; simpl in Hl1; lia).
    simpl.
    destruct ((0 <=? snd p + snd delta) && (snd p + snd delta <? len (hd [] mapa))) eqn:Hc;
      [|done].
    apply andb_true_iff in Hc as [Hc0 Hc1]. apply Z.leb_le in Hc0. apply Z.ltb_lt in Hc1.
    assert (dentro_do_mapa mapa q = true) by (apply dentro_do_mapa_limites; simpl; lia).
    congruence.
Qed.

Lemma vizinhos_validos_laco_retangular mapa p direcoes :
  grade_retangular mapa = true ->
  exists vizinhos,
    vizinhos_validos_laco mapa p direcoes = Retorna vizinhos /\
    forall q, q ∈ vizinhos <->
              livre mapa q = true /\
              exists delta, delta ∈ direcoes /\ q = (fst p + fst delta, snd p + snd delta).
Proof.
  intros Hret. induction direcoes as [|delta resto (vizinhos & IH & Hviz)]; simpl.
  - exists []. split; [done|]. intros q. split.
    + intros H. by apply elem_of_nil in H.
    + intros (_ & delta & Hd & _). by apply elem_of_nil in Hd.
  - rewrite (vizinho_valido_retangular mapa p delta Hret). simpl. rewrite IH. simpl.
    eexists. split; [done|]. intros q.
    destruct (livre mapa (fst p + fst delta, snd p + snd delta)) eqn:Hl.
    + rewrite elem_of_cons, Hviz. split.
      * intros [-> | (Hq & d & Hd & ->)].
        -- split; [done|]. exists delta. split; [by left | done].
        -- split; [done|]. exists d. split; [by right | done].
      * intros (Hq & d & Hd & ->). apply elem_of_cons in Hd as [-> | Hd].
        -- by left.
        -- right. split; [done|]. eauto.
    + rewrite Hviz. split.
      * intros (Hq & d & Hd & ->). split; [done|]. exists d. split; [by right | done].
      * intros (Hq & d & Hd & ->). apply elem_of_cons in Hd as [-> | Hd].
        -- congruence.
        -- split; [done|]. eauto.
Qed.

Lemma vizinhos_validos_retangular mapa p :
  grade_retangular mapa = true ->
  exists vizinhos,
    obter_vizinhos_validos p mapa = Retorna vizinhos /\
    forall q, q ∈ vizinhos <-> adjacente p q = true /\ livre mapa q = true.
Proof.
  intros Hret.
  destruct (vizinhos_validos_laco_retangular mapa p direcoes_vizinhos Hret)
    as (vizinhos & Hr & Hviz).
  exists vizinhos. split; [done|]. intros q.
  rewrite Hviz, adjacente_direcoes. tauto.
Qed.

(** ** Walks *)

Lemma anda_livre mapa inicial p n : anda mapa inicial p n -> livre mapa p = true.
Proof. by destruct 1. Qed.

Lemma caminho_valido_cons mapa p q resto :
  caminho_valido mapa (p :: q :: resto)
  = livre mapa p && adjacente p q && caminho_valido mapa (q :: resto).
Proof. simpl. by rewrite andb_assoc. Qed.

Lemma caminho_valido_snoc mapa (l : list (Z * Z)) p q :
  caminho_valido mapa ((l ++ [p]) ++ [q])%list
  = caminho_valido mapa (l ++ [p])%list && adjacente p q && livre mapa q.
Proof.
  induction l as [|a l IH].
  - simpl. by destruct (livre mapa p), (adjacente p q), (livre mapa q).
  - destruct l as [|b l].
    + simpl. by destruct (livre mapa a), (adjacente a p), (livre mapa p),
        (adjacente p q), (livre mapa q).
    + change (((a :: b :: l) ++ [p]) ++ [q])%list
        with (a :: b :: ((l ++ [p]) ++ [q]))%list.
      change ((a :: b :: l) ++ [p])%list with (a :: b :: (l ++ [p]))%list.
      rewrite !caminho_valido_cons.
      change (b :: (l ++ [p]) ++ [q])%list with (((b :: l) ++ [p]) ++ [q])%list.
      rewrite IH. change ((b :: l) ++ [p])%list with (b :: (l ++ [p]))%list.
      by rewrite !andb_assoc.
Qed.

(** A walk of [n] steps is a valid path of [n + 1] cells, and conversely. *)
Lemma anda_caminho mapa inicial p n :
  anda mapa inicial p n ->
  exists caminho, liga mapa inicial p caminho /\ length caminho = S n.
Proof.
  induction 1 as [Hl | p q n _ (caminho & (Hv & Hh & Hu) & Hlen) Hadj Hq].
  - exists [inicial]. split; [|done]. split; [|done]. simpl. by rewrite Hl.
  - apply last_Some in Hu as [l ->].
    exists ((l ++ [p]) ++ [q])%list. split.
    + split; [by rewrite caminho_valido_snoc, Hv, Hadj, Hq|]. split.
      * by destruct l.
      * by rewrite last_snoc.
    + rewrite length_app. simpl. lia.
Qed.

Lemma caminho_anda mapa inicial : forall (caminho : list (Z * Z)) p,
  caminho_valido mapa (caminho ++ [p])%list = true ->
  head (caminho ++ [p])%list = Some inicial ->
  anda mapa inicial p (length caminho).
Proof.
  induction caminho as [|q caminho IH] using rev_ind; intros p Hv Hh.
  - simpl in *. injection Hh as ->. constructor. by rewrite andb_true_r in Hv.
  - rewrite length_app. simpl. rewrite Nat.add_1_r.
    rewrite caminho_valido_snoc in Hv.
    apply andb_true_iff in Hv as [Hv Hp]. apply andb_true_iff in Hv as [Hv Hadj].
    eapply anda_passo; [|done|done].
    apply IH; [done|]. by destruct caminho.
Qed.

Lemma liga_anda mapa inicial p caminho :
  liga mapa inicial p caminho -> anda mapa inicial p (length caminho - 1).
Proof.
  intros (Hv & Hh & Hu). apply last_Some in Hu as [l ->].
  rewrite length_app. simpl. replace (length l + 1 - 1)%nat with (length l) by lia.
  by apply caminho_anda.
Qed.

(** ** Counting the cells *)

Lemma numero_da_celula_limite mapa p :
  dentro_do_mapa mapa p = true ->
  (numero_da_celula mapa p < numero_celulas mapa)%nat.
Proof.
  intros Hd. apply dentro_do_mapa_limites in Hd as [Hl Hc].
  unfold numero_da_celula, numero_celulas, len in *. nia.
Qed.

Lemma numero_da_celula_injetivo mapa p q :
  dentro_do_mapa mapa p = true -> dentro_do_mapa mapa q = true ->
  numero_da_celula mapa p = numero_da_celula mapa q -> p = q.
Proof.
  intros Hp Hq. apply dentro_do_mapa_limites in Hp as [Hp1 Hp2].
  apply dentro_do_mapa_limites in Hq as [Hq1 Hq2].
  unfold numero_da_celula, len in *. intros H.
  destruct p as [p1 p2], q as [q1 q2]. simpl in *.
  assert (Z.to_nat p1 = Z.to_nat q1) by nia.
  assert (Z.to_nat p2 = Z.to_nat q2) by nia.
  f_equal; lia.
Qed.

Lemma tamanho_visitados (mapa : list (list string)) (visitados : gset (Z * Z)) :
  (forall p, p ∈ visitados -> dentro_do_mapa mapa p = true) ->
  (size visitados <= numero_celulas mapa)%nat.
Proof.
  intros Hd.
  assert (H : (length (numero_da_celula mapa <$> elements visitados)
               <= length (seq 0%nat (numero_celulas mapa)))%nat).
  { apply submseteq_length, NoDup_submseteq.
    - apply NoDup_fmap_2_strong; [|apply NoDup_elements].
      intros p q Hp Hq. apply numero_da_celula_injetivo; apply Hd; by apply elem_of_elements.
    - intros n Hn. apply list_elem_of_fmap in Hn as (p & -> & Hp).
      apply elem_of_seq. split; [lia|]. simpl.
      apply numero_da_celula_limite, Hd. by apply elem_of_elements. }
  by rewrite length_fmap, length_seq in H.
Qed.

Lemma tamanho_visitados_estrito (mapa : list (list string)) (visitados : gset (Z * Z)) p :
  (forall q, q ∈ visitados -> dentro_do_mapa mapa q = true) ->
  dentro_do_mapa mapa p = true -> p ∉ visitados ->
  (size visitados < numero_celulas mapa)%nat.
Proof.
  intros Hd Hp Hnp.
  assert (size ({[p]} ∪ visitados) <= numero_celulas mapa)%nat.
  { apply tamanho_visitados. intros q Hq.
    apply elem_of_union in Hq as [Hq|Hq]; [|by apply Hd].
    apply elem_of_singleton in Hq as ->. done. }
  rewrite size_union in H by set_solver. rewrite size_singleton in H. lia.
Qed.

(** ** The node store *)

Lemma objeto_de_insert_eq objetos r no :
  (r < length objetos)%nat -> objeto_de (<[r := no]> objetos) r = no.
Proof. intros Hr. unfold objeto_de. by rewrite list_lookup_insert_eq. Qed.

Lemma objeto_de_insert_ne objetos r r' no :
  r <> r' -> objeto_de (<[r' := no]> objetos) r = objeto_de objetos r.
Proof. intros Hr. unfold objeto_de. by rewrite list_lookup_insert_ne. Qed.

Lemma objeto_de_app_l objetos r no :
  (r < length objetos)%nat -> objeto_de (objetos ++ [no]) r = objeto_de objetos r.
Proof. intros Hr. unfold objeto_de. by rewrite lookup_app_l. Qed.

Lemma objeto_de_app_r objetos no :
  objeto_de (objetos ++ [no]) (length objetos) = no.
Proof. unfold objeto_de. rewrite lookup_app_r by lia. by rewrite Nat.sub_diag. Qed.

Lemma heap_ordenado_ext {A} (chave1 chave2 : A -> Z) (l : list A) :
  (forall x, x ∈ l -> chave1 x = chave2 x) ->
  heap_ordenado chave1 l -> heap_ordenado chave2 l.
Proof.
  intros Heq Hord c x y Hc Hs Hx Hy.
  rewrite <- (Heq x), <- (Heq y) by (by eapply list_elem_of_lookup_2).
  by apply (Hord c x y).
Qed.

Section CorrecaoDaBusca.
Context (mapa : list (list string)) (inicial objetivo : Z * Z).
Hypothesis retangular_mapa : grade_retangular mapa = true.

Local Abbreviation no st r := (objeto_de (objetos st) r).
Local Abbreviation h p := (calcular_distancia_manhattan p objetivo).
Local Abbreviation Inv := (invariante mapa inicial objetivo).

Lemma posicoes_distintas atual pendentes st r1 r2 :
  Inv atual pendentes st ->
  r1 ∈ fila_prioridade st -> r2 ∈ fila_prioridade st ->
  posicao (no st r1) = posicao (no st r2) -> r1 = r2.
Proof.
  intros HI H1 H2 Hpos.
  assert (nos_abertos st !! posicao (no st r1) = Some r1)
    by (by apply (inv_abertos _ _ _ _ _ _ HI)).
  assert (nos_abertos st !! posicao (no st r1) = Some r2)
    by (by apply (inv_abertos _ _ _ _ _ _ HI)).
  congruence.
Qed.

(** Every walk from the start that reaches an unvisited cell passes
    through an open node that is at least as promising. *)
Lemma fronteira atual st p n :
  Inv atual [] st ->
  anda mapa inicial p n ->
  p ∈ nos_visitados st \/
  exists r, r ∈ fila_prioridade st /\
            custo_g (no st r) + h (posicao (no st r)) <= Z.of_nat n + h p.
Proof.
  intros HI. induction 1 as [Hl | p q n Hand IH Hadj Hq].
  - destruct (inv_inicio _ _ _ _ _ _ HI) as [Hv | (r & Hr & Hpos & Hg)]; [by left|].
    right. exists r. split; [done|]. rewrite Hpos, Hg. lia.
  - destruct IH as [Hv | (r & Hr & Hle)].
    + destruct (inv_visitados _ _ _ _ _ _ HI p Hv) as (r & Hfr & Hpos).
      destruct (inv_fechados _ _ _ _ _ _ HI r Hfr) as [_ Hot].
      assert (Hg : custo_g (no st r) <= Z.of_nat n) by (apply Hot; by rewrite Hpos).
      destruct (inv_arestas _ _ _ _ _ _ HI r q Hfr ltac:(by rewrite Hpos) Hq)
        as [[_ Hin] | [Hv' | (r' & Hr' & Hpos' & Hg')]].
      * by apply elem_of_nil in Hin.
      * by left.
      * right. exists r'. split; [done|]. rewrite Hpos'. lia.
    + right. exists r. split; [done|].
      pose proof (manhattan_consistente p q objetivo Hadj). lia.
Qed.

(** The node at the root of the queue has the least cost to its cell. *)
Lemma otimalidade atual0 st atual :
  Inv atual0 [] st ->
  fila_prioridade st !! 0%nat = Some atual ->
  otimo mapa inicial st atual.
Proof.
  intros HI Hraiz n Hand.
  assert (Hat : atual ∈ fila_prioridade st) by (by eapply list_elem_of_lookup_2).
  destruct (fronteira _ _ _ _ HI Hand) as [Hv | (r & Hr & Hle)].
  - by apply (inv_abertos_nao_visitados _ _ _ _ _ _ HI atual Hat) in Hv.
  - apply list_elem_of_lookup in Hr as Hidx. destruct Hidx as [i Hi].
    pose proof (raiz_minima (fun r => custo_f (no st r)) _ _
                  (inv_heap _ _ _ _ _ _ HI) Hraiz i r Hi) as Hmin.
    simpl in Hmin.
    destruct (inv_custos _ _ _ _ _ _ HI atual
                (inv_fila_validos _ _ _ _ _ _ HI atual Hat)) as (Hf1 & _ & _).
    destruct (inv_custos _ _ _ _ _ _ HI r
                (inv_fila_validos _ _ _ _ _ _ HI r Hr)) as (Hf2 & _ & _).
    simpl in Hf1, Hf2. lia.
Qed.

(** Following the parent links from a node gives a valid path from the
    start to the position of the node, of as many steps as its cost. *)
Lemma reconstruir_laco_caminho atual pendentes st :
  Inv atual pendentes st ->
  forall combustivel r acc,
    (r < length (objetos st))%nat ->
    custo_g (no st r) < Z.of_nat combustivel ->
    exists l,
      reconstruir_laco combustivel (objetos st) (Some r) acc
      = Retorna ((l ++ [posicao (no st r)]) ++ acc)%list /\
      caminho_valido mapa (l ++ [posicao (no st r)])%list = true /\
      head (l ++ [posicao (no st r)])%list = Some inicial /\
      Z.of_nat (length l) = custo_g (no st r).
Proof.
  intros HI. induction combustivel as [|f IH]; intros r acc Hr Hg.
  - destruct (inv_custos _ _ _ _ _ _ HI r Hr) as (_ & Hg0 & _). simpl in Hg0. lia.
  - simpl.
    destruct (inv_custos _ _ _ _ _ _ HI r Hr) as (_ & Hg0 & Hlivre). simpl in Hg0, Hlivre.
    pose proof (inv_pais _ _ _ _ _ _ HI r Hr) as Hpai. simpl in Hpai.
    destruct (no_pai (no st r)) as [q|].
    + destruct Hpai as ((Hq & _) & Hgq & Hadj).
      destruct (IH q (posicao (no st r) :: acc) Hq ltac:(lia))
        as (l & -> & Hv & Hh & Hlen).
      exists (l ++ [posicao (no st q)])%list. split; [|split; [|split]].
      * by rewrite <- !app_assoc.
      * by rewrite caminho_valido_snoc, Hv, Hadj, Hlivre.
      * destruct l; exact Hh.
      * rewrite length_app. simpl. lia.
    + destruct Hpai as [Hpos Hg1]. exists []. split; [by destruct f|]. simpl.
      rewrite Hlivre, Hpos, Hg1. done.
Qed.

Lemma reconstruir_caminho atual pendentes st r :
  Inv atual pendentes st ->
  (r < length (objetos st))%nat ->
  exists caminho,
    reconstruir_caminho_otimo (objetos st) r = Retorna caminho /\
    liga mapa inicial (posicao (no st r)) caminho /\
    Z.of_nat (length caminho) = custo_g (no st r) + 1.
Proof.
  intros HI Hr. unfold reconstruir_caminho_otimo.
  destruct (inv_custos _ _ _ _ _ _ HI r Hr) as (_ & Hg0 & _). simpl in Hg0.
  destruct (reconstruir_laco_caminho _ _ _ HI (length (objetos st)) r [] Hr ltac:(lia))
    as (l & -> & Hv & Hh & Hlen).
  rewrite app_nil_r. eexists. split; [done|]. split.
  - split; [done|]. split; [done|]. by rewrite last_snoc.
  - rewrite length_app. simpl. lia.
Qed.

Lemma estado_inicial_invariante :
  livre mapa inicial = true ->
  exists st,
    estado_inicial inicial objetivo = Retorna st /\
    Inv 0%nat [] st /\ nos_visitados st = ∅.
Proof.
  intros Hlivre.
  exists {| objetos := [novo_no inicial 0 (h inicial) None];
            fila_prioridade := [0%nat]; nos_visitados := ∅;
            nos_abertos := {[inicial := 0%nat]} |}.
  split; [reflexivity|]. split; [|done].
  constructor; cbn [objetos fila_prioridade nos_visitados nos_abertos length].
  - apply NoDup_singleton.
  - intros r Hr. apply list_elem_of_singleton in Hr as ->. lia.
  - intros p r. rewrite lookup_singleton_Some, list_elem_of_singleton. split.
    + intros [<- <-]. done.
    + intros [-> <-]. done.
  - intros r _. apply not_elem_of_empty.
  - intros c x y Hc _ Hx Hy. apply lookup_lt_Some in Hx. simpl in Hx. lia.
  - intros r Hr. assert (r = 0%nat) as -> by lia. simpl.
    split; [done|]. split; [lia | done].
  - intros r Hr. assert (r = 0%nat) as -> by lia. simpl. done.
  - intros r [Hr Hnr]. simpl in Hr, Hnr.
    assert (r = 0%nat) as -> by lia. exfalso. apply Hnr. by left.
  - intros p Hp. by apply elem_of_empty in Hp.
  - intros r v [Hr Hnr]. simpl in Hr, Hnr.
    assert (r = 0%nat) as -> by lia. exfalso. apply Hnr. by left.
  - right. exists 0%nat. split; [by left | done].
  - apply not_elem_of_empty.
Qed.

(** Taking the root out of the queue and closing it keeps the
    invariant, with all the free neighbours of its cell pending. *)
Lemma fechar_no atual0 st atual fila vizinhos :
  Inv atual0 [] st ->
  fila_prioridade st !! 0%nat = Some atual ->
  fila_prioridade st ≡ₚ atual :: fila ->
  heap_ordenado (fun r => custo_f (no st r)) fila ->
  posicao (no st atual) <> objetivo ->
  (forall q, q ∈ vizinhos <->
             adjacente (posicao (no st atual)) q = true /\ livre mapa q = true) ->
  let st1 := {| objetos := objetos st; fila_prioridade := fila;
                nos_visitados := {[posicao (no st atual)]} ∪ nos_visitados st;
                nos_abertos := delete (posicao (no st atual)) (nos_abertos st) |} in
  Inv atual vizinhos st1 /\ fechado st1 atual.
Proof.
  intros HI Hraiz Hperm Hheap Hnobj Hviz st1.
  pose proof (otimalidade _ _ _ HI Hraiz) as Hotimo.
  assert (Hat : atual ∈ fila_prioridade st) by (by eapply list_elem_of_lookup_2).
  assert (Hnd : NoDup (atual :: fila)) by (rewrite <- Hperm; apply HI).
  apply NoDup_cons in Hnd as [Hnat Hndf].
  assert (Hsub : forall r, r ∈ fila_prioridade st <-> r = atual \/ r ∈ fila).
  { intros r. rewrite Hperm. apply elem_of_cons. }
  assert (Hfila_pos : forall r, r ∈ fila -> posicao (no st r) <> posicao (no st atual)).
  { intros r Hr Hpos.
    assert (r = atual); [|congruence].
    apply (posicoes_distintas _ _ _ _ _ HI); [apply Hsub; by right | done | done]. }
  assert (Hfech : forall r, fechado st1 r -> r = atual \/ fechado st r).
  { intros r [Hr Hnr]. simpl in Hr, Hnr.
    destruct (decide (r = atual)) as [->|Hne]; [by left|].
    right. split; [done|]. rewrite Hsub. tauto. }
  assert (Hfech' : forall r, fechado st r -> fechado st1 r).
  { intros r [Hr Hnr]. split; [done|]. simpl. rewrite Hsub in Hnr. tauto. }
  assert (Hfat : fechado st1 atual).
  { split; [|done]. simpl. by apply (inv_fila_validos _ _ _ _ _ _ HI). }
  split; [|done].
  constructor; cbn [objetos fila_prioridade nos_visitados nos_abertos st1].
  - done.
  - intros r Hr. apply (inv_fila_validos _ _ _ _ _ _ HI). apply Hsub. by right.
  - intros p r. rewrite lookup_delete_Some, (inv_abertos _ _ _ _ _ _ HI), Hsub. split.
    + intros (Hne & [-> | Hr] & Hpos); [congruence | done].
    + intros (Hr & Hpos). split; [|split; [by right | done]].
      intros Heq. apply (Hfila_pos r Hr). congruence.
  - intros r Hr. apply not_elem_of_union. split.
    + rewrite elem_of_singleton. by apply Hfila_pos.
    + apply (inv_abertos_nao_visitados _ _ _ _ _ _ HI). apply Hsub. by right.
  - done.
  - apply (inv_custos _ _ _ _ _ _ HI).
  - intros r Hr. pose proof (inv_pais _ _ _ _ _ _ HI r Hr) as Hpai. simpl in Hpai |- *.
    destruct (no_pai (no st r)) as [q|]; [|done].
    destruct Hpai as (Hq & Hg & Hadj). split; [by apply Hfech'|done].
  - intros r Hr. destruct (Hfech r Hr) as [-> | Hold].
    + split; [apply elem_of_union; left; by apply elem_of_singleton | done].
    + destruct (inv_fechados _ _ _ _ _ _ HI r Hold) as [Hv Hot].
      split; [apply elem_of_union; by right | done].
  - intros p Hp. apply elem_of_union in Hp as [Hp | Hp].
    + apply elem_of_singleton in Hp as ->. by exists atual.
    + destruct (inv_visitados _ _ _ _ _ _ HI p Hp) as (r & Hr & Hpos).
      exists r. split; [by apply Hfech' | done].
  - intros r v Hr Hadj Hlivre. destruct (Hfech r Hr) as [-> | Hold].
    + left. split; [done|]. by apply Hviz.
    + destruct (inv_arestas _ _ _ _ _ _ HI r v Hold Hadj Hlivre)
        as [[_ Hin] | [Hv | (r' & Hr' & Hpos' & Hg')]].
      * by apply elem_of_nil in Hin.
      * right. left. apply elem_of_union; by right.
      * apply Hsub in Hr' as [-> | Hr'].
        -- right. left. rewrite <- Hpos'. apply elem_of_union; left.
           by apply elem_of_singleton.
        -- right. right. by exists r'.
  - destruct (inv_inicio _ _ _ _ _ _ HI) as [Hv | (r & Hr & Hpos & Hg)].
    + left. apply elem_of_union; by right.
    + apply Hsub in Hr as [-> | Hr].
      * left. rewrite <- Hpos. apply elem_of_union; left. by apply elem_of_singleton.
      * right. by exists r.
  - apply not_elem_of_union. split.
    + rewrite elem_of_singleton. congruence.
    + apply (inv_objetivo _ _ _ _ _ _ HI).
Qed.

(** A pending neighbour that is visited, or open with a cost that the
    expanded node cannot improve, needs no treatment. *)
Lemma vizinho_resolvido atual st v resto :
  Inv atual (v :: resto) st ->
  (v ∈ nos_visitados st \/
   exists r', r' ∈ fila_prioridade st /\ posicao (no st r') = v /\
              custo_g (no st r') <= custo_g (no st atual) + 1) ->
  Inv atual resto st.
Proof.
  intros [Hnd Hval Hab Hnv Hheap Hcust Hpais Hfec Hvis Hare Hini Hobj] Hv.
  constructor; try done.
  intros r v' Hr Hadj Hlivre.
  destruct (Hare r v' Hr Hadj Hlivre) as [[-> Hin] | [Hv' | Hr']]; [|by right; left|by right; right].
  apply elem_of_cons in Hin as [-> | Hin]; [|by left].
  right. done.
Qed.

(** The relaxation of an open node by the expanded node. *)
Lemma relaxar_mantem_invariante atual st v resto r' fila :
  Inv atual (v :: resto) st ->
  fechado st atual ->
  adjacente (posicao (no st atual)) v = true ->
  r' ∈ fila_prioridade st -> posicao (no st r') = v ->
  custo_g (no st atual) + 1 < custo_g (no st r') ->
  let atualizado :=
    {| posicao := posicao (no st r');
       custo_g := custo_g (no st atual) + 1;
       custo_h := custo_h (no st r');
       custo_f := custo_g (no st atual) + 1 + h v;
       no_pai := Some atual |} in
  let objetos' := <[r' := atualizado]> (objetos st) in
  heap_ordenado (fun r => custo_f (objeto_de objetos' r)) fila ->
  fila ≡ₚ fila_prioridade st ->
  Inv atual resto {| objetos := objetos'; fila_prioridade := fila;
                     nos_visitados := nos_visitados st;
                     nos_abertos := nos_abertos st |}.
Proof.
  intros HI [Hatlt Hatn] Hadjv Hr'Q Hposv Hlt atualizado objetos' Hheap' Hperm.
  pose proof HI as [Hnd Hval Hab Hnv Hheap Hcust Hpais Hfec Hvis Hare Hini Hobj].
  pose proof (Hval r' Hr'Q) as Hr'lt.
  assert (Hne_at : atual <> r') by (intros ->; done).
  assert (Hno_eq : forall r, r <> r' -> objeto_de objetos' r = no st r)
    by (intros r Hr; by apply objeto_de_insert_ne).
  assert (Hno_r' : objeto_de objetos' r' = atualizado)
    by (by apply objeto_de_insert_eq).
  assert (Hpos : forall r, posicao (objeto_de objetos' r) = posicao (no st r)).
  { intros r. destruct (decide (r = r')) as [->|Hr]; [by rewrite Hno_r' | by rewrite Hno_eq]. }
  assert (Hmem : forall r, r ∈ fila <-> r ∈ fila_prioridade st)
    by (intros r; by rewrite Hperm).
  assert (Hlen : length objetos' = length (objetos st)) by apply length_insert.
  destruct (Hcust atual Hatlt) as (_ & Hgat & _). simpl in Hgat.
  destruct (Hcust r' Hr'lt) as (_ & Hgr' & Hlivre'). simpl in Hgr', Hlivre'.
  assert (Hg_le : forall r, custo_g (objeto_de objetos' r) <= custo_g (no st r)).
  { intros r. destruct (decide (r = r')) as [->|Hr].
    - rewrite Hno_r'. simpl. lia.
    - by rewrite Hno_eq. }
  assert (Hfech : forall r,
             fechado {| objetos := objetos'; fila_prioridade := fila;
                        nos_visitados := nos_visitados st;
                        nos_abertos := nos_abertos st |} r ->
             fechado st r /\ r <> r').
  { intros r [Hr Hnr]. cbn [objetos fila_prioridade] in Hr, Hnr.
    rewrite Hlen in Hr. rewrite Hmem in Hnr.
    split; [done|]. intros ->. done. }
  assert (Hfech_novo : forall q, fechado st q ->
             fechado {| objetos := objetos'; fila_prioridade := fila;
                        nos_visitados := nos_visitados st;
                        nos_abertos := nos_abertos st |} q).
  { intros q [Hq Hqn]. split; cbn [objetos fila_prioridade];
      [by rewrite Hlen | by rewrite Hmem]. }
  clearbody objetos'.
  constructor; cbn [objetos fila_prioridade nos_visitados nos_abertos].
  - by rewrite Hperm.
  - intros r Hr. rewrite Hlen. apply Hval. by apply Hmem.
  - intros p r. rewrite Hab, Hmem, Hpos. done.
  - intros r Hr. rewrite Hpos. apply Hnv. by apply Hmem.
  - done.
  - intros r Hr. rewrite Hlen in Hr. rewrite Hlen.
    destruct (decide (r = r')) as [->|Hne].
    + rewrite Hno_r'. simpl. rewrite Hposv. split; [done|]. split; [lia|].
      by rewrite <- Hposv.
    + rewrite Hno_eq by done. by apply Hcust.
  - intros r Hr. rewrite Hlen in Hr. simpl.
    destruct (decide (r = r')) as [->|Hne].
    + rewrite Hno_r'. simpl. rewrite (Hno_eq atual Hne_at).
      split; [|split; [done | by rewrite Hposv]].
      by apply Hfech_novo.
    + rewrite Hno_eq by done.
      pose proof (Hpais r Hr) as Hpai. simpl in Hpai.
      destruct (no_pai (no st r)) as [q|]; [|done].
      destruct Hpai as (Hq & Hg & Hadj).
      assert (q <> r') by (intros ->; by destruct Hq).
      rewrite Hno_eq by done.
      split; [|done]. by apply Hfech_novo.
  - intros r Hr. apply Hfech in Hr as [Hr Hne].
    destruct (Hfec r Hr) as [Hv Hot]. rewrite Hpos. split; [done|].
    unfold otimo. cbn [objetos]. rewrite Hno_eq by done. exact Hot.
  - intros p Hp. destruct (Hvis p Hp) as (r & Hr & Hposr).
    exists r. split; [by apply Hfech_novo | by rewrite Hpos].
  - intros r v' Hr Hadj Hlivre.
    apply Hfech in Hr as [Hr Hne].
    rewrite Hpos in Hadj. rewrite (Hno_eq r Hne).
    destruct (Hare r v' Hr Hadj Hlivre) as [[-> Hin] | [Hv' | (r'' & Hr'' & Hpos'' & Hg'')]].
    + apply elem_of_cons in Hin as [-> | Hin]; [|by left].
      right. right. exists r'. split; [by apply Hmem|]. split; [by rewrite Hpos|].
      rewrite Hno_r'. simpl. lia.
    + by right; left.
    + right. right. exists r''. split; [by apply Hmem|]. split; [by rewrite Hpos|].
      pose proof (Hg_le r''). lia.
  - destruct Hini as [Hv | (r & Hr & Hposr & Hg)]; [by left|].
    right. exists r. split; [by apply Hmem|]. split; [by rewrite Hpos|].
    assert (r <> r') by (intros ->; lia).
    by rewrite Hno_eq.
  - done.
Qed.

(** The creation of a node for a neighbour seen for the first time. *)
Lemma abrir_mantem_invariante atual st v resto fila :
  Inv atual (v :: resto) st ->
  fechado st atual ->
  adjacente (posicao (no st atual)) v = true ->
  livre mapa v = true ->
  v ∉ nos_visitados st ->
  nos_abertos st !! v = None ->
  let no_vizinho := novo_no v (custo_g (no st atual) + 1) (h v) (Some atual) in
  let objetos' := (objetos st ++ [no_vizinho])%list in
  heap_ordenado (fun r => custo_f (objeto_de objetos' r)) fila ->
  fila ≡ₚ length (objetos st) :: fila_prioridade st ->
  Inv atual resto {| objetos := objetos'; fila_prioridade := fila;
                     nos_visitados := nos_visitados st;
                     nos_abertos := <[v := length (objetos st)]> (nos_abertos st) |}.
Proof.
  intros HI [Hatlt Hatn] Hadjv Hlivrev Hvn Hnone no_vizinho objetos' Hheap' Hperm.
  pose proof HI as [Hnd Hval Hab Hnv Hheap Hcust Hpais Hfec Hvis Hare Hini Hobj].
  set (n := length (objetos st)) in *.
  assert (Hno_eq : forall r, (r < n)%nat -> objeto_de objetos' r = no st r)
    by (intros r Hr; by apply objeto_de_app_l).
  assert (Hno_n : objeto_de objetos' n = no_vizinho) by apply objeto_de_app_r.
  assert (Hmem : forall r, r ∈ fila <-> r = n \/ r ∈ fila_prioridade st)
    by (intros r; rewrite Hperm; apply elem_of_cons).
  assert (Hlen : length objetos' = S n)
    by (unfold objetos'; rewrite length_app; simpl; lia).
  assert (HnQ : n ∉ fila_prioridade st) by (intros Hn; apply Hval in Hn; lia).
  destruct (Hcust atual Hatlt) as (_ & Hgat & _). simpl in Hgat.
  assert (Hfech : forall r,
             fechado {| objetos := objetos'; fila_prioridade := fila;
                        nos_visitados := nos_visitados st;
                        nos_abertos := <[v := n]> (nos_abertos st) |} r ->
             fechado st r).
  { intros r [Hr Hnr]. cbn [objetos fila_prioridade] in Hr, Hnr.
    rewrite Hlen in Hr. rewrite Hmem in Hnr.
    split; [|tauto]. fold n. destruct (decide (r = n)); [tauto | lia]. }
  assert (Hfech' : forall r, fechado st r ->
             (r < length objetos')%nat /\ (r ∉ fila) /\ (r < n)%nat).
  { intros r [Hr Hnr]. fold n in Hr. split; [lia|]. split; [|done].
    rewrite Hmem. intros [-> | ?]; [lia | done]. }
  assert (Hfech_novo : forall q, fechado st q ->
             fechado {| objetos := objetos'; fila_prioridade := fila;
                        nos_visitados := nos_visitados st;
                        nos_abertos := <[v := n]> (nos_abertos st) |} q).
  { intros q Hq. destruct (Hfech' q Hq) as (Hq1 & Hq2 & _). by split. }
  clearbody objetos'.
  constructor; cbn [objetos fila_prioridade nos_visitados nos_abertos].
  - rewrite Hperm. apply NoDup_cons. done.
  - intros r Hr. rewrite Hlen. apply Hmem in Hr as [-> | Hr]; [lia|].
    apply Hval in Hr. fold n in Hr. lia.
  - intros p r. rewrite Hmem. split.
    + intros Hl. apply lookup_insert_Some in Hl as [[<- <-] | [Hne Hl]].
      * split; [by left | by rewrite Hno_n].
      * apply Hab in Hl as [Hr Hposr]. split; [by right|].
        rewrite Hno_eq; [done | by apply Hval].
    + intros [[-> | Hr] Hposr].
      * rewrite Hno_n in Hposr. simpl in Hposr. subst p. by rewrite lookup_insert_eq.
      * rewrite Hno_eq in Hposr by (by apply Hval).
        assert (Hl : nos_abertos st !! p = Some r) by (by apply Hab).
        rewrite lookup_insert_ne; [done | congruence].
  - intros r Hr. apply Hmem in Hr as [-> | Hr].
    + by rewrite Hno_n.
    + rewrite Hno_eq by (by apply Hval). by apply Hnv.
  - done.
  - intros r Hr. rewrite Hlen in Hr. rewrite Hlen.
    destruct (decide (r = n)) as [->|Hne].
    + rewrite Hno_n. simpl. split; [done|]. split; [lia | done].
    + rewrite Hno_eq by lia. destruct (Hcust r ltac:(fold n; lia)) as (Hf & Hg & Hl).
      simpl in Hf, Hg, Hl. fold n in Hg. split; [done|]. split; [lia | done].
  - intros r Hr. rewrite Hlen in Hr. simpl.
    destruct (decide (r = n)) as [->|Hne].
    + rewrite Hno_n. simpl. rewrite (Hno_eq atual Hatlt).
      split; [|done]. by apply Hfech_novo.
    + rewrite Hno_eq by lia.
      pose proof (Hpais r ltac:(fold n; lia)) as Hpai. simpl in Hpai.
      destruct (no_pai (no st r)) as [q|]; [|done].
      destruct Hpai as (Hq & Hg & Hadj).
      destruct (Hfech' q Hq) as (Hq1 & Hq2 & Hq3).
      rewrite Hno_eq by done. split; [by apply Hfech_novo | done].
  - intros r Hr. apply Hfech in Hr.
    destruct (Hfec r Hr) as [Hv Hot]. destruct (Hfech' r Hr) as (_ & _ & Hrn).
    rewrite Hno_eq by done. split; [done|].
    unfold otimo. cbn [objetos]. rewrite Hno_eq by done. exact Hot.
  - intros p Hp. destruct (Hvis p Hp) as (r & Hr & Hposr).
    destruct (Hfech' r Hr) as (Hr1 & Hr2 & Hr3).
    exists r. split; [by apply Hfech_novo|]. by rewrite Hno_eq.
  - intros r v' Hr Hadj Hlivre.
    apply Hfech in Hr.
    destruct (Hfech' r Hr) as (_ & _ & Hrn).
    rewrite Hno_eq in Hadj by done. rewrite (Hno_eq r Hrn).
    destruct (Hare r v' Hr Hadj Hlivre) as [[-> Hin] | [Hv' | (r'' & Hr'' & Hpos'' & Hg'')]].
    + apply elem_of_cons in Hin as [-> | Hin]; [|by left].
      right. right. exists n. split; [apply Hmem; by left|].
      rewrite Hno_n. simpl. split; [done | lia].
    + by right; left.
    + right. right. exists r''. split; [apply Hmem; by right|].
      rewrite Hno_eq by (by apply Hval). done.
  - destruct Hini as [Hv | (r & Hr & Hposr & Hg)]; [by left|].
    right. exists r. split; [apply Hmem; by right|].
    rewrite Hno_eq by (by apply Hval). done.
  - done.
Qed.

Lemma tratar_vizinho_correto atual st v resto :
  Inv atual (v :: resto) st ->
  fechado st atual ->
  adjacente (posicao (no st atual)) v = true ->
  livre mapa v = true ->
  exists st',
    tratar_vizinho objetivo atual st v = Retorna st' /\
    Inv atual resto st' /\
    fechado st' atual /\
    nos_visitados st' = nos_visitados st /\
    posicao (no st' atual) = posicao (no st atual).
Proof.
  intros HI Hfat Hadj Hlivre. unfold tratar_vizinho.
  destruct (bool_decide (v ∈ nos_visitados st)) eqn:Hv.
  { apply bool_decide_eq_true in Hv. exists st. split; [done|].
    split; [|done]. apply (vizinho_resolvido _ _ v); [done | by left]. }
  apply bool_decide_eq_false in Hv.
  pose proof Hfat as [Hatlt Hatn].
  destruct (nos_abertos st !! v) as [r'|] eqn:Hab.
  - apply (inv_abertos _ _ _ _ _ _ HI) in Hab as [Hr' Hpos].
    assert (Hne : atual <> r') by (intros ->; done).
    destruct (custo_g (no st atual) + 1 <? custo_g (no st r')) eqn:Hlt.
    + apply Z.ltb_lt in Hlt.
      set (atualizado := {| posicao := posicao (no st r');
                            custo_g := custo_g (no st atual) + 1;
                            custo_h := custo_h (no st r');
                            custo_f := custo_g (no st atual) + 1 + h v;
                            no_pai := Some atual |}).
      set (objetos' := <[r' := atualizado]> (objetos st)).
      destruct (heapify_correto (fun r => custo_f (objeto_de objetos' r))
                  (menor_no objetos') (fun a b => eq_refl) (fila_prioridade st))
        as (fila & -> & Hord & Hperm).
      simpl. eexists. split; [done|].
      split; [by apply relaxar_mantem_invariante|].
      split; [|split; [done|]].
      * split; cbn [objetos fila_prioridade].
        -- unfold objetos'. by rewrite length_insert.
        -- by rewrite Hperm.
      * cbn [objetos]. unfold objetos'. by rewrite objeto_de_insert_ne.
    + apply Z.ltb_ge in Hlt. exists st. split; [done|]. split; [|done].
      apply (vizinho_resolvido _ _ v); [done|]. right. by exists r'.
  - set (no_vizinho := novo_no v (custo_g (no st atual) + 1) (h v) (Some atual)).
    set (objetos' := (objetos st ++ [no_vizinho])%list).
    destruct (heappush_correto (fun r => custo_f (objeto_de objetos' r))
                (menor_no objetos') (fun a b => eq_refl) (fila_prioridade st)
                (length (objetos st)))
      as (fila & -> & Hord & Hperm).
    { apply (heap_ordenado_ext (fun r => custo_f (no st r))); [|apply HI].
      intros r Hr. unfold objetos'. rewrite objeto_de_app_l; [done|].
      by apply (inv_fila_validos _ _ _ _ _ _ HI). }
    simpl. eexists. split; [done|].
    split; [by apply abrir_mantem_invariante|].
    split; [|split; [done|]].
    * split; cbn [objetos fila_prioridade].
      -- unfold objetos'. rewrite length_app. simpl. lia.
      -- rewrite Hperm. apply not_elem_of_cons. split; [lia | done].
    * cbn [objetos]. unfold objetos'. by rewrite objeto_de_app_l.
Qed.

Lemma tratar_vizinhos_correto atual : forall vizinhos st,
  Inv atual vizinhos st ->
  fechado st atual ->
  (forall v, v ∈ vizinhos ->
             adjacente (posicao (no st atual)) v = true /\ livre mapa v = true) ->
  exists st',
    tratar_vizinhos objetivo atual st vizinhos = Retorna st' /\
    Inv atual [] st' /\ nos_visitados st' = nos_visitados st.
Proof.
  induction vizinhos as [|v resto IH]; intros st HI Hfat Hviz.
  - exists st. split; [done|]. by split.
  - destruct (Hviz v ltac:(by left)) as [Hadj Hlivre].
    destruct (tratar_vizinho_correto _ _ _ _ HI Hfat Hadj Hlivre)
      as (st1 & Hr1 & HI1 & Hfat1 & Hv1 & Hpos1).
    destruct (IH st1 HI1 Hfat1) as (st2 & Hr2 & HI2 & Hv2).
    { intros v' Hv'. rewrite Hpos1. apply Hviz. by right. }
    exists st2. simpl. rewrite Hr1. simpl. split; [done|]. split; [done|]. congruence.
Qed.

Lemma visitados_dentro atual pendentes st p :
  Inv atual pendentes st -> p ∈ nos_visitados st -> dentro_do_mapa mapa p = true.
Proof.
  intros HI Hp. destruct (inv_visitados _ _ _ _ _ _ HI p Hp) as (r & [Hr _] & <-).
  destruct (inv_custos _ _ _ _ _ _ HI r Hr) as (_ & _ & Hl). simpl in Hl.
  unfold livre in Hl. by apply andb_true_iff in Hl as [Hl _].
Qed.

Lemma laco_busca_vazio combustivel st :
  fila_prioridade st = [] -> laco_busca combustivel mapa objetivo st = Retorna None.
Proof. intros HQ. destruct combustivel; simpl; by rewrite HQ. Qed.

Lemma laco_busca_S combustivel st :
  fila_prioridade st <> [] ->
  laco_busca (S combustivel) mapa objetivo st =
  faz par <- heappop (menor_no (objetos st)) (fila_prioridade st) em
  let no_atual := fst par in
  let p := posicao (objeto_de (objetos st) no_atual) in
  if bool_decide (p = objetivo) then
    faz caminho_encontrado <- reconstruir_caminho_otimo (objetos st) no_atual em
    Retorna (Some caminho_encontrado)
  else
    let st1 := {| objetos := objetos st; fila_prioridade := snd par;
                  nos_visitados := {[p]} ∪ nos_visitados st;
                  nos_abertos := delete p (nos_abertos st) |} in
    faz vizinhos <- obter_vizinhos_validos p mapa em
    faz st2 <- tratar_vizinhos objetivo no_atual st1 vizinhos em
    laco_busca combustivel mapa objetivo st2.
Proof. intros HQ. simpl. by destruct (fila_prioridade st). Qed.

(** The main loop: it ends within its fuel; it answers [None] only when
    no walk reaches the goal, and otherwise a valid path that no walk
    beats. *)
Lemma laco_busca_correto combustivel : forall atual0 st,
  Inv atual0 [] st ->
  (numero_celulas mapa <= combustivel + size (nos_visitados st))%nat ->
  (laco_busca combustivel mapa objetivo st = Retorna None /\
   forall n, ~ anda mapa inicial objetivo n) \/
  (exists caminho,
      laco_busca combustivel mapa objetivo st = Retorna (Some caminho) /\
      liga mapa inicial objetivo caminho /\
      forall n, anda mapa inicial objetivo n -> (length caminho <= S n)%nat).
Proof.
  induction combustivel as [|f IH]; intros atual0 st HI Hfuel.
  - destruct (fila_prioridade st) as [|r0 fila0] eqn:HQ.
    + left. split; [by apply laco_busca_vazio|].
      intros n Hand. destruct (fronteira _ _ _ _ HI Hand) as [Hv | (r & Hr & _)].
      * by apply (inv_objetivo _ _ _ _ _ _ HI).
      * rewrite HQ in Hr. by apply elem_of_nil in Hr.
    + exfalso.
      assert (Hr0 : r0 ∈ fila_prioridade st) by (rewrite HQ; by left).
      pose proof (inv_fila_validos _ _ _ _ _ _ HI r0 Hr0) as Hr0lt.
      destruct (inv_custos _ _ _ _ _ _ HI r0 Hr0lt) as (_ & _ & Hl). simpl in Hl.
      unfold livre in Hl. apply andb_true_iff in Hl as [Hd _].
      pose proof (tamanho_visitados_estrito mapa (nos_visitados st) _
                    (fun q Hq => visitados_dentro _ _ _ _ HI Hq) Hd
                    (inv_abertos_nao_visitados _ _ _ _ _ _ HI r0 Hr0)).
      lia.
  - destruct (decide (fila_prioridade st = [])) as [HQ|HQ].
    + left. split; [by apply laco_busca_vazio|].
      intros n Hand. destruct (fronteira _ _ _ _ HI Hand) as [Hv | (r & Hr & _)].
      * by apply (inv_objetivo _ _ _ _ _ _ HI).
      * rewrite HQ in Hr. by apply elem_of_nil in Hr.
    + rewrite (laco_busca_S _ _ HQ).
      destruct (heappop_correto (fun r => custo_f (no st r)) (menor_no (objetos st))
                  (fun a b => eq_refl) (fila_prioridade st) HQ
                  (inv_heap _ _ _ _ _ _ HI))
        as (atual & fila & -> & Hraiz & Hord & Hperm).
      cbn [ligar fst snd].
      assert (Hat : atual ∈ fila_prioridade st) by (by eapply list_elem_of_lookup_2).
      pose proof (inv_fila_validos _ _ _ _ _ _ HI atual Hat) as Hatlt.
      destruct (bool_decide (posicao (no st atual) = objetivo)) eqn:Hobj.
      * apply bool_decide_eq_true in Hobj. right.
        destruct (reconstruir_caminho _ _ _ atual HI Hatlt) as (caminho & -> & Hliga & Hlen).
        exists caminho. split; [done|]. split; [by rewrite <- Hobj|].
        intros n Hand. pose proof (otimalidade _ _ _ HI Hraiz n) as Hot.
        rewrite Hobj in Hot. specialize (Hot Hand). lia.
      * apply bool_decide_eq_false in Hobj.
        destruct (vizinhos_validos_retangular mapa (posicao (no st atual)) retangular_mapa)
          as (vizinhos & -> & Hviz).
        cbn [ligar].
        destruct (fechar_no _ _ _ _ _ HI Hraiz Hperm Hord Hobj Hviz) as [HI1 Hfat1].
        destruct (tratar_vizinhos_correto _ _ _ HI1 Hfat1) as (st2 & -> & HI2 & Hv2).
        { intros v Hv. by apply Hviz. }
        cbn [ligar]. apply (IH atual st2 HI2).
        rewrite Hv2. cbn [nos_visitados].
        rewrite size_union, size_singleton; [lia|].
        apply disjoint_singleton_l.
        by apply (inv_abertos_nao_visitados _ _ _ _ _ _ HI).
Qed.
End CorrecaoDaBusca.

(** ** The search as a whole *)

Lemma anda_inicial_livre mapa inicial p n :
  anda mapa inicial p n -> livre mapa inicial = true.
Proof. induction 1; done. Qed.

Lemma livre_mapa_nao_vazio mapa p : livre mapa p = true -> mapa_vazio mapa = false.
Proof.
  unfold livre. intros H. apply andb_true_iff in H as [Hd _].
  apply dentro_do_mapa_limites in Hd as [Hl Hc]. unfold len in *.
  destruct mapa as [|[|c0 linha0] resto]; simpl in *; [lia | lia | done].
Qed.

Lemma busca_astar_resultado mapa inicial objetivo :
  grade_retangular mapa = true ->
  livre mapa inicial = true -> livre mapa objetivo = true ->
  (algoritmo_busca_astar mapa inicial objetivo = Retorna None /\
   forall n, ~ anda mapa inicial objetivo n) \/
  (exists caminho,
      algoritmo_busca_astar mapa inicial objetivo = Retorna (Some caminho) /\
      liga mapa inicial objetivo caminho /\
      forall n, anda mapa inicial objetivo n -> (length caminho <= S n)%nat).
Proof.
  intros Hret Hi Ho. unfold algoritmo_busca_astar, busca_com_combustivel.
  pose proof (livre_mapa_nao_vazio _ _ Hi) as Hv. rewrite Hv.
  rewrite !(fora_do_mapa_dentro _ _ Hv).
  pose proof Hi as Hi'. pose proof Ho as Ho'. unfold livre in Hi', Ho'.
  apply andb_true_iff in Hi' as [Hdi Hci]. apply andb_true_iff in Ho' as [Hdo Hco].
  rewrite Hdi, Hdo. cbn [ligar negb].
  destruct (celula mapa (fst inicial) (snd inicial)) as [ci| |]; try discriminate.
  cbn [ligar]. apply negb_true_iff in Hci. rewrite Hci.
  destruct (celula mapa (fst objetivo) (snd objetivo)) as [co| |]; try discriminate.
  cbn [ligar]. apply negb_true_iff in Hco. rewrite Hco.
  destruct (bool_decide (inicial = objetivo)) eqn:Heq.
  - apply bool_decide_eq_true in Heq as <-. right. exists [inicial].
    split; [done|]. split.
    + split; [|done]. simpl. by rewrite Hi.
    + intros n _. simpl. lia.
  - destruct (estado_inicial_invariante mapa inicial objetivo Hi)
      as (st & -> & HI & Hvazio).
    cbn [ligar].
    apply (laco_busca_correto mapa inicial objetivo Hret _ 0%nat st HI).
    rewrite Hvazio, size_empty. lia.
Qed.

(** C1 (as amended). On a rectangular grid: when some path of free cells
    leads from the start to the goal, the search returns a path of free
    cells from the start to the goal, 4-connected, and no such path is
    shorter; and, start and goal being free cells of the grid, the search
    returns [None] exactly when no such path exists. *)
Theorem busca_astar_caminho_minimo (mapa : list (list string))
    (inicial objetivo : Z * Z) :
  grade_retangular mapa = true ->
  ((exists caminho, liga mapa inicial objetivo caminho) ->
   exists achado,
     algoritmo_busca_astar mapa inicial objetivo = Retorna (Some achado) /\
     liga mapa inicial objetivo achado /\
     forall outro, liga mapa inicial objetivo outro ->
                   (length achado <= length outro)%nat) /\
  (livre mapa inicial = true -> livre mapa objetivo = true ->
   (algoritmo_busca_astar mapa inicial objetivo = Retorna None <->
    ~ exists caminho, liga mapa inicial objetivo caminho)).
Proof.
  intros Hret. split.
  - intros (caminho & Hliga).
    pose proof (liga_anda _ _ _ _ Hliga) as Hand.
    destruct (busca_astar_resultado mapa inicial objetivo Hret
                (anda_inicial_livre _ _ _ _ Hand) (anda_livre _ _ _ _ Hand))
      as [[_ Hnao] | (achado & Hr & Hl & Hmin)].
    + by apply Hnao in Hand.
    + exists achado. split; [done|]. split; [done|].
      intros outro Houtro. pose proof (liga_anda _ _ _ _ Houtro) as Hando.
      apply Hmin in Hando.
      destruct Houtro as (Hv & _ & _). destruct outro; [discriminate|]. simpl in *. lia.
  - intros Hi Ho.
    destruct (busca_astar_resultado mapa inicial objetivo Hret Hi Ho)
      as [[Hr Hnao] | (achado & Hr & Hl & Hmin)]; rewrite Hr.
    + split; [|done]. intros _ (caminho & Hliga).
      by apply liga_anda, Hnao in Hliga.
    + split; [discriminate|]. intros Hnao. exfalso. apply Hnao. by exists achado.
Qed.

Lemma busca_astar_caminho_minimo_witness :
  (exists achado,
     algoritmo_busca_astar grade_exemplo (0, 1) (2, 0) = Retorna (Some achado) /\
     liga grade_exemplo (0, 1) (2, 0) achado /\
     forall outro, liga grade_exemplo (0, 1) (2, 0) outro ->
                   (length achado <= length outro)%nat) /\
  (algoritmo_busca_astar [[" "; "*"; " "]] (0, 0) (0, 2) = Retorna None <->
   ~ exists caminho, liga [[" "; "*"; " "]] (0, 0) (0, 2) caminho).
Proof.
  split.
  - apply (proj1 (busca_astar_caminho_minimo grade_exemplo (0, 1) (2, 0) eq_refl)).
    exists [(0, 1); (0, 2); (1, 2); (2, 2); (2, 1); (2, 0)].
    split; [reflexivity|]. split; reflexivity.
  - exact (proj2 (busca_astar_caminho_minimo [[" "; "*"; " "]] (0, 0) (0, 2) eq_refl)
             eq_refl eq_refl).
Defined.

(** C1 (as stated) fails in two ways. On a grid whose second line is
    shorter than the first the goal is reachable along the first line, but
    the search looks at the missing cell [(1,1)] and raises [IndexError].
    And when the start is a wall the goal is not reachable, but the search
    raises its precondition error instead of returning [None]. *)
Lemma busca_astar_em_grade_irregular :
  (liga [[" "; " "; " "]; [" "]] (0, 0) (0, 2) [(0, 0); (0, 1); (0, 2)] /\
   algoritmo_busca_astar [[" "; " "; " "]; [" "]] (0, 0) (0, 2) = Levanta IndexError) /\
  ((~ exists caminho, liga [["*"; " "]] (0, 0) (0, 1) caminho) /\
   algoritmo_busca_astar [["*"; " "]] (0, 0) (0, 1)
   = Levanta (ValueError (MsgInicialObstaculo (0, 0)))).
Proof.
  split; [split; [split; [reflexivity | split; reflexivity] | vm_compute; reflexivity]|].
  split; [|reflexivity].
  intros (caminho & Hliga). apply liga_anda, anda_inicial_livre in Hliga. discriminate.
Qed.

(** * Further properties of the grid world *)

Lemma colunas_com_elem_inv alvo i cs : forall j0 p ch,
  fst p = i -> j0 <= snd p ->
  cs !! Z.to_nat (snd p - j0) = Some ch -> alvo ch = true ->
  p ∈ colunas_com alvo i j0 cs.
Proof.
  induction cs as [|c cs IH]; simpl; intros j0 p ch Hi Hj Hch Halvo; [done|].
  apply elem_of_app.
  destruct (decide (snd p = j0)) as [Heq|Hne].
  - left. rewrite Heq in Hch. replace (j0 - j0) with 0 in Hch by lia.
    simpl in Hch. injection Hch as ->. rewrite Halvo.
    apply list_elem_of_singleton. destruct p; simpl in *; congruence.
  - right. apply (IH (j0 + 1) p ch); [done|lia| |done].
    replace (Z.to_nat (snd p - j0)) with (S (Z.to_nat (snd p - (j0 + 1)))) in Hch by lia.
    done.
Qed.

Lemma celulas_com_elem_inv alvo lab : forall i0 p linha ch,
  i0 <= fst p -> 0 <= snd p ->
  lab !! Z.to_nat (fst p - i0) = Some linha ->
  caracteres linha !! Z.to_nat (snd p) = Some ch -> alvo ch = true ->
  p ∈ celulas_com alvo i0 lab.
Proof.
  induction lab as [|l0 lab IH]; simpl; intros i0 p linha ch Hi Hj Hlin Hch Halvo; [done|].
  apply elem_of_app.
  destruct (decide (fst p = i0)) as [Heq|Hne].
  - left. rewrite Heq in Hlin. replace (i0 - i0) with 0 in Hlin by lia.
    simpl in Hlin. injection Hlin as ->.
    apply (colunas_com_elem_inv alvo i0 _ 0 p ch); [done|done| |done].
    by replace (snd p - 0) with (snd p) by lia.
  - right. apply (IH (i0 + 1) p linha ch); [lia|done| |done|done].
    replace (Z.to_nat (fst p - i0)) with (S (Z.to_nat (fst p - (i0 + 1)))) in Hlin by lia.
    done.
Qed.

Lemma celulas_com_celula_eh alvo lab p :
  p ∈ celulas_com alvo 0 lab <-> celula_eh alvo lab p.
Proof.
  unfold celula_eh. split.
  - intros Hp. apply celulas_com_elem in Hp as (Hi & Hj & linha & ch & Hlin & Hch & Halvo).
    replace (fst p - 0) with (fst p) in Hlin by lia.
    split; [done|]. split; [done|]. exists ch. split; [|done].
    apply conteudo_celula_retorna; eauto.
  - intros (Hi & Hj & ch & Hcont & Halvo).
    apply conteudo_celula_retorna in Hcont as (linha & Hlin & Hch); [|done|done].
    apply (celulas_com_elem_inv alvo lab 0 p linha ch); try done.
    by replace (fst p - 0) with (fst p) by lia.
Qed.

Lemma colunas_com_nodup alvo i cs : forall j0, NoDup (colunas_com alvo i j0 cs).
Proof.
  induction cs as [|c cs IH]; simpl; intros j0; [constructor|].
  apply NoDup_app. split; [|split].
  - destruct (alvo c); [apply NoDup_singleton | constructor].
  - intros p Hp Hp'. destruct (alvo c); [|by apply elem_of_nil in Hp].
    apply list_elem_of_singleton in Hp as ->.
    apply colunas_com_elem in Hp' as (_ & Hj & _). simpl in Hj. lia.
  - apply IH.
Qed.

Lemma celulas_com_nodup alvo lab : forall i0, NoDup (celulas_com alvo i0 lab).
Proof.
  induction lab as [|l0 lab IH]; simpl; intros i0; [constructor|].
  apply NoDup_app. split; [|split].
  - apply colunas_com_nodup.
  - intros p Hp Hp'. apply colunas_com_elem in Hp as (Hi & _).
    apply celulas_com_elem in Hp' as (Hi' & _). lia.
  - apply IH.
Qed.

(** A list without repetition has one element exactly when some element
    is the only one. *)
Lemma lista_unitaria {A} (l : list A) x :
  NoDup l -> (l = [x] <-> x ∈ l /\ forall y, y ∈ l -> y = x).
Proof.
  intros Hnd. split.
  - intros ->. split; [by left|]. intros y Hy.
    by apply list_elem_of_singleton in Hy.
  - intros [Hx Hun]. destruct l as [|a [|b l]].
    + by apply elem_of_nil in Hx.
    + f_equal. apply Hun. by left.
    + exfalso. assert (a = x) by (apply Hun; by left).
      assert (b = x) by (apply Hun; right; by left). subst.
      apply NoDup_cons in Hnd as [Hnd _]. apply Hnd. by left.
Qed.

(** X1. The constructor succeeds exactly on the maps that hold one entrance
    cell and one object cell; the agent then stands on the entrance, with
    the initial orientation, carrying nothing, on the map as given. *)
Theorem novo_ambiente_uma_entrada_um_objeto (mapa : list string)
    (amb : AmbienteNavegacao) :
  novo_ambiente mapa = Retorna amb <->
  (celula_eh eh_entrada mapa (posicao_agente amb) /\
   (forall q, celula_eh eh_entrada mapa q -> q = posicao_agente amb) /\
   (exists o, celula_eh eh_objeto mapa o /\
              forall q, celula_eh eh_objeto mapa q -> q = o) /\
   labirinto amb = mapa /\
   direcao_agente amb = _calcular_orientacao_inicial mapa (posicao_agente amb) /\
   objeto_coletado amb = false).
Proof.
  pose proof (celulas_com_nodup eh_entrada mapa 0) as Hnd_e.
  pose proof (celulas_com_nodup eh_objeto mapa 0) as Hnd_o.
  split.
  - unfold novo_ambiente. intros H.
    apply ligar_retorna in H as (entrada & Hent & H).
    apply ligar_retorna in H as ([] & Hval & [= <-]). simpl.
    unfold _localizar_ponto_entrada in Hent.
    destruct (celulas_com eh_entrada 0 mapa) as [|p [|q resto]] eqn:Hcel; try discriminate.
    injection Hent as ->.
    apply (lista_unitaria _ entrada) in Hcel as [Hin Hun]; [|by rewrite Hcel].
    split; [by apply celulas_com_celula_eh|].
    split; [intros q Hq; by apply Hun, celulas_com_celula_eh|].
    split; [|done].
    unfold _validar_integridade_mapa in Hval.
    destruct (negb (contar eh_entrada mapa =? 1)); [discriminate|].
    destruct (contar eh_objeto mapa =? 1) eqn:Hobj; [|discriminate].
    apply Z.eqb_eq in Hobj. unfold contar, len in Hobj.
    destruct (celulas_com eh_objeto 0 mapa) as [|o [|o' resto]] eqn:Hcel;
      simpl in Hobj; try lia.
    apply (lista_unitaria _ o) in Hcel as [Hin' Hun']; [|by rewrite Hcel].
    exists o. split; [by apply celulas_com_celula_eh|].
    intros q Hq. by apply Hun', celulas_com_celula_eh.
  - intros (He & Hue & (o & Ho & Huo) & Hlab & Hdir & Hobj).
    assert (Hcel : celulas_com eh_entrada 0 mapa = [posicao_agente amb]).
    { apply lista_unitaria; [done|]. split; [by apply celulas_com_celula_eh|].
      intros q Hq. by apply Hue, celulas_com_celula_eh. }
    assert (Hcel' : celulas_com eh_objeto 0 mapa = [o]).
    { apply lista_unitaria; [done|]. split; [by apply celulas_com_celula_eh|].
      intros q Hq. by apply Huo, celulas_com_celula_eh. }
    unfold novo_ambiente, _localizar_ponto_entrada, _validar_integridade_mapa, contar.
    rewrite Hcel, Hcel'. simpl.
    destruct amb as [lab pos d obj]. simpl in *. by subst.
Qed.

(** X2. When the constructor fails it raises one of three errors, the first
    that applies: no entrance; several entrances, listed line by line; or,
    with one entrance, a number of object cells other than one. The
    entrance-count error of the integrity validation is never raised, and
    neither is any other exception. *)
Theorem novo_ambiente_erros (mapa : list string) :
  let entradas := celulas_com eh_entrada 0 mapa in
  let objetos := contar eh_objeto mapa in
  (forall p, p ∈ entradas <-> celula_eh eh_entrada mapa p) /\
  NoDup entradas /\
  (entradas = [] ->
   novo_ambiente mapa = Levanta (ValueError MsgNenhumaEntrada)) /\
  ((2 <= length entradas)%nat ->
   novo_ambiente mapa = Levanta (ValueError (MsgMultiplasEntradas entradas))) /\
  (length entradas = 1%nat -> objetos <> 1 ->
   novo_ambiente mapa = Levanta (ValueError (MsgContagemObjetos objetos))) /\
  (forall e, novo_ambiente mapa = Levanta e ->
     e = ValueError MsgNenhumaEntrada \/
     e = ValueError (MsgMultiplasEntradas entradas) \/
     e = ValueError (MsgContagemObjetos objetos)) /\
  novo_ambiente mapa <> Diverge.
Proof.
  cbv zeta.
  split; [intros p; apply celulas_com_celula_eh|].
  split; [apply celulas_com_nodup|].
  assert (Hc : contar eh_entrada mapa
               = Z.of_nat (length (celulas_com eh_entrada 0 mapa))) by reflexivity.
  unfold novo_ambiente, _localizar_ponto_entrada, _validar_integridade_mapa.
  rewrite !Hc. clear Hc.
  destruct (celulas_com eh_entrada 0 mapa) as [|p [|q resto]] eqn:Hcel; simpl.
  - split; [done|]. split; [lia|]. split; [done|].
    split; [|done]. intros e [= <-]. by left.
  - split; [done|]. split; [lia|].
    destruct (contar eh_objeto mapa =? 1) eqn:Hobj; simpl.
    + apply Z.eqb_eq in Hobj. split; [intros _ Hne; by destruct Hne|]. split; done.
    + split; [done|]. split; [|done]. intros e [= <-]. by right; right.
  - split; [done|]. split; [done|]. split; [lia|].
    split; [|done]. intros e [= <-]. by right; left.
Qed.

Lemma novo_ambiente_erros_witness :
  novo_ambiente ["*E*"; "* *"; "***"] = Levanta (ValueError (MsgContagemObjetos 0)).
Proof.
  apply (proj1 (proj2 (proj2 (proj2 (proj2 (novo_ambiente_erros ["*E*"; "* *"; "***"])))))).
  - reflexivity.
  - vm_compute. discriminate.
Defined.

(** ** Rectangular maps *)

Lemma retangular_linha lab primeira resto n linha :
  retangular lab = true -> lab = primeira :: resto -> lab !! n = Some linha ->
  len (caracteres linha) = len (caracteres primeira).
Proof.
  intros Hr -> Hn. unfold retangular in Hr.
  rewrite forallb_forall in Hr.
  apply Z.eqb_eq, Hr. apply list_elem_of_In. by eapply list_elem_of_lookup_2.
Qed.

Lemma classificar_parede c :
  String.eqb (classificar c) "PAREDE" = eh_parede c.
Proof.
  unfold classificar. destruct (eh_parede c); [done|]. by destruct (eh_objeto c).
Qed.

Lemma classificar_humano c :
  String.eqb (classificar c) "HUMANO" = negb (eh_parede c) && eh_objeto c.
Proof.
  unfold classificar. destruct (eh_parede c); [done|]. by destruct (eh_objeto c).
Qed.

(** On a rectangular map the bounds test of the simulator accepts exactly
    the cells of the map. *)
Lemma celula_em_mapa_retangular lab l c :
  retangular lab = true ->
  (exists ch, dentro_dos_limites lab l c = Retorna true /\
              conteudo_celula lab l c = Retorna ch /\
              0 <= l /\ 0 <= c /\
              (exists linha, lab !! Z.to_nat l = Some linha /\
                             caracteres linha !! Z.to_nat c = Some ch) /\
              leitura_da_celula lab (l, c) = classificar ch) \/
  (dentro_dos_limites lab l c = Retorna false /\
   leitura_da_celula lab (l, c) = "PAREDE").
Proof.
  intros Hr. unfold dentro_dos_limites, leitura_da_celula. simpl.
  destruct (0 <=? l) eqn:Hl0; simpl; [|by right].
  apply Z.leb_le in Hl0.
  destruct (l <? len lab) eqn:Hl1.
  - apply Z.ltb_lt in Hl1. unfold len in Hl1.
    destruct (lookup_lt_is_Some_2 lab (Z.to_nat l)) as [linha Hlin]; [lia|].
    destruct lab as [|primeira resto]; [done|].
    pose proof (retangular_linha _ _ _ _ _ Hr eq_refl Hlin) as Hlen.
    unfold largura_primeira_linha. rewrite indice_nao_negativo by lia. simpl.
    rewrite Hlin.
    destruct (0 <=? c) eqn:Hc0; simpl; [|by right].
    apply Z.leb_le in Hc0.
    destruct (c <? len (caracteres primeira)) eqn:Hc1.
    + apply Z.ltb_lt in Hc1. rewrite <- Hlen in Hc1. unfold len in Hc1.
      destruct (lookup_lt_is_Some_2 (caracteres linha) (Z.to_nat c)) as [ch Hch]; [lia|].
      left. exists ch. rewrite Hch. split; [done|].
      split; [apply conteudo_celula_retorna; eauto|]. eauto 10.
    + apply Z.ltb_ge in Hc1. rewrite <- Hlen in Hc1. unfold len in Hc1.
      right. split; [done|].
      rewrite (lookup_ge_None_2 (caracteres linha)); [done|lia].
  - apply Z.ltb_ge in Hl1. unfold len in Hl1. right. split; [done|].
    rewrite (lookup_ge_None_2 lab); [|lia]. by destruct (0 <=? c).
Qed.

Lemma ler_sensor_retangular lab atual delta :
  retangular lab = true ->
  ler_sensor lab atual delta = Retorna (leitura_da_celula lab (mais_delta atual delta)).
Proof.
  intros Hr. unfold ler_sensor, mais_delta. cbv zeta.
  destruct (celula_em_mapa_retangular lab (fst atual + fst delta) (snd atual + snd delta) Hr)
    as [(ch & -> & -> & _ & _ & _ & ->) | [-> ->]]; reflexivity.
Qed.

Lemma ler_sensores_retangular lab atual direcoes :
  retangular lab = true ->
  ler_sensores lab atual direcoes
  = Retorna (map (fun d => leitura_da_celula lab (mais_delta atual d)) direcoes).
Proof.
  intros Hr. induction direcoes as [|d resto IH]; simpl; [done|].
  by rewrite ler_sensor_retangular, IH.
Qed.

Lemma orientacao_valida_casos amb :
  orientacao_valida amb = true ->
  direcao_agente amb = 0 \/ direcao_agente amb = 1 \/
  direcao_agente amb = 2 \/ direcao_agente amb = 3.
Proof.
  unfold orientacao_valida. intros H. apply andb_true_iff in H as [H0 H4].
  apply Z.leb_le in H0. apply Z.ltb_lt in H4. lia.
Qed.

Lemma sensores_tres_celulas (amb : AmbienteNavegacao) :
  retangular (labirinto amb) = true ->
  orientacao_valida amb = true ->
  exists frente,
    direcoes_frente (direcao_agente amb) = Retorna frente /\
    let esquerda := (fst frente - snd frente, snd frente + fst frente) in
    let direita := (fst frente + snd frente, snd frente - fst frente) in
    obter_leituras_sensores_proximidade amb
    = Retorna [leitura_da_celula (labirinto amb) (mais_delta (posicao_agente amb) esquerda);
               leitura_da_celula (labirinto amb) (mais_delta (posicao_agente amb) frente);
               leitura_da_celula (labirinto amb) (mais_delta (posicao_agente amb) direita)].
Proof.
  intros Hr Ho. unfold obter_leituras_sensores_proximidade.
  destruct (orientacao_valida_casos amb Ho) as [Hd|[Hd|[Hd|Hd]]]; rewrite Hd; simpl;
    eexists; (split; [reflexivity|]); simpl;
    by rewrite !ler_sensor_retangular.
Qed.

(** X3. On a rectangular map, in any state with a valid orientation, the
    sensing operation returns three readings: those of the cell ahead on the
    left, of the cell ahead and of the cell ahead on the right, each the
    class of the character of that cell, or a wall where the map has no
    such cell. It raises nothing. *)
Theorem sensores_em_mapa_retangular (amb : AmbienteNavegacao) :
  retangular (labirinto amb) = true ->
  orientacao_valida amb = true ->
  exists frente,
    direcoes_frente (direcao_agente amb) = Retorna frente /\
    let esquerda := (fst frente - snd frente, snd frente + fst frente) in
    let direita := (fst frente + snd frente, snd frente - fst frente) in
    obter_leituras_sensores_proximidade amb
    = Retorna [leitura_da_celula (labirinto amb) (mais_delta (posicao_agente amb) esquerda);
               leitura_da_celula (labirinto amb) (mais_delta (posicao_agente amb) frente);
               leitura_da_celula (labirinto amb) (mais_delta (posicao_agente amb) direita)].
Proof. apply sensores_tres_celulas. Qed.

Lemma sensores_em_mapa_retangular_witness :
  obter_leituras_sensores_proximidade ambiente_exemplo
  = Retorna ["PAREDE"; "VAZIO"; "PAREDE"].
Proof.
  destruct (sensores_em_mapa_retangular ambiente_exemplo eq_refl eq_refl)
    as (frente & Hf & Hs).
  injection Hf as <-. exact Hs.
Defined.

(** X4. On a rectangular map, in any state with a valid orientation,
    [Advance] agrees with the front sensor: it raises the collision error,
    naming the position and the cell ahead, exactly when the front sensor
    reads a wall, and otherwise moves the agent to the cell ahead and
    changes nothing else. *)
Theorem avancar_conforme_sensor_da_frente (amb : AmbienteNavegacao) :
  retangular (labirinto amb) = true ->
  orientacao_valida amb = true ->
  exists esquerda frente direita alvo,
    obter_leituras_sensores_proximidade amb = Retorna [esquerda; frente; direita] /\
    celula_alvo amb = Retorna alvo /\
    frente = leitura_da_celula (labirinto amb) alvo /\
    executar_comando_navegacao "A" amb
    = if String.eqb frente "PAREDE"
      then Levanta (ValueError (MsgColisao (posicao_agente amb) alvo))
      else Retorna {| labirinto := labirinto amb;
                      posicao_agente := alvo;
                      direcao_agente := direcao_agente amb;
                      objeto_coletado := objeto_coletado amb |}.
Proof.
  intros Hr Ho.
  destruct (sensores_tres_celulas amb Hr Ho) as (delta & Hf & Hs).
  cbv zeta in Hs. rewrite Hs. do 3 eexists.
  exists (mais_delta (posicao_agente amb) delta).
  split; [reflexivity|].
  unfold celula_alvo. rewrite Hf. simpl. split; [reflexivity|]. split; [reflexivity|].
  change (executar_comando_navegacao "A" amb) with (_avancar_agente amb).
  unfold _avancar_agente.
  assert (Hm : indice direcoes_movimento (direcao_agente amb) = Retorna delta).
  { destruct (orientacao_valida_casos amb Ho) as [Hd|[Hd|[Hd|Hd]]];
      rewrite Hd in Hf |- *; injection Hf as <-; reflexivity. }
  rewrite Hm. cbn [ligar]. cbv zeta. unfold mais_delta.
  destruct (celula_em_mapa_retangular (labirinto amb)
              (fst (posicao_agente amb) + fst delta)
              (snd (posicao_agente amb) + snd delta) Hr)
    as [(ch & -> & -> & _ & _ & _ & ->) | [-> ->]]; cbn [ligar].
  - rewrite classificar_parede. by destruct (eh_parede ch).
  - reflexivity.
Qed.

Lemma avancar_conforme_sensor_da_frente_witness :
  executar_comando_navegacao "A" ambiente_exemplo
  = Retorna {| labirinto := ["*E*"; "* *"; "*H*"]; posicao_agente := (1, 1);
               direcao_agente := 2; objeto_coletado := false |}.
Proof.
  destruct (avancar_conforme_sensor_da_frente ambiente_exemplo eq_refl eq_refl)
    as (esquerda & frente & direita & alvo & Hs & Ha & Hfr & Hav).
  injection Ha as <-. rewrite Hfr in Hav. exact Hav.
Defined.

(** ** Construction and initial orientation *)

Ltac resolver_testes :=
  repeat match goal with
         | |- context [?a <=? ?b] => destruct (Z.leb_spec a b); try lia
         | |- context [?a <? ?b] => destruct (Z.ltb_spec a b); try lia
         end.

Lemma novo_ambiente_campos mapa amb :
  novo_ambiente mapa = Retorna amb ->
  celulas_com eh_entrada 0 mapa = [posicao_agente amb] /\
  contar eh_objeto mapa = 1 /\
  labirinto amb = mapa /\
  direcao_agente amb = _calcular_orientacao_inicial mapa (posicao_agente amb) /\
  objeto_coletado amb = false.
Proof.
  unfold novo_ambiente. intros H.
  apply ligar_retorna in H as (entrada & Hent & H).
  apply ligar_retorna in H as ([] & Hval & [= <-]). simpl.
  unfold _localizar_ponto_entrada in Hent.
  destruct (celulas_com eh_entrada 0 mapa) as [|p [|q resto]] eqn:Hcel; try discriminate.
  injection Hent as ->. split; [done|]. split; [|done].
  unfold _validar_integridade_mapa in Hval.
  destruct (negb (contar eh_entrada mapa =? 1)); [discriminate|].
  destruct (contar eh_objeto mapa =? 1) eqn:Hobj; [|discriminate].
  by apply Z.eqb_eq in Hobj.
Qed.

(** X5. The initial orientation is one of the four directions. On a
    rectangular map with at least two lines and two columns, when the
    entrance lies on the border, the agent starts facing a cell of the map:
    South from the first line, else North from the last line, else East from
    the first column, else West. *)
Theorem orientacao_inicial_para_dentro (mapa : list string) (amb : AmbienteNavegacao) :
  novo_ambiente mapa = Retorna amb ->
  orientacao_valida amb = true /\
  (retangular mapa = true -> na_borda amb = true ->
   2 <= len mapa -> 2 <= len (caracteres (hd "" mapa)) ->
   exists alvo,
     celula_alvo amb = Retorna alvo /\
     dentro_dos_limites mapa (fst alvo) (snd alvo) = Retorna true).
Proof.
  intros H. pose proof (novo_ambiente_campos _ _ H) as (Hcel & _ & Hlab & Hdir & _).
  assert (Hin : posicao_agente amb ∈ celulas_com eh_entrada 0 mapa)
    by (rewrite Hcel; by left).
  apply celulas_com_elem in Hin as (Hl & Hc & linha & ch & Hlin & Hch & _).
  replace (fst (posicao_agente amb) - 0) with (fst (posicao_agente amb)) in Hlin by lia.
  pose proof (lookup_lt_Some _ _ _ Hlin) as Hllt.
  pose proof (lookup_lt_Some _ _ _ Hch) as Hclt.
  destruct amb as [lab [l c] d obj]. simpl in *. subst lab d.
  unfold orientacao_valida, celula_alvo, na_borda, _calcular_orientacao_inicial. simpl.
  split.
  { destruct (l =? 0); [done|]. destruct (l =? len mapa - 1); [done|].
    by destruct (c =? 0). }
  intros Hr Hb Hlen Hw.
  destruct mapa as [|primeira resto]; [done|]. simpl in Hw.
  pose proof (retangular_linha _ _ _ _ _ Hr eq_refl Hlin) as Hlarg.
  unfold dentro_dos_limites, largura_primeira_linha.
  rewrite (indice_nao_negativo (primeira :: resto) 0) by lia. cbn [ligar].
  change ((primeira :: resto) !! Z.to_nat 0) with (Some primeira). cbn [ligar].
  unfold len in *.
  destruct (Z.eqb_spec l 0) as [E0|E0].
  { eexists. split; [reflexivity|]. simpl fst. simpl snd. resolver_testes. done. }
  destruct (Z.eqb_spec l (Z.of_nat (length (primeira :: resto)) - 1)) as [E1|E1].
  { eexists. split; [reflexivity|]. simpl fst. simpl snd. resolver_testes. done. }
  destruct (Z.eqb_spec c 0) as [E2|E2].
  { eexists. split; [reflexivity|]. simpl fst. simpl snd. resolver_testes. done. }
  simpl in Hb. apply Z.eqb_eq in Hb.
  eexists. split; [reflexivity|]. simpl fst. simpl snd. resolver_testes. done.
Qed.

Lemma orientacao_inicial_para_dentro_witness :
  orientacao_valida ambiente_exemplo = true /\
  exists alvo,
    celula_alvo ambiente_exemplo = Retorna alvo /\
    dentro_dos_limites ["*E*"; "* *"; "*H*"] (fst alvo) (snd alvo) = Retorna true.
Proof.
  destruct (orientacao_inicial_para_dentro ["*E*"; "* *"; "*H*"] ambiente_exemplo eq_refl)
    as [Ho Hd].
  split; [exact Ho|].
  apply Hd; [reflexivity | reflexivity | vm_compute; discriminate
            | vm_compute; discriminate].
Defined.

(** ** Pickup *)

Lemma conteudo_celula_nao_negativo lab l c :
  0 <= l -> 0 <= c ->
  conteudo_celula lab l c
  = match lab !! Z.to_nat l with
    | Some linha =>
        match caracteres linha !! Z.to_nat c with
        | Some ch => Retorna ch
        | None => Levanta IndexError
        end
    | None => Levanta IndexError
    end.
Proof.
  intros Hl Hc. unfold conteudo_celula, indice_str.
  rewrite (indice_nao_negativo lab l Hl).
  destruct (lab !! Z.to_nat l) as [linha|]; [|done]. cbn [ligar].
  by rewrite (indice_nao_negativo _ c Hc).
Qed.

(** The three ways [Pickup] ends, after the reading of the sensors. *)
Lemma coletar_objeto_casos amb :
  match obter_leituras_sensores_proximidade amb with
  | Retorna leituras =>
      if frente_eh_humano leituras then
        exists delta linha ch nova,
          direcoes_frente (direcao_agente amb) = Retorna delta /\
          let lo := fst (posicao_agente amb) + fst delta in
          let co := snd (posicao_agente amb) + snd delta in
          0 <= lo /\ 0 <= co /\
          labirinto amb !! Z.to_nat lo = Some linha /\
          caracteres linha !! Z.to_nat co = Some ch /\
          eh_objeto ch = true /\
          caracteres nova = <[Z.to_nat co := " "%char]> (caracteres linha) /\
          _coletar_objeto amb
          = Retorna {| labirinto := <[Z.to_nat lo := nova]> (labirinto amb);
                       posicao_agente := posicao_agente amb;
                       direcao_agente := direcao_agente amb;
                       objeto_coletado := true |}
      else _coletar_objeto amb = Levanta (ValueError MsgColetaSemObjeto)
  | Levanta e => _coletar_objeto amb = Levanta e
  | Diverge => False
  end.
Proof.
  unfold _coletar_objeto.
  destruct (obter_leituras_sensores_proximidade amb) as [leituras|e|] eqn:Hs;
    cbn [ligar]; [|done|by apply sensores_nao_divergem in Hs].
  destruct (frente_eh_humano leituras) eqn:Hf; [|done].
  pose proof Hs as Hs'. unfold obter_leituras_sensores_proximidade in Hs'.
  apply ligar_retorna in Hs' as (direcoes & Hd & Hler).
  apply direcoes_relativas_retorna in Hd as (_ & Hlen & delta & Hfr & Hdelta).
  destruct direcoes as [|d0 [|d1 [|d2 [|? ?]]]]; try discriminate.
  injection Hfr as ->.
  apply (ler_sensores_segundo _ _ _ _ _ _ Hler) in Hf.
  unfold ler_sensor in Hf. cbv zeta in Hf.
  set (lo := fst (posicao_agente amb) + fst delta) in *.
  set (co := snd (posicao_agente amb) + snd delta) in *.
  destruct (dentro_dos_limites_casos (labirinto amb) lo co)
    as [Hdl | (Hdl & Hl & primeira & resto & Hlab & Hc)]; rewrite Hdl in Hf;
    cbn [ligar] in Hf; [discriminate|].
  apply ligar_retorna in Hf as (ch & Hch & [= Hclasse]).
  assert (Hobj : eh_objeto ch = true).
  { pose proof (classificar_humano ch) as Hh. rewrite Hclasse in Hh. simpl in Hh.
    symmetry in Hh. by apply andb_true_iff in Hh as [_ ?]. }
  rewrite Hdelta. cbn [ligar]. cbv zeta. fold lo co. rewrite Hch. cbn [ligar].
  rewrite Hobj.
  apply conteudo_celula_retorna in Hch as (linha & Hlinha & Hcel); [|lia|lia].
  rewrite (indice_nao_negativo _ lo) by lia. rewrite Hlinha. cbn [ligar].
  unfold atribuir. cbv zeta.
  rewrite !(proj2 (Z.leb_le 0 lo)) by lia. rewrite (proj2 (Z.ltb_lt lo _)) by lia.
  cbn [andb ligar].
  pose proof (lookup_lt_Some _ _ _ Hcel) as Hco_lt.
  exists delta, linha, ch,
    (fatia_ate linha co ++ " " ++ fatia_desde linha (co + 1))%string.
  split; [done|]. split; [lia|]. split; [lia|]. split; [done|]. split; [done|].
  split; [done|]. split; [|done].
  unfold fatia_ate, fatia_desde.
  rewrite !caracteres_append, !caracteres_string_of_list.
  rewrite !limite_fatia_dentro by (unfold len; lia).
  replace (Z.to_nat (co + 1)) with (S (Z.to_nat co)) by lia.
  symmetry. by apply insert_take_drop.
Qed.

(** Two lists without repetition, the second holding the elements of the
    first but one. *)
Lemma comprimento_sem_um `{EqDecision A} (l l' : list A) a :
  NoDup l -> NoDup l' -> a ∈ l ->
  (forall x, x ∈ l' <-> x ∈ l /\ x <> a) ->
  length l = S (length l').
Proof.
  intros Hnd Hnd' Ha Hiff.
  assert (Hp : l ≡ₚ a :: l').
  { apply NoDup_Permutation; [done| |].
    - apply NoDup_cons. split; [|done]. intros Hin. by apply Hiff in Hin as [_ ?].
    - intros x. rewrite elem_of_cons, Hiff.
      destruct (decide (x = a)) as [->|Hne].
      + split; [by left | by intros _].
      + split; [intros Hx; by right | intros [Hx | [Hx _]]; done]. }
  by rewrite Hp.
Qed.

Lemma comprimento_sem_um_dec (l l' : list (Z * Z)) a :
  NoDup l -> NoDup l' -> a ∈ l ->
  (forall x, x ∈ l' <-> x ∈ l /\ x <> a) ->
  len l' = len l - 1.
Proof.
  intros. unfold len. erewrite (comprimento_sem_um l l'); eauto. lia.
Qed.

(** X6. When [Pickup] succeeds, the cell ahead held the object; the new
    map differs from the old one in that cell only, which now holds a blank;
    the number of lines is kept and the map holds one object less; the agent
    carries the object, at the same position with the same orientation. *)
Theorem coletar_remove_o_objeto_a_frente (amb amb' : AmbienteNavegacao) :
  executar_comando_navegacao "P" amb = Retorna amb' ->
  exists alvo,
    celula_alvo amb = Retorna alvo /\
    celula_eh eh_objeto (labirinto amb) alvo /\
    (forall l c, 0 <= l -> 0 <= c ->
       conteudo_celula (labirinto amb') l c
       = if bool_decide ((l, c) = alvo) then Retorna " "%char
         else conteudo_celula (labirinto amb) l c) /\
    length (labirinto amb') = length (labirinto amb) /\
    contar eh_objeto (labirinto amb') = contar eh_objeto (labirinto amb) - 1 /\
    contar eh_entrada (labirinto amb') = contar eh_entrada (labirinto amb) /\
    posicao_agente amb' = posicao_agente amb /\
    direcao_agente amb' = direcao_agente amb /\
    objeto_coletado amb' = true.
Proof.
  change (executar_comando_navegacao "P" amb) with (_coletar_objeto amb).
  intros H. pose proof (coletar_objeto_casos amb) as Hc.
  destruct (obter_leituras_sensores_proximidade amb) as [leituras|e|]; [|congruence|done].
  destruct (frente_eh_humano leituras); [|congruence].
  destruct Hc as (delta & linha & ch & nova & Hdelta & Hlo & Hco & Hlin & Hch & Hobj
                  & Hnova & Hret).
  rewrite Hret in H. injection H as <-. simpl.
  set (lo := fst (posicao_agente amb) + fst delta) in *.
  set (co := snd (posicao_agente amb) + snd delta) in *.
  exists (lo, co). unfold celula_alvo. rewrite Hdelta. cbn [ligar]. fold lo co.
  split; [done|].
  assert (Heh : celula_eh eh_objeto (labirinto amb) (lo, co)).
  { split; [done|]. split; [done|]. exists ch. split; [|done].
    apply conteudo_celula_retorna; eauto. }
  split; [done|].
  pose proof (lookup_lt_Some _ _ _ Hlin) as Hlo_lt.
  pose proof (lookup_lt_Some _ _ _ Hch) as Hco_lt.
  assert (Hcel : forall l c, 0 <= l -> 0 <= c ->
            conteudo_celula (<[Z.to_nat lo := nova]> (labirinto amb)) l c
            = if bool_decide ((l, c) = (lo, co)) then Retorna " "%char
              else conteudo_celula (labirinto amb) l c).
  { intros l c Hl Hc. rewrite !conteudo_celula_nao_negativo by done.
    destruct (decide (Z.to_nat l = Z.to_nat lo)) as [Heq|Hne].
    - rewrite Heq, list_lookup_insert_eq by done. rewrite Hlin, Hnova.
      destruct (decide (Z.to_nat c = Z.to_nat co)) as [Heqc|Hnec].
      + rewrite Heqc, list_lookup_insert_eq by done.
        rewrite bool_decide_eq_true_2; [done|]. f_equal; lia.
      + rewrite list_lookup_insert_ne by done.
        rewrite bool_decide_eq_false_2; [done|]. intros [= ? ?]. lia.
    - rewrite list_lookup_insert_ne by done.
      rewrite bool_decide_eq_false_2; [done|]. intros [= ? ?]. lia. }
  split; [done|]. split; [by rewrite length_insert|].
  assert (Hquais : forall alvo q,
            celula_eh alvo (<[Z.to_nat lo := nova]> (labirinto amb)) q
            <-> (q = (lo, co) /\ alvo " "%char = true) \/
                (q <> (lo, co) /\ celula_eh alvo (labirinto amb) q)).
  { intros alvo [l c]. unfold celula_eh. simpl. split.
    - intros (Hl & Hc & x & Hx & Hax). rewrite Hcel in Hx by done.
      destruct (bool_decide_reflect ((l, c) = (lo, co))) as [Heq|Hne].
      + injection Hx as <-. by left.
      + right. eauto 10.
    - intros [[[= -> ->] Hax] | [Hne (Hl & Hc & x & Hx & Hax)]].
      + split; [done|]. split; [done|]. exists " "%char.
        rewrite Hcel by done. by rewrite bool_decide_eq_true_2.
      + split; [done|]. split; [done|]. exists x.
        rewrite Hcel by done. by rewrite bool_decide_eq_false_2. }
  split; [|split; [|done]].
  - unfold contar. apply (comprimento_sem_um_dec _ _ (lo, co));
      [apply celulas_com_nodup | apply celulas_com_nodup
       | by apply celulas_com_celula_eh |].
    intros q. rewrite !celulas_com_celula_eh, Hquais. split.
    + intros [[_ Hx]|[? ?]]; [discriminate Hx|done].
    + intros [? ?]. by right.
  - unfold contar, len. f_equal.
    apply Permutation_length, NoDup_Permutation; try apply celulas_com_nodup.
    intros q. rewrite !celulas_com_celula_eh, Hquais. split.
    + intros [[_ Hx]|[? ?]]; [discriminate Hx|done].
    + intros Hq. right. split; [|done]. intros ->.
      destruct Hq as (_ & _ & x & Hx & Hax). destruct Heh as (_ & _ & y & Hy & Hay).
      simpl in *. assert (x = y) as -> by congruence.
      unfold eh_entrada in Hax. unfold eh_objeto in Hay.
      apply Ascii.eqb_eq in Hax as ->. discriminate Hay.
Qed.

Lemma coletar_remove_o_objeto_a_frente_witness :
  exists alvo,
    celula_alvo (estado_apos "A" ambiente_exemplo) = Retorna alvo /\
    celula_eh eh_objeto ["*E*"; "* *"; "*H*"] alvo /\
    (forall l c, 0 <= l -> 0 <= c ->
       conteudo_celula ["*E*"; "* *"; "* *"] l c
       = if bool_decide ((l, c) = alvo) then Retorna " "%char
         else conteudo_celula ["*E*"; "* *"; "*H*"] l c) /\
    length ["*E*"; "* *"; "* *"] = length ["*E*"; "* *"; "*H*"] /\
    contar eh_objeto ["*E*"; "* *"; "* *"] = contar eh_objeto ["*E*"; "* *"; "*H*"] - 1 /\
    contar eh_entrada ["*E*"; "* *"; "* *"] = contar eh_entrada ["*E*"; "* *"; "*H*"] /\
    (1, 1) = (1, 1) /\ 2 = 2 /\ true = true.
Proof.
  exact (coletar_remove_o_objeto_a_frente (estado_apos "A" ambiente_exemplo)
           ambiente_com_carga eq_refl).
Defined.

(** X7. [Pickup] succeeds exactly when the sensing operation returns with
    the object on the front sensor; when the sensors return another front
    reading it raises the nothing-ahead error; when the sensing operation
    raises, so does [Pickup], with the same exception. The error of the
    second check of the cell ahead is never raised, and whether an object is
    carried already makes no difference. *)
Theorem coletar_somente_com_objeto_a_frente (amb : AmbienteNavegacao) :
  match obter_leituras_sensores_proximidade amb with
  | Retorna leituras =>
      if frente_eh_humano leituras
      then exists amb', executar_comando_navegacao "P" amb = Retorna amb'
      else executar_comando_navegacao "P" amb = Levanta (ValueError MsgColetaSemObjeto)
  | Levanta e => executar_comando_navegacao "P" amb = Levanta e
  | Diverge => False
  end /\
  executar_comando_navegacao "P" amb <> Levanta (ValueError MsgErroColetar) /\
  (forall b b',
     executar_comando_navegacao "P" (com_objeto_coletado amb b) = Retorna b' ->
     exists a', executar_comando_navegacao "P" amb = Retorna a' /\
                labirinto a' = labirinto b').
Proof.
  change (executar_comando_navegacao "P" amb) with (_coletar_objeto amb).
  pose proof (coletar_objeto_casos amb) as Hc.
  split; [|split].
  - destruct (obter_leituras_sensores_proximidade amb) as [leituras|e|]; [|done|done].
    destruct (frente_eh_humano leituras); [|done].
    destruct Hc as (delta & linha & ch & nova & _ & _ & _ & _ & _ & _ & _ & Hret).
    eauto.
  - destruct (obter_leituras_sensores_proximidade amb) as [leituras|e|] eqn:Hs; [| |done].
    + destruct (frente_eh_humano leituras); [|congruence].
      destruct Hc as (delta & linha & ch & nova & _ & _ & _ & _ & _ & _ & _ & Hret).
      congruence.
    + rewrite Hc. intros [= ->].
      unfold obter_leituras_sensores_proximidade in Hs.
      destruct (direcoes_relativas (direcao_agente amb)) as [ds|e|] eqn:Hd;
        cbn [ligar] in Hs.
      * assert (Hcasos : forall ds', ler_sensores (labirinto amb) (posicao_agente amb) ds'
                               <> Levanta (ValueError MsgErroColetar)).
        { induction ds' as [|delta resto IH]; simpl; [discriminate|].
          destruct (ler_sensor_casos (labirinto amb) (posicao_agente amb) delta)
            as [-> | (s & -> & _)]; simpl; [discriminate|].
          destruct (ler_sensores _ _ resto); simpl; congruence. }
        by apply (Hcasos ds).
      * injection Hs as ->. unfold direcoes_relativas in Hd.
        destruct (direcao_agente amb =? 0); [discriminate Hd|].
        destruct (direcao_agente amb =? 1); [discriminate Hd|].
        destruct (direcao_agente amb =? 2); [discriminate Hd|].
        destruct (direcao_agente amb =? 3); discriminate Hd.
      * discriminate.
  - intros b b' Hb.
    change (executar_comando_navegacao "P" (com_objeto_coletado amb b))
      with (_coletar_objeto (com_objeto_coletado amb b)) in Hb.
    unfold _coletar_objeto in *.
    change (obter_leituras_sensores_proximidade (com_objeto_coletado amb b))
      with (obter_leituras_sensores_proximidade amb) in Hb.
    simpl in Hb.
    destruct (obter_leituras_sensores_proximidade amb) as [leituras|e|]; [|done|done].
    cbn [ligar] in *. destruct (frente_eh_humano leituras); [|done].
    destruct (direcoes_frente (direcao_agente amb)) as [delta|e|]; [|done|done].
    cbn [ligar] in *.
    destruct (conteudo_celula _ _ _) as [c|e|]; [|done|done]. cbn [ligar] in *.
    destruct (eh_objeto c); [|done].
    destruct (indice _ _) as [linha|e|]; [|done|done]. cbn [ligar] in *.
    destruct (atribuir _ _ _) as [lab|e|]; [|done|done]. cbn [ligar] in *.
    injection Hb as <-. eexists. split; [reflexivity|done].
Qed.

Lemma coletar_somente_com_objeto_a_frente_witness :
  exists a',
    executar_comando_navegacao "P" (estado_apos "A" ambiente_exemplo) = Retorna a' /\
    labirinto a' = ["*E*"; "* *"; "* *"].
Proof.
  exact (proj2 (proj2 (coletar_somente_com_objeto_a_frente
                         (estado_apos "A" ambiente_exemplo)))
           true ambiente_com_carga eq_refl).
Defined.

(** * Further properties of the pathfinding engine *)

Lemma manhattan_limita_passos mapa p q n :
  anda mapa p q n -> calcular_distancia_manhattan p q <= Z.of_nat n.
Proof.
  induction 1 as [|r q n Hand IH Hadj Hlivre].
  - destruct p as [a b]. simpl. lia.
  - unfold adjacente in Hadj. apply Z.eqb_eq in Hadj.
    destruct p as [a b], r as [c d], q as [e f]. simpl in *. lia.
Qed.

(** X8. The heuristic of the search is a distance on positions: it is zero
    between equal positions only, symmetric, and satisfies the triangle
    inequality. It is consistent (it drops by at most one along a step) and
    admissible (it never exceeds the number of steps of a walk through free
    cells). *)
Theorem manhattan_admissivel_e_consistente :
  (forall p q, 0 <= calcular_distancia_manhattan p q /\
               (calcular_distancia_manhattan p q = 0 <-> p = q) /\
               calcular_distancia_manhattan p q = calcular_distancia_manhattan q p) /\
  (forall p q o, calcular_distancia_manhattan p o
                 <= calcular_distancia_manhattan p q + calcular_distancia_manhattan q o) /\
  (forall p q o, adjacente p q = true ->
                 calcular_distancia_manhattan p o <= 1 + calcular_distancia_manhattan q o) /\
  (forall mapa p o n, anda mapa p o n -> calcular_distancia_manhattan p o <= Z.of_nat n).
Proof.
  split; [|split; [|split]].
  - intros [a b] [c d]. simpl. split; [lia|]. split; [|lia].
    split; [intros H; f_equal; lia | intros [= -> ->]; lia].
  - intros [a b] [c d] [e f]. simpl. lia.
  - apply manhattan_consistente.
  - apply manhattan_limita_passos.
Qed.

Lemma manhattan_admissivel_e_consistente_witness :
  calcular_distancia_manhattan (0, 1) (2, 0) <= Z.of_nat 5.
Proof.
  apply (proj2 (proj2 (proj2 manhattan_admissivel_e_consistente)) grade_exemplo).
  apply (anda_passo _ _ (2, 1)); [|reflexivity|reflexivity].
  apply (anda_passo _ _ (2, 2)); [|reflexivity|reflexivity].
  apply (anda_passo _ _ (1, 2)); [|reflexivity|reflexivity].
  apply (anda_passo _ _ (0, 2)); [|reflexivity|reflexivity].
  apply (anda_passo _ _ (0, 1)); [|reflexivity|reflexivity].
  apply anda_inicio. reflexivity.
Defined.

Lemma vizinhos_validos_laco_filtro mapa p direcoes :
  grade_retangular mapa = true ->
  vizinhos_validos_laco mapa p direcoes
  = Retorna (filter (fun q => livre mapa q = true) (map (mais_delta p) direcoes)).
Proof.
  intros Hr. induction direcoes as [|delta resto IH]; [done|].
  cbn [vizinhos_validos_laco map].
  rewrite (vizinho_valido_retangular mapa p delta Hr), IH. cbv zeta. cbn [ligar].
  rewrite filter_cons.
  change (fst p + fst delta, snd p + snd delta) with (mais_delta p delta).
  destruct (decide (livre mapa (mais_delta p delta) = true)) as [Hl|Hl].
  - by rewrite Hl.
  - apply not_true_is_false in Hl. by rewrite Hl.
Qed.

(** X9. On a rectangular grid the neighbours of a position are its free
    4-neighbours, in the order North, South, East, West; each is returned
    once, the position itself never, and nothing is raised. *)
Theorem vizinhos_validos_sao_os_livres (mapa : list (list string)) (p : Z * Z) :
  grade_retangular mapa = true ->
  exists vizinhos,
    obter_vizinhos_validos p mapa = Retorna vizinhos /\
    vizinhos = filter (fun q => livre mapa q = true)
                 [(fst p - 1, snd p); (fst p + 1, snd p);
                  (fst p, snd p + 1); (fst p, snd p - 1)] /\
    NoDup vizinhos /\ (p ∉ vizinhos) /\
    forall q, q ∈ vizinhos <-> adjacente p q = true /\ livre mapa q = true.
Proof.
  intros Hr. eexists. split; [|split; [reflexivity|]].
  - unfold obter_vizinhos_validos. rewrite (vizinhos_validos_laco_filtro _ _ _ Hr).
    unfold direcoes_vizinhos, mais_delta. simpl map.
    replace (fst p + -1) with (fst p - 1) by lia.
    replace (snd p + -1) with (snd p - 1) by lia.
    replace (fst p + 0) with (fst p) by lia.
    replace (snd p + 0) with (snd p) by lia. reflexivity.
  - split; [|split].
    + apply NoDup_filter. repeat (apply NoDup_cons; split);
        [| | | |apply NoDup_nil_2];
        rewrite ?elem_of_cons, ?elem_of_nil; intros H; 
        repeat (destruct H as [H|H]); try done; injection H; lia.
    + rewrite list_elem_of_filter, !elem_of_cons, elem_of_nil.
      intros [_ H]. destruct p as [a b]. simpl in H.
      repeat (destruct H as [H|H]); try done; injection H; lia.
    + intros q. rewrite list_elem_of_filter, !elem_of_cons, elem_of_nil.
      unfold adjacente. destruct p as [a b], q as [c d]. simpl.
      rewrite Z.eqb_eq. split.
      * intros [Hl H]. split; [|done].
        repeat (destruct H as [H|H]); try done; injection H; lia.
      * intros [H Hl]. split; [done|].
        assert ((c = a - 1 /\ d = b) \/ (c = a + 1 /\ d = b) \/
                (c = a /\ d = b + 1) \/ (c = a /\ d = b - 1)) as Hc by lia.
        destruct Hc as [[-> ->]|[[-> ->]|[[-> ->]|[-> ->]]]]; auto 10.
Qed.

Lemma vizinhos_validos_sao_os_livres_witness :
  exists vizinhos,
    obter_vizinhos_validos (0, 2) grade_exemplo = Retorna vizinhos /\
    vizinhos = filter (fun q => livre grade_exemplo q = true)
                 [(-1, 2); (1, 2); (0, 3); (0, 1)] /\
    NoDup vizinhos /\ ((0, 2) ∉ vizinhos) /\
    forall q, q ∈ vizinhos <-> adjacente (0, 2) q = true /\ livre grade_exemplo q = true.
Proof.
  exact (vizinhos_validos_sao_os_livres grade_exemplo (0, 2) eq_refl).
Defined.

(** ** Shape of the path found *)

Lemma caminho_valido_app_esq mapa (l1 l2 : list (Z * Z)) :
  l1 <> [] -> caminho_valido mapa (l1 ++ l2)%list = true -> caminho_valido mapa l1 = true.
Proof.
  induction l1 as [|p [|q l1] IH]; intros Hne H; [done| |].
  - simpl in *. apply andb_true_iff in H as [-> _]. done.
  - change ((p :: q :: l1) ++ l2)%list with (p :: q :: (l1 ++ l2))%list in H.
    rewrite caminho_valido_cons in *.
    apply andb_true_iff in H as [H1 H2]. rewrite H1. simpl.
    apply IH; done.
Qed.

Lemma caminho_valido_app_dir mapa (l1 l2 : list (Z * Z)) :
  l2 <> [] -> caminho_valido mapa (l1 ++ l2)%list = true -> caminho_valido mapa l2 = true.
Proof.
  induction l1 as [|p l1 IH]; intros Hne H; [done|].
  apply IH; [done|]. destruct (l1 ++ l2)%list as [|q r] eqn:E.
  - destruct l1; [by destruct l2|done].
  - change ((p :: l1) ++ l2)%list with (p :: (l1 ++ l2))%list in H. rewrite E in H.
    rewrite caminho_valido_cons in H. by apply andb_true_iff in H as [_ ?].
Qed.

Lemma caminho_valido_junta mapa (l1 l2 : list (Z * Z)) x :
  caminho_valido mapa (l1 ++ [x])%list = true ->
  caminho_valido mapa (x :: l2) = true ->
  caminho_valido mapa (l1 ++ x :: l2)%list = true.
Proof.
  induction l1 as [|p [|q l1] IH]; intros H1 H2; [done| |].
  - simpl in H1. change ([p] ++ x :: l2)%list with (p :: x :: l2).
    rewrite caminho_valido_cons. rewrite H2.
    apply andb_true_iff in H1 as [-> H1]. apply andb_true_iff in H1 as [-> _]. done.
  - change ((p :: q :: l1) ++ [x])%list with (p :: q :: (l1 ++ [x]))%list in H1.
    change ((p :: q :: l1) ++ x :: l2)%list with (p :: q :: (l1 ++ x :: l2))%list.
    rewrite caminho_valido_cons in *.
    apply andb_true_iff in H1 as [-> H1]. simpl. by apply IH.
Qed.

(** A path that passes twice through a cell can be shortened. *)
Lemma caminho_sem_volta mapa inicial objetivo (caminho : list (Z * Z)) :
  liga mapa inicial objetivo caminho -> ~ NoDup caminho ->
  exists curto, liga mapa inicial objetivo curto /\ (length curto < length caminho)%nat.
Proof.
  intros (Hv & Hh & Hl) Hnd.
  assert (Hrep : exists l1 x l2 l3, caminho = (l1 ++ x :: l2 ++ x :: l3)%list).
  { clear Hv Hh Hl. induction caminho as [|p resto IH]; [destruct Hnd; constructor|].
    destruct (decide (p ∈ resto)) as [Hin|Hnin].
    - apply list_elem_of_split in Hin as (l2 & l3 & ->). by exists [], p, l2, l3.
    - destruct IH as (l1 & x & l2 & l3 & ->).
      { intros H. apply Hnd. by constructor. }
      by exists (p :: l1), x, l2, l3. }
  destruct Hrep as (l1 & x & l2 & l3 & ->).
  exists (l1 ++ x :: l3)%list. split; [split; [|split]|].
  - apply caminho_valido_junta.
    + apply (caminho_valido_app_esq _ _ (l2 ++ x :: l3)); [by destruct l1|].
      by rewrite <- app_assoc.
    + apply (caminho_valido_app_dir _ (l1 ++ x :: l2)); [done|].
      by rewrite <- app_assoc.
  - destruct l1; done.
  - rewrite last_app_cons in Hl |- *.
    change (x :: l2 ++ x :: l3)%list with ((x :: l2) ++ x :: l3)%list in Hl.
    by rewrite last_app_cons in Hl.
  - rewrite !length_app. simpl. rewrite length_app. simpl. lia.
Qed.

Lemma busca_retorna_livres combustivel mapa inicial objetivo r :
  busca_com_combustivel combustivel mapa inicial objetivo = Retorna r ->
  livre mapa inicial = true /\ livre mapa objetivo = true.
Proof.
  unfold busca_com_combustivel. intros H.
  destruct (mapa_vazio mapa) eqn:Hvazio; [discriminate|].
  rewrite !(fora_do_mapa_dentro _ _ Hvazio) in H. cbn [ligar] in H.
  destruct (dentro_do_mapa mapa inicial) eqn:Hdi; [|discriminate]. cbn [negb] in H.
  destruct (dentro_do_mapa mapa objetivo) eqn:Hdo; [|discriminate]. cbn [negb] in H.
  unfold livre. rewrite Hdi, Hdo.
  destruct (celula mapa (fst inicial) (snd inicial)) as [ci| |]; try discriminate.
  cbn [ligar] in H. destruct (ci =? "*")%string eqn:Hci; [discriminate|].
  destruct (celula mapa (fst objetivo) (snd objetivo)) as [co| |]; try discriminate.
  cbn [ligar] in H. destruct (co =? "*")%string eqn:Hco; [discriminate|].
  done.
Qed.

(** X10. On a rectangular grid the path the search returns never passes
    twice through a cell, has at least as many cells as the heuristic
    distance between its ends plus one, and has one cell exactly when the
    start is the goal. *)
Theorem busca_astar_caminho_simples (mapa : list (list string))
    (inicial objetivo : Z * Z) (caminho : list (Z * Z)) :
  grade_retangular mapa = true ->
  algoritmo_busca_astar mapa inicial objetivo = Retorna (Some caminho) ->
  NoDup caminho /\
  calcular_distancia_manhattan inicial objetivo + 1 <= len caminho /\
  (len caminho = 1 <-> inicial = objetivo).
Proof.
  intros Hr Hb.
  destruct (busca_retorna_livres _ _ _ _ _ Hb) as [Hi Ho].
  destruct (busca_astar_resultado mapa inicial objetivo Hr Hi Ho)
    as [[Hnone _] | (achado & Hsome & Hliga & Hmin)]; [congruence|].
  assert (achado = caminho) as -> by congruence.
  pose proof (liga_anda _ _ _ _ Hliga) as Hand.
  pose proof (manhattan_limita_passos _ _ _ _ Hand) as Hh.
  destruct Hliga as (Hv & Hh' & Hl').
  destruct caminho as [|p resto]; [discriminate|].
  injection Hh' as ->.
  split; [|split].
  - destruct (decide (NoDup (inicial :: resto))) as [Hnd|Hnd]; [done|]. exfalso.
    destruct (caminho_sem_volta mapa inicial objetivo (inicial :: resto)) as (curto & Hc & Hlt);
      [done|done|].
    pose proof (liga_anda _ _ _ _ Hc) as Hand'. apply Hmin in Hand'.
    destruct Hc as (Hvc & _ & _). destruct curto; [discriminate|]. simpl in *. lia.
  - unfold len. simpl in *. lia.
  - unfold len. simpl. split.
    + intros Hlen. destruct resto; [|simpl in Hlen; lia].
      simpl in Hl'. congruence.
    + intros <-. assert (Hz : anda mapa inicial inicial 0) by (by constructor).
      apply Hmin in Hz. simpl in Hz. lia.
Qed.

Lemma busca_astar_caminho_simples_witness :
  NoDup [(0, 1); (0, 2); (1, 2); (2, 2); (2, 1); (2, 0)] /\
  calcular_distancia_manhattan (0, 1) (2, 0) + 1
  <= len [(0, 1); (0, 2); (1, 2); (2, 2); (2, 1); (2, 0)] /\
  (len [(0, 1); (0, 2); (1, 2); (2, 2); (2, 1); (2, 0)] = 1 <-> (0, 1) = (2, 0)).
Proof.
  apply (busca_astar_caminho_simples grade_exemplo (0, 1) (2, 0)); [reflexivity|].
  vm_compute. reflexivity.
Defined.

(** * Further properties of the exploration strategy *)

Lemma sensores_retangular amb :
  retangular (labirinto amb) = true -> orientacao_valida amb = true ->
  exists esquerda frente direita,
    direcoes_relativas (direcao_agente amb) = Retorna [esquerda; frente; direita] /\
    direcoes_frente (direcao_agente amb) = Retorna frente /\
    obter_leituras_sensores_proximidade amb
    = Retorna [leitura_da_celula (labirinto amb) (mais_delta (posicao_agente amb) esquerda);
               leitura_da_celula (labirinto amb) (mais_delta (posicao_agente amb) frente);
               leitura_da_celula (labirinto amb) (mais_delta (posicao_agente amb) direita)].
Proof.
  intros Hr Ho. unfold obter_leituras_sensores_proximidade.
  destruct (orientacao_valida_casos amb Ho) as [Hd|[Hd|[Hd|Hd]]]; rewrite Hd; simpl;
    do 3 eexists; (split; [reflexivity|]); (split; [reflexivity|]);
    by rewrite !ler_sensor_retangular.
Qed.

Lemma avancar_retangular amb delta :
  retangular (labirinto amb) = true ->
  direcoes_frente (direcao_agente amb) = Retorna delta ->
  let alvo := mais_delta (posicao_agente amb) delta in
  _avancar_agente amb
  = if String.eqb (leitura_da_celula (labirinto amb) alvo) "PAREDE"
    then Levanta (ValueError (MsgColisao (posicao_agente amb) alvo))
    else Retorna (com_posicao amb alvo).
Proof.
  intros Hr Hf. cbv zeta. unfold _avancar_agente.
  assert (Hm : indice direcoes_movimento (direcao_agente amb) = Retorna delta).
  { unfold direcoes_frente in Hf.
    destruct (Z.eqb_spec (direcao_agente amb) 0) as [->|?]; [by injection Hf as <-|].
    destruct (Z.eqb_spec (direcao_agente amb) 1) as [->|?]; [by injection Hf as <-|].
    destruct (Z.eqb_spec (direcao_agente amb) 2) as [->|?]; [by injection Hf as <-|].
    destruct (Z.eqb_spec (direcao_agente amb) 3) as [->|?]; [by injection Hf as <-|].
    discriminate. }
  rewrite Hm. cbn [ligar]. cbv zeta. unfold mais_delta.
  destruct (celula_em_mapa_retangular (labirinto amb)
              (fst (posicao_agente amb) + fst delta)
              (snd (posicao_agente amb) + snd delta) Hr)
    as [(ch & -> & -> & _ & _ & _ & ->) | [-> ->]]; cbn [ligar].
  - rewrite classificar_parede. by destruct (eh_parede ch).
  - reflexivity.
Qed.

(** A cell that does not read as a wall is a cell of the map. *)
Lemma leitura_nao_parede lab p :
  leitura_da_celula lab p <> "PAREDE" ->
  0 <= fst p /\ 0 <= snd p /\
  exists linha ch, lab !! Z.to_nat (fst p) = Some linha /\
                   caracteres linha !! Z.to_nat (snd p) = Some ch /\
                   eh_parede ch = false /\
                   leitura_da_celula lab p = classificar ch.
Proof.
  unfold leitura_da_celula. intros H.
  destruct (Z.leb_spec 0 (fst p)); [|exfalso; by apply H].
  destruct (Z.leb_spec 0 (snd p)); [|exfalso; by apply H].
  simpl in *. destruct (lab !! Z.to_nat (fst p)) as [linha|] eqn:Hlin; [|exfalso; by apply H].
  destruct (caracteres linha !! Z.to_nat (snd p)) as [ch|] eqn:Hch; [|exfalso; by apply H].
  split; [done|]. split; [done|]. exists linha, ch. split; [done|]. split; [done|].
  split; [|done]. destruct (eh_parede ch) eqn:Hp; [|done].
  exfalso. apply H. unfold classificar. by rewrite Hp.
Qed.

Lemma posicao_valida_leitura amb :
  posicao_valida amb = true <->
  leitura_da_celula (labirinto amb) (posicao_agente amb) <> "PAREDE".
Proof.
  split.
  - intros Hv. apply posicao_valida_celula in Hv as (Hl & Hc & linha & ch & Hlin & Hch & Hp).
    unfold leitura_da_celula.
    rewrite (proj2 (Z.leb_le _ _) Hl), (proj2 (Z.leb_le _ _) Hc), Hlin, Hch. simpl.
    intros Hcl. pose proof (classificar_parede ch) as Hcp. rewrite Hcl, Hp in Hcp.
    discriminate.
  - intros H. apply leitura_nao_parede in H as (Hl & Hc & linha & ch & Hlin & Hch & Hp & _).
    by apply (celula_posicao_valida amb linha ch).
Qed.

Lemma exibir_estado_valido amb :
  posicao_valida amb = true -> orientacao_valida amb = true ->
  exibir_estado_ambiente amb = Retorna tt.
Proof.
  intros Hv Ho.
  apply posicao_valida_celula in Hv as (Hl & Hc & linha & ch & Hlin & Hch & _).
  unfold exibir_estado_ambiente. destruct (posicao_agente amb) as [l c]. simpl in *.
  assert (Hs : exists s, indice simbolos_direcao (direcao_agente amb) = Retorna s).
  { destruct (orientacao_valida_casos amb Ho) as [Hd|[Hd|[Hd|Hd]]]; rewrite Hd;
      eexists; reflexivity. }
  destruct Hs as [s ->]. cbn [ligar].
  rewrite (indice_nao_negativo _ l Hl), Hlin. cbn [ligar].
  unfold atribuir. cbv zeta.
  pose proof (lookup_lt_Some _ _ _ Hch) as Hlt.
  rewrite !(proj2 (Z.leb_le 0 c) Hc). unfold len.
  rewrite (proj2 (Z.ltb_lt c _)) by lia. reflexivity.
Qed.

Lemma registrar_retangular e :
  retangular (labirinto (ambiente e)) = true ->
  orientacao_valida (ambiente e) = true ->
  registrar e = Retorna tt.
Proof.
  intros Hr Ho. unfold registrar. destruct (sistema_log e); [|done].
  destruct (sensores_retangular _ Hr Ho) as (? & ? & ? & _ & _ & ->). done.
Qed.

(** ** Turning and moving *)

Lemma explorador_eta e :
  com_ambiente e (com_direcao (ambiente e) (direcao_agente (ambiente e))) = e.
Proof. by destruct e as [[] ? ? ? ? ? ?]. Qed.

Lemma giros_ate_proximo d alvo :
  0 <= d < 4 -> 0 <= alvo < 4 -> d <> alvo ->
  giros_ate d alvo = S (giros_ate ((d + 1) mod 4) alvo).
Proof.
  intros Hd Ha Hne. unfold giros_ate.
  assert (alvo = 0 \/ alvo = 1 \/ alvo = 2 \/ alvo = 3) as Hc by lia.
  assert (d = 0 \/ d = 1 \/ d = 2 \/ d = 3) as Hc' by lia.
  destruct Hc as [->|[->|[->| ->]]]; destruct Hc' as [->|[->|[->| ->]]];
    try lia; reflexivity.
Qed.

Lemma ajustar_direcao_retangular combustivel : forall alvo e,
  retangular (labirinto (ambiente e)) = true ->
  orientacao_valida (ambiente e) = true -> 0 <= alvo < 4 ->
  (giros_ate (direcao_agente (ambiente e)) alvo <= combustivel)%nat ->
  _ajustar_direcao combustivel alvo e
  = Retorna (com_ambiente e (com_direcao (ambiente e) alvo)).
Proof.
  induction combustivel as [|n IH]; intros alvo e Hr Ho Ha Hg.
  - cbn [_ajustar_direcao].
    destruct (Z.eqb_spec (direcao_agente (ambiente e)) alvo) as [<-|Hne].
    + by rewrite explorador_eta.
    + exfalso. unfold orientacao_valida in Ho. apply andb_true_iff in Ho as [H0 H4].
      apply Z.leb_le in H0. apply Z.ltb_lt in H4.
      rewrite (giros_ate_proximo _ alvo) in Hg by lia. lia.
  - cbn [_ajustar_direcao].
    destruct (Z.eqb_spec (direcao_agente (ambiente e)) alvo) as [<-|Hne].
    + by rewrite explorador_eta.
    + change (executar_comando_navegacao "G" (ambiente e)) with (_girar_agente (ambiente e)).
      unfold _girar_agente. cbn [ligar]. cbv zeta.
      pose proof Ho as Ho'. unfold orientacao_valida in Ho'.
      apply andb_true_iff in Ho' as [H0 H4]. apply Z.leb_le in H0. apply Z.ltb_lt in H4.
      pose proof (Z.mod_pos_bound (direcao_agente (ambiente e) + 1) 4 ltac:(lia)) as Hb.
      assert (Ho2 : orientacao_valida
                      (com_direcao (ambiente e) ((direcao_agente (ambiente e) + 1) mod 4))
                    = true).
      { unfold orientacao_valida. simpl. apply andb_true_iff.
        split; [apply Z.leb_le | apply Z.ltb_lt]; lia. }
      rewrite registrar_retangular by done. cbn [ligar].
      rewrite IH; [done|done|done|done|]. simpl.
      rewrite (giros_ate_proximo _ alvo) in Hg by lia. lia.
Qed.

Lemma giros_ate_limite d alvo : (giros_ate d alvo <= 3)%nat.
Proof.
  unfold giros_ate. pose proof (Z.mod_pos_bound (alvo - d) 4 ltac:(lia)). lia.
Qed.

(** Moving to a 4-neighbour on a rectangular map. *)
Lemma mover_para_vizinho alvo e :
  retangular (labirinto (ambiente e)) = true ->
  orientacao_valida (ambiente e) = true ->
  adjacente (posicao_agente (ambiente e)) alvo = true ->
  exists d,
    0 <= d < 4 /\
    _mover_para alvo e
    = if String.eqb (leitura_da_celula (labirinto (ambiente e)) alvo) "PAREDE"
      then Levanta (ValueError (MsgColisao (posicao_agente (ambiente e)) alvo))
      else Retorna (com_ambiente e
                      {| labirinto := labirinto (ambiente e);
                         posicao_agente := alvo;
                         direcao_agente := d;
                         objeto_coletado := objeto_coletado (ambiente e) |}).
Proof.
  intros Hr Ho Hadj. unfold _mover_para. cbv zeta.
  unfold adjacente in Hadj. apply Z.eqb_eq in Hadj.
  destruct alvo as [a b]. destruct (posicao_agente (ambiente e)) as [l c] eqn:Hpos.
  simpl in Hadj. simpl fst. simpl snd.
  assert (Hcasos : (a - l = 1 /\ b = c) \/ (a - l = -1 /\ b = c) \/
                   (a = l /\ b - c = 1) \/ (a = l /\ b - c = -1)) by lia.
  assert (Hgeral : forall d delta,
            0 <= d < 4 -> direcoes_frente d = Retorna delta ->
            (a, b) = (l + fst delta, c + snd delta) ->
            (faz e1 <- _ajustar_direcao 4 d e em
             faz amb <- executar_comando_navegacao "A" (ambiente e1) em
             let e2 := com_ambiente e1 amb in
             faz _ <- exibir_estado_ambiente amb em
             faz _ <- registrar e2 em Retorna e2)
            = if String.eqb (leitura_da_celula (labirinto (ambiente e)) (a, b)) "PAREDE"
              then Levanta (ValueError (MsgColisao (l, c) (a, b)))
              else Retorna (com_ambiente e
                              {| labirinto := labirinto (ambiente e);
                                 posicao_agente := (a, b);
                                 direcao_agente := d;
                                 objeto_coletado := objeto_coletado (ambiente e) |})).
  { intros d delta Hd Hdelta Hab.
    rewrite (ajustar_direcao_retangular 4 d e Hr Ho Hd)
      by (pose proof (giros_ate_limite (direcao_agente (ambiente e)) d); lia).
    cbn [ligar].
    change (executar_comando_navegacao "A" ?x) with (_avancar_agente x).
    rewrite (avancar_retangular _ delta); [|done|done]. cbv zeta.
    simpl labirinto. simpl posicao_agente. rewrite Hpos. unfold mais_delta.
    simpl fst. simpl snd. rewrite <- Hab.
    destruct (String.eqb (leitura_da_celula (labirinto (ambiente e)) (a, b)) "PAREDE")
      eqn:Hpar; [done|].
    cbn [ligar]. cbv zeta.
    assert (Hv : posicao_valida (com_posicao (com_direcao (ambiente e) d) (a, b)) = true).
    { apply posicao_valida_leitura. simpl. intros Hx. rewrite Hx in Hpar. discriminate. }
    assert (Ho2 : orientacao_valida (com_posicao (com_direcao (ambiente e) d) (a, b)) = true).
    { unfold orientacao_valida. simpl. apply andb_true_iff.
      split; [apply Z.leb_le | apply Z.ltb_lt]; lia. }
    rewrite exibir_estado_valido by done. cbn [ligar].
    rewrite registrar_retangular by done. cbn [ligar]. done. }
  destruct Hcasos as [[H1 H2]|[[H1 H2]|[[H1 H2]|[H1 H2]]]].
  - exists 2. split; [lia|]. rewrite H1. simpl.
    apply (Hgeral 2 (1, 0)); [lia|done|]. simpl. f_equal; lia.
  - exists 0. split; [lia|]. rewrite H1. simpl.
    apply (Hgeral 0 (-1, 0)); [lia|done|]. simpl. f_equal; lia.
  - exists 1. split; [lia|].
    replace (a - l) with 0 by lia. rewrite H2. simpl.
    apply (Hgeral 1 (0, 1)); [lia|done|]. simpl. f_equal; lia.
  - exists 3. split; [lia|].
    replace (a - l) with 0 by lia. rewrite H2. simpl.
    apply (Hgeral 3 (0, -1)); [lia|done|]. simpl. f_equal; lia.
Qed.

(** ** The known map stays true *)

Lemma registrar_leitura_fiel lab inicial carga leituras i j e idx delta :
  conhecimento_fiel lab inicial carga e ->
  indice leituras idx = Retorna (leitura_da_celula lab (i + fst delta, j + snd delta)) ->
  exists e',
    registrar_leitura leituras i j e idx delta = Retorna e' /\
    conhecimento_fiel lab inicial carga e' /\
    ambiente e' = ambiente e /\
    posicoes_visitadas e' = posicoes_visitadas e /\
    pilha_navegacao e' = pilha_navegacao e.
Proof.
  intros [Hlab Hcarga Hor Hpos Hvis Hmapa Hobj] Hidx.
  unfold registrar_leitura. cbv zeta. rewrite Hidx. cbn [ligar].
  set (viz := (i + fst delta, j + snd delta)) in *.
  destruct (String.eqb_spec (leitura_da_celula lab viz) "PAREDE") as [Hp|Hnp].
  { eexists. split; [reflexivity|]. split; [|done].
    constructor; simpl; try done.
    intros p s. destruct (decide (p = viz)) as [->|Hne].
    - rewrite lookup_insert_eq. intros [= <-]. by left.
    - rewrite lookup_insert_ne by done. apply Hmapa. }
  destruct (String.eqb_spec (leitura_da_celula lab viz) "HUMANO") as [Hh|Hnh].
  { eexists. split; [reflexivity|]. split; [|done].
    constructor; simpl; try done.
    - intros p s. destruct (decide (p = viz)) as [->|Hne].
      + rewrite lookup_insert_eq. intros [= <-]. right. by left.
      + rewrite lookup_insert_ne by done. apply Hmapa.
    - by intros p [= <-]. }
  destruct (String.eqb_spec (leitura_da_celula lab viz) "VAZIO") as [Hv|Hnv].
  { destruct (mapa_conhecido e !! viz) as [s|] eqn:Hviz.
    - eexists. split; [reflexivity|]. split; done.
    - eexists. split; [reflexivity|]. split; [|done].
      constructor; simpl; try done.
      intros p s. destruct (decide (p = viz)) as [->|Hne].
      + rewrite lookup_insert_eq. intros [= <-]. right. right. by left.
      + rewrite lookup_insert_ne by done. apply Hmapa. }
  eexists. split; [reflexivity|]. split; done.
Qed.

Lemma atualizar_fiel lab inicial carga e :
  retangular lab = true ->
  conhecimento_fiel lab inicial carga e ->
  exists e1,
    _atualizar_mapa_com_sensores (posicao_agente (ambiente e)) e = Retorna e1 /\
    conhecimento_fiel lab inicial carga e1 /\
    ambiente e1 = ambiente e /\
    posicoes_visitadas e1 = posicoes_visitadas e /\
    pilha_navegacao e1 = pilha_navegacao e.
Proof.
  intros Hr Hcf. pose proof Hcf as [Hlab Hcarga Hor Hpos Hvis Hmapa Hobj].
  unfold _atualizar_mapa_com_sensores.
  destruct (posicao_agente (ambiente e)) as [i j] eqn:Hp.
  rewrite <- Hlab in Hr.
  destruct (sensores_retangular _ Hr Hor) as (d0 & d1 & d2 & Hd & _ & Hs).
  rewrite Hs, Hd. cbn [ligar]. rewrite Hlab, Hp. unfold mais_delta. simpl fst. simpl snd.
  cbn [registrar_leituras].
  destruct (registrar_leitura_fiel lab inicial carga
              [leitura_da_celula lab (i + fst d0, j + snd d0);
               leitura_da_celula lab (i + fst d1, j + snd d1);
               leitura_da_celula lab (i + fst d2, j + snd d2)] i j e 0 d0 Hcf eq_refl)
    as (e1 & -> & Hcf1 & Ha1 & Hv1 & Hp1).
  cbn [ligar].
  destruct (registrar_leitura_fiel lab inicial carga
              [leitura_da_celula lab (i + fst d0, j + snd d0);
               leitura_da_celula lab (i + fst d1, j + snd d1);
               leitura_da_celula lab (i + fst d2, j + snd d2)] i j e1 1 d1 Hcf1 eq_refl)
    as (e2 & He2 & Hcf2 & Ha2 & Hv2 & Hp2).
  change (0 + 1) with 1. rewrite He2. cbn [ligar].
  destruct (registrar_leitura_fiel lab inicial carga
              [leitura_da_celula lab (i + fst d0, j + snd d0);
               leitura_da_celula lab (i + fst d1, j + snd d1);
               leitura_da_celula lab (i + fst d2, j + snd d2)] i j e2 2 d2 Hcf2 eq_refl)
    as (e3 & He3 & Hcf3 & Ha3 & Hv3 & Hp3).
  change (1 + 1) with 2. rewrite He3. cbn [ligar].
  exists e3. split; [done|]. split; [done|]. split; [congruence|]. split; congruence.
Qed.

(** ** Choice of the next cell *)

Lemma primeira_a_explorar_find e i j direcoes :
  primeira_a_explorar e i j direcoes
  = head (filter (fun q => a_explorar e q = true)
            (map (fun d => (i + fst d, j + snd d)) direcoes)).
Proof.
  induction direcoes as [|[di dj] resto IH]; [done|].
  cbn [primeira_a_explorar map]. rewrite filter_cons.
  simpl fst. simpl snd.
  destruct (decide (a_explorar e (i + di, j + dj) = true)) as [Hc|Hc].
  - unfold a_explorar in Hc. by rewrite Hc.
  - apply not_true_is_false in Hc. unfold a_explorar in Hc. by rewrite Hc.
Qed.

Lemma proxima_posicao_casos (posicao_atual : Z * Z) (e : ExploradorInteligente) :
  orientacao_valida (ambiente e) = true ->
  exists frente,
    direcoes_frente (direcao_agente (ambiente e)) = Retorna frente /\
    _encontrar_proxima_posicao_para_explorar posicao_atual e
    = Retorna (head (filter (fun q => a_explorar e q = true)
                       (candidatas posicao_atual frente))) /\
    forall q,
      _encontrar_proxima_posicao_para_explorar posicao_atual e = Retorna (Some q) ->
      adjacente posicao_atual q = true /\
      q <> (fst posicao_atual - fst frente, snd posicao_atual - snd frente) /\
      (q ∉ posicoes_visitadas e) /\ mapa_conhecido e !! q <> Some "X".
Proof.
  intros Ho. unfold _encontrar_proxima_posicao_para_explorar.
  destruct posicao_atual as [i j].
  assert (Hd : exists frente,
             direcoes_frente (direcao_agente (ambiente e)) = Retorna frente /\
             Z.abs (fst frente) + Z.abs (snd frente) = 1 /\
             direcoes_absolutas (direcao_agente (ambiente e))
             = Retorna [frente; (snd frente, - fst frente); (- snd frente, fst frente)]).
  { destruct (orientacao_valida_casos _ Ho) as [Hd|[Hd|[Hd|Hd]]]; rewrite Hd;
      eexists; (split; [reflexivity|]); split; reflexivity. }
  destruct Hd as (frente & Hf & Hum & ->). exists frente. split; [done|].
  cbn [ligar]. rewrite primeira_a_explorar_find.
  assert (Hcand : map (fun d => (i + fst d, j + snd d))
                    [frente; (snd frente, - fst frente); (- snd frente, fst frente)]
                  = candidatas (i, j) frente).
  { unfold candidatas. simpl. repeat f_equal; lia. }
  rewrite Hcand. split; [done|].
  intros q [= Hq]. apply head_Some_elem_of in Hq.
  apply list_elem_of_filter in Hq as [Hexp Hq].
  unfold a_explorar in Hexp. apply andb_true_iff in Hexp as [Hv Hx].
  apply bool_decide_eq_true in Hv. apply negb_true_iff, bool_decide_eq_false in Hx.
  split; [|split; [|done]].
  - unfold candidatas in Hq. rewrite !elem_of_cons, elem_of_nil in Hq.
    unfold adjacente. apply Z.eqb_eq. destruct frente as [a b]. simpl in *.
    destruct Hq as [->|[->|[->|[]]]]; simpl; lia.
  - unfold candidatas in Hq. rewrite !elem_of_cons, elem_of_nil in Hq.
    destruct frente as [a b]. simpl in *.
    destruct Hq as [->|[->|[->|[]]]]; intros [= ? ?]; lia.
Qed.

(** X11. With a valid orientation the explorer picks, among the cell
    ahead, the cell to the right and the cell to the left, in this order,
    the first that is not visited and not known to be a wall (a cell it
    knows nothing about qualifies), and [None] when there is none. The cell
    picked is a 4-neighbour of the current cell and never the cell behind. *)
Theorem proxima_posicao_frente_direita_esquerda (posicao_atual : Z * Z)
    (e : ExploradorInteligente) :
  orientacao_valida (ambiente e) = true ->
  exists frente,
    direcoes_frente (direcao_agente (ambiente e)) = Retorna frente /\
    _encontrar_proxima_posicao_para_explorar posicao_atual e
    = Retorna (head (filter (fun q => a_explorar e q = true)
                       (candidatas posicao_atual frente))) /\
    forall q,
      _encontrar_proxima_posicao_para_explorar posicao_atual e = Retorna (Some q) ->
      adjacente posicao_atual q = true /\
      q <> (fst posicao_atual - fst frente, snd posicao_atual - snd frente) /\
      (q ∉ posicoes_visitadas e) /\ mapa_conhecido e !! q <> Some "X".
Proof. apply proxima_posicao_casos. Qed.

Lemma proxima_posicao_frente_direita_esquerda_witness :
  exists frente,
    direcoes_frente 2 = Retorna frente /\
    _encontrar_proxima_posicao_para_explorar (0, 1) explorador_exemplo
    = Retorna (head (filter (fun q => a_explorar explorador_exemplo q = true)
                       (candidatas (0, 1) frente))) /\
    forall q,
      _encontrar_proxima_posicao_para_explorar (0, 1) explorador_exemplo
      = Retorna (Some q) ->
      adjacente (0, 1) q = true /\
      q <> (0 - fst frente, 1 - snd frente) /\
      (q ∉ posicoes_visitadas explorador_exemplo) /\
      mapa_conhecido explorador_exemplo !! q <> Some "X".
Proof.
  exact (proxima_posicao_frente_direita_esquerda (0, 1) explorador_exemplo eq_refl).
Defined.

(** ** One turn of the exploration loop *)

Lemma adjacente_simetrica p q : adjacente p q = adjacente q p.
Proof. unfold adjacente. f_equal. lia. Qed.

Lemma indice_ultimo {A} (l : list A) x : last l = Some x -> indice l (-1) = Retorna x.
Proof.
  intros Hl. apply last_Some in Hl as [l' ->].
  unfold indice. cbv zeta. unfold len. rewrite length_app. simpl.
  destruct (Z.leb_spec 0 (-1)); [lia|].
  destruct (Z.leb_spec 0 (Z.of_nat (length l' + 1) + -1)); [|lia].
  destruct (Z.ltb_spec (Z.of_nat (length l' + 1) + -1) (Z.of_nat (length l' + 1))); [|lia].
  simpl. replace (Z.to_nat (Z.of_nat (length l' + 1) + -1)) with (length l' + 0)%nat by lia.
  rewrite lookup_app_r by lia. replace (length l' + 0 - length l')%nat with 0%nat by lia.
  done.
Qed.

Lemma pilha_conexa_snoc (l : list (Z * Z)) q p :
  last l = Some q ->
  pilha_conexa (l ++ [p]) = pilha_conexa l && adjacente q p.
Proof.
  induction l as [|a [|b l] IH]; intros Hl; [done| |].
  - injection Hl as ->. simpl. by rewrite !andb_true_r.
  - change ((a :: b :: l) ++ [p])%list with (a :: b :: (l ++ [p]))%list.
    change (pilha_conexa (a :: b :: (l ++ [p])))
      with (adjacente a b && pilha_conexa ((b :: l) ++ [p])).
    change (pilha_conexa (a :: b :: l)) with (adjacente a b && pilha_conexa (b :: l)).
    rewrite IH by done. by rewrite andb_assoc.
Qed.

Lemma desempilhar_snoc l x : desempilhar (l ++ [x]) = Retorna l.
Proof.
  unfold desempilhar. destruct (l ++ [x])%list eqn:E; [by destruct l|].
  rewrite <- E. rewrite length_app. simpl.
  replace (length l + 1 - 1)%nat with (length l) by lia.
  by rewrite take_app_length.
Qed.

Lemma get_posicao_a_frente_delta p d delta :
  direcoes_frente d = Retorna delta ->
  _get_posicao_a_frente p d = Some (mais_delta p delta).
Proof.
  unfold direcoes_frente, _get_posicao_a_frente, mais_delta. destruct p as [i j].
  destruct (d =? 0); [intros [= <-]; simpl; do 2 f_equal; lia|].
  destruct (d =? 1); [intros [= <-]; simpl; do 2 f_equal; lia|].
  destruct (d =? 2); [intros [= <-]; simpl; do 2 f_equal; lia|].
  destruct (d =? 3); [intros [= <-]; simpl; do 2 f_equal; lia|].
  discriminate.
Qed.

Lemma iteracao_fiel lab inicial carga e :
  retangular lab = true ->
  conhecimento_fiel lab inicial carga e -> pilha_fiel inicial e ->
  match iteracao_exploracao e with
  | Retorna (Continua e') =>
      conhecimento_fiel lab inicial carga e' /\ pilha_fiel inicial e'
  | Retorna (Achou e') =>
      conhecimento_fiel lab inicial carga e' /\ pilha_fiel inicial e' /\
      exists alvo,
        celula_alvo (ambiente e') = Retorna alvo /\
        posicao_objeto e' = Some alvo /\
        mapa_conhecido e' !! alvo = Some "@" /\
        leitura_da_celula lab alvo = "HUMANO"
  | Retorna (Interrompe e') =>
      conhecimento_fiel lab inicial carga e' /\ pilha_navegacao e' = []
  | Levanta ex =>
      exists para,
        ex = ValueError (MsgColisao (posicao_agente (ambiente e)) para) /\
        adjacente (posicao_agente (ambiente e)) para = true /\
        leitura_da_celula lab para = "PAREDE"
  | Diverge => False
  end.
Proof.
  intros Hr Hcf [Htopo Hbase Hcon Hpv].
  unfold iteracao_exploracao.
  rewrite (indice_ultimo _ _ Htopo). cbn [ligar].
  destruct (atualizar_fiel lab inicial carga e Hr Hcf) as (e1 & -> & Hcf1 & Ha1 & Hv1 & Hp1).
  cbn [ligar].
  pose proof Hcf1 as [Hlab Hcarga Hor Hpos Hvis Hmapa Hobj].
  assert (Hr1 : retangular (labirinto (ambiente e1)) = true) by (by rewrite Hlab).
  destruct (sensores_retangular _ Hr1 Hor) as (d0 & d1 & d2 & _ & Hfr & ->).
  cbn [ligar]. rewrite !indice_nao_negativo by lia. cbn [lookup list_lookup ligar].
  change ([?a; ?b; ?c] !! Z.to_nat 0) with (Some a).
  change ([?a; ?b; ?c] !! Z.to_nat 1) with (Some b).
  change ([?a; ?b; ?c] !! Z.to_nat 2) with (Some c). cbn [ligar].
  rewrite Hlab. rewrite <- Ha1 in Htopo |- *. clear Ha1.
  set (pos := posicao_agente (ambiente e1)) in *.
  destruct (String.eqb_spec (leitura_da_celula lab (mais_delta pos d1)) "HUMANO") as [Hh|Hnh].
  { rewrite (get_posicao_a_frente_delta _ _ _ Hfr).
    split; [|split].
    - constructor; simpl; try done.
      + intros p s. destruct (decide (p = mais_delta pos d1)) as [->|Hne].
        * rewrite lookup_insert_eq. intros [= <-]. right. by left.
        * rewrite lookup_insert_ne by done. apply Hmapa.
      + by intros p [= <-].
    - constructor; simpl; rewrite ?Hp1; try done.
      intros p Hp. rewrite Hv1. by apply Hpv.
    - exists (mais_delta pos d1). simpl. unfold celula_alvo. rewrite Hfr. cbn [ligar].
      split; [done|]. split; [done|]. split; [|done].
      by rewrite lookup_insert_eq. }
  destruct (proxima_posicao_casos pos e1 Hor) as (frente & _ & -> & Hprox).
  cbn [ligar].
  destruct (head (filter (fun q => a_explorar e1 q = true) (candidatas pos frente)))
    as [proxima|] eqn:Hhead.
  - destruct (Hprox proxima eq_refl) as (Hadj & _ & Hnv & Hnx).
    destruct (mover_para_vizinho proxima e1 Hr1 Hor) as (d & Hd & ->); [done|].
    rewrite Hlab. fold pos.
    destruct (String.eqb_spec (leitura_da_celula lab proxima) "PAREDE") as [Hpar|Hnpar].
    + exists proxima. split; [done|]. split; done.
    + cbn [ligar]. simpl. split.
      * constructor; simpl; try done.
        -- unfold orientacao_valida. simpl. apply andb_true_iff.
           split; [apply Z.leb_le | apply Z.ltb_lt]; lia.
        -- apply elem_of_union. left. by apply elem_of_singleton.
        -- intros p Hp. apply elem_of_union in Hp as [Hp|Hp]; [|by apply Hvis].
           by apply elem_of_singleton in Hp as ->.
      * constructor; simpl; rewrite ?Hp1.
        -- unfold empilhar. by rewrite last_snoc.
        -- unfold empilhar. destruct (pilha_navegacao e); [discriminate|done].
        -- unfold empilhar. rewrite (pilha_conexa_snoc _ pos) by done.
           by rewrite Hcon, Hadj.
        -- intros p Hp. unfold empilhar in Hp. apply elem_of_app in Hp as [Hp|Hp].
           ++ apply elem_of_union. right. rewrite Hv1. by apply Hpv.
           ++ apply list_elem_of_singleton in Hp as ->.
              apply elem_of_union. left. by apply elem_of_singleton.
  - rewrite Hp1. pose proof Htopo as Htopo'. apply last_Some in Htopo' as [resto Hpilha].
    rewrite Hpilha in *. rewrite desempilhar_snoc. cbn [ligar].
    destruct resto as [|r0 resto'] eqn:Hresto.
    + split; [|done]. constructor; simpl; done.
    + rewrite <- Hresto in *.
      assert (Hult : exists topo, last resto = Some topo).
      { destruct (last resto) eqn:E; [eauto|]. apply last_None in E. congruence. }
      destruct Hult as [topo Hult].
      rewrite (indice_ultimo _ _ Hult). cbn [ligar].
      rewrite (pilha_conexa_snoc _ topo) in Hcon by done.
      apply andb_true_iff in Hcon as [Hcon Hadj].
      assert (Htv : topo ∈ posicoes_visitadas e1).
      { rewrite Hv1. apply Hpv. apply elem_of_app. left.
        by apply last_Some_elem_of. }
      destruct (mover_para_vizinho topo (com_pilha e1 resto)) as (d & Hd & ->);
        [done|done|simpl; fold pos; by rewrite adjacente_simetrica|].
      simpl. rewrite Hlab.
      destruct (String.eqb_spec (leitura_da_celula lab topo) "PAREDE") as [Hpar|Hnpar];
        [by apply Hvis in Htv|].
      split.
      * constructor; simpl; try done.
        unfold orientacao_valida. simpl. apply andb_true_iff.
        split; [apply Z.leb_le | apply Z.ltb_lt]; lia.
      * constructor; simpl; try done.
        -- rewrite Hresto in Hbase |- *. done.
        -- intros p Hp. rewrite Hv1. apply Hpv. apply elem_of_app. by left.
Qed.

(** ** The whole run *)

Lemma laco_fiel lab inicial carga n : forall it e,
  retangular lab = true ->
  conhecimento_fiel lab inicial carga e -> pilha_fiel inicial e ->
  match laco_exploracao n it e with
  | Retorna (achou, _, e') =>
      conhecimento_fiel lab inicial carga e' /\
      (if achou then
         pilha_fiel inicial e' /\
         exists alvo,
           celula_alvo (ambiente e') = Retorna alvo /\
           posicao_objeto e' = Some alvo /\
           mapa_conhecido e' !! alvo = Some "@" /\
           leitura_da_celula lab alvo = "HUMANO"
       else pilha_navegacao e' = [] \/ pilha_fiel inicial e')
  | Levanta ex =>
      exists de para,
        ex = ValueError (MsgColisao de para) /\
        adjacente de para = true /\
        leitura_da_celula lab de <> "PAREDE" /\
        leitura_da_celula lab para = "PAREDE"
  | Diverge => False
  end.
Proof.
  induction n as [|n IH]; intros it e Hr Hcf Hpf.
  - simpl. split; [done|]. by right.
  - cbn [laco_exploracao].
    pose proof (iteracao_fiel lab inicial carga e Hr Hcf Hpf) as Hit.
    destruct (iteracao_exploracao e) as [[e'|e'|e']|ex|]; cbn [ligar].
    + destruct Hit as [Hcf' Hpf']. by apply IH.
    + destruct Hit as (Hcf' & Hpf' & Halvo). done.
    + destruct Hit as [Hcf' Hvazia]. split; [done|]. by left.
    + destruct Hit as (para & -> & Hadj & Hpar).
      exists (posicao_agente (ambiente e)), para.
      split; [done|]. split; [done|]. split; [|done].
      apply (cf_visitadas _ _ _ _ Hcf), (cf_posicao _ _ _ _ Hcf).
    + done.
Qed.

Lemma inicio_fiel amb log max_it :
  posicao_valida amb = true -> orientacao_valida amb = true ->
  let e0 := iniciar_exploracao (novo_explorador amb log max_it) in
  conhecimento_fiel (labirinto amb) (posicao_agente amb) (objeto_coletado amb) e0 /\
  pilha_fiel (posicao_agente amb) e0.
Proof.
  intros Hv Ho. cbv zeta. split.
  - constructor; simpl; try done.
    + apply elem_of_union. left. by apply elem_of_singleton.
    + intros p Hp. apply elem_of_union in Hp as [Hp|Hp].
      * apply elem_of_singleton in Hp as ->. by apply posicao_valida_leitura.
      * by apply not_elem_of_empty in Hp.
    + intros p s. destruct (decide (p = posicao_agente amb)) as [->|Hne].
      * rewrite lookup_insert_eq. intros [= <-]. right. right. by right.
      * rewrite lookup_insert_ne by done. by rewrite lookup_empty.
  - constructor; simpl; try done.
    intros p Hp. apply list_elem_of_singleton in Hp as ->.
    apply elem_of_union. left. by apply elem_of_singleton.
Qed.

Lemma exploracao_fiel amb log max_it :
  retangular (labirinto amb) = true ->
  posicao_valida amb = true -> orientacao_valida amb = true ->
  match explorar_ate_encontrar_objeto (novo_explorador amb log max_it) with
  | Retorna (achou, _, e') =>
      conhecimento_fiel (labirinto amb) (posicao_agente amb) (objeto_coletado amb) e' /\
      (if achou then
         pilha_fiel (posicao_agente amb) e' /\
         exists alvo,
           celula_alvo (ambiente e') = Retorna alvo /\
           posicao_objeto e' = Some alvo /\
           mapa_conhecido e' !! alvo = Some "@" /\
           leitura_da_celula (labirinto amb) alvo = "HUMANO"
       else pilha_navegacao e' = [] \/ pilha_fiel (posicao_agente amb) e')
  | Levanta ex =>
      exists de para,
        ex = ValueError (MsgColisao de para) /\
        adjacente de para = true /\
        leitura_da_celula (labirinto amb) de <> "PAREDE" /\
        leitura_da_celula (labirinto amb) para = "PAREDE"
  | Diverge => False
  end.
Proof.
  intros Hr Hv Ho. destruct (inicio_fiel amb log max_it Hv Ho) as [Hcf Hpf].
  unfold explorar_ate_encontrar_objeto. by apply laco_fiel.
Qed.

Lemma leitura_humano lab p :
  leitura_da_celula lab p = "HUMANO" -> celula_eh eh_objeto lab p.
Proof.
  intros Hh.
  destruct (leitura_nao_parede lab p) as (Hl & Hc & linha & ch & Hlin & Hch & Hp & Hcl);
    [by rewrite Hh|].
  split; [done|]. split; [done|]. exists ch.
  split; [apply conteudo_celula_retorna; eauto|].
  rewrite Hh in Hcl. pose proof (classificar_humano ch) as Hx. rewrite <- Hcl in Hx.
  simpl in Hx. symmetry in Hx. by apply andb_true_iff in Hx as [_ ?].
Qed.

(** X12. On a rectangular map, from a state with a valid position and
    orientation, when the exploration reports the object found, the object
    lies in the cell straight ahead of the agent, that cell is the recorded
    position of the object and is marked ["@"] in the known map, and
    [Pickup] then succeeds. The map and the carried flag are as at the
    start. *)
Theorem exploracao_acha_objeto_a_frente (amb : AmbienteNavegacao) (log : bool)
    (max_it it : Z) (e' : ExploradorInteligente) :
  retangular (labirinto amb) = true ->
  posicao_valida amb = true -> orientacao_valida amb = true ->
  explorar_ate_encontrar_objeto (novo_explorador amb log max_it) = Retorna (true, it, e') ->
  labirinto (ambiente e') = labirinto amb /\
  objeto_coletado (ambiente e') = objeto_coletado amb /\
  exists alvo,
    celula_alvo (ambiente e') = Retorna alvo /\
    celula_eh eh_objeto (labirinto amb) alvo /\
    posicao_objeto e' = Some alvo /\
    mapa_conhecido e' !! alvo = Some "@" /\
    exists amb', executar_comando_navegacao "P" (ambiente e') = Retorna amb'.
Proof.
  intros Hr Hv Ho Hexp.
  pose proof (exploracao_fiel amb log max_it Hr Hv Ho) as H. rewrite Hexp in H.
  destruct H as (Hcf & Hpf & alvo & Halvo & Hobj & Hmapa & Hh).
  pose proof Hcf as [Hlab Hcarga Hor _ _ _ _].
  split; [done|]. split; [done|]. exists alvo.
  split; [done|]. split; [by apply leitura_humano|]. split; [done|]. split; [done|].
  change (executar_comando_navegacao "P" (ambiente e')) with (_coletar_objeto (ambiente e')).
  pose proof (coletar_objeto_casos (ambiente e')) as Hc.
  assert (Hr' : retangular (labirinto (ambiente e')) = true) by (by rewrite Hlab).
  destruct (sensores_retangular _ Hr' Hor) as (d0 & d1 & d2 & _ & Hfr & Hs).
  rewrite Hs in Hc. unfold celula_alvo in Halvo. rewrite Hfr in Halvo.
  injection Halvo as Halvo. unfold mais_delta in Hc at 2. rewrite Halvo, Hlab, Hh in Hc.
  simpl in Hc. destruct Hc as (? & ? & ? & ? & _ & _ & _ & _ & _ & _ & _ & Hret). eauto.
Qed.

Lemma exploracao_acha_objeto_a_frente_witness :
  exists alvo,
    celula_alvo (estado_apos "A" ambiente_exemplo) = Retorna alvo /\
    celula_eh eh_objeto ["*E*"; "* *"; "*H*"] alvo /\
    Some (2, 1) = Some alvo /\
    (<[(2, 1) := "@"]> (<[(2, 2) := "X"]> (<[(2, 0) := "X"]>
       (<[(1, 0) := "X"]> (<[(1, 1) := "."]> (<[(1, 2) := "X"]>
          (<[(0, 1) := "E"]> (∅ : gmap (Z * Z) string)))))))) !! alvo = Some "@" /\
    exists amb', executar_comando_navegacao "P" (estado_apos "A" ambiente_exemplo)
                 = Retorna amb'.
Proof.
  refine (proj2 (proj2 (exploracao_acha_objeto_a_frente ambiente_exemplo false 500 2
                          {| ambiente := estado_apos "A" ambiente_exemplo;
                             sistema_log := false;
                             mapa_conhecido := _;
                             posicoes_visitadas := _;
                             pilha_navegacao := _;
                             posicao_objeto := Some (2, 1);
                             max_iteracoes := 500 |}
                          eq_refl eq_refl eq_refl _))).
  vm_compute. reflexivity.
Defined.

(** X13. On a rectangular map, from a state with a valid position and
    orientation, when the exploration returns with a non-empty stack (as it
    does whenever it reports the object found), the stack is a walk from the
    starting position to the position of the agent: consecutive positions
    are 4-neighbours and every position is a visited cell that is not a
    wall. *)
Theorem exploracao_pilha_caminho_de_volta (amb : AmbienteNavegacao) (log : bool)
    (max_it it : Z) (achou : bool) (e' : ExploradorInteligente) :
  retangular (labirinto amb) = true ->
  posicao_valida amb = true -> orientacao_valida amb = true ->
  explorar_ate_encontrar_objeto (novo_explorador amb log max_it)
  = Retorna (achou, it, e') ->
  (achou = true -> pilha_navegacao e' <> []) /\
  (pilha_navegacao e' <> [] ->
   head (pilha_navegacao e') = Some (posicao_agente amb) /\
   last (pilha_navegacao e') = Some (posicao_agente (ambiente e')) /\
   pilha_conexa (pilha_navegacao e') = true /\
   forall p, p ∈ pilha_navegacao e' ->
             p ∈ posicoes_visitadas e' /\
             leitura_da_celula (labirinto amb) p <> "PAREDE").
Proof.
  intros Hr Hv Ho Hexp.
  pose proof (exploracao_fiel amb log max_it Hr Hv Ho) as H. rewrite Hexp in H.
  destruct H as [Hcf Hres].
  assert (Hpf : pilha_navegacao e' <> [] -> pilha_fiel (posicao_agente amb) e').
  { destruct achou; [by destruct Hres|]. by destruct Hres. }
  split.
  - intros ->. destruct Hres as [[Htopo _ _ _] _].
    intros Hvazia. by rewrite Hvazia in Htopo.
  - intros Hne. destruct (Hpf Hne) as [Htopo Hbase Hcon Hpv].
    split; [done|]. split; [done|]. split; [done|].
    intros p Hp. split; [by apply Hpv|].
    by apply (cf_visitadas _ _ _ _ Hcf), Hpv.
Qed.

Lemma exploracao_pilha_caminho_de_volta_witness :
  head [(0, 1); (1, 1)] = Some (0, 1) /\
  last [(0, 1); (1, 1)] = Some (1, 1) /\
  pilha_conexa [(0, 1); (1, 1)] = true /\
  forall p, p ∈ [(0, 1); (1, 1)] ->
            p ∈ ({[(1, 1)]} ∪ ({[(0, 1)]} ∪ ∅) : gset (Z * Z)) /\
            leitura_da_celula ["*E*"; "* *"; "*H*"] p <> "PAREDE".
Proof.
  refine (proj2 (exploracao_pilha_caminho_de_volta ambiente_exemplo false 500 2 true
                   {| ambiente := estado_apos "A" ambiente_exemplo;
                      sistema_log := false;
                      mapa_conhecido := _;
                      posicoes_visitadas := {[(1, 1)]} ∪ ({[(0, 1)]} ∪ ∅);
                      pilha_navegacao := [(0, 1); (1, 1)];
                      posicao_objeto := Some (2, 1);
                      max_iteracoes := 500 |}
                   eq_refl eq_refl eq_refl _) _).
  - vm_compute. reflexivity.
  - discriminate.
Defined.

(** X14. On a rectangular map, from a state with a valid position and
    orientation, whenever the exploration returns, what it has learnt is
    true of the map: every wall entry of the known map is on a cell that
    reads as a wall, every object entry on the object, every empty entry on
    a cell that reads as empty, the only entrance entry on the starting
    position; every visited position, the agent's included, is a cell that
    is not a wall; a recorded object position holds the object. The map,
    the carried flag and the validity of the orientation are untouched. *)
Theorem exploracao_conhecimento_fiel (amb : AmbienteNavegacao) (log : bool)
    (max_it it : Z) (achou : bool) (e' : ExploradorInteligente) :
  retangular (labirinto amb) = true ->
  posicao_valida amb = true -> orientacao_valida amb = true ->
  explorar_ate_encontrar_objeto (novo_explorador amb log max_it)
  = Retorna (achou, it, e') ->
  labirinto (ambiente e') = labirinto amb /\
  objeto_coletado (ambiente e') = objeto_coletado amb /\
  orientacao_valida (ambiente e') = true /\
  posicao_valida (ambiente e') = true /\
  posicao_agente (ambiente e') ∈ posicoes_visitadas e' /\
  (forall p, p ∈ posicoes_visitadas e' ->
             leitura_da_celula (labirinto amb) p <> "PAREDE") /\
  (forall p s, mapa_conhecido e' !! p = Some s ->
               entrada_fiel (labirinto amb) (posicao_agente amb) p s) /\
  (forall p, posicao_objeto e' = Some p -> celula_eh eh_objeto (labirinto amb) p).
Proof.
  intros Hr Hv Ho Hexp.
  pose proof (exploracao_fiel amb log max_it Hr Hv Ho) as H. rewrite Hexp in H.
  destruct H as [[Hlab Hcarga Hor Hpos Hvis Hmapa Hobj] _].
  split; [done|]. split; [done|]. split; [done|].
  split; [apply posicao_valida_leitura; rewrite Hlab; by apply Hvis|].
  split; [done|]. split; [done|]. split; [done|].
  intros p Hp. by apply leitura_humano, Hobj.
Qed.

Lemma exploracao_conhecimento_fiel_witness :
  exists e',
    explorar_ate_encontrar_objeto (novo_explorador ambiente_sem_saida false 500)
    = Retorna (false, 9, e') /\
    labirinto (ambiente e') = ["*E***"; "*   *"; "***H*"] /\
    (forall p, p ∈ posicoes_visitadas e' ->
               leitura_da_celula ["*E***"; "*   *"; "***H*"] p <> "PAREDE") /\
    (forall p s, mapa_conhecido e' !! p = Some s ->
                 entrada_fiel ["*E***"; "*   *"; "***H*"] (0, 1) p s) /\
    (forall p, posicao_objeto e' = Some p ->
               celula_eh eh_objeto ["*E***"; "*   *"; "***H*"] p).
Proof.
  destruct (explorar_ate_encontrar_objeto (novo_explorador ambiente_sem_saida false 500))
    as [[[achou it] e']| |] eqn:Hexp; try (vm_compute in Hexp; discriminate Hexp).
  assert (achou = false /\ it = 9) as [-> ->].
  { vm_compute in Hexp. injection Hexp as <- <- _. done. }
  exists e'. split; [reflexivity|].
  destruct (exploracao_conhecimento_fiel ambiente_sem_saida false 500 9 false e'
              eq_refl eq_refl eq_refl Hexp)
    as (Hlab & _ & _ & _ & _ & Hvis & Hmapa & Hobj).
  split; [exact Hlab|]. split; [exact Hvis|]. split; [exact Hmapa | exact Hobj].
Defined.

(** X15. On a rectangular map, from a state with a valid position and
    orientation, the exploration terminates, and the only exception it can
    raise is the collision error of an [Advance] from a cell that is not a
    wall into a 4-neighbour that is a wall or lies outside the map. *)
Theorem exploracao_so_levanta_colisao (amb : AmbienteNavegacao) (log : bool)
    (max_it : Z) :
  retangular (labirinto amb) = true ->
  posicao_valida amb = true -> orientacao_valida amb = true ->
  explorar_ate_encontrar_objeto (novo_explorador amb log max_it) <> Diverge /\
  forall ex,
    explorar_ate_encontrar_objeto (novo_explorador amb log max_it) = Levanta ex ->
    exists de para,
      ex = ValueError (MsgColisao de para) /\
      adjacente de para = true /\
      leitura_da_celula (labirinto amb) de <> "PAREDE" /\
      leitura_da_celula (labirinto amb) para = "PAREDE".
Proof.
  intros Hr Hv Ho.
  pose proof (exploracao_fiel amb log max_it Hr Hv Ho) as H.
  destruct (explorar_ate_encontrar_objeto (novo_explorador amb log max_it))
    as [[[achou it] e']|ex|]; [|by split; [|intros ? [= <-]]|done].
  split; done.
Qed.

Lemma exploracao_so_levanta_colisao_witness :
  exists de para,
    ValueError (MsgColisao (0, 1) (0, 0)) = ValueError (MsgColisao de para) /\
    adjacente de para = true /\
    leitura_da_celula ["*E*"; "***"; "*H*"] de <> "PAREDE" /\
    leitura_da_celula ["*E*"; "***"; "*H*"] para = "PAREDE".
Proof.
  apply (proj2 (exploracao_so_levanta_colisao
                  {| labirinto := ["*E*"; "***"; "*H*"]; posicao_agente := (0, 1);
                     direcao_agente := 2; objeto_coletado := false |} false 500
                  eq_refl eq_refl eq_refl)).
  vm_compute. reflexivity.
Defined.

(** * Properties of the orchestrator *)

(** ** The normalized grid *)

Lemma maior_largura_limite lab linha :
  linha ∈ lab ->
  (length (caracteres linha)
   <= foldr Nat.max 0%nat (map (fun l => length (caracteres l)) lab))%nat.
Proof.
  induction lab as [|l0 lab IH]; intros Hin; [by apply elem_of_nil in Hin|].
  simpl. apply elem_of_cons in Hin as [->|Hin]; [lia|]. apply IH in Hin. lia.
Qed.

Lemma normalizar_linha_lookup n linha j :
  (j < n)%nat ->
  normalizar_linha n linha !! j
  = Some match caracteres linha !! j with
         | Some c => if eh_parede c then "*" else " "
         | None => "*"
         end.
Proof.
  intros Hj. unfold normalizar_linha. rewrite list_lookup_fmap.
  rewrite lookup_seq_lt by done. done.
Qed.

Lemma normalizar_linha_length n linha : length (normalizar_linha n linha) = n.
Proof. unfold normalizar_linha. by rewrite length_map, length_seq. Qed.

Lemma representacao_retorna lab :
  lab <> [] ->
  _construir_representacao_mapa lab
  = Conclui (map (normalizar_linha
                    (foldr Nat.max 0%nat (map (fun l => length (caracteres l)) lab))) lab).
Proof. intros Hne. unfold _construir_representacao_mapa. by destruct lab. Qed.

Lemma representacao_livre lab rep p :
  _construir_representacao_mapa lab = Conclui rep ->
  livre rep p = true <-> leitura_da_celula lab p <> "PAREDE".
Proof.
  intros Hrep. assert (Hne : lab <> []) by (intros ->; discriminate).
  rewrite representacao_retorna in Hrep by done. injection Hrep as <-.
  set (W := foldr Nat.max 0%nat (map (fun l => length (caracteres l)) lab)).
  assert (Hhd : length (hd [] (map (normalizar_linha W) lab)) = W)
    by (destruct lab; [done|apply normalizar_linha_length]).
  destruct p as [i j]. unfold livre. rewrite andb_true_iff, dentro_do_mapa_limites.
  unfold len. rewrite Hhd, length_map. simpl fst. simpl snd. split.
  - intros [[[Hi0 Hi1] [Hj0 Hj1]] Hcel].
    destruct (celula (map (normalizar_linha W) lab) i j) as [x| |] eqn:Hx; try discriminate.
    apply celula_retorna in Hx as (linha' & Hlin' & Hxj); [|done|done].
    rewrite list_lookup_fmap in Hlin'.
    destruct (lab !! Z.to_nat i) as [linha|] eqn:Hlin; [|discriminate].
    injection Hlin' as <-. rewrite normalizar_linha_lookup in Hxj by lia.
    injection Hxj as <-. unfold leitura_da_celula. simpl.
    rewrite (proj2 (Z.leb_le 0 i)), (proj2 (Z.leb_le 0 j)), Hlin by done. simpl.
    destruct (caracteres linha !! Z.to_nat j) as [c|]; [|discriminate].
    destruct (eh_parede c) eqn:Hp; [discriminate|].
    intros Hcl. pose proof (classificar_parede c) as Hcp. rewrite Hcl, Hp in Hcp.
    discriminate.
  - intros Hl. apply leitura_nao_parede in Hl
      as (Hi & Hj & linha & ch & Hlin & Hch & Hp & _). simpl in *.
    pose proof (lookup_lt_Some _ _ _ Hlin) as Hilt.
    pose proof (lookup_lt_Some _ _ _ Hch) as Hjlt.
    assert (Hw : (length (caracteres linha) <= W)%nat).
    { apply maior_largura_limite. by eapply list_elem_of_lookup_2. }
    split; [lia|].
    assert (Hx : celula (map (normalizar_linha W) lab) i j = Retorna " ").
    { apply celula_retorna; [done|done|]. exists (normalizar_linha W linha).
      rewrite list_lookup_fmap, Hlin. split; [done|].
      rewrite normalizar_linha_lookup by lia. by rewrite Hch, Hp. }
    by rewrite Hx.
Qed.

Lemma representacao_retangular lab rep :
  _construir_representacao_mapa lab = Conclui rep ->
  grade_retangular rep = true /\ length rep = length lab /\
  forall linha, linha ∈ rep ->
    length linha = foldr Nat.max 0%nat (map (fun l => length (caracteres l)) lab) /\
    forall x, x ∈ linha -> x = "*" \/ x = " ".
Proof.
  intros Hrep. assert (Hne : lab <> []) by (intros ->; discriminate).
  rewrite representacao_retorna in Hrep by done. injection Hrep as <-.
  set (W := foldr Nat.max 0%nat (map (fun l => length (caracteres l)) lab)).
  assert (Hlinhas : forall linha, linha ∈ map (normalizar_linha W) lab ->
            length linha = W /\ forall x, x ∈ linha -> x = "*" \/ x = " ").
  { intros linha Hin. apply list_elem_of_fmap in Hin as (l & -> & _).
    split; [apply normalizar_linha_length|].
    intros x Hx. unfold normalizar_linha in Hx.
    apply list_elem_of_fmap in Hx as (j & -> & _).
    destruct (caracteres l !! j) as [c|]; [|by left].
    destruct (eh_parede c); [by left | by right]. }
  split; [|split; [by rewrite length_map | done]].
  unfold grade_retangular. apply forallb_forall. intros linha Hin.
  apply list_elem_of_In in Hin. apply Nat.eqb_eq.
  destruct (Hlinhas linha Hin) as [-> _].
  destruct lab; [done|]. simpl. by rewrite normalizar_linha_length.
Qed.

(** X16. The grid the orchestrator hands to the search: for a map with at
    least one line it is rectangular, with as many lines as the map and the
    width of its longest line, made of wall marks and blanks only, and its
    free cells are exactly the cells of the map that do not read as a wall
    (a missing cell of a short line is a wall). On a map without lines the
    construction raises the error of [max]. *)
Theorem representacao_do_mapa (lab : list string) :
  (lab = [] -> _construir_representacao_mapa lab = Aborta MaxSequenciaVazia) /\
  (lab <> [] ->
   exists rep,
     _construir_representacao_mapa lab = Conclui rep /\
     grade_retangular rep = true /\
     length rep = length lab /\
     (forall linha, linha ∈ rep ->
        (forall l, l ∈ lab -> (length (caracteres l) <= length linha)%nat) /\
        (exists l, l ∈ lab /\ length (caracteres l) = length linha) /\
        forall x, x ∈ linha -> x = "*" \/ x = " ") /\
     forall p, livre rep p = true <-> leitura_da_celula lab p <> "PAREDE").
Proof.
  split; [by intros ->|]. intros Hne.
  pose proof (representacao_retorna lab Hne) as Hrep.
  eexists. split; [exact Hrep|].
  destruct (representacao_retangular _ _ Hrep) as (Hret & Hlen & Hlinhas).
  split; [done|]. split; [done|]. split; [|intros p; by apply representacao_livre].
  intros linha Hin. destruct (Hlinhas linha Hin) as [Hl Hx].
  split; [|split; [|done]].
  - intros l Hl'. rewrite Hl. by apply maior_largura_limite.
  - rewrite Hl. clear -Hne. induction lab as [|l0 [|l1 lab] IH]; [done| |].
    + exists l0. split; [by left|]. simpl. lia.
    + destruct IH as (l & Hl & Heq); [done|].
      change (foldr Nat.max 0%nat (map (fun l => length (caracteres l)) (l0 :: l1 :: lab)))
        with (Nat.max (length (caracteres l0))
                (foldr Nat.max 0%nat (map (fun l => length (caracteres l)) (l1 :: lab)))).
      destruct (Nat.max_spec (length (caracteres l0))
                  (foldr Nat.max 0%nat (map (fun l => length (caracteres l)) (l1 :: lab))))
        as [[_ ->]|[_ ->]].
      * exists l. split; [by right|done].
      * exists l0. split; [by left|done].
Qed.

Lemma representacao_do_mapa_witness :
  exists rep,
    _construir_representacao_mapa mapa_linha_curta = Conclui rep /\
    grade_retangular rep = true /\
    length rep = length mapa_linha_curta /\
    (forall linha, linha ∈ rep ->
       (forall l, l ∈ mapa_linha_curta -> (length (caracteres l) <= length linha)%nat) /\
       (exists l, l ∈ mapa_linha_curta /\ length (caracteres l) = length linha) /\
       forall x, x ∈ linha -> x = "*" \/ x = " ") /\
    forall p, livre rep p = true <-> leitura_da_celula mapa_linha_curta p <> "PAREDE".
Proof.
  apply (proj2 (representacao_do_mapa mapa_linha_curta)). discriminate.
Defined.

(** ** Commands and the normalized grid *)

Lemma objeto_nao_eh_parede ch : eh_objeto ch = true -> eh_parede ch = false.
Proof.
  unfold eh_objeto, eh_parede. intros H. apply orb_true_iff in H as [H|H];
    apply Ascii.eqb_eq in H as ->; reflexivity.
Qed.

Lemma normalizar_linha_apos_coleta W linha nova m ch :
  caracteres linha !! m = Some ch -> eh_objeto ch = true ->
  caracteres nova = <[m := " "%char]> (caracteres linha) ->
  normalizar_linha W nova = normalizar_linha W linha.
Proof.
  intros Hch Hobj Hnova. unfold normalizar_linha. apply map_ext. intros j.
  rewrite Hnova. destruct (decide (j = m)) as [->|Hne].
  - rewrite list_lookup_insert_eq by (by eapply lookup_lt_Some).
    rewrite Hch, (objeto_nao_eh_parede _ Hobj). done.
  - by rewrite list_lookup_insert_ne.
Qed.

Lemma representacao_apos_coleta lab n linha nova m ch :
  lab !! n = Some linha ->
  caracteres linha !! m = Some ch -> eh_objeto ch = true ->
  caracteres nova = <[m := " "%char]> (caracteres linha) ->
  _construir_representacao_mapa (<[n := nova]> lab) = _construir_representacao_mapa lab /\
  retangular (<[n := nova]> lab) = retangular lab.
Proof.
  intros Hlin Hch Hobj Hnova.
  assert (Hlen : length (caracteres nova) = length (caracteres linha))
    by (by rewrite Hnova, length_insert).
  assert (Hlargs : map (fun l => length (caracteres l)) (<[n := nova]> lab)
                   = map (fun l => length (caracteres l)) lab).
  { change (map ?f ?l) with (f <$> l). rewrite list_fmap_insert.
    apply list_insert_id. by rewrite list_lookup_fmap, Hlin, Hlen. }
  split.
  - assert (Hne : lab <> []) by (intros ->; discriminate).
    assert (Hne' : <[n := nova]> lab <> []).
    { intros H. apply (f_equal length) in H. rewrite length_insert in H.
      destruct lab; done. }
    rewrite !representacao_retorna by done. f_equal. rewrite Hlargs.
    change (map ?f ?l) with (f <$> l) at 1 3. rewrite list_fmap_insert.
    apply list_insert_id. rewrite list_lookup_fmap, Hlin. simpl. f_equal.
    symmetry. by eapply normalizar_linha_apos_coleta.
  - unfold retangular. destruct lab as [|primeira resto]; [done|].
    destruct n as [|n].
    + simpl in *. injection Hlin as ->. unfold len. rewrite Hlen.
      rewrite Nat.eqb_refl || rewrite Z.eqb_refl. done.
    + simpl in Hlin. change (<[S n := nova]> (primeira :: resto))
        with (primeira :: <[n := nova]> resto).
      cbn [forallb]. f_equal.
      assert (Hf : map (fun l => len (caracteres l) =? len (caracteres primeira))
                     (<[n := nova]> resto)
                   = map (fun l => len (caracteres l) =? len (caracteres primeira)) resto).
      { change (map ?f ?l) with (f <$> l). rewrite list_fmap_insert.
        apply list_insert_id. rewrite list_lookup_fmap, Hlin. unfold len.
        by rewrite Hlen. }
      clear -Hf. revert Hf. generalize (<[n := nova]> resto) as l1.
      induction resto as [|a resto IH]; intros [|b l1] Hf; try done.
      simpl in *. injection Hf as -> Hf. f_equal. by apply IH.
Qed.

Lemma comando_preserva_grade comando amb :
  _construir_representacao_mapa (labirinto (estado_apos comando amb))
  = _construir_representacao_mapa (labirinto amb) /\
  retangular (labirinto (estado_apos comando amb)) = retangular (labirinto amb) /\
  length (labirinto (estado_apos comando amb)) = length (labirinto amb).
Proof.
  unfold estado_apos, executar_comando_navegacao.
  destruct (String.eqb comando "A").
  { unfold _avancar_agente.
    destruct (indice direcoes_movimento (direcao_agente amb)); [|done|done]. cbn [ligar].
    destruct (dentro_dos_limites _ _ _) as [[]| |]; try done. cbn [ligar].
    destruct (conteudo_celula _ _ _); try done. cbn [ligar].
    by destruct (negb (eh_parede a0)). }
  destruct (String.eqb comando "G"); [done|].
  destruct (String.eqb comando "P").
  { pose proof (coletar_objeto_casos amb) as Hc.
    destruct (obter_leituras_sensores_proximidade amb) as [leituras|e|];
      [|by rewrite Hc|done].
    destruct (frente_eh_humano leituras); [|by rewrite Hc].
    destruct Hc as (delta & linha & ch & nova & _ & _ & _ & Hlin & Hch & Hobj & Hnova & ->).
    simpl. destruct (representacao_apos_coleta _ _ _ _ _ _ Hlin Hch Hobj Hnova) as [-> ->].
    by rewrite length_insert. }
  destruct (String.eqb comando "E"); [|done].
  unfold _ejetar_objeto. destruct (negb (objeto_coletado amb)); [done|].
  destruct (_verificar_posicao_saida amb) as [[]| |]; done.
Qed.

(** X17. No command ever changes the grid the orchestrator computed for the
    search when it was built: after any command, succeeding or not, the map
    normalizes to the same grid (the cell a [Pickup] empties being free both
    before and after), has the same number of lines, and is rectangular
    exactly if it was. *)
Theorem comandos_preservam_a_representacao (comando : string) (amb : AmbienteNavegacao) :
  _construir_representacao_mapa (labirinto (estado_apos comando amb))
  = _construir_representacao_mapa (labirinto amb) /\
  retangular (labirinto (estado_apos comando amb)) = retangular (labirinto amb) /\
  length (labirinto (estado_apos comando amb)) = length (labirinto amb).
Proof. apply comando_preserva_grade. Qed.

(** ** Locating the exit and the object *)

Lemma entrada_em_celula lab i linha j :
  lab !! i = Some linha -> entrada_em (caracteres linha) j = true ->
  celula_eh eh_entrada lab (Z.of_nat i, Z.of_nat j).
Proof.
  intros Hlin He. unfold entrada_em in He.
  destruct (caracteres linha !! j) as [c|] eqn:Hc; [|discriminate].
  split; [simpl; lia|]. split; [simpl; lia|]. exists c. split; [|done].
  apply conteudo_celula_retorna; simpl; [lia|lia|]. exists linha.
  by rewrite !Nat2Z.id.
Qed.

Lemma entrada_no_fim_em cs :
  entrada_no_fim cs = entrada_em cs (length cs - 1).
Proof.
  unfold entrada_no_fim, entrada_em. rewrite last_lookup.
  by replace (pred (length cs)) with (length cs - 1)%nat by lia.
Qed.

Lemma saida_lateral_some lab : forall i0 q,
  0 <= i0 -> saida_lateral i0 lab = Some q ->
  exists n linha,
    lab !! n = Some linha /\ fst q = i0 + Z.of_nat n /\ 0 <= snd q /\
    entrada_em (caracteres linha) (Z.to_nat (snd q)) = true /\
    (snd q = 0 \/ snd q = len (caracteres linha) - 1).
Proof.
  induction lab as [|linha resto IH]; intros i0 q Hi0 H; [discriminate|].
  cbn [saida_lateral] in H.
  destruct (entrada_em (caracteres linha) 0) eqn:H0.
  { injection H as <-. exists 0%nat, linha. simpl.
    split; [done|]. split; [lia|]. split; [lia|]. split; [done|]. by left. }
  destruct (entrada_no_fim (caracteres linha)) eqn:Hf.
  { injection H as <-. exists 0%nat, linha. simpl.
    rewrite entrada_no_fim_em in Hf.
    assert (Hpos : (0 < length (caracteres linha))%nat).
    { unfold entrada_em in Hf. destruct (caracteres linha); [discriminate|simpl; lia]. }
    split; [done|]. split; [lia|]. unfold len. split; [lia|].
    split; [|by right].
    by replace (Z.to_nat (Z.of_nat (length (caracteres linha)) - 1))
      with (length (caracteres linha) - 1)%nat by lia. }
  apply IH in H as (n & l & Hl & Hq & Hs & He & Hm); [|lia].
  exists (S n), l. split; [done|]. split; [lia|]. done.
Qed.

Lemma saida_lateral_none lab : forall i0,
  saida_lateral i0 lab = None ->
  forall n linha, lab !! n = Some linha ->
    entrada_em (caracteres linha) 0 = false /\
    entrada_em (caracteres linha) (length (caracteres linha) - 1) = false.
Proof.
  induction lab as [|l0 resto IH]; intros i0 H n linha Hlin; [done|].
  cbn [saida_lateral] in H.
  destruct (entrada_em (caracteres l0) 0) eqn:H0; [discriminate|].
  destruct (entrada_no_fim (caracteres l0)) eqn:Hf; [discriminate|].
  destruct n as [|n].
  - injection Hlin as <-. by rewrite <- entrada_no_fim_em.
  - by apply (IH (i0 + 1) H n).
Qed.

Lemma saida_extremos_some primeira ultima numero_linhas js q :
  saida_extremos primeira ultima numero_linhas js = Some q ->
  exists j, j ∈ js /\ snd q = Z.of_nat j /\
    ((fst q = 0 /\ entrada_em primeira j = true) \/
     (fst q = numero_linhas - 1 /\ entrada_em ultima j = true)).
Proof.
  induction js as [|j js IH]; intros H; [discriminate|].
  cbn [saida_extremos] in H.
  destruct (entrada_em primeira j) eqn:Hp.
  { injection H as <-. exists j. split; [by left|]. split; [done|]. by left. }
  destruct (entrada_em ultima j) eqn:Hu.
  { injection H as <-. exists j. split; [by left|]. split; [done|]. by right. }
  destruct (IH H) as (j' & Hin & Hq). exists j'. split; [by right|done].
Qed.

Lemma saida_extremos_none primeira ultima numero_linhas js :
  saida_extremos primeira ultima numero_linhas js = None ->
  forall j, j ∈ js -> entrada_em primeira j = false /\ entrada_em ultima j = false.
Proof.
  induction js as [|j0 js IH]; intros H j Hin; [by apply elem_of_nil in Hin|].
  cbn [saida_extremos] in H.
  destruct (entrada_em primeira j0) eqn:Hp; [discriminate|].
  destruct (entrada_em ultima j0) eqn:Hu; [discriminate|].
  apply elem_of_cons in Hin as [->|Hin]; [done|]. by apply IH.
Qed.

Lemma celula_eh_entrada_em lab q :
  celula_eh eh_entrada lab q ->
  exists linha, lab !! Z.to_nat (fst q) = Some linha /\
                entrada_em (caracteres linha) (Z.to_nat (snd q)) = true.
Proof.
  intros (Hl & Hc & ch & Hcont & He).
  apply conteudo_celula_retorna in Hcont as (linha & Hlin & Hch); [|done|done].
  exists linha. split; [done|]. unfold entrada_em. by rewrite Hch.
Qed.

Lemma primeira_e_ultima (lab : list string) :
  lab <> [] ->
  lab !! 0%nat = Some (hd "" lab) /\
  lab !! (length lab - 1)%nat = Some (default "" (last lab)).
Proof.
  intros Hne. split; [by destruct lab|].
  rewrite last_lookup. replace (pred (length lab)) with (length lab - 1)%nat by lia.
  destruct (lab !! (length lab - 1)%nat) eqn:E; [done|].
  apply lookup_ge_None in E. destruct lab; [done|simpl in E; lia].
Qed.

Lemma localizar_saida_casos lab :
  lab <> [] ->
  match _localizar_saida lab with
  | Conclui (Some q) => celula_eh eh_entrada lab q /\ na_margem lab q
  | Conclui None => forall q, celula_eh eh_entrada lab q -> ~ na_margem lab q
  | _ => False
  end.
Proof.
  intros Hne. unfold _localizar_saida.
  assert (Hmax : maior_largura lab
                 = Conclui (foldr Nat.max 0%nat (map (fun l => length (caracteres l)) lab)))
    by (by destruct lab).
  rewrite Hmax. cbn [ligar_desfecho].
  set (W := foldr Nat.max 0%nat (map (fun l => length (caracteres l)) lab)).
  destruct (primeira_e_ultima lab Hne) as [Hprim Hult].
  destruct (saida_lateral 0 lab) as [q|] eqn:Hlat.
  { apply saida_lateral_some in Hlat as (n & linha & Hlin & Hq & Hs & He & Hm); [|lia].
    destruct q as [a b]. simpl in *. assert (a = Z.of_nat n) as -> by lia.
    split.
    - replace b with (Z.of_nat (Z.to_nat b)) by lia. by eapply entrada_em_celula.
    - unfold na_margem. simpl. destruct Hm as [->| ->]; [by left|].
      right. left. exists linha. by rewrite Nat2Z.id. }
  pose proof (saida_lateral_none _ _ Hlat) as Hnlat.
  destruct (saida_extremos _ _ _ _) as [q|] eqn:Hext.
  { apply saida_extremos_some in Hext as (j & Hj & Hq & Hcasos).
    destruct q as [a b]. simpl in *. subst b.
    destruct Hcasos as [[-> He]|[-> He]].
    - split; [by apply (entrada_em_celula lab 0 _ j Hprim)|].
      unfold na_margem. simpl. auto.
    - split.
      + replace (len lab - 1) with (Z.of_nat (length lab - 1)).
        * by apply (entrada_em_celula lab _ _ j Hult).
        * unfold len. destruct lab; [done|simpl; lia].
      + unfold na_margem. simpl. auto. }
  pose proof (saida_extremos_none _ _ _ _ Hext) as Hnext.
  intros q Hq Hm.
  destruct (celula_eh_entrada_em _ _ Hq) as (linha & Hlin & He).
  destruct Hq as (Hl & Hc & _).
  assert (Hjw : (Z.to_nat (snd q) < W)%nat).
  { assert (Hw : (length (caracteres linha) <= W)%nat)
      by (apply maior_largura_limite; by eapply list_elem_of_lookup_2).
    unfold entrada_em in He.
    destruct (caracteres linha !! Z.to_nat (snd q)) eqn:E; [|discriminate].
    apply lookup_lt_Some in E. lia. }
  destruct Hm as [H0|[(linha' & Hlin' & Hfim)|[H0|Hn]]].
  - destruct (Hnlat _ _ Hlin) as [Hx _]. rewrite H0 in He.
    change (Z.to_nat 0) with 0%nat in He. congruence.
  - assert (linha' = linha) as -> by congruence.
    destruct (Hnlat _ _ Hlin) as [_ Hx].
    replace (Z.to_nat (snd q)) with (length (caracteres linha) - 1)%nat in He
      by (unfold len in Hfim; lia).
    congruence.
  - rewrite H0 in Hlin. change (Z.to_nat 0) with 0%nat in Hlin.
    rewrite Hprim in Hlin. injection Hlin as <-.
    destruct (Hnext (Z.to_nat (snd q))) as [Hx _]; [|congruence].
    apply elem_of_seq. lia.
  - replace (Z.to_nat (fst q)) with (length lab - 1)%nat in Hlin
      by (unfold len in Hn; lia).
    rewrite Hult in Hlin. injection Hlin as <-.
    destruct (Hnext (Z.to_nat (snd q))) as [_ Hx]; [|congruence].
    apply elem_of_seq. lia.
Qed.

(** X18. [_localizar_saida] raises the error of [max] on a map without
    lines. Otherwise, when it returns a position, the cell there holds the
    entrance mark and lies on the margin of the map (first or last character
    of its line, or first or last line); when it returns [None], no
    entrance mark of the map lies on the margin. *)
Theorem localizar_saida_na_margem (lab : list string) :
  (lab = [] -> _localizar_saida lab = Aborta MaxSequenciaVazia) /\
  (lab <> [] ->
   (exists q, _localizar_saida lab = Conclui (Some q) /\
              celula_eh eh_entrada lab q /\ na_margem lab q) \/
   (_localizar_saida lab = Conclui None /\
    forall q, celula_eh eh_entrada lab q -> ~ na_margem lab q)).
Proof.
  split; [by intros ->|]. intros Hne.
  pose proof (localizar_saida_casos lab Hne) as H.
  destruct (_localizar_saida lab) as [[q|]| |]; [|by right|done|done].
  left. by exists q.
Qed.

Lemma localizar_saida_na_margem_witness :
  (exists q, _localizar_saida ["*E*"; "* *"; "*H*"] = Conclui (Some q) /\
             celula_eh eh_entrada ["*E*"; "* *"; "*H*"] q /\
             na_margem ["*E*"; "* *"; "*H*"] q) \/
  (_localizar_saida ["*E*"; "* *"; "*H*"] = Conclui None /\
   forall q, celula_eh eh_entrada ["*E*"; "* *"; "*H*"] q ->
             ~ na_margem ["*E*"; "* *"; "*H*"] q).
Proof.
  apply (proj2 (localizar_saida_na_margem ["*E*"; "* *"; "*H*"])). discriminate.
Defined.

Lemma primeiro_na_linha_head alvo i cs : forall j,
  primeiro_na_linha alvo i j cs = head (colunas_com alvo i j cs).
Proof.
  induction cs as [|c cs IH]; intros j; [done|]. simpl.
  destruct (alvo c); [done|]. apply IH.
Qed.

Lemma primeiro_no_mapa_head alvo lab : forall i,
  primeiro_no_mapa alvo i lab = head (celulas_com alvo i lab).
Proof.
  induction lab as [|linha resto IH]; intros i; [done|]. simpl.
  rewrite primeiro_na_linha_head.
  destruct (colunas_com alvo i 0 (caracteres linha)) as [|p ps]; [apply IH|done].
Qed.

Lemma coletar_um_objeto_a_menos amb amb' :
  _coletar_objeto amb = Retorna amb' ->
  contar eh_objeto (labirinto amb') = contar eh_objeto (labirinto amb) - 1.
Proof.
  intros H. pose proof (coletar_objeto_casos amb) as Hc.
  destruct (obter_leituras_sensores_proximidade amb) as [leituras|e|]; [|congruence|done].
  destruct (frente_eh_humano leituras); [|congruence].
  destruct Hc as (delta & linha & ch & nova & Hdelta & Hlo & Hco & Hlin & Hch & Hobj
                  & Hnova & Hret).
  rewrite Hret in H. injection H as <-. simpl.
  set (lo := fst (posicao_agente amb) + fst delta) in *.
  set (co := snd (posicao_agente amb) + snd delta) in *.
  assert (Heh : celula_eh eh_objeto (labirinto amb) (lo, co)).
  { split; [done|]. split; [done|]. exists ch. split; [|done].
    apply conteudo_celula_retorna; eauto. }
  pose proof (lookup_lt_Some _ _ _ Hlin) as Hlo_lt.
  pose proof (lookup_lt_Some _ _ _ Hch) as Hco_lt.
  assert (Hcel : forall l c, 0 <= l -> 0 <= c ->
            conteudo_celula (<[Z.to_nat lo := nova]> (labirinto amb)) l c
            = if bool_decide ((l, c) = (lo, co)) then Retorna " "%char
              else conteudo_celula (labirinto amb) l c).
  { intros l c Hl Hc. rewrite !conteudo_celula_nao_negativo by done.
    destruct (decide (Z.to_nat l = Z.to_nat lo)) as [Heq|Hne].
    - rewrite Heq, list_lookup_insert_eq by done. rewrite Hlin, Hnova.
      destruct (decide (Z.to_nat c = Z.to_nat co)) as [Heqc|Hnec].
      + rewrite Heqc, list_lookup_insert_eq by done.
        rewrite bool_decide_eq_true_2; [done|]. f_equal; lia.
      + rewrite list_lookup_insert_ne by done.
        rewrite bool_decide_eq_false_2; [done|]. intros [= ? ?]. lia.
    - rewrite list_lookup_insert_ne by done.
      rewrite bool_decide_eq_false_2; [done|]. intros [= ? ?]. lia. }
  unfold contar. apply (comprimento_sem_um_dec _ _ (lo, co));
    [apply celulas_com_nodup | apply celulas_com_nodup
     | by apply celulas_com_celula_eh |].
  intros [l c]. rewrite !celulas_com_celula_eh. unfold celula_eh. simpl. split.
  - intros (Hl & Hc & x & Hx & Hax). rewrite Hcel in Hx by done.
    destruct (bool_decide_reflect ((l, c) = (lo, co))) as [Heq|Hne].
    + injection Hx as <-. discriminate Hax.
    + split; [|done]. eauto 10.
  - intros [(Hl & Hc & x & Hx & Hax) Hne].
    split; [done|]. split; [done|]. exists x.
    rewrite Hcel by done. by rewrite bool_decide_eq_false_2.
Qed.

(** X19. [_localizar_objeto_no_mapa] returns an object cell of the map,
    the first in reading order, and [None] exactly when the map holds no
    object cell: in a freshly built grid world it returns the position of
    the only object, and after a successful [Pickup] on a map with one
    object it returns [None]. *)
Theorem localizar_objeto_no_mapa_primeiro (lab : list string) :
  _localizar_objeto_no_mapa lab = head (celulas_com eh_objeto 0 lab) /\
  (forall p, _localizar_objeto_no_mapa lab = Some p -> celula_eh eh_objeto lab p) /\
  (_localizar_objeto_no_mapa lab = None <-> forall p, ~ celula_eh eh_objeto lab p) /\
  (forall amb p,
     novo_ambiente lab = Retorna amb -> celula_eh eh_objeto lab p ->
     _localizar_objeto_no_mapa (labirinto amb) = Some p) /\
  (forall amb amb',
     labirinto amb = lab -> contar eh_objeto lab = 1 ->
     executar_comando_navegacao "P" amb = Retorna amb' ->
     _localizar_objeto_no_mapa (labirinto amb') = None).
Proof.
  assert (Hhead : forall l, _localizar_objeto_no_mapa l = head (celulas_com eh_objeto 0 l))
    by (intros l; apply primeiro_no_mapa_head).
  split; [done|]. split; [|split; [|split]].
  - intros p Hp. rewrite Hhead in Hp. apply head_Some_elem_of in Hp.
    by apply celulas_com_celula_eh.
  - rewrite Hhead. split.
    + intros Hn p Hp. apply celulas_com_celula_eh in Hp.
      destruct (celulas_com eh_objeto 0 lab); [by apply elem_of_nil in Hp|discriminate].
    + intros Hn. destruct (celulas_com eh_objeto 0 lab) as [|p ps] eqn:E; [done|].
      exfalso. apply (Hn p), celulas_com_celula_eh. rewrite E. by left.
  - intros amb p Hnovo Hp.
    destruct (novo_ambiente_campos _ _ Hnovo) as (_ & Hum & Hlab & _).
    rewrite Hlab, Hhead. unfold contar, len in Hum.
    apply celulas_com_celula_eh in Hp.
    destruct (celulas_com eh_objeto 0 lab) as [|o [|? ?]]; simpl in Hum; try lia.
    apply list_elem_of_singleton in Hp as ->. done.
  - intros amb amb' Hlab Hum Hcol.
    change (executar_comando_navegacao "P" amb) with (_coletar_objeto amb) in Hcol.
    apply coletar_um_objeto_a_menos in Hcol. rewrite Hlab, Hum in Hcol.
    rewrite Hhead. unfold contar, len in Hcol.
    destruct (celulas_com eh_objeto 0 (labirinto amb')); [done|simpl in Hcol; lia].
Qed.

Lemma localizar_objeto_no_mapa_primeiro_witness :
  _localizar_objeto_no_mapa (labirinto ambiente_exemplo) = Some (2, 1) /\
  _localizar_objeto_no_mapa (labirinto ambiente_com_carga) = None.
Proof.
  destruct (localizar_objeto_no_mapa_primeiro ["*E*"; "* *"; "*H*"])
    as (_ & _ & _ & Hnovo & Hcol).
  split.
  - apply (Hnovo ambiente_exemplo (2, 1)); [reflexivity|].
    split; [simpl; lia|]. split; [simpl; lia|]. exists "H"%char. split; reflexivity.
  - apply (Hcol (estado_apos "A" ambiente_exemplo) ambiente_com_carga);
      reflexivity.
Defined.

(** ** Navigation along a path *)

Lemma ambiente_eta amb : com_direcao amb (direcao_agente amb) = amb.
Proof. by destruct amb. Qed.

Lemma ajustar_orientacao_valida combustivel : forall alvo amb,
  orientacao_valida amb = true -> 0 <= alvo < 4 ->
  (giros_ate (direcao_agente amb) alvo <= combustivel)%nat ->
  _ajustar_orientacao_agente combustivel alvo amb = Retorna (com_direcao amb alvo).
Proof.
  induction combustivel as [|n IH]; intros alvo amb Ho Ha Hg;
    cbn [_ajustar_orientacao_agente];
    destruct (Z.eqb_spec (direcao_agente amb) alvo) as [<-|Hne];
    try (by rewrite ambiente_eta);
    pose proof Ho as Ho'; unfold orientacao_valida in Ho';
    apply andb_true_iff in Ho' as [H0 H4]; apply Z.leb_le in H0; apply Z.ltb_lt in H4;
    rewrite (giros_ate_proximo _ alvo) in Hg by lia; [lia|].
  change (executar_comando_navegacao "G" amb) with (_girar_agente amb).
  unfold _girar_agente. cbn [ligar].
  pose proof (Z.mod_pos_bound (direcao_agente amb + 1) 4 ltac:(lia)) as Hb.
  rewrite IH; [done| |done|simpl; lia].
  unfold orientacao_valida. simpl. apply andb_true_iff.
  split; [apply Z.leb_le | apply Z.ltb_lt]; lia.
Qed.

Lemma navegar_para_vizinho destino amb :
  retangular (labirinto amb) = true ->
  orientacao_valida amb = true ->
  adjacente (posicao_agente amb) destino = true ->
  exists d,
    0 <= d < 4 /\
    _navegar_para_posicao destino amb
    = if String.eqb (leitura_da_celula (labirinto amb) destino) "PAREDE"
      then (com_direcao amb d,
            Levanta (ValueError (MsgColisao (posicao_agente amb) destino)))
      else ({| labirinto := labirinto amb; posicao_agente := destino;
               direcao_agente := d; objeto_coletado := objeto_coletado amb |},
            Retorna tt).
Proof.
  intros Hr Ho Hadj. unfold _navegar_para_posicao. cbv zeta.
  unfold adjacente in Hadj. apply Z.eqb_eq in Hadj.
  destruct destino as [a b]. destruct (posicao_agente amb) as [l c] eqn:Hpos.
  simpl in Hadj. simpl fst. simpl snd.
  assert (Hcasos : (a - l = 1 /\ b = c) \/ (a - l = -1 /\ b = c) \/
                   (a = l /\ b - c = 1) \/ (a = l /\ b - c = -1)) by lia.
  assert (Hgeral : forall d delta,
            0 <= d < 4 -> direcoes_frente d = Retorna delta ->
            (a, b) = (l + fst delta, c + snd delta) ->
            match _ajustar_orientacao_agente 4 d amb with
            | Retorna amb1 =>
                match executar_comando_navegacao "A" amb1 with
                | Retorna amb2 => (amb2, exibir_estado_ambiente amb2)
                | Levanta ex => (amb1, Levanta ex)
                | Diverge => (amb1, Diverge)
                end
            | Levanta ex => (amb, Levanta ex)
            | Diverge => (amb, Diverge)
            end
            = if String.eqb (leitura_da_celula (labirinto amb) (a, b)) "PAREDE"
              then (com_direcao amb d, Levanta (ValueError (MsgColisao (l, c) (a, b))))
              else ({| labirinto := labirinto amb; posicao_agente := (a, b);
                       direcao_agente := d; objeto_coletado := objeto_coletado amb |},
                    Retorna tt)).
  { intros d delta Hd Hdelta Hab.
    rewrite (ajustar_orientacao_valida 4 d amb Ho Hd)
      by (pose proof (giros_ate_limite (direcao_agente amb) d); lia).
    change (executar_comando_navegacao "A" ?x) with (_avancar_agente x).
    rewrite (avancar_retangular _ delta); [|done|done]. cbv zeta.
    simpl labirinto. simpl posicao_agente. rewrite Hpos. unfold mais_delta.
    simpl fst. simpl snd. rewrite <- Hab.
    destruct (String.eqb (leitura_da_celula (labirinto amb) (a, b)) "PAREDE")
      eqn:Hpar; [done|].
    assert (Hv : posicao_valida (com_posicao (com_direcao amb d) (a, b)) = true).
    { apply posicao_valida_leitura. simpl. intros Hx. rewrite Hx in Hpar. discriminate. }
    assert (Ho2 : orientacao_valida (com_posicao (com_direcao amb d) (a, b)) = true).
    { unfold orientacao_valida. simpl. apply andb_true_iff.
      split; [apply Z.leb_le | apply Z.ltb_lt]; lia. }
    by rewrite exibir_estado_valido. }
  destruct Hcasos as [[H1 H2]|[[H1 H2]|[[H1 H2]|[H1 H2]]]].
  - exists 2. split; [lia|]. rewrite H1. simpl.
    apply (Hgeral 2 (1, 0)); [lia|done|]. simpl. f_equal; lia.
  - exists 0. split; [lia|]. rewrite H1. simpl.
    apply (Hgeral 0 (-1, 0)); [lia|done|]. simpl. f_equal; lia.
  - exists 1. split; [lia|].
    replace (a - l) with 0 by lia. rewrite H2. simpl.
    apply (Hgeral 1 (0, 1)); [lia|done|]. simpl. f_equal; lia.
  - exists 3. split; [lia|].
    replace (a - l) with 0 by lia. rewrite H2. simpl.
    apply (Hgeral 3 (0, -1)); [lia|done|]. simpl. f_equal; lia.
Qed.

Lemma seguir_posicoes_caminho lab carga : forall posicoes amb,
  labirinto amb = lab -> objeto_coletado amb = carga ->
  retangular lab = true -> orientacao_valida amb = true ->
  pilha_conexa (posicao_agente amb :: posicoes) = true ->
  (forall p, p ∈ posicoes -> leitura_da_celula lab p <> "PAREDE") ->
  exists amb',
    seguir_posicoes posicoes amb = (amb', Retorna tt) /\
    last (posicao_agente amb :: posicoes) = Some (posicao_agente amb') /\
    labirinto amb' = lab /\ objeto_coletado amb' = carga /\
    orientacao_valida amb' = true.
Proof.
  induction posicoes as [|p resto IH]; intros amb Hlab Hcarga Hr Ho Hcon Hliv.
  - exists amb. done.
  - cbn [seguir_posicoes]. cbn [pilha_conexa] in Hcon.
    apply andb_true_iff in Hcon as [Hadj Hcon].
    destruct (navegar_para_vizinho p amb) as (d & Hd & ->); [by rewrite Hlab|done|done|].
    rewrite Hlab.
    destruct (String.eqb_spec (leitura_da_celula lab p) "PAREDE") as [Hpar|_].
    { exfalso. apply (Hliv p); [by left|done]. }
    destruct (IH {| labirinto := lab; posicao_agente := p; direcao_agente := d;
                    objeto_coletado := objeto_coletado amb |})
      as (amb' & Hs & Hult & Hlab' & Hcarga' & Ho'); try done.
    + unfold orientacao_valida. cbn [direcao_agente]. apply andb_true_iff.
      split; [apply Z.leb_le | apply Z.ltb_lt]; lia.
    + intros q Hq. apply Hliv. by right.
    + exists amb'. rewrite Hs. split; [done|]. split; [|done].
      exact Hult.
Qed.

Lemma caminho_valido_pilha rep lab (caminho : list (Z * Z)) :
  (forall p, livre rep p = true <-> leitura_da_celula lab p <> "PAREDE") ->
  caminho_valido rep caminho = true ->
  pilha_conexa caminho = true /\
  forall p, p ∈ caminho -> leitura_da_celula lab p <> "PAREDE".
Proof.
  intros Hliv. induction caminho as [|p [|q resto] IH]; intros Hv; [done| |].
  - simpl in Hv. rewrite andb_true_r in Hv. split; [done|].
    intros x Hx. apply list_elem_of_singleton in Hx as ->. by apply Hliv.
  - rewrite caminho_valido_cons in Hv. apply andb_true_iff in Hv as [Hv Hresto].
    apply andb_true_iff in Hv as [Hp Hadj].
    destruct (IH Hresto) as [Hcon Hcel]. split.
    + cbn [pilha_conexa]. by rewrite Hadj.
    + intros x Hx. apply elem_of_cons in Hx as [->|Hx]; [by apply Hliv|by apply Hcel].
Qed.

Lemma ajustar_orientacao_nao_diverge alvo amb :
  0 <= alvo < 4 -> _ajustar_orientacao_agente 4 alvo amb <> Diverge /\
  forall ex, _ajustar_orientacao_agente 4 alvo amb <> Levanta ex.
Proof.
  intros Ha.
  change (_ajustar_orientacao_agente 4 alvo amb)
    with (if direcao_agente amb =? alvo then Retorna amb
          else faz amb' <- executar_comando_navegacao "G" amb em
               _ajustar_orientacao_agente 3 alvo amb').
  destruct (direcao_agente amb =? alvo); [done|].
  change (executar_comando_navegacao "G" amb) with (_girar_agente amb).
  unfold _girar_agente. cbn [ligar].
  pose proof (Z.mod_pos_bound (direcao_agente amb + 1) 4 ltac:(lia)) as Hb.
  rewrite ajustar_orientacao_valida; [done| |done|].
  - unfold orientacao_valida. simpl. apply andb_true_iff.
    split; [apply Z.leb_le | apply Z.ltb_lt]; lia.
  - apply giros_ate_limite.
Qed.

Lemma seguir_posicoes_nao_levanta posicoes : forall amb,
  snd (seguir_posicoes posicoes amb) = Retorna tt.
Proof.
  induction posicoes as [|p resto IH]; intros amb; [done|].
  cbn [seguir_posicoes]. unfold _navegar_para_posicao. cbv zeta.
  set (dl := fst p - fst (posicao_agente amb)).
  set (dc := snd p - snd (posicao_agente amb)).
  assert (Hgeral : forall d, 0 <= d < 4 ->
            snd (match
                   match _ajustar_orientacao_agente 4 d amb with
                   | Retorna amb1 =>
                       match executar_comando_navegacao "A" amb1 with
                       | Retorna amb2 => (amb2, exibir_estado_ambiente amb2)
                       | Levanta ex => (amb1, Levanta ex)
                       | Diverge => (amb1, Diverge)
                       end
                   | Levanta ex => (amb, Levanta ex)
                   | Diverge => (amb, Diverge)
                   end
                 with
                 | (amb', Diverge) => (amb', Diverge)
                 | (amb', _) => seguir_posicoes resto amb'
                 end) = Retorna tt).
  { intros d Hd. destruct (ajustar_orientacao_nao_diverge d amb Hd) as [Hnd Hnl].
    destruct (_ajustar_orientacao_agente 4 d amb) as [amb1|ex|]; [|by destruct (Hnl ex)|done].
    pose proof (executar_comando_nao_diverge "A" amb1) as HA.
    destruct (executar_comando_navegacao "A" amb1) as [amb2|ex|]; [|apply IH|done].
    pose proof (exibir_nao_diverge amb2) as HE.
    destruct (exibir_estado_ambiente amb2); [apply IH|apply IH|done]. }
  destruct (dl =? 1); [apply Hgeral; lia|].
  destruct (dl =? -1); [apply Hgeral; lia|].
  destruct (dc =? 1); [apply Hgeral; lia|].
  destruct (dc =? -1); [apply Hgeral; lia|].
  apply IH.
Qed.

Lemma sequencia_nao_levanta caminho amb :
  snd (_executar_sequencia_navegacao caminho amb) = Retorna tt.
Proof.
  unfold _executar_sequencia_navegacao. destruct caminho as [|p resto]; [done|].
  apply seguir_posicoes_nao_levanta.
Qed.

Lemma sequencia_segue_caminho amb rep destino caminho :
  retangular (labirinto amb) = true ->
  orientacao_valida amb = true ->
  _construir_representacao_mapa (labirinto amb) = Conclui rep ->
  liga rep (posicao_agente amb) destino caminho ->
  exists amb',
    _executar_sequencia_navegacao caminho amb = (amb', Retorna tt) /\
    posicao_agente amb' = destino /\
    labirinto amb' = labirinto amb /\
    objeto_coletado amb' = objeto_coletado amb /\
    orientacao_valida amb' = true.
Proof.
  intros Hr Ho Hrep (Hv & Hh & Hl).
  destruct caminho as [|p resto]; [discriminate|]. injection Hh as ->.
  destruct (caminho_valido_pilha rep (labirinto amb) _ (fun p => representacao_livre _ _ p Hrep) Hv)
    as [Hcon Hcel].
  destruct (seguir_posicoes_caminho (labirinto amb) (objeto_coletado amb) resto amb)
    as (amb' & Hs & Hult & Hlab & Hcarga & Ho'); try done.
  { intros q Hq. apply Hcel. by right. }
  exists amb'. split; [done|]. split; [congruence|]. done.
Qed.

(** X20. Walking a path the search found. On a rectangular map, with a valid
    orientation, when the sequence is a path of free cells of the
    normalized grid that starts at the position of the agent, the walk
    ends with the agent on the last cell of the path, the map and the
    carried flag untouched. Whatever the sequence and the state, the walk
    raises nothing, the exceptions of its steps being caught, and it
    terminates. *)
Theorem sequencia_de_navegacao_segue_o_caminho (amb : AmbienteNavegacao)
    (rep : list (list string)) (destino : Z * Z) (caminho : list (Z * Z)) :
  snd (_executar_sequencia_navegacao caminho amb) = Retorna tt /\
  (retangular (labirinto amb) = true ->
   orientacao_valida amb = true ->
   _construir_representacao_mapa (labirinto amb) = Conclui rep ->
   liga rep (posicao_agente amb) destino caminho ->
   exists amb',
     _executar_sequencia_navegacao caminho amb = (amb', Retorna tt) /\
     posicao_agente amb' = destino /\
     labirinto amb' = labirinto amb /\
     objeto_coletado amb' = objeto_coletado amb /\
     orientacao_valida amb' = true).
Proof.
  split; [apply sequencia_nao_levanta | apply sequencia_segue_caminho].
Qed.

Lemma sequencia_de_navegacao_segue_o_caminho_witness :
  exists amb',
    _executar_sequencia_navegacao [(1, 1); (0, 1)] ambiente_com_carga = (amb', Retorna tt) /\
    posicao_agente amb' = (0, 1) /\
    labirinto amb' = labirinto ambiente_com_carga /\
    objeto_coletado amb' = objeto_coletado ambiente_com_carga /\
    orientacao_valida amb' = true.
Proof.
  apply (proj2 (sequencia_de_navegacao_segue_o_caminho ambiente_com_carga
                  [["*"; " "; "*"]; ["*"; " "; "*"]; ["*"; " "; "*"]] (0, 1)
                  [(1, 1); (0, 1)])); try reflexivity.
  split; [reflexivity|]. split; reflexivity.
Defined.

(** ** Pickup by the agent, and the validation that follows *)

Lemma coleta_em_mapa_retangular amb amb' :
  retangular (labirinto amb) = true ->
  orientacao_valida amb = true ->
  executar_comando_navegacao "P" amb = Retorna amb' ->
  exists alvo,
    celula_alvo amb = Retorna alvo /\
    leitura_da_celula (labirinto amb) alvo = "HUMANO" /\
    leitura_da_celula (labirinto amb') alvo = "VAZIO" /\
    (forall p, p <> alvo ->
       leitura_da_celula (labirinto amb') p = leitura_da_celula (labirinto amb) p) /\
    posicao_agente amb' = posicao_agente amb /\
    direcao_agente amb' = direcao_agente amb /\
    objeto_coletado amb' = true /\
    retangular (labirinto amb') = true /\
    _construir_representacao_mapa (labirinto amb')
    = _construir_representacao_mapa (labirinto amb).
Proof.
  intros Hr Ho HP. change (executar_comando_navegacao "P" amb) with (_coletar_objeto amb) in HP.
  pose proof (coletar_objeto_casos amb) as Hc.
  destruct (sensores_retangular amb Hr Ho) as (esq & frente & dir & Hrel & Hfr & Hs).
  rewrite Hs in Hc. cbn [frente_eh_humano] in Hc.
  destruct (String.eqb_spec
              (leitura_da_celula (labirinto amb) (mais_delta (posicao_agente amb) frente))
              "HUMANO") as [Hhum|Hn]; [|rewrite Hc in HP; discriminate].
  destruct Hc as (delta & linha & ch & nova & Hd & Hc). cbv zeta in Hc.
  destruct Hc as (Hlo & Hco & Hlin & Hch & Hobj & Hnova & Hcol).
  rewrite Hfr in Hd. injection Hd as <-.
  rewrite Hcol in HP. injection HP as <-.
  cbn [labirinto posicao_agente direcao_agente objeto_coletado].
  set (lo := fst (posicao_agente amb) + fst frente) in *.
  set (co := snd (posicao_agente amb) + snd frente) in *.
  exists (lo, co).
  destruct (representacao_apos_coleta (labirinto amb) (Z.to_nat lo) linha nova
              (Z.to_nat co) ch Hlin Hch Hobj Hnova) as [Hrep Hret].
  split; [unfold celula_alvo; by rewrite Hfr|].
  split; [exact Hhum|].
  assert (Hlen : (Z.to_nat lo < length (labirinto amb))%nat)
    by (by eapply lookup_lt_Some).
  assert (Hlenc : (Z.to_nat co < length (caracteres linha))%nat)
    by (by eapply lookup_lt_Some).
  split; [|split; [|split; [done|split; [done|split; [done|split; [congruence|done]]]]]].
  - unfold leitura_da_celula. cbn [fst snd].
    rewrite (proj2 (Z.leb_le 0 lo)), (proj2 (Z.leb_le 0 co)) by lia. cbn [andb].
    rewrite list_lookup_insert_eq by done. rewrite Hnova.
    rewrite list_lookup_insert_eq by done. reflexivity.
  - intros [a b] Hp. unfold leitura_da_celula. cbn [fst snd].
    destruct (0 <=? a) eqn:Ha; [|done]. destruct (0 <=? b) eqn:Hb; [|done]. cbn [andb].
    apply Z.leb_le in Ha, Hb.
    destruct (decide (Z.to_nat a = Z.to_nat lo)) as [Hal|Hal].
    + rewrite Hal. rewrite list_lookup_insert_eq by done. rewrite Hlin, Hnova.
      rewrite list_lookup_insert_ne; [done|].
      intros Hbc. apply Hp. f_equal; lia.
    + by rewrite list_lookup_insert_ne.
Qed.

Lemma validar_com_espaco_a_frente amb :
  retangular (labirinto amb) = true ->
  orientacao_valida amb = true ->
  (exists alvo, celula_alvo amb = Retorna alvo /\
                leitura_da_celula (labirinto amb) alvo = "VAZIO") ->
  _validar_estado_pos_coleta amb = Retorna tt.
Proof.
  intros Hr Ho (alvo & Halvo & Hvazio).
  unfold _validar_estado_pos_coleta. destruct (negb (objeto_coletado amb)); [done|].
  destruct (sensores_retangular amb Hr Ho) as (esq & frente & dir & Hrel & Hfr & ->).
  unfold celula_alvo in Halvo. rewrite Hfr in Halvo. injection Halvo as <-.
  change (fst (posicao_agente amb) + fst frente, snd (posicao_agente amb) + snd frente)
    with (mais_delta (posicao_agente amb) frente) in Hvazio.
  rewrite Hvazio. cbn [ligar].
  set (a := leitura_da_celula _ (mais_delta _ esq)).
  set (c := leitura_da_celula _ (mais_delta _ dir)).
  assert (Hparedes : forallb (fun leitura => String.eqb leitura "PAREDE") [a; "VAZIO"; c]
                     = false).
  { cbn [forallb]. change (String.eqb "VAZIO" "PAREDE") with false.
    by rewrite andb_false_r. }
  rewrite Hparedes, andb_false_r.
  assert (Hlivres : 1 <= len (filter (fun leitura => String.eqb leitura "VAZIO" = true)
                                [a; "VAZIO"; c])).
  { unfold len. rewrite !filter_cons, filter_nil.
    destruct (decide (String.eqb a "VAZIO" = true));
      destruct (decide (String.eqb "VAZIO" "VAZIO" = true)) as [|Hn];
      destruct (decide (String.eqb c "VAZIO" = true)); simpl; try lia;
      by destruct Hn. }
  destruct (Z.eqb_spec (len (filter (fun leitura => String.eqb leitura "VAZIO" = true)
                               [a; "VAZIO"; c])) 0) as [Hz|_]; [lia|].
  reflexivity.
Qed.

Lemma coletar_detectado_coleta amb amb' :
  retangular (labirinto amb) = true ->
  orientacao_valida amb = true ->
  executar_comando_navegacao "P" amb = Retorna amb' ->
  _coletar_objeto_detectado amb = Retorna amb'.
Proof.
  intros Hr Ho HP.
  destruct (coleta_em_mapa_retangular amb amb' Hr Ho HP)
    as (alvo & Halvo & Hhum & _).
  unfold _coletar_objeto_detectado, _verificar_objeto_adjacente.
  destruct (sensores_retangular amb Hr Ho) as (esq & frente & dir & Hrel & Hfr & ->).
  cbn [ligar frente_eh_humano].
  unfold celula_alvo in Halvo. rewrite Hfr in Halvo. injection Halvo as <-.
  change (fst (posicao_agente amb) + fst frente, snd (posicao_agente amb) + snd frente)
    with (mais_delta (posicao_agente amb) frente) in Hhum.
  by rewrite Hhum.
Qed.

(** X21. The validation that follows a pickup. On a rectangular map, with a
    valid orientation, once Pickup has succeeded the cell ahead reads as
    empty, so the validation passes: neither alarm is raised right after a
    pickup. The agent's own pickup step runs the command exactly when the
    front sensor shows the object: it does what Pickup does when Pickup
    succeeds, and otherwise returns with the grid world as it was. *)
Theorem validacao_passa_apos_a_coleta (amb amb' : AmbienteNavegacao) :
  retangular (labirinto amb) = true ->
  orientacao_valida amb = true ->
  (executar_comando_navegacao "P" amb = Retorna amb' ->
   _coletar_objeto_detectado amb = Retorna amb' /\
   _validar_estado_pos_coleta amb' = Retorna tt) /\
  ((forall a, executar_comando_navegacao "P" amb <> Retorna a) ->
   _coletar_objeto_detectado amb = Retorna amb).
Proof.
  intros Hr Ho. split.
  - intros HP.
    destruct (coleta_em_mapa_retangular amb amb' Hr Ho HP)
      as (alvo & Halvo & Hhum & Hvazio & _ & Hpos & Hdir & Hcarga & Hr' & _).
    split.
    + by apply coletar_detectado_coleta.
    + apply validar_com_espaco_a_frente; [done| |].
      * unfold orientacao_valida. by rewrite Hdir.
      * exists alvo. split; [|done]. unfold celula_alvo. rewrite Hdir, Hpos. exact Halvo.
  - intros HP.
    unfold _coletar_objeto_detectado, _verificar_objeto_adjacente.
    pose proof (coletar_objeto_casos amb) as Hc.
    destruct (sensores_retangular amb Hr Ho) as (esq & frente & dir & Hrel & Hfr & Hs).
    rewrite Hs in Hc |- *. cbn [ligar].
    destruct (frente_eh_humano _); [|done].
    destruct Hc as (delta & linha & ch & nova & _ & Hc). cbv zeta in Hc.
    destruct Hc as (_ & _ & _ & _ & _ & _ & Hcol).
    exfalso. by eapply HP.
Qed.

Lemma validacao_passa_apos_a_coleta_witness :
  _coletar_objeto_detectado
    {| labirinto := ["*E*"; "* *"; "*H*"]; posicao_agente := (1, 1);
       direcao_agente := 2; objeto_coletado := false |}
  = Retorna ambiente_com_carga /\
  _validar_estado_pos_coleta ambiente_com_carga = Retorna tt.
Proof.
  apply (proj1 (validacao_passa_apos_a_coleta
                  {| labirinto := ["*E*"; "* *"; "*H*"]; posicao_agente := (1, 1);
                     direcao_agente := 2; objeto_coletado := false |}
                  ambiente_com_carga eq_refl eq_refl)).
  reflexivity.
Defined.

(** ** Return to the exit *)

Lemma celula_eh_leitura alvo lab p :
  (forall c, alvo c = true -> eh_parede c = false) ->
  celula_eh alvo lab p -> leitura_da_celula lab p <> "PAREDE".
Proof.
  intros Halvo (Hl & Hc & ch & Hch & Ha).
  rewrite conteudo_celula_nao_negativo in Hch by done.
  unfold leitura_da_celula.
  rewrite (proj2 (Z.leb_le 0 (fst p))), (proj2 (Z.leb_le 0 (snd p))) by done. cbn [andb].
  destruct (lab !! Z.to_nat (fst p)) as [linha|]; [|discriminate].
  destruct (caracteres linha !! Z.to_nat (snd p)) as [c|]; [|discriminate].
  injection Hch as ->. intros Hpar.
  pose proof (classificar_parede ch) as Hcp. rewrite Hpar in Hcp.
  rewrite (Halvo ch Ha) in Hcp. discriminate.
Qed.

Lemma ejetar_na_margem amb :
  retangular (labirinto amb) = true ->
  na_margem (labirinto amb) (posicao_agente amb) ->
  labirinto amb <> [] ->
  objeto_coletado amb = true ->
  executar_comando_navegacao "E" amb
  = Retorna {| labirinto := labirinto amb; posicao_agente := posicao_agente amb;
               direcao_agente := direcao_agente amb; objeto_coletado := false |}.
Proof.
  intros Hr Hm Hne Hcarga.
  change (executar_comando_navegacao "E" amb) with (_ejetar_objeto amb).
  destruct amb as [lab [l c] d obj].
  cbn [labirinto posicao_agente direcao_agente objeto_coletado] in *. subst obj.
  unfold _ejetar_objeto, _verificar_posicao_saida, com_objeto_coletado.
  cbn [labirinto posicao_agente direcao_agente objeto_coletado negb fst snd] in *.
  destruct lab as [|primeira resto]; [done|].
  destruct ((l =? 0) || (l =? len (primeira :: resto) - 1) || (c =? 0)) eqn:Ht;
    [reflexivity|].
  apply orb_false_iff in Ht as [Ht Hc0]. apply orb_false_iff in Ht as [Hl0 Hlu].
  apply Z.eqb_neq in Hc0, Hl0, Hlu.
  destruct Hm as [Hm|[(linha & Hlin & Hm)|[Hm|Hm]]]; try done.
  rewrite (retangular_linha (primeira :: resto) primeira resto _ linha Hr eq_refl Hlin) in Hm.
  unfold largura_primeira_linha.
  change (indice (primeira :: resto) 0) with (Retorna (A := string) primeira).
  cbn [ligar fst snd] in *. rewrite (proj2 (Z.eqb_eq _ _) Hm). reflexivity.
Qed.

Lemma liga_nao_vazio mapa inicial objetivo caminho :
  liga mapa inicial objetivo caminho -> (1 <= length caminho)%nat.
Proof. intros (_ & Hh & _). destruct caminho; [discriminate|simpl; lia]. Qed.

Lemma retornar_a_saida_casos amb rep saida :
  retangular (labirinto amb) = true ->
  posicao_valida amb = true -> orientacao_valida amb = true ->
  objeto_coletado amb = true ->
  _construir_representacao_mapa (labirinto amb) = Conclui rep ->
  _localizar_saida (labirinto amb) = Conclui (Some saida) ->
  (exists amb' caminho,
      _retornar_a_saida rep amb = Conclui (amb', Some caminho) /\
      liga rep (posicao_agente amb) saida caminho /\
      (forall outro, liga rep (posicao_agente amb) saida outro ->
                     (length caminho <= length outro)%nat) /\
      posicao_agente amb' = saida /\
      objeto_coletado amb' = false /\
      labirinto amb' = labirinto amb /\
      orientacao_valida amb' = true) \/
  (_retornar_a_saida rep amb = Conclui (amb, None) /\
   forall caminho, ~ liga rep (posicao_agente amb) saida caminho).
Proof.
  intros Hr Hv Ho Hcarga Hrep Hsaida.
  assert (Hne : labirinto amb <> []) by (intros Hx; rewrite Hx in Hrep; discriminate).
  pose proof (localizar_saida_casos (labirinto amb) Hne) as Hcasos.
  rewrite Hsaida in Hcasos. destruct Hcasos as [Hent Hmargem].
  assert (Hlivre_saida : livre rep saida = true).
  { apply (representacao_livre _ _ _ Hrep).
    by apply (celula_eh_leitura eh_entrada); [apply entrada_nao_eh_parede|]. }
  assert (Hlivre_pos : livre rep (posicao_agente amb) = true).
  { apply (representacao_livre _ _ _ Hrep). by apply posicao_valida_leitura. }
  unfold _retornar_a_saida. cbv zeta. rewrite Hsaida. cbn [ligar_desfecho].
  destruct (decide (Some (posicao_agente amb) = Some saida)) as [Higual|Hdif].
  - rewrite (bool_decide_eq_true_2 _ Higual). injection Higual as Higual.
    left. rewrite ejetar_na_margem; [|done|by rewrite Higual|done|done].
    cbn [elevar ligar_desfecho].
    eexists _, _. split; [reflexivity|]. cbn [posicao_agente objeto_coletado labirinto].
    split; [|split; [|split; [done|split; [done|split; [done|exact Ho]]]]].
    + split; [|by rewrite Higual]. simpl. by rewrite Hlivre_pos.
    + intros outro Houtro. simpl. by eapply liga_nao_vazio.
  - rewrite (bool_decide_eq_false_2 _ Hdif). cbn [busca_astar].
    destruct (representacao_retangular _ _ Hrep) as (Hgr & _).
    destruct (busca_astar_resultado rep (posicao_agente amb) saida Hgr Hlivre_pos Hlivre_saida)
      as [[-> Hnao]|(caminho & -> & Hliga & Hmin)]; cbn [elevar ligar_desfecho].
    + right. split; [done|]. intros caminho Hc. eapply Hnao. by eapply liga_anda.
    + left.
      destruct (sequencia_segue_caminho amb rep saida caminho Hr Ho Hrep Hliga)
        as (amb1 & -> & Hpos1 & Hlab1 & Hcarga1 & Ho1).
      rewrite bool_decide_eq_true_2 by (by rewrite Hpos1).
      unfold estado_apos.
      rewrite ejetar_na_margem;
        [|by rewrite Hlab1|by rewrite Hlab1, Hpos1|by rewrite Hlab1|congruence].
      eexists _, _. split; [reflexivity|]. cbn [posicao_agente objeto_coletado labirinto].
      split; [done|]. split; [|done].
      intros outro Houtro. pose proof (liga_nao_vazio _ _ _ _ Houtro).
      specialize (Hmin _ (liga_anda _ _ _ _ Houtro)). lia.
Qed.

(** X22. The return to the exit. On a rectangular map, for a carrying agent
    on a valid cell with a valid orientation, when the exit search finds
    the entrance on the margin: if some path of free cells of the
    normalized grid leads from the agent to the exit, the return walks a
    shortest such path, ends on the exit with the object ejected and the
    map unchanged, and returns that path; if there is none, it returns
    no path and leaves the grid world as it was, the object still
    carried. *)
Theorem retorno_a_saida_pelo_caminho_minimo (amb : AmbienteNavegacao)
    (rep : list (list string)) (saida : Z * Z) :
  retangular (labirinto amb) = true ->
  posicao_valida amb = true -> orientacao_valida amb = true ->
  objeto_coletado amb = true ->
  _construir_representacao_mapa (labirinto amb) = Conclui rep ->
  _localizar_saida (labirinto amb) = Conclui (Some saida) ->
  (exists amb' caminho,
      _retornar_a_saida rep amb = Conclui (amb', Some caminho) /\
      liga rep (posicao_agente amb) saida caminho /\
      (forall outro, liga rep (posicao_agente amb) saida outro ->
                     (length caminho <= length outro)%nat) /\
      posicao_agente amb' = saida /\
      objeto_coletado amb' = false /\
      labirinto amb' = labirinto amb /\
      orientacao_valida amb' = true) \/
  (_retornar_a_saida rep amb = Conclui (amb, None) /\
   forall caminho, ~ liga rep (posicao_agente amb) saida caminho).
Proof. apply retornar_a_saida_casos. Qed.

Lemma retorno_a_saida_pelo_caminho_minimo_witness :
  (exists amb' caminho,
      _retornar_a_saida [["*"; " "; "*"]; ["*"; " "; "*"]; ["*"; " "; "*"]]
        ambiente_com_carga = Conclui (amb', Some caminho) /\
      liga [["*"; " "; "*"]; ["*"; " "; "*"]; ["*"; " "; "*"]]
        (posicao_agente ambiente_com_carga) (0, 1) caminho /\
      (forall outro,
          liga [["*"; " "; "*"]; ["*"; " "; "*"]; ["*"; " "; "*"]]
            (posicao_agente ambiente_com_carga) (0, 1) outro ->
          (length caminho <= length outro)%nat) /\
      posicao_agente amb' = (0, 1) /\
      objeto_coletado amb' = false /\
      labirinto amb' = labirinto ambiente_com_carga /\
      orientacao_valida amb' = true) \/
  (_retornar_a_saida [["*"; " "; "*"]; ["*"; " "; "*"]; ["*"; " "; "*"]]
     ambiente_com_carga = Conclui (ambiente_com_carga, None) /\
   forall caminho,
     ~ liga [["*"; " "; "*"]; ["*"; " "; "*"]; ["*"; " "; "*"]]
         (posicao_agente ambiente_com_carga) (0, 1) caminho).
Proof.
  apply (retorno_a_saida_pelo_caminho_minimo ambiente_com_carga
           [["*"; " "; "*"]; ["*"; " "; "*"]; ["*"; " "; "*"]] (0, 1)); reflexivity.
Defined.

Lemma livre_dentro_do_mapa rep p :
  livre rep p = true ->
  mapa_vazio rep = false /\ fora_do_mapa rep p = Retorna false.
Proof.
  unfold livre. intros H. apply andb_true_iff in H as [Hd _].
  unfold dentro_do_mapa in Hd.
  apply andb_true_iff in Hd as [Hd H4]. apply andb_true_iff in Hd as [Hd H3].
  apply andb_true_iff in Hd as [H1 H2].
  apply Z.leb_le in H1, H3. apply Z.ltb_lt in H2, H4.
  destruct rep as [|linha0 resto]; [unfold len in H2; simpl in H2; lia|].
  cbn [hd] in H4.
  destruct linha0 as [|c0 linha0]; [unfold len in H4; simpl in H4; lia|].
  split; [reflexivity|].
  unfold fora_do_mapa, numero_colunas.
  change (indice ((c0 :: linha0) :: resto) 0) with (Retorna (A := list string) (c0 :: linha0)).
  cbn [ligar].
  rewrite (proj2 (Z.ltb_ge _ _)) by lia.
  rewrite (proj2 (Z.leb_gt _ _)) by lia.
  rewrite (proj2 (Z.ltb_ge _ _)) by lia. cbn [orb].
  by rewrite (proj2 (Z.leb_gt _ _)) by lia.
Qed.

Lemma retornar_sem_saida amb rep :
  posicao_valida amb = true ->
  _construir_representacao_mapa (labirinto amb) = Conclui rep ->
  _localizar_saida (labirinto amb) = Conclui None ->
  _retornar_a_saida rep amb = Aborta TypeError.
Proof.
  intros Hv Hrep Hsaida.
  assert (Hlivre : livre rep (posicao_agente amb) = true).
  { apply (representacao_livre _ _ _ Hrep). by apply posicao_valida_leitura. }
  destruct (livre_dentro_do_mapa _ _ Hlivre) as [Hvazio Hfora].
  unfold _retornar_a_saida. cbv zeta. rewrite Hsaida. cbn [ligar_desfecho].
  rewrite bool_decide_eq_false_2 by discriminate.
  unfold busca_astar. rewrite Hvazio, Hfora. reflexivity.
Qed.

(** X23. The return when the entrance is not on the margin. The exit search
    looks at the margin of the map only; when it finds nothing, the return
    hands the search a missing goal, and the search, past its tests of the
    grid and of the start, fails on the goal with a TypeError. This is
    what happens for every agent standing on a valid cell of a map whose
    entrance lies inside. *)
Theorem retorno_sem_saida_na_margem (amb : AmbienteNavegacao) (rep : list (list string)) :
  posicao_valida amb = true ->
  _construir_representacao_mapa (labirinto amb) = Conclui rep ->
  (_localizar_saida (labirinto amb) = Conclui None <->
   forall q, celula_eh eh_entrada (labirinto amb) q -> ~ na_margem (labirinto amb) q) /\
  (_localizar_saida (labirinto amb) = Conclui None ->
   _retornar_a_saida rep amb = Aborta TypeError).
Proof.
  intros Hv Hrep. split; [|by apply retornar_sem_saida].
  assert (Hne : labirinto amb <> []) by (intros Hx; rewrite Hx in Hrep; discriminate).
  pose proof (localizar_saida_casos (labirinto amb) Hne) as Hcasos.
  split.
  - intros Hs. by rewrite Hs in Hcasos.
  - intros Hnenhuma.
    destruct (_localizar_saida (labirinto amb)) as [[q|]| |]; [|done|done|done].
    destruct Hcasos as [Hent Hm]. by destruct (Hnenhuma q Hent).
Qed.

Lemma retorno_sem_saida_na_margem_witness :
  (_localizar_saida ["***"; "*E*"; "* *"; "***"] = Conclui None <->
   forall q, celula_eh eh_entrada ["***"; "*E*"; "* *"; "***"] q ->
             ~ na_margem ["***"; "*E*"; "* *"; "***"] q) /\
  (_localizar_saida ["***"; "*E*"; "* *"; "***"] = Conclui None ->
   _retornar_a_saida
     [["*"; "*"; "*"]; ["*"; " "; "*"]; ["*"; " "; "*"]; ["*"; "*"; "*"]]
     {| labirinto := ["***"; "*E*"; "* *"; "***"]; posicao_agente := (2, 1);
        direcao_agente := 2; objeto_coletado := true |}
   = Aborta TypeError).
Proof.
  apply (retorno_sem_saida_na_margem
           {| labirinto := ["***"; "*E*"; "* *"; "***"]; posicao_agente := (2, 1);
              direcao_agente := 2; objeto_coletado := true |}
           [["*"; "*"; "*"]; ["*"; " "; "*"]; ["*"; " "; "*"]; ["*"; "*"; "*"]]);
    reflexivity.
Defined.

(** ** The mission *)

Lemma novo_ambiente_orientacao_valida mapa amb :
  novo_ambiente mapa = Retorna amb -> orientacao_valida amb = true.
Proof.
  intros H. destruct (novo_ambiente_campos _ _ H) as (_ & _ & _ & Hdir & _).
  unfold orientacao_valida. rewrite Hdir. unfold _calcular_orientacao_inicial.
  destruct (posicao_agente amb) as [l c].
  destruct (l =? 0); [done|]. destruct (l =? len mapa - 1); [done|]. by destruct (c =? 0).
Qed.

Lemma pilha_conexa_reverse (l : list (Z * Z)) : pilha_conexa (reverse l) = pilha_conexa l.
Proof.
  induction l as [|a [|b l] IH]; [done|done|].
  rewrite (reverse_cons (b :: l) a).
  rewrite (pilha_conexa_snoc _ b) by (by rewrite last_reverse).
  rewrite IH. change (pilha_conexa (a :: b :: l)) with (adjacente a b && pilha_conexa (b :: l)).
  by rewrite (adjacente_simetrica a b), andb_comm.
Qed.

Lemma pilha_caminho_valido rep (l : list (Z * Z)) :
  l <> [] -> pilha_conexa l = true ->
  (forall p, p ∈ l -> livre rep p = true) ->
  caminho_valido rep l = true.
Proof.
  induction l as [|a [|b l] IH]; intros Hne Hcon Hliv; [done| |].
  - simpl. rewrite Hliv by (by left). done.
  - rewrite caminho_valido_cons.
    change (pilha_conexa (a :: b :: l)) with (adjacente a b && pilha_conexa (b :: l)) in Hcon.
    apply andb_true_iff in Hcon as [Hadj Hcon].
    rewrite Hliv by (by left). rewrite Hadj. cbn [andb].
    apply IH; [done|done|]. intros p Hp. apply Hliv. by right.
Qed.

Lemma pilha_liga lab inicial carga rep e :
  _construir_representacao_mapa lab = Conclui rep ->
  conhecimento_fiel lab inicial carga e -> pilha_fiel inicial e ->
  liga rep (posicao_agente (ambiente e)) inicial (reverse (pilha_navegacao e)).
Proof.
  intros Hrep Hcf Hpf. destruct Hpf as [Htopo Hbase Hcon Hvis].
  split; [|split].
  - apply pilha_caminho_valido.
    + intros Hx. apply (f_equal reverse) in Hx. rewrite reverse_involutive in Hx.
      rewrite Hx in Htopo. discriminate.
    + by rewrite pilha_conexa_reverse.
    + intros p Hp. rewrite elem_of_reverse in Hp.
      apply (representacao_livre _ _ _ Hrep). apply (cf_visitadas _ _ _ _ Hcf). by apply Hvis.
  - by rewrite head_reverse.
  - by rewrite last_reverse.
Qed.

Lemma conteudo_apos_coleta (lab : list string) n linha nova m l c :
  lab !! n = Some linha ->
  caracteres nova = <[m := " "%char]> (caracteres linha) ->
  (m < length (caracteres linha))%nat ->
  0 <= l -> 0 <= c ->
  conteudo_celula (<[n := nova]> lab) l c
  = if bool_decide (Z.to_nat l = n /\ Z.to_nat c = m) then Retorna " "%char
    else conteudo_celula lab l c.
Proof.
  intros Hlin Hnova Hm Hl Hc.
  pose proof (lookup_lt_Some _ _ _ Hlin) as Hn.
  rewrite !conteudo_celula_nao_negativo by done.
  destruct (decide (Z.to_nat l = n)) as [->|Hln].
  - rewrite list_lookup_insert_eq by done. rewrite Hlin, Hnova.
    destruct (decide (Z.to_nat c = m)) as [->|Hcm].
    + rewrite bool_decide_eq_true_2 by done. by rewrite list_lookup_insert_eq.
    + rewrite bool_decide_eq_false_2 by (intros [_ ?]; done).
      by rewrite list_lookup_insert_ne.
  - rewrite bool_decide_eq_false_2 by (intros [? _]; done).
    by rewrite list_lookup_insert_ne.
Qed.

Lemma entrada_apos_coleta (lab : list string) n linha nova m ch q :
  lab !! n = Some linha ->
  caracteres linha !! m = Some ch -> eh_objeto ch = true ->
  caracteres nova = <[m := " "%char]> (caracteres linha) ->
  celula_eh eh_entrada (<[n := nova]> lab) q <-> celula_eh eh_entrada lab q.
Proof.
  intros Hlin Hch Hobj Hnova.
  pose proof (lookup_lt_Some _ _ _ Hch) as Hm.
  assert (Hnao : eh_entrada ch = false).
  { unfold eh_objeto in Hobj. unfold eh_entrada.
    apply orb_true_iff in Hobj as [H|H]; apply Ascii.eqb_eq in H; by rewrite H. }
  unfold celula_eh. split; intros (Hl & Hc & x & Hx & Hex); (split; [done|split; [done|]]).
  - rewrite (conteudo_apos_coleta lab n linha nova m) in Hx by done.
    destruct (bool_decide _); [|by exists x].
    injection Hx as <-. discriminate.
  - exists x. split; [|done].
    rewrite (conteudo_apos_coleta lab n linha nova m) by done.
    destruct (bool_decide_reflect (Z.to_nat (fst q) = n /\ Z.to_nat (snd q) = m))
      as [[H1 H2]|_]; [|done].
    exfalso. rewrite conteudo_celula_nao_negativo in Hx by done.
    rewrite H1, Hlin, H2, Hch in Hx. injection Hx as <-. congruence.
Qed.

Lemma margem_apos_coleta (lab : list string) n linha nova m q :
  lab !! n = Some linha ->
  caracteres nova = <[m := " "%char]> (caracteres linha) ->
  na_margem (<[n := nova]> lab) q <-> na_margem lab q.
Proof.
  intros Hlin Hnova.
  pose proof (lookup_lt_Some _ _ _ Hlin) as Hn.
  assert (Hlen : length (caracteres nova) = length (caracteres linha))
    by (by rewrite Hnova, length_insert).
  unfold na_margem, len. rewrite length_insert.
  split; (intros [H|[(l' & Hl' & H)|H]]; [by left| |by right; right]); right; left.
  - destruct (decide (Z.to_nat (fst q) = n)) as [Hq|Hq].
    + rewrite Hq, list_lookup_insert_eq in Hl' by done. injection Hl' as <-.
      exists linha. split; [by rewrite Hq|]. by rewrite <- Hlen.
    + rewrite list_lookup_insert_ne in Hl' by done. by exists l'.
  - destruct (decide (Z.to_nat (fst q) = n)) as [Hq|Hq].
    + exists nova. rewrite Hq, list_lookup_insert_eq by done. split; [done|].
      rewrite Hq, Hlin in Hl'. injection Hl' as <-. by rewrite Hlen.
    + exists l'. by rewrite list_lookup_insert_ne.
Qed.

Lemma coleta_forma amb amb' :
  executar_comando_navegacao "P" amb = Retorna amb' ->
  exists n m linha ch nova,
    labirinto amb !! n = Some linha /\
    caracteres linha !! m = Some ch /\ eh_objeto ch = true /\
    caracteres nova = <[m := " "%char]> (caracteres linha) /\
    labirinto amb' = <[n := nova]> (labirinto amb).
Proof.
  change (executar_comando_navegacao "P" amb) with (_coletar_objeto amb). intros HP.
  pose proof (coletar_objeto_casos amb) as Hc.
  destruct (obter_leituras_sensores_proximidade amb) as [leituras|ex|];
    [|congruence|done].
  destruct (frente_eh_humano leituras); [|congruence].
  destruct Hc as (delta & linha & ch & nova & _ & Hc). cbv zeta in Hc.
  destruct Hc as (_ & _ & Hlin & Hch & Hobj & Hnova & Hcol).
  rewrite Hcol in HP. injection HP as <-.
  by exists (Z.to_nat (fst (posicao_agente amb) + fst delta)),
            (Z.to_nat (snd (posicao_agente amb) + snd delta)), linha, ch, nova.
Qed.

Lemma coleta_com_objeto_a_frente amb alvo :
  retangular (labirinto amb) = true -> orientacao_valida amb = true ->
  celula_alvo amb = Retorna alvo ->
  leitura_da_celula (labirinto amb) alvo = "HUMANO" ->
  exists amb', executar_comando_navegacao "P" amb = Retorna amb'.
Proof.
  intros Hr Ho Halvo Hhum.
  change (executar_comando_navegacao "P" amb) with (_coletar_objeto amb).
  pose proof (coletar_objeto_casos amb) as Hc.
  destruct (sensores_retangular amb Hr Ho) as (esq & frente & dir & Hrel & Hfr & Hs).
  rewrite Hs in Hc. cbn [frente_eh_humano] in Hc.
  unfold celula_alvo in Halvo. rewrite Hfr in Halvo. injection Halvo as <-.
  change (fst (posicao_agente amb) + fst frente, snd (posicao_agente amb) + snd frente)
    with (mais_delta (posicao_agente amb) frente) in Hhum.
  rewrite Hhum in Hc. change (String.eqb "HUMANO" "HUMANO") with true in Hc.
  destruct Hc as (delta & linha & ch & nova & _ & Hc). cbv zeta in Hc.
  destruct Hc as (_ & _ & _ & _ & _ & _ & Hcol). eauto.
Qed.

Lemma missao_casos lab amb log :
  retangular lab = true ->
  novo_ambiente lab = Retorna amb ->
  exists ag,
    novo_agente amb log = Conclui ag /\
    match executar_missao_resgate ag with
    | Conclui ag' =>
        let amb' := ambiente (explorador_ambiente ag') in
        na_margem lab (posicao_agente amb) /\
        posicao_agente amb' = posicao_agente amb /\
        objeto_coletado amb' = false /\
        contar eh_objeto (labirinto amb') = 0 /\
        _construir_representacao_mapa (labirinto amb') = Conclui (representacao_mapa ag') /\
        exists alvo,
          posicao_objeto_do_agente ag' = Some alvo /\
          leitura_da_celula lab alvo = "HUMANO" /\
          leitura_da_celula (labirinto amb') alvo = "VAZIO"
    | Aborta ex =>
        ex = ObjetoNaoEncontrado \/
        (ex = TypeError /\ ~ na_margem lab (posicao_agente amb)) \/
        exists de para,
          ex = DaSimulacao (ValueError (MsgColisao de para)) /\
          adjacente de para = true /\
          leitura_da_celula lab de <> "PAREDE" /\
          leitura_da_celula lab para = "PAREDE"
    | NaoTermina => False
    end.
Proof.
  intros Hr Hnovo.
  destruct (novo_ambiente_campos _ _ Hnovo) as (Hcel & Hobj & Hlab & Hdir & Hcarga).
  pose proof (novo_ambiente_posicao_valida _ _ Hnovo) as Hv.
  pose proof (novo_ambiente_orientacao_valida _ _ Hnovo) as Ho.
  assert (Hent : celula_eh eh_entrada lab (posicao_agente amb)).
  { apply celulas_com_celula_eh. rewrite Hcel. by left. }
  assert (Hne : lab <> []).
  { intros ->. destruct Hent as (_ & _ & ch & Hch & _).
    unfold conteudo_celula, indice in Hch. simpl in Hch.
    destruct (0 <=? fst (posicao_agente amb)); simpl in Hch;
      repeat (destruct (_ <? _) in Hch || destruct (_ <=? _) in Hch); discriminate. }
  unfold novo_agente. rewrite Hlab.
  destruct (_construir_representacao_mapa lab) as [rep| |] eqn:Hrep;
    [|by rewrite representacao_retorna in Hrep|by rewrite representacao_retorna in Hrep].
  cbn [ligar_desfecho]. eexists. split; [reflexivity|].
  unfold executar_missao_resgate.
  cbn [explorador_ambiente representacao_mapa posicao_objeto_do_agente].
  rewrite registrar_retangular;
    [|cbn [ambiente novo_explorador]; by rewrite Hlab|cbn [ambiente novo_explorador]; done].
  cbn [elevar ligar_desfecho ambiente novo_explorador].
  rewrite (exibir_estado_valido amb Hv Ho). cbn [elevar ligar_desfecho].
  unfold _buscar_objeto_por_exploracao.
  cbn [explorador_ambiente representacao_mapa posicao_objeto_do_agente].
  pose proof (exploracao_fiel amb log 500) as Hexp.
  rewrite Hlab in Hexp. specialize (Hexp Hr Hv Ho).
  destruct (explorar_ate_encontrar_objeto (novo_explorador amb log 500))
    as [[[achou it] e']|ex|]; [|cbn [ligar elevar ligar_desfecho]|done].
  2:{ right; right. destruct Hexp as (de & para & -> & H). by exists de, para. }
  cbn [ligar]. destruct Hexp as [Hcf Hachou].
  destruct achou; cbn [negb elevar ligar_desfecho snd fst]; [|by left].
  destruct Hachou as (Hpf & alvo & Halvo & Hpo & _ & Hhum).
  cbn [explorador_ambiente representacao_mapa posicao_objeto_do_agente].
  set (amb0 := ambiente e') in *.
  assert (Hlab0 : labirinto amb0 = lab) by apply (cf_labirinto _ _ _ _ Hcf).
  assert (Ho0 : orientacao_valida amb0 = true) by apply (cf_orientacao _ _ _ _ Hcf).
  assert (Hv0 : posicao_valida amb0 = true).
  { apply posicao_valida_leitura. rewrite Hlab0.
    apply (cf_visitadas _ _ _ _ Hcf), (cf_posicao _ _ _ _ Hcf). }
  assert (Hr0 : retangular (labirinto amb0) = true) by (by rewrite Hlab0).
  destruct (coleta_com_objeto_a_frente amb0 alvo Hr0 Ho0 Halvo) as [amb1 HP];
    [by rewrite Hlab0|].
  rewrite (coletar_detectado_coleta amb0 amb1 Hr0 Ho0 HP). cbn [elevar ligar_desfecho].
  destruct (coleta_em_mapa_retangular amb0 amb1 Hr0 Ho0 HP)
    as (alvo' & Halvo' & _ & Hvazio & _ & Hpos1 & Hdir1 & Hcarga1 & Hr1 & Hrep1).
  rewrite Halvo in Halvo'. injection Halvo' as <-.
  assert (Ho1 : orientacao_valida amb1 = true)
    by (unfold orientacao_valida; by rewrite Hdir1).
  assert (Hv1 : posicao_valida amb1 = true)
    by (by apply (coletar_posicao_valida amb0 amb1)).
  rewrite (exibir_estado_valido amb1 Hv1 Ho1). cbn [elevar ligar_desfecho].
  rewrite validar_com_espaco_a_frente; [|done|done|].
  2:{ exists alvo. split; [|done]. unfold celula_alvo. rewrite Hdir1, Hpos1. exact Halvo. }
  cbn [elevar ligar_desfecho]. rewrite Hcarga1.
  rewrite Hlab0 in Hrep1. rewrite Hrep in Hrep1.
  destruct (coleta_forma amb0 amb1 HP) as (n & m & linha & ch & nova & Hlin & Hch & Hobjch
                                           & Hnova & Hlab1).
  rewrite Hlab0 in Hlin, Hlab1.
  assert (Hent1 : celula_eh eh_entrada (labirinto amb1) (posicao_agente amb)).
  { rewrite Hlab1. by apply (entrada_apos_coleta lab n linha nova m ch). }
  assert (Hne1 : labirinto amb1 <> []) by (intros Hx; rewrite Hx in Hrep1; discriminate).
  assert (Hzero : contar eh_objeto (labirinto amb1) = 0).
  { rewrite (coletar_um_objeto_a_menos amb0 amb1 HP), Hlab0. lia. }
  pose proof (localizar_saida_casos (labirinto amb1) Hne1) as Hsaida.
  destruct (_localizar_saida (labirinto amb1)) as [[saida|]| |] eqn:Hloc; [| |done|done].
  - destruct Hsaida as [Hsaida_ent Hsaida_margem].
    assert (Hsaida_eq : saida = posicao_agente amb).
    { rewrite Hlab1 in Hsaida_ent.
      apply (entrada_apos_coleta lab n linha nova m ch) in Hsaida_ent; [|done..].
      apply celulas_com_celula_eh in Hsaida_ent. rewrite Hcel in Hsaida_ent.
      by apply list_elem_of_singleton in Hsaida_ent. }
    subst saida.
    rewrite Hlab1 in Hsaida_margem.
    apply (margem_apos_coleta lab n linha nova m) in Hsaida_margem; [|done..].
    destruct (retornar_a_saida_casos amb1 rep (posicao_agente amb) Hr1 Hv1 Ho1 Hcarga1
                Hrep1 Hloc)
      as [(amb2 & caminho & -> & _ & _ & Hpos2 & Hcarga2 & Hlab2 & Ho2)|[_ Hsem]].
    + cbn [ligar_desfecho fst].
      assert (Hv2 : posicao_valida amb2 = true).
      { apply posicao_valida_leitura. rewrite Hlab2, Hpos2.
        by apply (celula_eh_leitura eh_entrada); [apply entrada_nao_eh_parede|]. }
      rewrite (exibir_estado_valido amb2 Hv2 Ho2). cbn [elevar ligar_desfecho].
      cbv zeta. cbn [com_ambiente_do_agente explorador_ambiente com_ambiente ambiente
                     representacao_mapa posicao_objeto_do_agente].
      split; [done|]. split; [done|]. split; [done|]. rewrite Hlab2.
      split; [done|]. split; [done|].
      exists alvo. by rewrite Hpo.
    + exfalso. apply (Hsem (reverse (pilha_navegacao e'))).
      rewrite Hpos1. by apply (pilha_liga lab (posicao_agente amb) (objeto_coletado amb)).
  - rewrite retornar_sem_saida by done. cbn [ligar_desfecho].
    right; left. split; [done|]. intros Hm.
    apply (Hsaida (posicao_agente amb) Hent1).
    rewrite Hlab1. by apply (margem_apos_coleta lab n linha nova m).
Qed.

(** X24. The rescue mission. For an agent built on the grid world of a
    rectangular map, the mission terminates, and when it concludes the
    entrance lies on the margin of the map, the agent is back on it and
    carries nothing, no object is left in the map, the cell the agent
    recorded as the object's held the object and reads as empty now, and
    the normalized grid the agent keeps still describes the map. The
    mission aborts in three ways only: the exploration did not find the
    object; the object was collected but the entrance is not on the margin,
    and the return fails with a TypeError; the exploration stepped from a
    free cell into a wall next to it. *)
Theorem missao_de_resgate (lab : list string) (amb : AmbienteNavegacao) (log : bool) :
  retangular lab = true ->
  novo_ambiente lab = Retorna amb ->
  exists ag,
    novo_agente amb log = Conclui ag /\
    match executar_missao_resgate ag with
    | Conclui ag' =>
        let amb' := ambiente (explorador_ambiente ag') in
        na_margem lab (posicao_agente amb) /\
        posicao_agente amb' = posicao_agente amb /\
        objeto_coletado amb' = false /\
        contar eh_objeto (labirinto amb') = 0 /\
        _construir_representacao_mapa (labirinto amb') = Conclui (representacao_mapa ag') /\
        exists alvo,
          posicao_objeto_do_agente ag' = Some alvo /\
          leitura_da_celula lab alvo = "HUMANO" /\
          leitura_da_celula (labirinto amb') alvo = "VAZIO"
    | Aborta ex =>
        ex = ObjetoNaoEncontrado \/
        (ex = TypeError /\ ~ na_margem lab (posicao_agente amb)) \/
        exists de para,
          ex = DaSimulacao (ValueError (MsgColisao de para)) /\
          adjacente de para = true /\
          leitura_da_celula lab de <> "PAREDE" /\
          leitura_da_celula lab para = "PAREDE"
    | NaoTermina => False
    end.
Proof. apply missao_casos. Qed.

Lemma missao_de_resgate_witness :
  exists ag,
    novo_agente ambiente_exemplo false = Conclui ag /\
    match executar_missao_resgate ag with
    | Conclui ag' =>
        let amb' := ambiente (explorador_ambiente ag') in
        na_margem ["*E*"; "* *"; "*H*"] (posicao_agente ambiente_exemplo) /\
        posicao_agente amb' = posicao_agente ambiente_exemplo /\
        objeto_coletado amb' = false /\
        contar eh_objeto (labirinto amb') = 0 /\
        _construir_representacao_mapa (labirinto amb') = Conclui (representacao_mapa ag') /\
        exists alvo,
          posicao_objeto_do_agente ag' = Some alvo /\
          leitura_da_celula ["*E*"; "* *"; "*H*"] alvo = "HUMANO" /\
          leitura_da_celula (labirinto amb') alvo = "VAZIO"
    | Aborta ex =>
        ex = ObjetoNaoEncontrado \/
        (ex = TypeError /\ ~ na_margem ["*E*"; "* *"; "*H*"] (posicao_agente ambiente_exemplo)) \/
        exists de para,
          ex = DaSimulacao (ValueError (MsgColisao de para)) /\
          adjacente de para = true /\
          leitura_da_celula ["*E*"; "* *"; "*H*"] de <> "PAREDE" /\
          leitura_da_celula ["*E*"; "* *"; "*H*"] para = "PAREDE"
    | NaoTermina => False
    end.
Proof.
  apply (missao_de_resgate ["*E*"; "* *"; "*H*"] ambiente_exemplo false); reflexivity.
Defined.

(** ** The search strategy of the agent *)

Lemma verificar_objeto_retangular amb :
  retangular (labirinto amb) = true -> orientacao_valida amb = true ->
  exists alvo,
    celula_alvo amb = Retorna alvo /\
    adjacente (posicao_agente amb) alvo = true /\
    _verificar_objeto_adjacente amb
    = Retorna (String.eqb (leitura_da_celula (labirinto amb) alvo) "HUMANO").
Proof.
  intros Hr Ho.
  destruct (sensores_retangular amb Hr Ho) as (esq & frente & dir & Hrel & Hfr & Hs).
  exists (mais_delta (posicao_agente amb) frente). split; [|split].
  - unfold celula_alvo. by rewrite Hfr.
  - apply orientacao_valida_casos in Ho.
    unfold direcoes_frente in Hfr. unfold adjacente, mais_delta.
    destruct Ho as [H|[H|[H|H]]]; rewrite H in Hfr; injection Hfr as <-;
      cbn [fst snd]; apply Z.eqb_eq; lia.
  - unfold _verificar_objeto_adjacente. by rewrite Hs.
Qed.

Lemma percorrer_casos lab carga caminho : forall restantes i amb,
  labirinto amb = lab -> objeto_coletado amb = carga ->
  retangular lab = true -> orientacao_valida amb = true ->
  pilha_conexa (posicao_agente amb :: restantes) = true ->
  (forall p, p ∈ restantes -> leitura_da_celula lab p <> "PAREDE") ->
  exists amb' r,
    percorrer_caminho_planejado caminho i restantes amb = Retorna (amb', r) /\
    labirinto amb' = lab /\ objeto_coletado amb' = carga /\
    orientacao_valida amb' = true /\
    ((r = caminho /\
      last (posicao_agente amb :: restantes) = Some (posicao_agente amb')) \/
     (exists k alvo,
        (k < length restantes)%nat /\
        r = take (S (i + k)) caminho /\
        (posicao_agente amb :: restantes) !! k = Some (posicao_agente amb') /\
        celula_alvo amb' = Retorna alvo /\
        adjacente (posicao_agente amb') alvo = true /\
        leitura_da_celula lab alvo = "HUMANO")).
Proof.
  induction restantes as [|p resto IH]; intros i amb Hlab Hcarga Hr Ho Hcon Hliv.
  - exists amb, caminho. cbn [percorrer_caminho_planejado]. repeat split; try done.
    by left.
  - cbn [percorrer_caminho_planejado]. cbn [pilha_conexa] in Hcon.
    apply andb_true_iff in Hcon as [Hadj Hcon].
    destruct (verificar_objeto_retangular amb) as (alvo & Halvo & Hadj_alvo & ->);
      [by rewrite Hlab|done|].
    cbn [ligar]. rewrite Hlab.
    destruct (String.eqb_spec (leitura_da_celula lab alvo) "HUMANO") as [Hhum|Hnao].
    + exists amb, (take (S i) caminho). repeat split; try done.
      right. exists 0%nat, alvo. repeat split; try done.
      * simpl. lia.
      * by rewrite Nat.add_0_r.
    + destruct (navegar_para_vizinho p amb) as (d & Hd & ->); [by rewrite Hlab|done|done|].
      rewrite Hlab.
      destruct (String.eqb_spec (leitura_da_celula lab p) "PAREDE") as [Hpar|_].
      { exfalso. apply (Hliv p); [by left|done]. }
      destruct (IH (S i) {| labirinto := lab; posicao_agente := p; direcao_agente := d;
                            objeto_coletado := objeto_coletado amb |})
        as (amb' & r & Hs & Hlab' & Hcarga' & Ho' & Hfim); try done.
      * unfold orientacao_valida. cbn [direcao_agente]. apply andb_true_iff.
        split; [apply Z.leb_le | apply Z.ltb_lt]; lia.
      * intros q Hq. apply Hliv. by right.
      * exists amb', r. rewrite Hs. repeat split; try done.
        cbn [posicao_agente] in Hfim.
        destruct Hfim as [[-> Hult]|(k & alvo' & Hk & -> & Hpos & Halvo' & Hadj' & Hhum')].
        -- left. split; [done|]. exact Hult.
        -- right. exists (S k), alvo'. repeat split; try done.
           ++ simpl. lia.
           ++ f_equal. lia.
Qed.

Lemma caminho_valido_prefixo mapa inicial (caminho : list (Z * Z)) k p :
  caminho_valido mapa caminho = true -> head caminho = Some inicial ->
  caminho !! k = Some p -> anda mapa inicial p k.
Proof.
  intros Hv Hh Hk.
  assert (Hsplit : caminho = ((take k caminho ++ [p]) ++ drop (S k) caminho)%list).
  { rewrite <- app_assoc. cbn [app]. rewrite <- (drop_S _ _ _ Hk).
    by rewrite take_drop. }
  rewrite Hsplit in Hv.
  apply caminho_valido_app_esq in Hv; [|by destruct (take k caminho)].
  pose proof (lookup_lt_Some _ _ _ Hk) as Hlt.
  assert (Hlen : length (take k caminho) = k) by (rewrite length_take; lia).
  rewrite <- Hlen.
  apply caminho_anda; [done|].
  rewrite Hsplit in Hh. rewrite <- Hh.
  by destruct (take k caminho).
Qed.

Lemma busca_por_astar_casos ag obj :
  let amb := ambiente (explorador_ambiente ag) in
  retangular (labirinto amb) = true ->
  posicao_valida amb = true -> orientacao_valida amb = true ->
  _construir_representacao_mapa (labirinto amb) = Conclui (representacao_mapa ag) ->
  celulas_com eh_objeto 0 (labirinto amb) = [obj] ->
  (exists ag' caminho,
      _buscar_objeto_por_astar ag = Conclui (ag', Some caminho) /\
      liga (representacao_mapa ag) (posicao_agente amb) obj caminho /\
      (forall outro, liga (representacao_mapa ag) (posicao_agente amb) obj outro ->
                     (length caminho <= length outro)%nat) /\
      caminho_planejado ag' = Some caminho /\
      posicao_objeto_do_agente ag' = Some obj /\
      representacao_mapa ag' = representacao_mapa ag /\
      let amb' := ambiente (explorador_ambiente ag') in
      labirinto amb' = labirinto amb /\
      objeto_coletado amb' = objeto_coletado amb /\
      (posicao_agente amb' = obj \/
       (celula_alvo amb' = Retorna obj /\
        caminho !! (length caminho - 2)%nat = Some (posicao_agente amb')))) \/
  (_buscar_objeto_por_astar ag
   = Conclui ({| explorador_ambiente := explorador_ambiente ag;
                 caminho_planejado := None;
                 representacao_mapa := representacao_mapa ag;
                 posicao_objeto_do_agente := posicao_objeto_do_agente ag |}, None) /\
   forall caminho, ~ liga (representacao_mapa ag) (posicao_agente amb) obj caminho).
Proof.
  intros amb Hr Hv Ho Hrep Hobj.
  set (rep := representacao_mapa ag) in *.
  assert (Hobj_cel : celula_eh eh_objeto (labirinto amb) obj).
  { apply celulas_com_celula_eh. rewrite Hobj. by left. }
  assert (Hlivre_obj : livre rep obj = true).
  { apply (representacao_livre _ _ _ Hrep).
    by apply (celula_eh_leitura eh_objeto); [apply objeto_nao_eh_parede|]. }
  assert (Hlivre_pos : livre rep (posicao_agente amb) = true).
  { apply (representacao_livre _ _ _ Hrep). by apply posicao_valida_leitura. }
  unfold _buscar_objeto_por_astar. cbv zeta. fold amb. fold rep.
  unfold _localizar_objeto_no_mapa. rewrite primeiro_no_mapa_head, Hobj. cbn [head].
  cbn [busca_astar].
  destruct (representacao_retangular _ _ Hrep) as (Hgr & _).
  destruct (busca_astar_resultado rep (posicao_agente amb) obj Hgr Hlivre_pos Hlivre_obj)
    as [[-> Hnao]|(caminho & -> & Hliga & Hmin)]; cbn [elevar ligar_desfecho].
  { right. split; [done|]. intros caminho Hc. eapply Hnao. by eapply liga_anda. }
  left. pose proof Hliga as (Hval & Hhead & Hlast).
  destruct caminho as [|p0 restantes]; [discriminate|]. injection Hhead as ->.
  destruct (caminho_valido_pilha rep (labirinto amb) _
              (fun p => representacao_livre _ _ p Hrep) Hval) as [Hcon Hcel].
  change (drop 1 (posicao_agente amb :: restantes)) with restantes.
  destruct (percorrer_casos (labirinto amb) (objeto_coletado amb)
              (posicao_agente amb :: restantes) restantes 1%nat amb)
    as (amb' & r & -> & Hlab' & Hcarga' & Ho' & Hfim); try done.
  { intros q Hq. apply Hcel. by right. }
  cbn [elevar ligar_desfecho fst snd].
  assert (Hminimo : forall outro, liga rep (posicao_agente amb) obj outro ->
                      (length (posicao_agente amb :: restantes) <= length outro)%nat).
  { intros outro Houtro. pose proof (liga_nao_vazio _ _ _ _ Houtro).
    specialize (Hmin _ (liga_anda _ _ _ _ Houtro)). lia. }
  destruct Hfim as [[-> Hult]|(k & alvo & Hk & -> & Hpos & Halvo & Hadj & Hhum)].
  - eexists _, _. split; [reflexivity|].
    cbn [caminho_planejado posicao_objeto_do_agente representacao_mapa
         explorador_ambiente com_ambiente ambiente]. cbv zeta.
    repeat split; try done. left. congruence.
  - assert (Halvo_obj : alvo = obj).
    { apply leitura_humano in Hhum. apply celulas_com_celula_eh in Hhum.
      rewrite Hobj in Hhum. by apply list_elem_of_singleton in Hhum. }
    subst alvo.
    assert (Hk_anda : anda rep (posicao_agente amb) (posicao_agente amb') k)
      by (by apply (caminho_valido_prefixo rep _ (posicao_agente amb :: restantes))).
    pose proof (anda_passo _ _ _ _ _ Hk_anda Hadj Hlivre_obj) as Hobj_anda.
    specialize (Hmin _ Hobj_anda). cbn [length] in Hmin.
    assert (Hk_eq : S k = length restantes) by lia.
    replace (take (S (1 + k)) (posicao_agente amb :: restantes))
      with (posicao_agente amb :: restantes)
      by (symmetry; apply take_ge; simpl; lia).
    eexists _, _. split; [reflexivity|].
    cbn [caminho_planejado posicao_objeto_do_agente representacao_mapa
         explorador_ambiente com_ambiente ambiente]. cbv zeta.
    repeat split; try done. right. split; [done|].
    replace (length (posicao_agente amb :: restantes) - 2)%nat with k
      by (cbn [length]; lia).
    exact Hpos.
Qed.

(** X25. The search strategy. For an agent on a valid cell of a rectangular
    map that holds a single object, with a valid orientation and the
    normalized grid of the map: when free cells of the grid lead from the
    agent to the object, [_buscar_objeto_por_astar] returns a shortest
    such path, records it and the position of the object, and walks it
    without raising, stopping either one cell before the object with the
    object ahead, or on the cell of the object itself; the map and the
    carried flag are untouched. When no path exists it returns no path,
    records that, and moves nothing. *)
Theorem busca_por_astar_chega_ao_objeto (ag : AgenteNavegacaoInteligente) (obj : Z * Z) :
  let amb := ambiente (explorador_ambiente ag) in
  retangular (labirinto amb) = true ->
  posicao_valida amb = true -> orientacao_valida amb = true ->
  _construir_representacao_mapa (labirinto amb) = Conclui (representacao_mapa ag) ->
  celulas_com eh_objeto 0 (labirinto amb) = [obj] ->
  (exists ag' caminho,
      _buscar_objeto_por_astar ag = Conclui (ag', Some caminho) /\
      liga (representacao_mapa ag) (posicao_agente amb) obj caminho /\
      (forall outro, liga (representacao_mapa ag) (posicao_agente amb) obj outro ->
                     (length caminho <= length outro)%nat) /\
      caminho_planejado ag' = Some caminho /\
      posicao_objeto_do_agente ag' = Some obj /\
      representacao_mapa ag' = representacao_mapa ag /\
      let amb' := ambiente (explorador_ambiente ag') in
      labirinto amb' = labirinto amb /\
      objeto_coletado amb' = objeto_coletado amb /\
      (posicao_agente amb' = obj \/
       (celula_alvo amb' = Retorna obj /\
        caminho !! (length caminho - 2)%nat = Some (posicao_agente amb')))) \/
  (_buscar_objeto_por_astar ag
   = Conclui ({| explorador_ambiente := explorador_ambiente ag;
                 caminho_planejado := None;
                 representacao_mapa := representacao_mapa ag;
                 posicao_objeto_do_agente := posicao_objeto_do_agente ag |}, None) /\
   forall caminho, ~ liga (representacao_mapa ag) (posicao_agente amb) obj caminho).
Proof. apply busca_por_astar_casos. Qed.

Lemma busca_por_astar_chega_ao_objeto_witness :
  (exists ag' caminho,
      _buscar_objeto_por_astar agente_exemplo = Conclui (ag', Some caminho) /\
      liga (representacao_mapa agente_exemplo) (posicao_agente ambiente_exemplo)
        (2, 1) caminho /\
      (forall outro,
          liga (representacao_mapa agente_exemplo) (posicao_agente ambiente_exemplo)
            (2, 1) outro ->
          (length caminho <= length outro)%nat) /\
      caminho_planejado ag' = Some caminho /\
      posicao_objeto_do_agente ag' = Some (2, 1) /\
      representacao_mapa ag' = representacao_mapa agente_exemplo /\
      let amb' := ambiente (explorador_ambiente ag') in
      labirinto amb' = labirinto ambiente_exemplo /\
      objeto_coletado amb' = objeto_coletado ambiente_exemplo /\
      (posicao_agente amb' = (2, 1) \/
       (celula_alvo amb' = Retorna (2, 1) /\
        caminho !! (length caminho - 2)%nat = Some (posicao_agente amb')))) \/
  (_buscar_objeto_por_astar agente_exemplo
   = Conclui ({| explorador_ambiente := explorador_ambiente agente_exemplo;
                 caminho_planejado := None;
                 representacao_mapa := representacao_mapa agente_exemplo;
                 posicao_objeto_do_agente := posicao_objeto_do_agente agente_exemplo |},
              None) /\
   forall caminho,
     ~ liga (representacao_mapa agente_exemplo) (posicao_agente ambiente_exemplo)
         (2, 1) caminho).
Proof.
  apply (busca_por_astar_chega_ao_objeto agente_exemplo (2, 1)); reflexivity.
Defined.

(* ================================================================== *)
(** * Eject and the border of the map *)

(** C6. [Eject] takes the last column of the map to be that of the first
    line. On the map [["***"; "*@ E"; "****"]], which the constructor
    accepts, the agent advances from the entrance and picks the object up;
    it then stands on the cell (1,2), which is not on the border (the
    entrance lies to its right, lines above and below), and [Eject]
    succeeds there. On the entrance (1,3), the last cell of its line,
    [Eject] is refused while carrying. *)
Theorem ejetar_em_linha_longa :
  novo_ambiente mapa_linha_longa = Retorna ambiente_linha_longa /\
  (faz a1 <- executar_comando_navegacao "A" ambiente_linha_longa em
   executar_comando_navegacao "P" a1) = Retorna carga_ao_lado_da_entrada /\
  posicao_valida carga_ao_lado_da_entrada = true /\
  conteudo_celula (labirinto carga_ao_lado_da_entrada) 1 3 = Retorna "E"%char /\
  ~ na_margem (labirinto carga_ao_lado_da_entrada) (1, 2) /\
  executar_comando_navegacao "E" carga_ao_lado_da_entrada
  = Retorna {| labirinto := ["***"; "*  E"; "****"]; posicao_agente := (1, 2);
               direcao_agente := 3; objeto_coletado := false |} /\
  posicao_valida carga_na_entrada = true /\
  na_margem (labirinto carga_na_entrada) (1, 3) /\
  executar_comando_navegacao "E" carga_na_entrada
  = Levanta (ValueError MsgEjecaoForaSaida).
Proof.
  split; [reflexivity|]. split; [reflexivity|]. split; [reflexivity|].
  split; [reflexivity|]. split.
  { unfold na_margem, carga_ao_lado_da_entrada. cbn [labirinto fst snd].
    intros [H|[(linha & Hlin & H)|[H|H]]]; try discriminate.
    injection Hlin as <-. discriminate. }
  split; [reflexivity|]. split; [reflexivity|]. split; [|reflexivity].
  right; left. exists "*  E". split; reflexivity.
Qed.

Lemma na_borda_na_margem amb :
  retangular (labirinto amb) = true -> posicao_valida amb = true ->
  na_borda amb = true <-> na_margem (labirinto amb) (posicao_agente amb).
Proof.
  intros Hr Hv. apply posicao_valida_celula in Hv as (Hl & Hc & linha & ch & Hlin & Hch & _).
  unfold na_borda, na_margem. destruct (posicao_agente amb) as [l c]. cbn [fst snd] in *.
  destruct (labirinto amb) as [|primeira resto] eqn:Hlab; [done|].
  pose proof (retangular_linha _ primeira resto _ linha Hr eq_refl Hlin) as Hlen.
  rewrite !orb_true_iff, !Z.eqb_eq. split.
  - intros [[[H|H]|H]|H]; [by right; right; left|by right; right; right|by left|].
    right; left. exists linha. split; [done|]. by rewrite Hlen.
  - intros [H|[(linha' & Hlin' & H)|[H|H]]];
      [by left; right|right|by left; left; left|by left; left; right].
    rewrite Hlin in Hlin'. injection Hlin' as <-. by rewrite <- Hlen.
Qed.

(** X26. Eject on a rectangular map. In every state whose position is a
    non-wall cell of a rectangular map, [Eject] raises the not-carrying
    error when nothing is carried; when the object is carried it succeeds
    exactly on the margin of the map (first or last line, first or last
    character of the line), changing the carried flag only, and raises the
    not-at-exit error everywhere else. *)
Theorem ejetar_na_margem_do_mapa_retangular (amb : AmbienteNavegacao) :
  retangular (labirinto amb) = true -> posicao_valida amb = true ->
  (objeto_coletado amb = false ->
   executar_comando_navegacao "E" amb = Levanta (ValueError MsgEjecaoSemObjeto)) /\
  (objeto_coletado amb = true ->
   na_margem (labirinto amb) (posicao_agente amb) ->
   executar_comando_navegacao "E" amb
   = Retorna {| labirinto := labirinto amb; posicao_agente := posicao_agente amb;
                direcao_agente := direcao_agente amb; objeto_coletado := false |}) /\
  (objeto_coletado amb = true ->
   ~ na_margem (labirinto amb) (posicao_agente amb) ->
   executar_comando_navegacao "E" amb = Levanta (ValueError MsgEjecaoForaSaida)).
Proof.
  intros Hr Hv. rewrite (ejetar_pelo_teste_da_borda amb Hv).
  pose proof (na_borda_na_margem amb Hr Hv) as Hiff.
  split; [by intros ->|]. split; intros -> Hm; cbn [negb].
  - by rewrite (proj2 Hiff Hm).
  - destruct (na_borda amb); [|done]. exfalso. apply Hm. by apply Hiff.
Qed.

Lemma ejetar_na_margem_do_mapa_retangular_witness :
  executar_comando_navegacao "E" ambiente_com_carga
  = Levanta (ValueError MsgEjecaoForaSaida).
Proof.
  apply (proj2 (proj2 (ejetar_na_margem_do_mapa_retangular ambiente_com_carga
                         eq_refl eq_refl))); [reflexivity|].
  unfold na_margem, ambiente_com_carga. cbn [labirinto posicao_agente fst snd].
  intros [H|[(linha & Hlin & H)|[H|H]]]; try discriminate.
  injection Hlin as <-. discriminate.
Defined.

(* ================================================================== *)
(** * The preconditions of the search on rectangular grids *)

Lemma celula_da_grade_some mapa p x :
  celula_da_grade mapa p = Some x <->
  0 <= fst p /\ 0 <= snd p /\
  exists linha, mapa !! Z.to_nat (fst p) = Some linha /\ linha !! Z.to_nat (snd p) = Some x.
Proof.
  unfold celula_da_grade.
  destruct (Z.leb_spec 0 (fst p)) as [Hl|Hl]; destruct (Z.leb_spec 0 (snd p)) as [Hc|Hc];
    cbn [andb]; try (split; [discriminate|intros (? & ? & _); lia]).
  destruct (mapa !! Z.to_nat (fst p)) as [linha|].
  - split; [intros H; eauto|]. by intros (_ & _ & linha' & [= <-] & H).
  - split; [discriminate|]. by intros (_ & _ & linha' & [=] & _).
Qed.

Lemma celula_da_grade_celula mapa p x :
  celula_da_grade mapa p = Some x -> celula mapa (fst p) (snd p) = Retorna x.
Proof.
  intros H. apply celula_da_grade_some in H as (Hl & Hc & H).
  by apply celula_retorna.
Qed.

Lemma grade_sem_celulas mapa :
  grade_retangular mapa = true ->
  mapa_vazio mapa = true <-> forall p, celula_da_grade mapa p = None.
Proof.
  intros Hr. split.
  - intros Hv p. destruct (celula_da_grade mapa p) as [x|] eqn:Hx; [|done].
    apply celula_da_grade_some in Hx as (_ & _ & linha & Hlin & Hx).
    apply list_elem_of_lookup_2 in Hlin.
    pose proof (grade_retangular_linha _ _ Hr Hlin) as Hlen.
    apply lookup_lt_Some in Hx.
    destruct mapa as [|[|c l] resto]; [by apply elem_of_nil in Hlin| |discriminate].
    cbn [hd] in Hlen. simpl in Hlen. lia.
  - intros Hsem. destruct mapa as [|[|c l] resto]; [done|done|].
    specialize (Hsem (0, 0)). discriminate.
Qed.

Lemma dentro_celula_da_grade mapa p :
  grade_retangular mapa = true ->
  dentro_do_mapa mapa p = true <-> celula_da_grade mapa p <> None.
Proof.
  intros Hr. rewrite dentro_do_mapa_limites. unfold len. split.
  - intros [[Hl Hll] [Hc Hcc]].
    destruct (lookup_lt_is_Some_2 mapa (Z.to_nat (fst p))) as [linha Hlin]; [lia|].
    pose proof (grade_retangular_linha _ _ Hr (list_elem_of_lookup_2 _ _ _ Hlin)) as Hlen.
    destruct (lookup_lt_is_Some_2 linha (Z.to_nat (snd p))) as [x Hx]; [lia|].
    assert (Hs : celula_da_grade mapa p = Some x)
      by (apply celula_da_grade_some; eauto).
    by rewrite Hs.
  - intros Hn. destruct (celula_da_grade mapa p) as [x|] eqn:Hx; [|done].
    apply celula_da_grade_some in Hx as (Hl & Hc & linha & Hlin & Hx).
    pose proof (grade_retangular_linha _ _ Hr (list_elem_of_lookup_2 _ _ _ Hlin)) as Hlen.
    apply lookup_lt_Some in Hlin, Hx. lia.
Qed.

Lemma grade_de_linha_vazia p : celula_da_grade [[]] p = None.
Proof.
  destruct (celula_da_grade [[]] p) as [x|] eqn:Hx; [|done].
  apply celula_da_grade_some in Hx as (_ & _ & linha & Hlin & Hx).
  destruct (Z.to_nat (fst p)) as [|n]; [|by destruct n].
  injection Hlin as <-. by destruct (Z.to_nat (snd p)).
Qed.

(** C7. On a rectangular grid each of the five precondition failures of
    [algoritmo_busca_astar] raises its own [ValueError], whatever number
    of turns the search loop is allowed, none included: the grid has no
    cell; the start is not a cell of the grid; the goal is not a cell of
    the grid; the start is a wall cell; the goal is a wall cell. Taken in
    this order, the first failure decides. The four errors about a
    position carry that position, the first has none to carry, and the
    five errors are pairwise different. *)
Theorem precondicoes_da_busca_retangular (combustivel : nat)
    (mapa : list (list string)) (inicial objetivo : Z * Z) :
  grade_retangular mapa = true ->
  ((forall p, celula_da_grade mapa p = None) ->
   busca_com_combustivel combustivel mapa inicial objetivo
   = Levanta (ValueError MsgMapaVazio)) /\
  ((exists p, celula_da_grade mapa p <> None) ->
   celula_da_grade mapa inicial = None ->
   busca_com_combustivel combustivel mapa inicial objetivo
   = Levanta (ValueError (MsgInicialInvalida inicial))) /\
  (celula_da_grade mapa inicial <> None ->
   celula_da_grade mapa objetivo = None ->
   busca_com_combustivel combustivel mapa inicial objetivo
   = Levanta (ValueError (MsgObjetivoInvalida objetivo))) /\
  (celula_da_grade mapa inicial = Some "*" ->
   celula_da_grade mapa objetivo <> None ->
   busca_com_combustivel combustivel mapa inicial objetivo
   = Levanta (ValueError (MsgInicialObstaculo inicial))) /\
  (forall c,
   celula_da_grade mapa inicial = Some c -> c <> "*" ->
   celula_da_grade mapa objetivo = Some "*" ->
   busca_com_combustivel combustivel mapa inicial objetivo
   = Levanta (ValueError (MsgObjetivoObstaculo objetivo))) /\
  algoritmo_busca_astar mapa inicial objetivo
  = busca_com_combustivel (numero_celulas mapa) mapa inicial objetivo /\
  NoDup [ValueError MsgMapaVazio;
         ValueError (MsgInicialInvalida inicial);
         ValueError (MsgObjetivoInvalida objetivo);
         ValueError (MsgInicialObstaculo inicial);
         ValueError (MsgObjetivoObstaculo objetivo)].
Proof.
  intros Hr.
  destruct (precondicoes_pelos_testes combustivel mapa inicial objetivo)
    as (H1 & H2 & H3 & H4 & H5 & Hdif).
  assert (Hnao_vazio : forall p, celula_da_grade mapa p <> None -> mapa_vazio mapa = false).
  { intros p Hp. destruct (mapa_vazio mapa) eqn:Hv; [|done].
    destruct Hp. by apply (grade_sem_celulas mapa Hr). }
  assert (Hfora : forall p, celula_da_grade mapa p = None -> dentro_do_mapa mapa p = false).
  { intros p Hp. apply not_true_is_false. intros Hd.
    by apply (dentro_celula_da_grade mapa p Hr) in Hd. }
  assert (Hdentro : forall p, celula_da_grade mapa p <> None -> dentro_do_mapa mapa p = true)
    by (intros p; apply (dentro_celula_da_grade mapa p Hr)).
  assert (Hparede : forall p, celula_da_grade mapa p = Some "*" -> obstaculo mapa p = true).
  { intros p Hp. unfold obstaculo. by rewrite (celula_da_grade_celula _ _ _ Hp). }
  split; [intros Hsem; apply H1; by apply grade_sem_celulas|].
  split; [intros [p Hp] Hi; apply H2; [by apply (Hnao_vazio p)|by apply Hfora]|].
  split.
  { intros Hi Ho. apply H3; [by apply (Hnao_vazio inicial)|by apply Hdentro|by apply Hfora]. }
  split.
  { intros Hi Ho. assert (Hi' : celula_da_grade mapa inicial <> None) by (by rewrite Hi).
    apply H4; [by apply (Hnao_vazio inicial)|by apply Hdentro|by apply Hdentro
              |by apply Hparede]. }
  split; [|split; [reflexivity|exact Hdif]].
  intros c Hi Hc Ho.
  assert (Hi' : celula_da_grade mapa inicial <> None) by (by rewrite Hi).
  assert (Ho' : celula_da_grade mapa objetivo <> None) by (by rewrite Ho).
  apply H5; [by apply (Hnao_vazio inicial)| |by apply Hdentro|by apply Hparede].
  unfold livre. rewrite (Hdentro _ Hi'), (celula_da_grade_celula _ _ _ Hi). cbn [andb].
  apply negb_true_iff. by apply String.eqb_neq.
Qed.

Lemma precondicoes_da_busca_retangular_witness :
  busca_com_combustivel 0 [[]] (0, 0) (0, 0) = Levanta (ValueError MsgMapaVazio) /\
  busca_com_combustivel 0 grade_exemplo (3, 0) (0, 1)
  = Levanta (ValueError (MsgInicialInvalida (3, 0))) /\
  busca_com_combustivel 0 grade_exemplo (0, 1) (0, -1)
  = Levanta (ValueError (MsgObjetivoInvalida (0, -1))) /\
  busca_com_combustivel 0 grade_exemplo (0, 0) (0, 1)
  = Levanta (ValueError (MsgInicialObstaculo (0, 0))) /\
  busca_com_combustivel 0 grade_exemplo (0, 1) (1, 1)
  = Levanta (ValueError (MsgObjetivoObstaculo (1, 1))).
Proof.
  split; [exact (proj1 (precondicoes_da_busca_retangular 0 [[]] (0, 0) (0, 0) eq_refl)
                   grade_de_linha_vazia)|].
  split; [apply (proj1 (proj2 (precondicoes_da_busca_retangular 0 grade_exemplo
                                 (3, 0) (0, 1) eq_refl)));
          [by exists (0, 0)|reflexivity]|].
  split; [apply (proj1 (proj2 (proj2 (precondicoes_da_busca_retangular 0 grade_exemplo
                                        (0, 1) (0, -1) eq_refl))));
          [discriminate|reflexivity]|].
  split; [apply (proj1 (proj2 (proj2 (proj2
                   (precondicoes_da_busca_retangular 0 grade_exemplo
                      (0, 0) (0, 1) eq_refl)))));
          [reflexivity|discriminate]|].
  apply (proj1 (proj2 (proj2 (proj2 (proj2
           (precondicoes_da_busca_retangular 0 grade_exemplo (0, 1) (1, 1) eq_refl)))))
           " "); [reflexivity|discriminate|reflexivity].
Defined.

(** C7 (as stated) fails on a grid whose second line is shorter than the
    first. A start, or a goal, on the missing cell (1,2) is out of the
    grid, but it passes the bounds test, made with the width of the first
    line, and the search raises [IndexError] when it looks the cell up,
    none of the five precondition errors. *)
Lemma precondicoes_em_grade_irregular :
  celula_da_grade [[" "; " "; " "]; [" "]] (1, 2) = None /\
  celula_da_grade [[" "; " "; " "]; [" "]] (0, 0) = Some " " /\
  algoritmo_busca_astar [[" "; " "; " "]; [" "]] (1, 2) (0, 0) = Levanta IndexError /\
  busca_com_combustivel 0 [[" "; " "; " "]; [" "]] (1, 2) (0, 0) = Levanta IndexError /\
  algoritmo_busca_astar [[" "; " "; " "]; [" "]] (0, 0) (1, 2) = Levanta IndexError /\
  busca_com_combustivel 0 [[" "; " "; " "]; [" "]] (0, 0) (1, 2) = Levanta IndexError.
Proof. repeat split; reflexivity. Qed.
